(** * equi-accessibility: the style-mutation and screen-reader engine

    A shallow embedding of [src/Accessibility/screenReaderUtils.ts] and of
    the effect appliers of [src/Accessibility/AccessibilityPanel.tsx],
    over a small model of the browser DOM, followed by the properties of
    the engine that the specification states. *)

From Stdlib Require Import String Ascii List NArith Lia DecimalString.
From stdpp Require Import base option list gmap strings.

Local Open Scope string_scope.
Local Open Scope list_scope.

(** ** JavaScript strings *)

Module Str.

(** A string is a list of one-byte characters: the code units 0 to 255
    of a JavaScript string, so the texts of this development are the
    Latin-1 ones.

    White space as [String.prototype.trim] sees it in that range: TAB,
    LF, VT, FF, CR, SPACE and the no-break space U+00A0. (The other
    characters [trim] strips, U+1680, U+2000 to U+200A, U+2028, U+2029,
    U+202F, U+205F, U+3000 and U+FEFF, lie above the range.) *)
Definition isSpace (c : ascii) : bool :=
  match nat_of_ascii c with
  | 9 | 10 | 11 | 12 | 13 | 32 | 160 => true
  | _ => false
  end.

(** ASCII white space as the DOM's token parser sees it: TAB, LF, FF, CR
    and SPACE, without VT and without the no-break space. *)
Definition isAsciiWhitespace (c : ascii) : bool :=
  match nat_of_ascii c with
  | 9 | 10 | 12 | 13 | 32 => true
  | _ => false
  end.

Fixpoint trimStart (s : string) : string :=
  match s with
  | String c r => if isSpace c then trimStart r else s
  | EmptyString => EmptyString
  end.

(** [trimEnd] keeps a character when it is not a space or when something
    that is kept follows it. *)
Fixpoint trimEnd (s : string) : string :=
  match s with
  | String c r =>
      match trimEnd r with
      | EmptyString => if isSpace c then EmptyString else String c EmptyString
      | r' => String c r'
      end
  | EmptyString => EmptyString
  end.

Definition trim (s : string) : string := trimEnd (trimStart s).

(** [s.includes(sub)] *)
Fixpoint includes (sub s : string) : bool :=
  String.prefix sub s ||
  match s with
  | String _ r => includes sub r
  | EmptyString => false
  end.

(** [s.split(sep)] for a one-character separator: empty pieces are kept. *)
Fixpoint splitGo (sep : ascii) (cur : string) (s : string) : list string :=
  match s with
  | EmptyString => [String.rev cur]
  | String c r =>
      if Ascii.eqb c sep then String.rev cur :: splitGo sep EmptyString r
      else splitGo sep (String c cur) r
  end.

Definition split (sep : ascii) (s : string) : list string :=
  splitGo sep EmptyString s.

(** The tokens of a space-separated attribute such as [class]: the
    DOM's split on ASCII white space (duplicates are still there). *)
Fixpoint tokensGo (cur : string) (s : string) : list string :=
  match s with
  | EmptyString => match cur with EmptyString => [] | _ => [String.rev cur] end
  | String c r =>
      if isAsciiWhitespace c
      then match cur with
           | EmptyString => tokensGo EmptyString r
           | _ => String.rev cur :: tokensGo EmptyString r
           end
      else tokensGo (String c cur) r
  end.

Definition tokens (s : string) : list string := tokensGo EmptyString s.

(** [arr.join(sep)] *)
Definition join (sep : string) (l : list string) : string := String.concat sep l.

(** JavaScript truthiness of a string. *)
Definition truthy (s : string) : bool :=
  match s with EmptyString => false | _ => true end.

(** [a || b] on strings. *)
Definition orElse (a b : string) : string := if truthy a then a else b.

(** [String(n)] for a non-negative integer. *)
Definition ofN (n : N) : string := NilZero.string_of_uint (N.to_uint n).

End Str.

(** ** Object literals *)

Module Js.

(** What [obj[key]] gives on an object literal: an entry of the literal,
    or one of the members every object inherits from [Object.prototype]. *)
Inductive Value :=
  | Text (s : string)
  | Member (name : string).

Definition objectPrototype : list string :=
  [ "constructor"; "hasOwnProperty"; "isPrototypeOf"; "propertyIsEnumerable";
    "toLocaleString"; "toString"; "valueOf";
    "__defineGetter__"; "__defineSetter__"; "__lookupGetter__"; "__lookupSetter__";
    "__proto__" ].

(** [obj[key]], with [None] for [undefined]: the literal's own entries
    come first. *)
Definition lookup (own : string → option string) (key : string) : option Value :=
  match own key with
  | Some v => Some (Text v)
  | None => if bool_decide (key ∈ objectPrototype) then Some (Member key) else None
  end.

(** Truthiness: a function or an object is truthy, [undefined] is not. *)
Definition truthy (v : option Value) : bool :=
  match v with
  | Some (Text s) => Str.truthy s
  | Some (Member _) => true
  | None => false
  end.

(** The text of an inherited member where a string is wanted. All the
    members are built-in functions but [__proto__], which gives the
    prototype object; [constructor] is the function [Object]. The text of
    a built-in function is the engine's own: this is V8's, on one line
    (other engines set the same words with line breaks). *)
Definition memberText (name : string) : string :=
  if String.eqb name "__proto__" then "[object Object]"
  else "function " +:+ (if String.eqb name "constructor" then "Object" else name)
       +:+ "() { [native code] }".

(** [String(v)] *)
Definition text (v : Value) : string :=
  match v with
  | Text s => s
  | Member name => memberText name
  end.

Definition textOf (v : option Value) : string :=
  match v with
  | Some w => text w
  | None => "undefined"
  end.

End Js.


(** ** The document

    The document is the tree of its node identities together with a heap
    that gives every node, attached or detached, its data. Node identities
    play the part of JavaScript object references: the engine's tables
    ([Map<Element, ...>], arrays of created elements, closures over an
    element) hold them. *)

Module Dom.

Abbreviation NodeId := nat.

Inductive Tree := T (n : NodeId) (kids : list Tree).

Definition rootId (t : Tree) : NodeId := match t with T n _ => n end.
Definition kids (t : Tree) : list Tree := match t with T _ ks => ks end.

(** What one node carries. [nodeName] is the lower-case local name of an
    element and ["#text"] for a text node; [data] is the text of a text
    node; [style] holds the inline style declarations ([el.style.x]).
    [attributes] holds the content attributes other than [style]: the
    browser shows the inline declarations as the text of the [style]
    attribute too (so an element whose [el.style] was written and emptied
    again ends with an empty [style] attribute), and that text is not
    kept here. The sources never read or select on the [style]
    attribute; what is stated about attributes below is stated about the
    names other than ["style"].
    The six measures are what layout reports for the node:
    [getBoundingClientRect()], [img.width]/[img.height] and
    [offsetWidth]/[offsetHeight], in whole CSS pixels. *)
Record NodeData := mkNode {
  nodeName : string;
  attributes : gmap string string;
  style : gmap string string;
  data : string;
  rectWidth : N;
  rectHeight : N;
  width : N;
  height : N;
  offsetWidth : N;
  offsetHeight : N;
}.

Definition withAttributes (f : gmap string string → gmap string string)
    (x : NodeData) : NodeData :=
  mkNode (nodeName x) (f (attributes x)) (style x) (data x)
         (rectWidth x) (rectHeight x) (width x) (height x)
         (offsetWidth x) (offsetHeight x).

Definition withStyle (f : gmap string string → gmap string string)
    (x : NodeData) : NodeData :=
  mkNode (nodeName x) (attributes x) (f (style x)) (data x)
         (rectWidth x) (rectHeight x) (width x) (height x)
         (offsetWidth x) (offsetHeight x).

(** A node fresh from [document.createElement(tag)]: nothing laid out. *)
Definition newElement (tag : string) : NodeData :=
  mkNode tag ∅ ∅ "" 0 0 0 0 0 0.

Definition newText (s : string) : NodeData :=
  mkNode "#text" ∅ ∅ s 0 0 0 0 0 0.

(** [tree] is the subtree of [document.documentElement]; [head] and [body]
    are the nodes [document.head] and [document.body]; [nextId] is the
    next identity [createElement] hands out. *)
Record Document := mkDocument {
  tree : Tree;
  heap : gmap nat NodeData;
  head : NodeId;
  body : NodeId;
  nextId : NodeId;
}.

Definition documentElement (d : Document) : NodeId := rootId (tree d).

Definition setTree (t : Tree) (d : Document) : Document :=
  mkDocument t (heap d) (head d) (body d) (nextId d).

Definition setHeap (h : gmap nat NodeData) (d : Document) : Document :=
  mkDocument (tree d) h (head d) (body d) (nextId d).

(** *** Traversal *)

(** The nodes of a tree in document order. *)
Fixpoint preorder (t : Tree) : list NodeId :=
  match t with T n ks => n :: flat_map preorder ks end.

(** The nodes of a list of trees. *)
Definition nodes (ks : list Tree) : list NodeId := flat_map preorder ks.

(** The same, each node with its ancestors, nearest first. *)
Fixpoint walk (anc : list NodeId) (t : Tree) : list (NodeId * list NodeId) :=
  match t with T n ks => (n, anc) :: flat_map (walk (n :: anc)) ks end.

(** The subtree rooted at the first node [x] in document order. *)
Fixpoint subtree (x : NodeId) (t : Tree) : option Tree :=
  match t with
  | T n ks =>
      if decide (n = x) then Some t
      else (fix first (l : list Tree) : option Tree :=
              match l with
              | [] => None
              | k :: r => match subtree x k with
                          | Some s => Some s
                          | None => first r
                          end
              end) ks
  end.

(** [x.parentNode], for an attached node below the document element. *)
Fixpoint parentOf (x : NodeId) (t : Tree) : option NodeId :=
  match t with
  | T n ks =>
      if bool_decide (x ∈ map rootId ks) then Some n
      else (fix first (l : list Tree) : option NodeId :=
              match l with
              | [] => None
              | k :: r => match parentOf x k with
                          | Some p => Some p
                          | None => first r
                          end
              end) ks
  end.

(** Rewrite the child list of node [p]. Every mutation of the tree's
    shape goes through this. *)
Fixpoint updateKids (p : NodeId) (f : list Tree → list Tree) (t : Tree) : Tree :=
  match t with
  | T n ks =>
      let ks' := map (updateKids p f) ks in
      T n (if decide (n = p) then f ks' else ks')
  end.

(** The element after [x] in a child list. *)
Fixpoint nextIn (x : NodeId) (l : list Tree) : option NodeId :=
  match l with
  | [] => None
  | k :: r => if decide (rootId k = x) then rootId <$> List.hd_error r
              else nextIn x r
  end.

(** Put [new] in front of the child [ref]. *)
Fixpoint insertBeforeIn (new : Tree) (ref : NodeId) (l : list Tree) : list Tree :=
  match l with
  | [] => []
  | k :: r => if decide (rootId k = ref) then new :: k :: r
              else k :: insertBeforeIn new ref r
  end.

Definition removeIn (x : NodeId) (l : list Tree) : list Tree :=
  filter (λ k, rootId k ≠ x) l.

(** *** Node data *)

Definition nodeData (d : Document) (n : NodeId) : option NodeData := heap d !! n.

Definition tagOf (d : Document) (n : NodeId) : string :=
  default "" (nodeName <$> nodeData d n).

Definition isElement (d : Document) (n : NodeId) : bool :=
  match nodeData d n with
  | Some x => negb (String.eqb (nodeName x) "#text")
  | None => false
  end.

Definition getAttribute (d : Document) (n : NodeId) (a : string) : option string :=
  nodeData d n ≫= λ x, attributes x !! a.

Definition hasAttribute (d : Document) (n : NodeId) (a : string) : bool :=
  bool_decide (is_Some (getAttribute d n a)).

(** [el.getAttribute(a) || ''], which is also what the reflecting
    properties [el.id], [img.alt], [el.className] read. *)
Definition attr (d : Document) (n : NodeId) (a : string) : string :=
  default "" (getAttribute d n a).

Definition setAttribute (n : NodeId) (a v : string) (d : Document) : Document :=
  setHeap (alter (withAttributes (insert a v)) n (heap d)) d.

Definition removeAttribute (n : NodeId) (a : string) (d : Document) : Document :=
  setHeap (alter (withAttributes (delete a)) n (heap d)) d.

(** [el.style.p], the empty string when [p] is not declared inline. *)
Definition getStyle (d : Document) (n : NodeId) (p : string) : string :=
  default "" (nodeData d n ≫= λ x, style x !! p).

(** [el.style.p = v]; assigning the empty string removes the declaration.
    The value is stored as given: that the browser drops an assignment
    whose value is not valid for the property is not modelled. *)
Definition setStyle (n : NodeId) (p v : string) (d : Document) : Document :=
  setHeap (alter (withStyle (if Str.truthy v then insert p v else delete p)) n (heap d)) d.

(** [el.style.cssText = ...], given as the declarations of the text. *)
Definition setCssText (n : NodeId) (decls : list (string * string)) (d : Document) : Document :=
  setHeap (alter (withStyle (λ _, list_to_map decls)) n (heap d)) d.

(** [el.classList], read from the [class] attribute. *)
Definition classList (d : Document) (n : NodeId) : list string :=
  Str.tokens (attr d n "class").

Definition classListContains (d : Document) (n : NodeId) (c : string) : bool :=
  bool_decide (c ∈ classList d n).

(** [el.classList.add(c)] and [el.classList.remove(c)]: the token set is
    changed and written back, joined by single spaces; nothing is written
    when there is no [class] attribute and the set comes out empty. *)
Definition writeClassList (n : NodeId) (toks : list string) (d : Document) : Document :=
  match getAttribute d n "class", toks with
  | None, [] => d
  | _, _ => setAttribute n "class" (Str.join " " toks) d
  end.

(** The token set of a [DOMTokenList]: every token once, at the place of
    its first occurrence. *)
Fixpoint orderedSetGo (seen : list string) (l : list string) : list string :=
  match l with
  | [] => []
  | t :: r =>
      if bool_decide (t ∈ seen) then orderedSetGo seen r
      else t :: orderedSetGo (t :: seen) r
  end.

Definition orderedSet (l : list string) : list string := orderedSetGo [] l.

Definition classListAdd (n : NodeId) (c : string) (d : Document) : Document :=
  let toks := orderedSet (classList d n) in
  writeClassList n (if bool_decide (c ∈ toks) then toks else toks ++ [c]) d.

Definition classListRemove (n : NodeId) (c : string) (d : Document) : Document :=
  let toks := orderedSet (classList d n) in
  writeClassList n (filter (λ t, t ≠ c) toks) d.

(** *** Creating and placing nodes *)

Definition createElement (tag : string) (d : Document) : NodeId * Document :=
  (nextId d,
   mkDocument (tree d) (<[nextId d := newElement tag]> (heap d))
              (head d) (body d) (S (nextId d))).

Definition createTextNode (s : string) (d : Document) : NodeId * Document :=
  (nextId d,
   mkDocument (tree d) (<[nextId d := newText s]> (heap d))
              (head d) (body d) (S (nextId d))).

(** [p.appendChild(new)], [p.insertBefore(new, ref)] with [ref] null or a
    child of [p], [p.removeChild(x)], and emptying [p]. *)
Definition appendChild (p : NodeId) (new : Tree) (d : Document) : Document :=
  setTree (updateKids p (λ ks, ks ++ [new]) (tree d)) d.

Definition insertBefore (p : NodeId) (new : Tree) (ref : option NodeId)
    (d : Document) : Document :=
  match ref with
  | None => appendChild p new d
  | Some r => setTree (updateKids p (insertBeforeIn new r) (tree d)) d
  end.

Definition removeChild (p x : NodeId) (d : Document) : Document :=
  setTree (updateKids p (removeIn x) (tree d)) d.

Definition removeAllChildren (p : NodeId) (d : Document) : Document :=
  setTree (updateKids p (λ _, []) (tree d)) d.

Definition parentNode (d : Document) (x : NodeId) : option NodeId :=
  parentOf x (tree d).

Definition childNodes (d : Document) (p : NodeId) : list NodeId :=
  match subtree p (tree d) with
  | Some t => map rootId (kids t)
  | None => []
  end.

Definition firstChild (d : Document) (p : NodeId) : option NodeId :=
  List.hd_error (childNodes d p).

Definition nextSibling (d : Document) (x : NodeId) : option NodeId :=
  match parentNode d x with
  | Some p => match subtree p (tree d) with
              | Some t => nextIn x (kids t)
              | None => None
              end
  | None => None
  end.

(** [x.remove()]: nothing happens to a node without a parent. *)
Definition remove (x : NodeId) (d : Document) : Document :=
  match parentNode d x with
  | Some p => removeChild p x d
  | None => d
  end.

(** *** Text *)

(** The text of a subtree: the data of its text nodes in document order. *)
Fixpoint textOf (h : gmap nat NodeData) (t : Tree) : string :=
  match t with
  | T n ks =>
      match h !! n with
      | Some x => if String.eqb (nodeName x) "#text" then data x
                  else String.concat "" (map (textOf h) ks)
      | None => String.concat "" (map (textOf h) ks)
      end
  end.

Definition textContent (d : Document) (n : NodeId) : string :=
  match subtree n (tree d) with
  | Some t => textOf (heap d) t
  | None => ""
  end.

(** [el.textContent = s] on an attached element: its children give way to
    one text node, or to nothing when [s] is empty. *)
Definition setTextContent (n : NodeId) (s : string) (d : Document) : Document :=
  if Str.truthy s
  then let '(t, d) := createTextNode s d in
       appendChild n (T t []) (removeAllChildren n d)
  else removeAllChildren n d.

(** *** Selectors *)

(** The selectors the engine uses: type, id, class and attribute
    selectors, [:not(...)] around one of them, compounds, the descendant
    combinator, and comma lists. *)
Inductive Simple :=
  | STag (t : string)
  | SId (i : string)
  | SClass (c : string)
  | SHas (a : string)
  | SEq (a v : string)
  | SSub (a v : string)
  | SNot (s : Simple).

Definition Compound := list Simple.

(** [under] are the compounds that ancestors must match, nearest first. *)
Record Complex := mkComplex { under : list Compound; target : Compound }.

Definition Selector := list Complex.

Fixpoint matchesSimple (d : Document) (n : NodeId) (s : Simple) : bool :=
  match s with
  | STag t => String.eqb (tagOf d n) t
  | SId i => bool_decide (getAttribute d n "id" = Some i)
  | SClass c => classListContains d n c
  | SHas a => hasAttribute d n a
  | SEq a v => bool_decide (getAttribute d n a = Some v)
  | SSub a v =>
      match getAttribute d n a with
      | Some w => Str.truthy v && Str.includes v w
      | None => false
      end
  | SNot s' => negb (matchesSimple d n s')
  end.

Definition matchesCompound (d : Document) (n : NodeId) (c : Compound) : bool :=
  isElement d n && forallb (matchesSimple d n) c.

Fixpoint matchesUnder (d : Document) (reqs : list Compound) (anc : list NodeId) : bool :=
  match reqs with
  | [] => true
  | r :: rs =>
      (fix find (l : list NodeId) : bool :=
         match l with
         | [] => false
         | a :: l' => (matchesCompound d a r && matchesUnder d rs l') || find l'
         end) anc
  end.

Definition matchesComplex (d : Document) (n : NodeId) (anc : list NodeId)
    (c : Complex) : bool :=
  matchesCompound d n (target c) && matchesUnder d (under c) anc.

Definition matchesSel (d : Document) (sel : Selector) (na : NodeId * list NodeId) : bool :=
  existsb (matchesComplex d na.1 na.2) sel.

(** [document.querySelectorAll(sel)], in document order. *)
Definition querySelectorAll (d : Document) (sel : Selector) : list NodeId :=
  map fst (filter (λ na, matchesSel d sel na = true) (walk [] (tree d))).

Definition querySelector (d : Document) (sel : Selector) : option NodeId :=
  List.hd_error (querySelectorAll d sel).

(** [scope.querySelectorAll(sel)]: the descendants of [scope] only. *)
Definition querySelectorAllIn (d : Document) (scope : NodeId) (sel : Selector)
    : list NodeId :=
  map fst (filter (λ na, matchesSel d sel na = true ∧ scope ∈ na.2)
                  (walk [] (tree d))).

Definition querySelectorIn (d : Document) (scope : NodeId) (sel : Selector)
    : option NodeId :=
  List.hd_error (querySelectorAllIn d scope sel).

(** [document.getElementById(i)]: the first element in document order
    whose [id] is [i]; the empty id names nothing. *)
Definition hasId (d : Document) (i : string) (n : NodeId) : bool :=
  isElement d n && bool_decide (getAttribute d n "id" = Some i).

Definition getElementById (d : Document) (i : string) : option NodeId :=
  if Str.truthy i
  then List.find (hasId d i) (preorder (tree d))
  else None.

(** Selector shorthands. *)
Definition sel1 (c : Compound) : Complex := mkComplex [] c.

End Dom.

(** ** The browser around the document *)

Module Browser.
Import Dom.

Inductive Priority := polite | assertive.

(** The callbacks the engine hands to [requestAnimationFrame] and
    [setTimeout], each with the variables its closure captures. *)
Inductive Task :=
  | ForceLayout
      (** [initializeAnnouncer]: reads [container.offsetHeight] *)
  | AnnounceOuterFrame (announcer : NodeId) (message : string)
      (** [announceToScreenReader]: the first animation frame *)
  | AnnounceInnerFrame (announcer : NodeId) (message : string)
      (** [announceToScreenReader]: the second animation frame *)
  | ClearAnnouncer (announcer : NodeId)
      (** [announceToScreenReader]: the 5000 ms timer *)
  | FadeToast (toast : NodeId).
      (** [showDebugToast]: the 3000 ms timer *)

Record Voice := mkVoice { lang : string; localService : bool }.

(** A [SpeechSynthesisUtterance]; rate, pitch and volume are always 1. *)
Record Utterance := mkUtterance { text : string; voice : option Voice }.

(** [window.speechSynthesis]: the utterances spoken or waiting, oldest
    first, and the installed voices. *)
Record SpeechSynthesis := mkSpeech {
  utterances : list Utterance;
  voices : list Voice;
}.

(** What exists only in a browser: the document, the frame and timer
    queues with the clock in milliseconds, speech synthesis when the
    browser has it, the listeners on [document], the strings that
    [Math.random().toString(36).substr(2, 9)] will return, and the
    first arguments of the [console.warn] and [console.error] calls. *)
Record Page := mkPage {
  document : Document;
  frames : list Task;
  timers : list (N * Task);
  now : N;
  speechSynthesis : option SpeechSynthesis;
  focusinListener : bool;
  keydownListener : bool;
  randoms : nat → string;
  drawn : nat;
  warnings : list string;
  errors : list string;
}.

Definition setDocument (d : Document) (p : Page) : Page :=
  mkPage d (frames p) (timers p) (now p) (speechSynthesis p)
         (focusinListener p) (keydownListener p) (randoms p) (drawn p) (warnings p) (errors p).

Definition setFrames (q : list Task) (p : Page) : Page :=
  mkPage (document p) q (timers p) (now p) (speechSynthesis p)
         (focusinListener p) (keydownListener p) (randoms p) (drawn p) (warnings p) (errors p).

Definition setTimers (q : list (N * Task)) (p : Page) : Page :=
  mkPage (document p) (frames p) q (now p) (speechSynthesis p)
         (focusinListener p) (keydownListener p) (randoms p) (drawn p) (warnings p) (errors p).


Definition setSpeech (sp : option SpeechSynthesis) (p : Page) : Page :=
  mkPage (document p) (frames p) (timers p) (now p) sp
         (focusinListener p) (keydownListener p) (randoms p) (drawn p) (warnings p) (errors p).

Definition setListeners (f k : bool) (p : Page) : Page :=
  mkPage (document p) (frames p) (timers p) (now p) (speechSynthesis p)
         f k (randoms p) (drawn p) (warnings p) (errors p).

Definition setDrawn (n : nat) (p : Page) : Page :=
  mkPage (document p) (frames p) (timers p) (now p) (speechSynthesis p)
         (focusinListener p) (keydownListener p) (randoms p) n (warnings p) (errors p).

Definition consoleWarn (m : string) (p : Page) : Page :=
  mkPage (document p) (frames p) (timers p) (now p) (speechSynthesis p)
         (focusinListener p) (keydownListener p) (randoms p) (drawn p)
         (warnings p ++ [m]) (errors p).

Definition consoleError (m : string) (p : Page) : Page :=
  mkPage (document p) (frames p) (timers p) (now p) (speechSynthesis p)
         (focusinListener p) (keydownListener p) (randoms p) (drawn p)
         (warnings p) (errors p ++ [m]).

Definition requestAnimationFrame (t : Task) (p : Page) : Page :=
  setFrames (frames p ++ [t]) p.

Definition setTimeout (t : Task) (ms : N) (p : Page) : Page :=
  setTimers (timers p ++ [((now p + ms)%N, t)]) p.

(** What a JavaScript call can do: return, or throw. *)
Inductive JsError :=
  | ReferenceError (name : string)
  | TypeError (what : string).

Inductive Outcome (A : Type) :=
  | Returned (a : A)
  | Threw (e : JsError).
Arguments Returned {A} a.
Arguments Threw {A} e.

End Browser.

(** ** [screenReaderUtils.ts] *)

Module ScreenReaderUtils.
Import Dom Browser.

Record ScreenReaderConfig := mkConfig {
  enhancedAria : bool;
  skipLinks : bool;
  enhancedFocus : bool;
  landmarkRoles : bool;
  liveRegions : bool;
  announcementDelay : N;
  readOnFocus : bool;
  keyboardShortcuts : bool;
}.

Definition defaultScreenReaderConfig : ScreenReaderConfig :=
  mkConfig true true true true true 100 true true.

(** The module-level variables. [focusHandler] and [keyboardHandler] say
    whether the handler reference is non-null. *)
Record Vars := mkVars {
  originalAttributes : gmap nat (gmap string (option string));
  createdElements : list NodeId;
  liveRegionElement : option NodeId;
  debugMode : bool;
  useSpeechSynthesis : bool;
  focusReadingEnabled : bool;
  focusHandler : bool;
  keyboardHandler : bool;
}.

Definition initialVars : Vars := mkVars ∅ [] None false false false false false.

(** The module running in a browser. *)
Record St := mkSt { page : Page; vars : Vars }.

Definition doc (s : St) : Document := document (page s).

Definition onPage (f : Page → Page) (s : St) : St := mkSt (f (page s)) (vars s).

Definition onDocument (f : Document → Document) (s : St) : St :=
  onPage (λ p, setDocument (f (document p)) p) s.

Definition setOriginalAttributes (o : gmap nat (gmap string (option string)))
    (s : St) : St :=
  mkSt (page s)
       (mkVars o (createdElements (vars s)) (liveRegionElement (vars s))
               (debugMode (vars s)) (useSpeechSynthesis (vars s))
               (focusReadingEnabled (vars s)) (focusHandler (vars s))
               (keyboardHandler (vars s))).

Definition setCreatedElements (c : list NodeId) (s : St) : St :=
  mkSt (page s)
       (mkVars (originalAttributes (vars s)) c (liveRegionElement (vars s))
               (debugMode (vars s)) (useSpeechSynthesis (vars s))
               (focusReadingEnabled (vars s)) (focusHandler (vars s))
               (keyboardHandler (vars s))).

Definition setLiveRegionElement (r : option NodeId) (s : St) : St :=
  mkSt (page s)
       (mkVars (originalAttributes (vars s)) (createdElements (vars s)) r
               (debugMode (vars s)) (useSpeechSynthesis (vars s))
               (focusReadingEnabled (vars s)) (focusHandler (vars s))
               (keyboardHandler (vars s))).

Definition setFocusReading (enabled handlers : bool) (s : St) : St :=
  mkSt (page s)
       (mkVars (originalAttributes (vars s)) (createdElements (vars s))
               (liveRegionElement (vars s))
               (debugMode (vars s)) (useSpeechSynthesis (vars s))
               enabled handlers handlers).

Definition pushCreated (n : NodeId) (s : St) : St :=
  setCreatedElements (createdElements (vars s) ++ [n]) s.

(** [nodeList.forEach(body)], with and without the index. *)
Definition forEach {A} (l : list A) (body : A → St → St) (s : St) : St :=
  foldl (λ s x, body x s) s l.

Definition forEachIndexed {A} (l : list A) (body : A → nat → St → St) (s : St) : St :=
  foldl (λ s ix, body ix.2 ix.1 s) s (zip (seq 0 (length l)) l).

(** [document.createElement] and [document.createTextNode] on the state. *)
Definition create (tag : string) (s : St) : NodeId * St :=
  let '(n, d) := createElement tag (doc s) in (n, onDocument (λ _, d) s).

Definition createText (txt : string) (s : St) : NodeId * St :=
  let '(n, d) := createTextNode txt (doc s) in (n, onDocument (λ _, d) s).

(** [Math.random().toString(36).substr(2, 9)] *)
Definition random (s : St) : string * St :=
  (randoms (page s) (drawn (page s)),
   onPage (λ p, setDrawn (S (drawn p)) p) s).

(** *** The snapshot of original attributes *)

Definition storeOriginalAttribute (element : NodeId) (attrName : string) (s : St) : St :=
  let o := originalAttributes (vars s) in
  let o1 := match o !! element with
            | None => <[element := ∅]> o
            | Some _ => o
            end in
  let attrs := default ∅ (o1 !! element) in
  match attrs !! attrName with
  | None =>
      setOriginalAttributes
        (<[element := <[attrName := getAttribute (doc s) element attrName]> attrs]> o1) s
  | Some _ => setOriginalAttributes o1 s
  end.

Definition setAttr (element : NodeId) (a v : string) (s : St) : St :=
  onDocument (setAttribute element a v) s.

(** *** [applyEnhancedAria] *)

Definition notLabelled (tag : string) : Selector :=
  [sel1 [STag tag; SNot (SHas "aria-label"); SNot (SHas "aria-labelledby")]].

(** The source writes the selector as the text [label[for="${id}"]]. For
    an id without a double quote, a backslash, a line break (LF, CR, FF)
    and NUL that text is the selector [labelFor id]: the id is the value
    of the quoted string as it stands. For any other id the text is
    another selector or none at all, and [querySelector] then throws a
    [SyntaxError]; which of the two depends on the rest of the id. Such
    ids are outside the model: [enhanceInput] below, and with it
    [applyEnhancedAria] and [enable], give what the code does on a page
    whose inputs have plain ids ([plainInputs]). *)
Definition plainChar (c : ascii) : bool :=
  match nat_of_ascii c with
  | 0 | 10 | 12 | 13 | 34 | 92 => false
  | _ => true
  end.

Fixpoint plainId (id : string) : bool :=
  match id with
  | EmptyString => true
  | String c r => plainChar c && plainId r
  end.

Definition labelFor (id : string) : Selector :=
  [sel1 [STag "label"; SEq "for" id]].

(** Every [input] of the page has a plain id. *)
Definition plainInputs (d : Document) : bool :=
  forallb (λ n, plainId (attr d n "id")) (querySelectorAll d [sel1 [STag "input"]]).

Definition enhanceImage (img : NodeId) (s : St) : St :=
  let s := storeOriginalAttribute img "alt" s in
  let s := storeOriginalAttribute img "role" s in
  let s := setAttr img "alt" "Image" s in
  setAttr img "role" "img" s.

Definition enhanceLink (link : NodeId) (s : St) : St :=
  let text := Str.trim (textContent (doc s) link) in
  if negb (Str.truthy text) || bool_decide (String.length text < 2)
  then
    let s := storeOriginalAttribute link "aria-label" s in
    let href := attr (doc s) link "href" in
    setAttr link "aria-label" ("Link to " +:+ Str.orElse href "page") s
  else s.

Definition enhanceButton (button : NodeId) (s : St) : St :=
  let text := Str.trim (textContent (doc s) button) in
  if negb (Str.truthy text)
  then
    let s := storeOriginalAttribute button "aria-label" s in
    setAttr button "aria-label" "Button" s
  else s.

Definition enhanceCurrent (link : NodeId) (s : St) : St :=
  let s := storeOriginalAttribute link "aria-current" s in
  setAttr link "aria-current" "page" s.

(** The label test runs [querySelector] on the selector text built from
    the id; it is taken as [labelFor id], which it is for a plain id. *)
Definition enhanceInput (input : NodeId) (s : St) : St :=
  let id := attr (doc s) input "id" in
  let placeholder := attr (doc s) input "placeholder" in
  let type := Str.orElse (attr (doc s) input "type") "text" in
  let hasLabel := Str.truthy id && bool_decide (is_Some (querySelector (doc s) (labelFor id))) in
  if negb hasLabel
  then
    let s := storeOriginalAttribute input "aria-label" s in
    setAttr input "aria-label" (Str.orElse placeholder (type +:+ " input")) s
  else s.

Definition enhanceFieldset (fieldset : NodeId) (s : St) : St :=
  match querySelectorIn (doc s) fieldset [sel1 [STag "legend"]] with
  | Some legend =>
      if negb (Str.truthy (attr (doc s) legend "id"))
      then
        let '(r, s) := random s in
        let legendId := "legend-" +:+ r in
        let s := setAttr legend "id" legendId s in
        let s := storeOriginalAttribute fieldset "aria-labelledby" s in
        setAttr fieldset "aria-labelledby" legendId s
      else s
  | None => s
  end.

Definition enhanceHeaderCell (th : NodeId) (s : St) : St :=
  let s := storeOriginalAttribute th "scope" s in
  let isRowHeader :=
    match parentNode (doc s) th ≫= parentNode (doc s) with
    | Some g => String.eqb (tagOf (doc s) g) "tbody"
    | None => false
    end in
  setAttr th "scope" (if isRowHeader then "row" else "col") s.

Definition enhanceTable (table : NodeId) (s : St) : St :=
  let s := storeOriginalAttribute table "role" s in
  let s := setAttr table "role" "table" s in
  forEach (querySelectorAllIn (doc s) table [sel1 [STag "th"; SNot (SHas "scope")]])
          enhanceHeaderCell s.

Definition enhanceCollapsible (element : NodeId) (s : St) : St :=
  if negb (hasAttribute (doc s) element "aria-expanded")
  then
    let s := storeOriginalAttribute element "aria-expanded" s in
    let isExpanded :=
      classListContains (doc s) element "expanded"
      || bool_decide (getAttribute (doc s) element "data-expanded" = Some "true") in
    setAttr element "aria-expanded" (if isExpanded then "true" else "false") s
  else s.

Definition applyEnhancedAria (s : St) : St :=
  let s := forEach (querySelectorAll (doc s) [sel1 [STag "img"; SNot (SHas "alt")]])
                   enhanceImage s in
  let s := forEach (querySelectorAll (doc s) (notLabelled "a")) enhanceLink s in
  let s := forEach (querySelectorAll (doc s) (notLabelled "button")) enhanceButton s in
  let s := forEach (querySelectorAll (doc s)
                      [mkComplex [[STag "nav"]] [STag "a"; SSub "class" "active"];
                       mkComplex [[STag "nav"]] [STag "a"; SSub "class" "current"]])
                   enhanceCurrent s in
  let s := forEach (querySelectorAll (doc s) (notLabelled "input")) enhanceInput s in
  let s := forEach (querySelectorAll (doc s)
                      [sel1 [STag "fieldset"; SNot (SHas "aria-describedby")]])
                   enhanceFieldset s in
  let s := forEach (querySelectorAll (doc s) [sel1 [STag "table"; SNot (SHas "role")]])
                   enhanceTable s in
  forEach (querySelectorAll (doc s)
             [sel1 [SHas "data-collapsed"]; sel1 [SHas "data-expanded"];
              sel1 [SClass "collapsible"]; sel1 [SClass "accordion-header"]])
          enhanceCollapsible s.

(** *** [createSkipLinks] *)

Record SkipTarget := mkSkipTarget {
  targetId : string;
  targetLabel : string;
  targetSelector : Selector;
}.

Definition skipTargets : list SkipTarget :=
  [ mkSkipTarget "main-content" "Skip to main content"
      [sel1 [STag "main"]; sel1 [SEq "role" "main"]; sel1 [SId "main"];
       sel1 [SId "content"]; sel1 [SClass "main-content"]];
    mkSkipTarget "main-navigation" "Skip to navigation"
      [sel1 [STag "nav"]; sel1 [SEq "role" "navigation"]; sel1 [SId "nav"];
       sel1 [SId "navigation"]; sel1 [SClass "navigation"]];
    mkSkipTarget "search" "Skip to search"
      [sel1 [SEq "role" "search"]; sel1 [SId "search"]; sel1 [SClass "search-form"];
       sel1 [STag "input"; SEq "type" "search"]];
    mkSkipTarget "footer" "Skip to footer"
      [sel1 [STag "footer"]; sel1 [SEq "role" "contentinfo"]; sel1 [SId "footer"];
       sel1 [SClass "footer"]] ].

(** The text of the two managed style sheets, abridged to the first rule. *)
Definition skipLinkStyleSheet : string :=
  ".sr-skip-links { position: absolute; top: 0; left: 0; z-index: 9999; }".

Definition focusStyleSheet : string :=
  "body.screen-reader-mode *:focus { outline: 3px solid #1a56db !important; }".

(** A style element with the given id and text, appended to the head and
    entered in [createdElements]. *)
Definition addManagedStyle (id css : string) (s : St) : St :=
  let '(style, s) := create "style" s in
  let s := setAttr style "id" id s in
  let '(txt, s) := createText css s in
  let s := onDocument (λ d, appendChild (head d) (T style [T txt []]) d) s in
  pushCreated style s.

Definition addSkipLinkStyles (s : St) : St :=
  match getElementById (doc s) "skip-link-styles" with
  | Some _ => s
  | None => addManagedStyle "skip-link-styles" skipLinkStyleSheet s
  end.

(** One round of [skipTargets.forEach]: [links] are the children the
    still detached container has so far. The click listener of the link
    holds no state and is not kept. *)
Definition addSkipLink (acc : list Tree * St) (t : SkipTarget) : list Tree * St :=
  let '(links, s) := acc in
  match querySelector (doc s) (targetSelector t) with
  | Some target =>
      let s := if negb (Str.truthy (attr (doc s) target "id"))
               then setAttr target "id" (targetId t) s else s in
      let s := if negb (hasAttribute (doc s) target "tabindex")
               then setAttr target "tabindex" "-1"
                      (storeOriginalAttribute target "tabindex" s)
               else s in
      let '(skipLink, s) := create "a" s in
      let s := setAttr skipLink "href" ("#" +:+ attr (doc s) target "id") s in
      let s := setAttr skipLink "class" "sr-skip-link" s in
      let '(txt, s) := createText (targetLabel t) s in
      (links ++ [T skipLink [T txt []]], s)
  | None => acc
  end.

Definition createSkipLinks (s : St) : St :=
  match getElementById (doc s) "skip-links-container" with
  | Some _ => s
  | None =>
      let '(skipLinksContainer, s) := create "div" s in
      let s := setAttr skipLinksContainer "id" "skip-links-container" s in
      let s := setAttr skipLinksContainer "class" "sr-skip-links" s in
      let s := setAttr skipLinksContainer "role" "navigation" s in
      let s := setAttr skipLinksContainer "aria-label" "Skip links" s in
      let '(links, s) := foldl addSkipLink ([], s) skipTargets in
      match links with
      | [] => s
      | _ =>
          let s := onDocument
                     (λ d, insertBefore (body d) (T skipLinksContainer links)
                                        (firstChild d (body d)) d) s in
          let s := pushCreated skipLinksContainer s in
          addSkipLinkStyles s
      end
  end.

(** *** [applyEnhancedFocus] *)

Definition applyEnhancedFocus (s : St) : St :=
  match getElementById (doc s) "screen-reader-focus-styles" with
  | Some _ => s
  | None => addManagedStyle "screen-reader-focus-styles" focusStyleSheet s
  end.

(** *** [applyLandmarkRoles] *)

Definition withoutRole (tag : string) : Selector := [sel1 [STag tag; SNot (SHas "role")]].

Definition landmarkFirst (tag role : string) (s : St) : St :=
  match querySelector (doc s) (withoutRole tag) with
  | Some el =>
      let s := storeOriginalAttribute el "role" s in
      setAttr el "role" role s
  | None => s
  end.

Definition landmarkNav (nav : NodeId) (index : nat) (s : St) : St :=
  let s := storeOriginalAttribute nav "role" s in
  let s := storeOriginalAttribute nav "aria-label" s in
  let s := setAttr nav "role" "navigation" s in
  if negb (Str.truthy (attr (doc s) nav "aria-label"))
  then setAttr nav "aria-label"
         (if decide (index = 0) then "Main navigation"
          else "Navigation " +:+ Str.ofN (N.of_nat (index + 1))) s
  else s.

Definition landmarkAside (aside : NodeId) (index : nat) (s : St) : St :=
  let s := storeOriginalAttribute aside "role" s in
  let s := storeOriginalAttribute aside "aria-label" s in
  let s := setAttr aside "role" "complementary" s in
  if negb (Str.truthy (attr (doc s) aside "aria-label"))
  then setAttr aside "aria-label" ("Sidebar " +:+ Str.ofN (N.of_nat (index + 1))) s
  else s.

Definition landmarkSearch (form : NodeId) (s : St) : St :=
  if negb (Str.truthy (attr (doc s) form "role"))
  then
    let s := storeOriginalAttribute form "role" s in
    setAttr form "role" "search" s
  else s.

Definition headings : Selector :=
  [sel1 [STag "h1"]; sel1 [STag "h2"]; sel1 [STag "h3"];
   sel1 [STag "h4"]; sel1 [STag "h5"]; sel1 [STag "h6"]].

Definition landmarkSection (section : NodeId) (s : St) : St :=
  match querySelectorIn (doc s) section headings with
  | Some heading =>
      let s := if negb (Str.truthy (attr (doc s) heading "id"))
               then let '(r, s) := random s in
                    setAttr heading "id" ("section-heading-" +:+ r) s
               else s in
      let s := storeOriginalAttribute section "aria-labelledby" s in
      setAttr section "aria-labelledby" (attr (doc s) heading "id") s
  | None => s
  end.

Definition applyLandmarkRoles (s : St) : St :=
  let s := landmarkFirst "main" "main" s in
  let s := forEachIndexed (querySelectorAll (doc s) (withoutRole "nav")) landmarkNav s in
  let s := landmarkFirst "header" "banner" s in
  let s := landmarkFirst "footer" "contentinfo" s in
  let s := forEachIndexed (querySelectorAll (doc s) (withoutRole "aside")) landmarkAside s in
  let s := forEach (querySelectorAll (doc s)
                      [sel1 [STag "form"; SSub "action" "search"];
                       sel1 [STag "form"; SClass "search"];
                       sel1 [SClass "search-form"]])
                   landmarkSearch s in
  forEach (querySelectorAll (doc s) [sel1 [STag "section"; SNot (SHas "aria-labelledby")]])
          landmarkSection s.

(** *** Live regions *)

(** The declarations of the hidden-region style of [createGlobalLiveRegion]
    and of [SR_ONLY_STYLES]. *)
Definition srOnlyClip : list (string * string) :=
  [("position", "absolute !important"); ("width", "1px !important");
   ("height", "1px !important"); ("padding", "0 !important");
   ("margin", "-1px !important"); ("overflow", "hidden !important");
   ("clip", "rect(0, 0, 0, 0) !important"); ("white-space", "nowrap !important");
   ("border", "0 !important")].

Definition SR_ONLY_STYLES : list (string * string) :=
  [("position", "absolute !important"); ("width", "1px !important");
   ("height", "1px !important"); ("padding", "0 !important");
   ("margin", "-1px !important"); ("overflow", "hidden !important");
   ("clip-path", "inset(50%) !important"); ("white-space", "nowrap !important");
   ("border", "0 !important")].

Definition createGlobalLiveRegion (s : St) : St :=
  match liveRegionElement (vars s) with
  | Some _ => s
  | None =>
      let '(region, s) := create "div" s in
      let s := setLiveRegionElement (Some region) s in
      let s := setAttr region "id" "screen-reader-live-region" s in
      let s := setAttr region "role" "status" s in
      let s := setAttr region "aria-live" "polite" s in
      let s := setAttr region "aria-atomic" "true" s in
      let s := setAttr region "class" "sr-only" s in
      let s := onDocument (setCssText region srOnlyClip) s in
      let s := onDocument (λ d, appendChild (body d) (T region []) d) s in
      pushCreated region s
  end.

Definition ANNOUNCER_CONTAINER_ID : string := "accessibility-announcer-container".
Definition POLITE_ANNOUNCER_ID : string := "accessibility-announcer-polite".
Definition ASSERTIVE_ANNOUNCER_ID : string := "accessibility-announcer-assertive".

Definition priorityName (p : Priority) : string :=
  match p with polite => "polite" | assertive => "assertive" end.

(** The region is returned detached. *)
Definition createLiveRegion (id : string) (ariaLive : Priority) (s : St) : NodeId * St :=
  let '(region, s) := create "div" s in
  let s := setAttr region "id" id s in
  let s := setAttr region "role"
             (match ariaLive with assertive => "alert" | polite => "status" end) s in
  let s := setAttr region "aria-live" (priorityName ariaLive) s in
  let s := setAttr region "aria-atomic" "true" s in
  let s := onDocument (setCssText region SR_ONLY_STYLES) s in
  (region, s).

Definition getOrCreateAnnouncerContainer (s : St) : (NodeId * NodeId) * St :=
  let container0 := getElementById (doc s) ANNOUNCER_CONTAINER_ID in
  let politeRegion0 := getElementById (doc s) POLITE_ANNOUNCER_ID in
  let assertiveRegion0 := getElementById (doc s) ASSERTIVE_ANNOUNCER_ID in
  let '(container, s) :=
    match container0 with
    | Some c => (c, s)
    | None =>
        let '(c, s) := create "div" s in
        let s := setAttr c "id" ANNOUNCER_CONTAINER_ID s in
        let s := onDocument (setCssText c SR_ONLY_STYLES) s in
        (c, onDocument (λ d, appendChild (body d) (T c []) d) s)
    end in
  let '(politeRegion, s) :=
    match politeRegion0 with
    | Some r => (r, s)
    | None =>
        let '(r, s) := createLiveRegion POLITE_ANNOUNCER_ID polite s in
        (r, onDocument (appendChild container (T r [])) s)
    end in
  let '(assertiveRegion, s) :=
    match assertiveRegion0 with
    | Some r => (r, s)
    | None =>
        let '(r, s) := createLiveRegion ASSERTIVE_ANNOUNCER_ID assertive s in
        (r, onDocument (appendChild container (T r [])) s)
    end in
  ((politeRegion, assertiveRegion), s).

(** *** Speech and the debug toast *)

Definition startsWithEn (v : Voice) : bool := String.prefix "en" (lang v).

Definition preferredVoice (vs : list Voice) : option Voice :=
  match List.find (λ v, startsWithEn v && localService v) vs with
  | Some v => Some v
  | None => match List.find startsWithEn vs with
            | Some v => Some v
            | None => List.hd_error vs
            end
  end.

Definition speakMessage (message : string) (priority : Priority) (s : St) : St :=
  match speechSynthesis (page s) with
  | None => onPage (consoleWarn "Speech synthesis not supported in this browser") s
  | Some sp =>
      let queue := match priority with
                   | assertive => []
                   | polite => utterances sp
                   end in
      let utterance := mkUtterance message (preferredVoice (voices sp)) in
      onPage (setSpeech (Some (mkSpeech (queue ++ [utterance]) (voices sp)))) s
  end.

Definition toastBackground (priority : Priority) : string :=
  match priority with assertive => "#dc2626" | polite => "#2563eb" end.

Definition showDebugToast (message : string) (priority : Priority) (s : St) : St :=
  let '(toast, s) :=
    match getElementById (doc s) "accessibility-debug-toast" with
    | Some t => (t, s)
    | None =>
        let '(t, s) := create "div" s in
        let s := setAttr t "id" "accessibility-debug-toast" s in
        let s := onDocument (setCssText t
                   [("position", "fixed"); ("bottom", "20px"); ("left", "50%");
                    ("transform", "translateX(-50%)");
                    ("background", toastBackground priority);
                    ("color", "white"); ("padding", "12px 24px");
                    ("border-radius", "8px"); ("font-size", "14px");
                    ("z-index", "99999");
                    ("box-shadow", "0 4px 12px rgba(0,0,0,0.3)");
                    ("transition", "opacity 0.3s ease"); ("max-width", "80%");
                    ("text-align", "center")]) s in
        (t, onDocument (λ d, appendChild (body d) (T t []) d) s)
    end in
  let '(txt, s) := createText ("🔊 " +:+ message) s in
  let s := onDocument (λ d, appendChild toast (T txt []) (removeAllChildren toast d)) s in
  let s := onDocument (setStyle toast "opacity" "1") s in
  let s := onDocument (setStyle toast "background" (toastBackground priority)) s in
  onPage (setTimeout (FadeToast toast) 3000) s.

(** *** [announceToScreenReader], with a document and a message *)

Definition announce (message : string) (priority : Priority) (s : St) : St :=
  let s := if debugMode (vars s) then showDebugToast message priority s else s in
  let s := if useSpeechSynthesis (vars s) then speakMessage message priority s else s in
  let '((politeRegion, assertiveRegion), s) := getOrCreateAnnouncerContainer s in
  let announcer := match priority with
                   | assertive => assertiveRegion
                   | polite => politeRegion
                   end in
  let s := onDocument (removeAllChildren announcer) s in
  onPage (requestAnimationFrame (AnnounceOuterFrame announcer message)) s.

Definition announceToScreenReaderIn (message : string) (priority : Priority) (s : St) : St :=
  if negb (Str.truthy message) then s else announce message priority s.

(** *** Focus reading *)

Definition stopSpeakingIn (s : St) : St :=
  match speechSynthesis (page s) with
  | Some sp => onPage (setSpeech (Some (mkSpeech [] (voices sp)))) s
  | None => s
  end.

Definition enableFocusReadingIn (s : St) : St :=
  if focusReadingEnabled (vars s) then s
  else onPage (setListeners true true) (setFocusReading true true s).

Definition disableFocusReadingIn (s : St) : St :=
  if negb (focusReadingEnabled (vars s)) then s
  else
    let f := focusHandler (vars s) in
    let k := keyboardHandler (vars s) in
    let s := onPage (λ p, setListeners (if f then false else focusinListener p)
                                       (if k then false else keydownListener p) p) s in
    stopSpeakingIn (setFocusReading false false s).

(** *** Enabling and disabling, with a document *)

Definition enable (fullConfig : ScreenReaderConfig) (s : St) : St :=
  let s := onDocument (λ d, classListAdd (body d) "screen-reader-mode" d) s in
  let s := onDocument (λ d, setAttribute (body d) "data-screen-reader" "enabled" d) s in
  let s := if enhancedAria fullConfig then applyEnhancedAria s else s in
  let s := if skipLinks fullConfig then createSkipLinks s else s in
  let s := if enhancedFocus fullConfig then applyEnhancedFocus s else s in
  let s := if landmarkRoles fullConfig then applyLandmarkRoles s else s in
  let s := if liveRegions fullConfig then createGlobalLiveRegion s else s in
  let s := if readOnFocus fullConfig && useSpeechSynthesis (vars s)
           then enableFocusReadingIn s else s in
  announceToScreenReaderIn
    "Screen reader mode enabled. Enhanced accessibility features are now active."
    polite s.

(** One entry of the snapshot put back. *)
Definition restoreAttribute (element : NodeId) (attrName : string)
    (value : option string) (d : Document) : Document :=
  match value with
  | None => removeAttribute element attrName d
  | Some v => setAttribute element attrName v d
  end.

Definition restoreElement (element : NodeId) (attrs : gmap string (option string))
    (d : Document) : Document :=
  map_fold (restoreAttribute element) d attrs.

Definition restoreOriginalAttributes
    (o : gmap nat (gmap string (option string))) (d : Document) : Document :=
  map_fold restoreElement d o.

Definition disable (s : St) : St :=
  let s := onDocument (λ d, classListRemove (body d) "screen-reader-mode" d) s in
  let s := onDocument (λ d, removeAttribute (body d) "data-screen-reader" d) s in
  let s := onDocument (restoreOriginalAttributes (originalAttributes (vars s))) s in
  let s := setOriginalAttributes ∅ s in
  let s := forEach (createdElements (vars s)) (λ element, onDocument (remove element)) s in
  let s := setCreatedElements [] s in
  let s := match liveRegionElement (vars s) with
           | Some region => setLiveRegionElement None (onDocument (remove region) s)
           | None => s
           end in
  let s := match getElementById (doc s) "screen-reader-focus-styles" with
           | Some focusStyle => onDocument (remove focusStyle) s
           | None => s
           end in
  let s := disableFocusReadingIn s in
  announceToScreenReaderIn "Screen reader mode disabled." polite s.

(** *** [getAccessibleName] *)

Definition isFormControl (d : Document) (element : NodeId) : bool :=
  bool_decide (tagOf d element ∈ ["input"; "select"; "textarea"]).

(** The name, or [None] where the code reaches the selector
    [label[for="${element.id}"]] with an id that is not plain (see
    [labelFor]): there the call throws or selects by another selector,
    and the model says nothing. *)
Definition getAccessibleName (d : Document) (element : NodeId) : option string :=
  let labelledBy := attr d element "aria-labelledby" in
  let labelElements :=
    if Str.truthy labelledBy
    then omap (getElementById d) (Str.split " " labelledBy)
    else [] in
  match labelElements with
  | _ :: _ => Some (Str.join " " (map (λ el, Str.trim (textContent d el)) labelElements))
  | [] =>
      let ariaLabel := attr d element "aria-label" in
      if Str.truthy ariaLabel then Some ariaLabel
      else
        let afterLabel :=
          let title := attr d element "title" in
          if Str.truthy title then title
          else if String.eqb (tagOf d element) "img"
               then Str.orElse (attr d element "alt") "Image"
               else Str.trim (textContent d element) in
        if isFormControl d element && Str.truthy (attr d element "id")
        then
          if plainId (attr d element "id")
          then
            match querySelector d (labelFor (attr d element "id")) with
            | Some l => Some (Str.trim (textContent d l))
            | None => Some afterLabel
            end
          else None
        else Some afterLabel
  end.

(** *** Frames and timers *)

Definition runTask (t : Task) (s : St) : St :=
  match t with
  | ForceLayout => s
  | AnnounceOuterFrame announcer message =>
      onPage (requestAnimationFrame (AnnounceInnerFrame announcer message)) s
  | AnnounceInnerFrame announcer message =>
      let '(textNode, s) := createText message s in
      let s := onDocument (appendChild announcer (T textNode [])) s in
      onPage (setTimeout (ClearAnnouncer announcer) 5000) s
  | ClearAnnouncer announcer => onDocument (removeAllChildren announcer) s
  | FadeToast toast => onDocument (setStyle toast "opacity" "0") s
  end.





(** *** [readMainContent], with a document *)

Definition mainContent : Selector :=
  [sel1 [STag "main"]; sel1 [SEq "role" "main"]; sel1 [SId "main"];
   sel1 [SId "content"]; sel1 [SClass "main-content"]].

Definition readMain (s : St) : St :=
  let text := match querySelector (doc s) mainContent with
              | Some main => Str.trim (textContent (doc s) main)
              | None => ""
              end in
  if Str.truthy text
  then speakMessage (String.substring 0 1000 text) polite s
  else speakMessage "No main content found on this page" polite s.

(** *** The exported functions

    A world is the module's variables and, when the code runs in a
    browser, the page. Without a browser [typeof document] and
    [typeof window] are ['undefined'] and reading [document] throws a
    [ReferenceError]. *)

Record World := mkWorld { browser : option Page; globals : Vars }.

Definition inBrowser (w : World) (f : St → St) : World :=
  match browser w with
  | Some p => let s := f (mkSt p (globals w)) in mkWorld (Some (page s)) (vars s)
  | None => w
  end.

(** [if (typeof document === 'undefined') return;] in front of [f]. *)
Definition guarded (f : St → St) (w : World) : Outcome World :=
  Returned (inBrowser w f).

(** A body that reads [document] with no such test in front. *)
Definition unguarded (f : St → St) (w : World) : Outcome World :=
  match browser w with
  | Some _ => Returned (inBrowser w f)
  | None => Threw (ReferenceError "document")
  end.

(** [{ ...defaultScreenReaderConfig, ...config }] *)
Record PartialConfig := mkPartial {
  pEnhancedAria : option bool;
  pSkipLinks : option bool;
  pEnhancedFocus : option bool;
  pLandmarkRoles : option bool;
  pLiveRegions : option bool;
  pAnnouncementDelay : option N;
  pReadOnFocus : option bool;
  pKeyboardShortcuts : option bool;
}.

Definition noConfig : PartialConfig := mkPartial None None None None None None None None.

Definition fullConfig (config : PartialConfig) : ScreenReaderConfig :=
  mkConfig (default true (pEnhancedAria config)) (default true (pSkipLinks config))
           (default true (pEnhancedFocus config)) (default true (pLandmarkRoles config))
           (default true (pLiveRegions config)) (default 100%N (pAnnouncementDelay config))
           (default true (pReadOnFocus config)) (default true (pKeyboardShortcuts config)).

Definition enableScreenReaderMode (config : PartialConfig) : World → Outcome World :=
  guarded (enable (fullConfig config)).

Definition disableScreenReaderMode : World → Outcome World := guarded disable.

Definition announceToScreenReader (message : string) (priority : Priority)
    : World → Outcome World :=
  guarded (announceToScreenReaderIn message priority).

Definition setDebugMode (b : bool) (v : Vars) : Vars :=
  mkVars (originalAttributes v) (createdElements v) (liveRegionElement v)
         b (useSpeechSynthesis v) (focusReadingEnabled v) (focusHandler v)
         (keyboardHandler v).

Definition setUseSpeechSynthesis (b : bool) (v : Vars) : Vars :=
  mkVars (originalAttributes v) (createdElements v) (liveRegionElement v)
         (debugMode v) b (focusReadingEnabled v) (focusHandler v)
         (keyboardHandler v).

Definition setAnnouncerDebugMode (enabled : bool) (w : World) : Outcome World :=
  Returned (mkWorld (browser w) (setDebugMode enabled (globals w))).

Definition setSpeechSynthesis (enabled : bool) (w : World) : Outcome World :=
  Returned (mkWorld (browser w) (setUseSpeechSynthesis enabled (globals w))).

Definition initializeAnnouncerIn (debug speech : bool) (s : St) : St :=
  let s := if debug then mkSt (page s) (setDebugMode true (vars s)) else s in
  let s := if speech then mkSt (page s) (setUseSpeechSynthesis true (vars s)) else s in
  let '(_, s) := getOrCreateAnnouncerContainer s in
  onPage (requestAnimationFrame ForceLayout) s.

Definition initializeAnnouncer (debug speech : bool) : World → Outcome World :=
  guarded (initializeAnnouncerIn debug speech).

Definition isScreenReaderModeEnabled (w : World) : Outcome bool :=
  match browser w with
  | None => Returned false
  | Some p => Returned (classListContains (document p) (body (document p)) "screen-reader-mode")
  end.

(** [typeof window !== 'undefined' && 'speechSynthesis' in window] guards
    the body. *)
Definition stopSpeaking : World → Outcome World := guarded stopSpeakingIn.

Definition readMainContent : World → Outcome World := unguarded readMain.

End ScreenReaderUtils.

(** ** [AccessibilityPanel.tsx]: state, effect appliers, loading, saving *)

Module AccessibilityPanel.
Import Dom Browser ScreenReaderUtils.

Inductive SaveMode := auto | manual.

(** The props the engine side of the panel reads. *)
Record Props := mkProps {
  saveMode : SaveMode;
  customFonts : gmap string string;
}.

(** The [useState] values of the settings. At run time each is a string
    or a boolean; the TypeScript unions are the domains below. *)
Record Settings := mkSettings {
  textSize : string;
  lineHeight : string;
  letterSpacing : string;
  wordSpacing : string;
  contrast : string;
  saturation : string;
  fontFamily : string;
  screenReader : bool;
  monochrome : bool;
  hideImages : bool;
  highlightTitles : bool;
  highlightLinks : bool;
  internalPosition : option string;
  internalTheme : option string;
}.

Definition defaultSettings : Settings :=
  mkSettings "default" "default" "default" "default" "default" "normal" "default"
             false false false false false None None.

Definition setTextSize (v : string) (x : Settings) : Settings :=
  mkSettings v (lineHeight x) (letterSpacing x) (wordSpacing x) (contrast x) (saturation x) (fontFamily x) (screenReader x) (monochrome x) (hideImages x) (highlightTitles x) (highlightLinks x) (internalPosition x) (internalTheme x).

Definition setLineHeight (v : string) (x : Settings) : Settings :=
  mkSettings (textSize x) v (letterSpacing x) (wordSpacing x) (contrast x) (saturation x) (fontFamily x) (screenReader x) (monochrome x) (hideImages x) (highlightTitles x) (highlightLinks x) (internalPosition x) (internalTheme x).

Definition setLetterSpacing (v : string) (x : Settings) : Settings :=
  mkSettings (textSize x) (lineHeight x) v (wordSpacing x) (contrast x) (saturation x) (fontFamily x) (screenReader x) (monochrome x) (hideImages x) (highlightTitles x) (highlightLinks x) (internalPosition x) (internalTheme x).

Definition setWordSpacing (v : string) (x : Settings) : Settings :=
  mkSettings (textSize x) (lineHeight x) (letterSpacing x) v (contrast x) (saturation x) (fontFamily x) (screenReader x) (monochrome x) (hideImages x) (highlightTitles x) (highlightLinks x) (internalPosition x) (internalTheme x).

Definition setContrast (v : string) (x : Settings) : Settings :=
  mkSettings (textSize x) (lineHeight x) (letterSpacing x) (wordSpacing x) v (saturation x) (fontFamily x) (screenReader x) (monochrome x) (hideImages x) (highlightTitles x) (highlightLinks x) (internalPosition x) (internalTheme x).

Definition setSaturation (v : string) (x : Settings) : Settings :=
  mkSettings (textSize x) (lineHeight x) (letterSpacing x) (wordSpacing x) (contrast x) v (fontFamily x) (screenReader x) (monochrome x) (hideImages x) (highlightTitles x) (highlightLinks x) (internalPosition x) (internalTheme x).

Definition setFontFamily (v : string) (x : Settings) : Settings :=
  mkSettings (textSize x) (lineHeight x) (letterSpacing x) (wordSpacing x) (contrast x) (saturation x) v (screenReader x) (monochrome x) (hideImages x) (highlightTitles x) (highlightLinks x) (internalPosition x) (internalTheme x).

Definition setScreenReader (v : bool) (x : Settings) : Settings :=
  mkSettings (textSize x) (lineHeight x) (letterSpacing x) (wordSpacing x) (contrast x) (saturation x) (fontFamily x) v (monochrome x) (hideImages x) (highlightTitles x) (highlightLinks x) (internalPosition x) (internalTheme x).

Definition setMonochrome (v : bool) (x : Settings) : Settings :=
  mkSettings (textSize x) (lineHeight x) (letterSpacing x) (wordSpacing x) (contrast x) (saturation x) (fontFamily x) (screenReader x) v (hideImages x) (highlightTitles x) (highlightLinks x) (internalPosition x) (internalTheme x).

Definition setHideImages (v : bool) (x : Settings) : Settings :=
  mkSettings (textSize x) (lineHeight x) (letterSpacing x) (wordSpacing x) (contrast x) (saturation x) (fontFamily x) (screenReader x) (monochrome x) v (highlightTitles x) (highlightLinks x) (internalPosition x) (internalTheme x).

Definition setHighlightTitles (v : bool) (x : Settings) : Settings :=
  mkSettings (textSize x) (lineHeight x) (letterSpacing x) (wordSpacing x) (contrast x) (saturation x) (fontFamily x) (screenReader x) (monochrome x) (hideImages x) v (highlightLinks x) (internalPosition x) (internalTheme x).

Definition setHighlightLinks (v : bool) (x : Settings) : Settings :=
  mkSettings (textSize x) (lineHeight x) (letterSpacing x) (wordSpacing x) (contrast x) (saturation x) (fontFamily x) (screenReader x) (monochrome x) (hideImages x) (highlightTitles x) v (internalPosition x) (internalTheme x).

Definition setInternalPosition (v : option string) (x : Settings) : Settings :=
  mkSettings (textSize x) (lineHeight x) (letterSpacing x) (wordSpacing x) (contrast x) (saturation x) (fontFamily x) (screenReader x) (monochrome x) (hideImages x) (highlightTitles x) (highlightLinks x) v (internalTheme x).

Definition setInternalTheme (v : option string) (x : Settings) : Settings :=
  mkSettings (textSize x) (lineHeight x) (letterSpacing x) (wordSpacing x) (contrast x) (saturation x) (fontFamily x) (screenReader x) (monochrome x) (hideImages x) (highlightTitles x) (highlightLinks x) (internalPosition x) v.

(** The domains of the enumerated settings. *)
Definition isTextSize (v : string) : bool :=
  bool_decide (v ∈ ["default"; "small"; "medium"; "large"; "extra-large"]).
Definition isLineHeight (v : string) : bool :=
  bool_decide (v ∈ ["default"; "tight"; "normal"; "relaxed"; "loose"]).
Definition isSpacing (v : string) : bool :=
  bool_decide (v ∈ ["default"; "tight"; "normal"; "wide"; "extra-wide"]).
Definition isContrastLevel (v : string) : bool :=
  bool_decide (v ∈ ["default"; "low"; "high"; "dark"]).
Definition isSaturationLevel (v : string) : bool :=
  bool_decide (v ∈ ["normal"; "low"; "high"]).
Definition isPanelPosition (v : string) : bool :=
  bool_decide (v ∈ ["bottom-right"; "bottom-left"; "top-right"; "top-left";
                    "top-center"; "bottom-center"]).
Definition isThemeMode (v : string) : bool :=
  bool_decide (v ∈ ["light"; "dark"; "auto"]).

(** The rest of the component's state and its refs. The markup the
    panel renders is not part of the modelled [document]; of it the panel
    keeps [announcement], the text of the element [announcementRef]
    points to, and [announcementTimers], the times at which the pending
    1000 ms timers of [announceChange] empty that element. *)
Record Panel := mkPanel {
  settings : Settings;
  hasUnsavedChanges : bool;
  isSaving : bool;
  shouldApplyEffectsRef : bool;
  isInitialLoadRef : bool;
  imagePlaceholdersRef : gmap nat nat;
  announcement : string;
  announcementTimers : list N;
}.

Definition initialPanel (props : Props) : Panel :=
  mkPanel defaultSettings false false
          (match saveMode props with auto => true | manual => false end) true ∅ "" [].

Definition setSettings (x : Settings) (p : Panel) : Panel :=
  mkPanel x (hasUnsavedChanges p) (isSaving p) (shouldApplyEffectsRef p)
          (isInitialLoadRef p) (imagePlaceholdersRef p)
          (announcement p) (announcementTimers p).

Definition setHasUnsavedChanges (b : bool) (p : Panel) : Panel :=
  mkPanel (settings p) b (isSaving p) (shouldApplyEffectsRef p)
          (isInitialLoadRef p) (imagePlaceholdersRef p)
          (announcement p) (announcementTimers p).

Definition setIsSaving (b : bool) (p : Panel) : Panel :=
  mkPanel (settings p) (hasUnsavedChanges p) b (shouldApplyEffectsRef p)
          (isInitialLoadRef p) (imagePlaceholdersRef p)
          (announcement p) (announcementTimers p).

Definition setRefs (should initial : bool) (p : Panel) : Panel :=
  mkPanel (settings p) (hasUnsavedChanges p) (isSaving p) should initial
          (imagePlaceholdersRef p) (announcement p) (announcementTimers p).

Definition setImagePlaceholders (m : gmap nat nat) (p : Panel) : Panel :=
  mkPanel (settings p) (hasUnsavedChanges p) (isSaving p) (shouldApplyEffectsRef p)
          (isInitialLoadRef p) m (announcement p) (announcementTimers p).

(** [announcementRef.current.textContent = message] with the timer that
    empties the element at time [due]. *)
Definition setAnnouncement (message : string) (due : N) (p : Panel) : Panel :=
  mkPanel (settings p) (hasUnsavedChanges p) (isSaving p) (shouldApplyEffectsRef p)
          (isInitialLoadRef p) (imagePlaceholdersRef p)
          message (announcementTimers p ++ [due]).

(** The oldest of those timers fires. *)
Definition clearAnnouncement (p : Panel) : Panel :=
  mkPanel (settings p) (hasUnsavedChanges p) (isSaving p) (shouldApplyEffectsRef p)
          (isInitialLoadRef p) (imagePlaceholdersRef p)
          "" (tail (announcementTimers p)).

(** *** Typography and filters *)

Definition quote : string := String (ascii_of_nat 34) EmptyString.

Definition fontMap (font : string) : option string :=
  if String.eqb font "default" then Some "inherit"
  else if String.eqb font "sans-serif" then
    Some ("system-ui, -apple-system, BlinkMacSystemFont, " +:+ quote +:+ "Segoe UI"
          +:+ quote +:+ ", Roboto, " +:+ quote +:+ "Helvetica Neue" +:+ quote
          +:+ ", Arial, sans-serif")
  else if String.eqb font "serif" then
    Some ("Georgia, " +:+ quote +:+ "Times New Roman" +:+ quote +:+ ", Times, serif")
  else if String.eqb font "dyslexia-friendly" then
    Some (quote +:+ "OpenDyslexic" +:+ quote +:+ ", " +:+ quote +:+ "Open Dyslexic"
          +:+ quote +:+ ", " +:+ quote +:+ "Comic Sans MS" +:+ quote +:+ ", "
          +:+ quote +:+ "Trebuchet MS" +:+ quote +:+ ", " +:+ quote +:+ "Verdana"
          +:+ quote +:+ ", sans-serif")
  else None.

(** [customFonts[font]] when truthy, else [fontMap[font] || fontMap['default']].
    [customFonts] holds the entries of the object the prop was given as
    (an object literal, [{}] by default); both lookups also find the
    members of [Object.prototype], so for a name such as ['constructor']
    the value is a function and not a string. *)
Definition getFontFamilyValue (props : Props) (font : string) : Js.Value :=
  let custom := Js.lookup (λ k, customFonts props !! k) font in
  if Js.truthy custom then default (Js.Text "inherit") custom
  else
    let mapped := Js.lookup fontMap font in
    if Js.truthy mapped then default (Js.Text "inherit") mapped
    else Js.Text "inherit".

(** Both sinks take a string, so a value that is not one arrives as its
    text. *)
Definition applyFontFamily (props : Props) (x : Settings) (d : Document) : Document :=
  let fontValue := Js.text (getFontFamilyValue props (fontFamily x)) in
  let d := setStyle (documentElement d) "--accessibility-font-family" fontValue d in
  setStyle (body d) "font-family" fontValue d.

Definition scaleLookup (m : list (string * string)) (k : string) : option string :=
  snd <$> List.find (λ kv, String.eqb kv.1 k) m.

Definition getFontScaleValue (size : string) : option Js.Value :=
  Js.lookup (scaleLookup [("default", "1"); ("small", "0.875"); ("medium", "1");
               ("large", "1.25"); ("extra-large", "1.5")]) size.

Definition getLineHeightValue (level : string) : option Js.Value :=
  Js.lookup (scaleLookup [("default", "1"); ("tight", "0.75"); ("normal", "1");
               ("relaxed", "1.5"); ("loose", "2")]) level.

Definition getLetterSpacingValue (level : string) : option Js.Value :=
  Js.lookup (scaleLookup [("default", "1"); ("tight", "0.5"); ("normal", "1");
               ("wide", "1.5"); ("extra-wide", "2")]) level.

Definition getWordSpacingValue (level : string) : option Js.Value :=
  Js.lookup (scaleLookup [("default", "1"); ("tight", "0.5"); ("normal", "1");
               ("wide", "1.5"); ("extra-wide", "2")]) level.

(** [style.setProperty(name, v)]; a missing map entry arrives as the
    string ["undefined"], an inherited member as its text. *)
Definition setProperty (name : string) (v : option Js.Value) (d : Document) : Document :=
  setStyle (documentElement d) name (Js.textOf v) d.

Definition applyFontScale (x : Settings) : Document → Document :=
  setProperty "--font-scale" (getFontScaleValue (textSize x)).

Definition applyLineHeight (x : Settings) : Document → Document :=
  setProperty "--line-height-scale" (getLineHeightValue (lineHeight x)).

Definition applyLetterSpacing (x : Settings) : Document → Document :=
  setProperty "--letter-spacing-scale" (getLetterSpacingValue (letterSpacing x)).

Definition applyWordSpacing (x : Settings) : Document → Document :=
  setProperty "--word-spacing-scale" (getWordSpacingValue (wordSpacing x)).

Definition filterList (x : Settings) : list string :=
  (if monochrome x then ["grayscale(100%)"] else [])
  ++ (if String.eqb (saturation x) "low" then ["saturate(0.5)"]
      else if String.eqb (saturation x) "high" then ["saturate(1.5)"]
      else []).

Definition applyFilters (x : Settings) (d : Document) : Document :=
  let filters := filterList x in
  setStyle (documentElement d) "filter"
           (match filters with [] => "" | _ => Str.join " " filters end) d.

(** *** [applyHideImages] *)

(** [a || b] on numbers. *)
Definition orN (a b : N) : N := if N.eqb a 0 then b else a.

Definition measuredWidth (x : NodeData) : N :=
  orN (rectWidth x) (orN (width x) (orN (offsetWidth x) 200)).

Definition measuredHeight (x : NodeData) : N :=
  orN (rectHeight x) (orN (height x) (orN (offsetHeight x) 150)).

Definition px (n : N) : string := Str.ofN n +:+ "px".

Definition placeholderCss (w h : N) : list (string * string) :=
  [("display", "inline-flex"); ("width", px w); ("min-width", px w);
   ("height", px h); ("min-height", px h);
   ("background-color", "#f1f5f9"); ("border", "2px dashed #cbd5e1");
   ("border-radius", "8px"); ("padding", "12px"); ("align-items", "center");
   ("justify-content", "center"); ("text-align", "center"); ("color", "#64748b");
   ("font-size", "14px"); ("line-height", "1.4"); ("word-wrap", "break-word");
   ("box-sizing", "border-box"); ("vertical-align", "top")].

Definition visibleImages : Selector :=
  [sel1 [STag "img"; SNot (SEq "aria-hidden" "true")]].

(** The document together with [imagePlaceholdersRef.current]. *)
Definition Images : Type := Document * gmap nat nat.

Definition hideImage (acc : Images) (img : NodeId) : Images :=
  let '(d, placeholders) := acc in
  if hasAttribute d img "data-original-display" then acc
  else
    let d := setAttribute img "data-original-display" (getStyle d img "display") d in
    let d := setAttribute img "data-original-width" (getStyle d img "width") d in
    let d := setAttribute img "data-original-height" (getStyle d img "height") d in
    let w := default 200%N (measuredWidth <$> nodeData d img) in
    let h := default 150%N (measuredHeight <$> nodeData d img) in
    let altText := Str.orElse (attr d img "alt") "Image" in
    let d := setStyle img "display" "none" d in
    let '(placeholder, d) := createElement "div" d in
    let d := setAttribute placeholder "class" "image-placeholder" d in
    let d := setCssText placeholder (placeholderCss w h) d in
    let '(txt, d) := createTextNode altText d in
    let d := setAttribute placeholder "aria-label" ("Image: " +:+ altText) d in
    let d := match parentNode d img with
             | Some p => insertBefore p (T placeholder [T txt []]) (nextSibling d img) d
             | None => d
             end in
    (d, <[img := placeholder]> placeholders).

Definition showImage (acc : Images) (img : NodeId) : Images :=
  let '(d, placeholders) := acc in
  if hasAttribute d img "data-original-display"
  then
    let d := setStyle img "display" (attr d img "data-original-display") d in
    let d := setStyle img "width" (attr d img "data-original-width") d in
    let d := setStyle img "height" (attr d img "data-original-height") d in
    let d := match placeholders !! img with
             | Some placeholder =>
                 match parentNode d placeholder with
                 | Some p => removeChild p placeholder d
                 | None => d
                 end
             | None => d
             end in
    let placeholders := delete img placeholders in
    let d := removeAttribute img "data-original-display" d in
    let d := removeAttribute img "data-original-width" d in
    let d := removeAttribute img "data-original-height" d in
    (d, placeholders)
  else acc.

Definition applyHideImages (enabled : bool) (acc : Images) : Images :=
  let images := querySelectorAll acc.1 visibleImages in
  if enabled then foldl hideImage acc images
  else foldl showImage acc images.

(** *** [applyContrast] and the highlights *)

(** The rule sets, abridged to their opening comment or first selector. *)
Definition contrastStyleSheet (level : string) : option string :=
  if String.eqb level "low" then Some "/* Low Contrast Mode - Softer, reduced contrast */"
  else if String.eqb level "high" then Some "/* High Contrast Mode - WCAG 2.2 AA Compliant */"
  else if String.eqb level "dark" then Some "/* Dark Mode - High contrast dark theme */"
  else None.

Definition contrastStyleId : string := "accessibility-contrast-style".

Definition applyContrast (level : string) (d : Document) : Document :=
  let d := match getElementById d contrastStyleId with
           | Some styleElement =>
               match parentNode d styleElement with
               | Some p => removeChild p styleElement d
               | None => d
               end
           | None => d
           end in
  if String.eqb level "default"
  then removeAttribute (documentElement d) "data-contrast" d
  else
    let '(styleElement, d) := createElement "style" d in
    let d := setAttribute styleElement "id" contrastStyleId d in
    let d := appendChild (head d) (T styleElement []) d in
    let d := setAttribute (documentElement d) "data-contrast" level d in
    match contrastStyleSheet level with
    | Some css => setTextContent styleElement css d
    | None => d
    end.

Definition applyHighlight (styleId css : string) (enabled : bool) (d : Document) : Document :=
  match getElementById d styleId, enabled with
  | Some styleElement, true => setTextContent styleElement css d
  | None, true =>
      let '(styleElement, d) := createElement "style" d in
      let d := setAttribute styleElement "id" styleId d in
      let d := appendChild (head d) (T styleElement []) d in
      setTextContent styleElement css d
  | Some styleElement, false =>
      match parentNode d styleElement with
      | Some p => removeChild p styleElement d
      | None => d
      end
  | None, false => d
  end.

Definition applyHighlightTitles : bool → Document → Document :=
  applyHighlight "accessibility-highlight-titles-style"
    "h1:not([aria-hidden=true]), h2:not([aria-hidden=true]) { /* ... */ }".

Definition applyHighlightLinks : bool → Document → Document :=
  applyHighlight "accessibility-highlight-links-style"
    "a:not([aria-hidden=true]):not(.accessibility-panel-link) { /* ... */ }".

(** *** The component with its storage

    A storage handler over stores of type [Store]: [getItem] reads, [setItem]
    writes or rejects ([None]). The built-in handler wraps [localStorage]
    or [sessionStorage]. *)

Record StorageHandler (Store : Type) := mkHandler {
  getItem : string → Store → option string;
  setItem : string → string → Store → option Store;
}.
Arguments mkHandler {Store} _ _.
Arguments getItem {Store} _ _ _.
Arguments setItem {Store} _ _ _ _.

Definition webStorage : StorageHandler (gmap string string) :=
  mkHandler (λ k m, m !! k) (λ k v m, Some (<[k := v]> m)).

Record Component (Store : Type) := mkComponent {
  panel : Panel;
  engine : St;
  storage : Store;
}.
Arguments mkComponent {Store} _ _ _.
Arguments panel {Store} _.
Arguments engine {Store} _.
Arguments storage {Store} _.

(** What [loadSettings] leaves to [setTimeout]: the appliers after 100 ms
    and the end of the initial load after 200 ms. *)
Inductive Deferred :=
  | DeferHideImages
  | DeferHighlightTitles
  | DeferHighlightLinks
  | DeferContrast (level : string)
  | DeferScreenReader
  | DeferEndInitialLoad.

Section Component.
Context {Store : Type} (handler : StorageHandler Store) (props : Props).

Definition onPanel (f : Panel → Panel) (c : Component Store) : Component Store :=
  mkComponent (f (panel c)) (engine c) (storage c).

Definition onEngine (f : St → St) (c : Component Store) : Component Store :=
  mkComponent (panel c) (f (engine c)) (storage c).

Definition onDoc (f : Document → Document) (c : Component Store) : Component Store :=
  onEngine (onDocument f) c.

Definition update (f : Settings → Settings) (c : Component Store) : Component Store :=
  onPanel (λ p, setSettings (f (settings p)) p) c.

Definition current (c : Component Store) : Settings := settings (panel c).

(** [applyHideImages] on the component: the document and the ref. *)
Definition hideImagesIn (enabled : bool) (c : Component Store) : Component Store :=
  let r := applyHideImages enabled (doc (engine c), imagePlaceholdersRef (panel c)) in
  onPanel (setImagePlaceholders r.2) (onDoc (λ _, r.1) c).

(** [saveToStorage]: the store after the write and whether it was accepted. *)
Definition saveToStorage (key value : string) (c : Component Store) : Component Store * bool :=
  match setItem handler key value (storage c) with
  | Some st => (mkComponent (panel c) (engine c) st, true)
  | None => (c, false)
  end.

Definition conditionalSave (key value : string) (c : Component Store) : Component Store :=
  match saveMode props with
  | auto => (saveToStorage key value c).1
  | manual => onPanel (setHasUnsavedChanges true) c
  end.

(** [announceChange], read with the [screenReader] of the render the
    handler belongs to: the engine's announcement, then the panel's own
    announcement element with its 1000 ms timer. The callers are handlers
    and effects of the mounted panel, whose [announcementRef] is set. *)
Definition announceChange (screenReaderNow : bool) (message : string)
    (c : Component Store) : Component Store :=
  if screenReaderNow
  then
    let c := onEngine (announceToScreenReaderIn message polite) c in
    onPanel (setAnnouncement message (now (page (engine c)) + 1000)%N) c
  else c.

(** *** The effects that follow a change of state *)

Definition applies (c : Component Store) : bool :=
  shouldApplyEffectsRef (panel c) || isInitialLoadRef (panel c).

Definition effect (changed : bool) (f : Component Store → Component Store)
    (c : Component Store) : Component Store :=
  if changed && applies c then f c else c.

Definition differs {A} `{EqDecision A} (get : Settings → A) (old new : Settings) : bool :=
  bool_decide (get old ≠ get new).

(** The effects whose dependencies differ between the render before the
    handler and the one after it, in the order the component declares
    them. The callbacks of the mutation observer are not modelled. *)
Definition runEffects (old : Settings) (c : Component Store) : Component Store :=
  let new := current c in
  let c := effect (differs monochrome old new || differs saturation old new)
                  (onDoc (applyFilters new)) c in
  let c := effect (differs fontFamily old new) (onDoc (applyFontFamily props new)) c in
  let c := effect (differs textSize old new) (onDoc (applyFontScale new)) c in
  let c := effect (differs lineHeight old new) (onDoc (applyLineHeight new)) c in
  let c := effect (differs letterSpacing old new) (onDoc (applyLetterSpacing new)) c in
  let c := effect (differs wordSpacing old new) (onDoc (applyWordSpacing new)) c in
  let c := effect (differs contrast old new) (onDoc (applyContrast (contrast new))) c in
  let c := effect (differs highlightTitles old new)
                  (onDoc (applyHighlightTitles (highlightTitles new))) c in
  effect (differs highlightLinks old new)
         (onDoc (applyHighlightLinks (highlightLinks new))) c.

(** *** The change handlers *)

Definition enableOptions : PartialConfig :=
  mkPartial (Some true) (Some true) (Some true) (Some true) (Some true) None None None.

Definition boolString (b : bool) : string := if b then "true" else "false".

Definition enabledWord (b : bool) : string := if b then "enabled" else "disabled".

Definition spacingName (level : string) : string :=
  if String.eqb level "default" then "default"
  else if String.eqb level "extra-wide" then "extra wide"
  else level.

Definition contrastLabel (level : string) : string :=
  Js.textOf
    (Js.lookup (scaleLookup [("default", "Default"); ("low", "Low Contrast");
                             ("high", "High Contrast"); ("dark", "Dark Mode")]) level).

(** [s.replace('-', ' ')]: the first hyphen only. *)
Fixpoint replaceFirstHyphen (s : string) : string :=
  match s with
  | EmptyString => EmptyString
  | String c r => if Ascii.eqb c "-" then String " " r
                  else String c (replaceFirstHyphen r)
  end.

(** A handler: the state update, the body, then the effects. *)
Definition handler_ (f : Settings → Settings)
    (body : Settings → Component Store → Component Store) (c : Component Store) : Component Store :=
  let old := current c in
  runEffects old (body old (update f c)).

(** The body shared by the handlers that apply nothing themselves. *)
Definition saveAndAnnounce (key value message : string) (old : Settings)
    (c : Component Store) : Component Store :=
  announceChange (screenReader old) message (conditionalSave key value c).

(** The body of the handlers that apply at once in auto mode. *)
Definition applyOrMark (apply : Component Store → Component Store) (c : Component Store) : Component Store :=
  match saveMode props with
  | auto => apply c
  | manual => onPanel (setHasUnsavedChanges true) c
  end.

Definition handleTextSizeChange (size : string) : Component Store → Component Store :=
  handler_ (setTextSize size)
    (saveAndAnnounce "accessibility-text-size" size ("Text size changed to " +:+ size)).

Definition handleLineHeightChange (level : string) : Component Store → Component Store :=
  handler_ (setLineHeight level)
    (saveAndAnnounce "accessibility-line-height" level ("Line height changed to " +:+ level)).

Definition handleLetterSpacingChange (level : string) : Component Store → Component Store :=
  handler_ (setLetterSpacing level)
    (saveAndAnnounce "accessibility-letter-spacing" level
       ("Letter spacing changed to " +:+ spacingName level)).

Definition handleWordSpacingChange (level : string) : Component Store → Component Store :=
  handler_ (setWordSpacing level)
    (saveAndAnnounce "accessibility-word-spacing" level
       ("Word spacing changed to " +:+ spacingName level)).

Definition handleContrastChange (level : string) : Component Store → Component Store :=
  handler_ (setContrast level)
    (λ old c,
       let c := applyOrMark (onDoc (applyContrast level)) c in
       saveAndAnnounce "accessibility-contrast" level
         ("Contrast changed to " +:+ contrastLabel level) old c).

Definition handleSaturationChange (level : string) : Component Store → Component Store :=
  handler_ (setSaturation level)
    (saveAndAnnounce "accessibility-saturation" level ("Saturation changed to " +:+ level)).

Definition handleScreenReaderChange (checked : bool) : Component Store → Component Store :=
  handler_ (setScreenReader checked)
    (λ old c,
       let c := if checked then c else onEngine stopSpeakingIn c in
       let c := onEngine (λ s, mkSt (page s) (setUseSpeechSynthesis checked (vars s))) c in
       let c := applyOrMark
                  (onEngine (if checked then enable (fullConfig enableOptions) else disable)) c in
       let c := conditionalSave "accessibility-screen-reader" (boolString checked) c in
       if checked
       then announceChange (screenReader old)
              "Screen reader mode enabled. Enhanced accessibility features are now active." c
       else c).

Definition handleMonochromeChange (checked : bool) : Component Store → Component Store :=
  handler_ (setMonochrome checked)
    (saveAndAnnounce "accessibility-monochrome" (boolString checked)
       ("Monochrome mode " +:+ enabledWord checked)).

Definition handleHideImagesChange (checked : bool) : Component Store → Component Store :=
  handler_ (setHideImages checked)
    (λ old c,
       let c := applyOrMark (hideImagesIn checked) c in
       saveAndAnnounce "accessibility-hide-images" (boolString checked)
         ("Hide images " +:+ enabledWord checked) old c).

Definition handleHighlightTitlesChange (checked : bool) : Component Store → Component Store :=
  handler_ (setHighlightTitles checked)
    (λ old c,
       let c := applyOrMark (onDoc (applyHighlightTitles checked)) c in
       saveAndAnnounce "accessibility-highlight-titles" (boolString checked)
         ("Highlight titles " +:+ enabledWord checked) old c).

Definition handleHighlightLinksChange (checked : bool) : Component Store → Component Store :=
  handler_ (setHighlightLinks checked)
    (λ old c,
       let c := applyOrMark (onDoc (applyHighlightLinks checked)) c in
       saveAndAnnounce "accessibility-highlight-links" (boolString checked)
         ("Highlight links " +:+ enabledWord checked) old c).

Definition handlePositionChange (newPosition : string) : Component Store → Component Store :=
  handler_ (setInternalPosition (Some newPosition))
    (saveAndAnnounce "accessibility-position" newPosition
       ("Panel position changed to " +:+ replaceFirstHyphen newPosition)).

Definition handleThemeChange (newTheme : string) : Component Store → Component Store :=
  handler_ (setInternalTheme (Some newTheme))
    (saveAndAnnounce "accessibility-theme" newTheme ("Theme changed to " +:+ newTheme)).

Definition handleFontFamilyChange (newFontFamily : string) : Component Store → Component Store :=
  handler_ (setFontFamily newFontFamily)
    (saveAndAnnounce "accessibility-font-family" newFontFamily
       ("Font family changed to " +:+
        (if String.eqb newFontFamily "dyslexia-friendly" then "dyslexia friendly"
         else newFontFamily))).

(** One change of a setting by the user. *)
Inductive Change :=
  | ChangeTextSize (size : string)
  | ChangeLineHeight (level : string)
  | ChangeLetterSpacing (level : string)
  | ChangeWordSpacing (level : string)
  | ChangeContrast (level : string)
  | ChangeSaturation (level : string)
  | ChangeScreenReader (checked : bool)
  | ChangeMonochrome (checked : bool)
  | ChangeHideImages (checked : bool)
  | ChangeHighlightTitles (checked : bool)
  | ChangeHighlightLinks (checked : bool)
  | ChangePosition (newPosition : string)
  | ChangeTheme (newTheme : string)
  | ChangeFontFamily (newFontFamily : string).

Definition handle (ch : Change) : Component Store → Component Store :=
  match ch with
  | ChangeTextSize v => handleTextSizeChange v
  | ChangeLineHeight v => handleLineHeightChange v
  | ChangeLetterSpacing v => handleLetterSpacingChange v
  | ChangeWordSpacing v => handleWordSpacingChange v
  | ChangeContrast v => handleContrastChange v
  | ChangeSaturation v => handleSaturationChange v
  | ChangeScreenReader b => handleScreenReaderChange b
  | ChangeMonochrome b => handleMonochromeChange b
  | ChangeHideImages b => handleHideImagesChange b
  | ChangeHighlightTitles b => handleHighlightTitlesChange b
  | ChangeHighlightLinks b => handleHighlightLinksChange b
  | ChangePosition v => handlePositionChange v
  | ChangeTheme v => handleThemeChange v
  | ChangeFontFamily v => handleFontFamilyChange v
  end.

(** *** [handleSaveSettings] *)

(** Every effect, in the order the save action runs them. *)
Definition applyAll (c : Component Store) : Component Store :=
  let x := current c in
  let c := onDoc (applyFontFamily props x) c in
  let c := onDoc (applyFontScale x) c in
  let c := onDoc (applyLineHeight x) c in
  let c := onDoc (applyLetterSpacing x) c in
  let c := onDoc (applyWordSpacing x) c in
  let c := onDoc (applyFilters x) c in
  let c := hideImagesIn (hideImages x) c in
  let c := onDoc (applyHighlightTitles (highlightTitles x)) c in
  let c := onDoc (applyHighlightLinks (highlightLinks x)) c in
  let c := onDoc (applyContrast (contrast x)) c in
  let c := onEngine (λ s, mkSt (page s) (setUseSpeechSynthesis (screenReader x) (vars s))) c in
  onEngine (if screenReader x then enable (fullConfig enableOptions) else disable) c.

Definition optionalWrite (key : string) (v : option string) : list (string * string) :=
  match v with
  | Some w => if Str.truthy w then [(key, w)] else []
  | None => []
  end.

(** The writes that [Promise.all] gathers. *)
Definition writes (x : Settings) : list (string * string) :=
  [ ("accessibility-text-size", textSize x);
    ("accessibility-line-height", lineHeight x);
    ("accessibility-letter-spacing", letterSpacing x);
    ("accessibility-word-spacing", wordSpacing x);
    ("accessibility-contrast", contrast x);
    ("accessibility-saturation", saturation x);
    ("accessibility-monochrome", boolString (monochrome x));
    ("accessibility-hide-images", boolString (hideImages x));
    ("accessibility-highlight-titles", boolString (highlightTitles x));
    ("accessibility-highlight-links", boolString (highlightLinks x));
    ("accessibility-font-family", fontFamily x);
    ("accessibility-screen-reader", boolString (screenReader x)) ]
  ++ optionalWrite "accessibility-position" (internalPosition x)
  ++ optionalWrite "accessibility-theme" (internalTheme x).

(** Every write is started; the batch fails when one of them rejects. *)
Definition saveAll (c : Component Store) : Component Store * bool :=
  foldl (λ acc kv, let r := saveToStorage kv.1 kv.2 acc.1 in (r.1, acc.2 && r.2))
        (c, true) (writes (current c)).

(** The [try] block applies, writes, clears the flag and announces; the
    [catch] block logs and announces the failure; [finally] ends the
    saving. The [catch] block is reached here by a write that storage
    rejects. On a page with an input whose id is not plain
    ([plainInputs], see [labelFor]) [enableScreenReaderMode] can throw
    inside the [try] block before any write; that run is outside the
    model, and what is stated of a save with the screen reader on is
    stated for pages of plain inputs. *)
Definition handleSaveSettings (c : Component Store) : Component Store :=
  let shown := screenReader (current c) in
  let c := onPanel (setIsSaving true) c in
  let c := applyAll c in
  let '(c, ok) := saveAll c in
  let c := if ok
           then announceChange shown "Settings saved"
                  (onPanel (setHasUnsavedChanges false) c)
           else
             let c := onEngine (onPage (consoleError "Failed to save accessibility settings:")) c in
             announceChange shown "Failed to save settings. Please try again." c in
  onPanel (setIsSaving false) c.

(** *** [loadSettings] *)

Definition loadFromStorage (key : string) (c : Component Store) : option string :=
  getItem handler key (storage c).

(** A stored boolean: present, and ['true'] or anything else. *)
Definition loadFlag (key : string) (set : bool → Settings → Settings)
    (c : Component Store) : Component Store :=
  match loadFromStorage key c with
  | Some saved => update (set (String.eqb saved "true")) c
  | None => c
  end.

(** A stored value that must be one of the listed ones. *)
Definition loadEnum (key : string) (valid : string → bool)
    (set : string → Settings → Settings) (c : Component Store) : Component Store :=
  match loadFromStorage key c with
  | Some saved => if valid saved then update (set saved) c else c
  | None => c
  end.

Definition loadSettingsState (c : Component Store) : Component Store :=
  let c := loadFlag "accessibility-monochrome" setMonochrome c in
  let c := loadEnum "accessibility-saturation" isSaturationLevel setSaturation c in
  let c := loadFlag "accessibility-hide-images" setHideImages c in
  let c := loadFlag "accessibility-highlight-titles" setHighlightTitles c in
  let c := loadFlag "accessibility-highlight-links" setHighlightLinks c in
  let c := loadEnum "accessibility-contrast" isContrastLevel setContrast c in
  let c := loadEnum "accessibility-position" isPanelPosition
                    (λ v, setInternalPosition (Some v)) c in
  let c := loadEnum "accessibility-theme" isThemeMode (λ v, setInternalTheme (Some v)) c in
  let c := match loadFromStorage "accessibility-font-family" c with
           | Some saved => update (setFontFamily saved) c
           | None => c
           end in
  let c := loadEnum "accessibility-text-size" isTextSize setTextSize c in
  let c := loadEnum "accessibility-line-height" isLineHeight setLineHeight c in
  let c := loadEnum "accessibility-letter-spacing" isSpacing setLetterSpacing c in
  let c := loadEnum "accessibility-word-spacing" isSpacing setWordSpacing c in
  match loadFromStorage "accessibility-screen-reader" c with
  | Some saved =>
      let on := String.eqb saved "true" in
      onEngine (λ s, mkSt (page s) (setUseSpeechSynthesis on (vars s)))
               (update (setScreenReader on) c)
  | None => c
  end.

(** The timers [loadSettings] sets, by delay in milliseconds. *)
Definition loadSettingsTimers (c : Component Store) : list (N * Deferred) :=
  (if bool_decide (loadFromStorage "accessibility-hide-images" c = Some "true")
   then [(100%N, DeferHideImages)] else [])
  ++ (if bool_decide (loadFromStorage "accessibility-highlight-titles" c = Some "true")
      then [(100%N, DeferHighlightTitles)] else [])
  ++ (if bool_decide (loadFromStorage "accessibility-highlight-links" c = Some "true")
      then [(100%N, DeferHighlightLinks)] else [])
  ++ (match loadFromStorage "accessibility-contrast" c with
      | Some saved => if isContrastLevel saved && negb (String.eqb saved "default")
                      then [(100%N, DeferContrast saved)] else []
      | None => []
      end)
  ++ (if bool_decide (loadFromStorage "accessibility-screen-reader" c = Some "true")
      then [(100%N, DeferScreenReader)] else [])
  ++ [(200%N, DeferEndInitialLoad)].

Definition runDeferred (t : Deferred) (c : Component Store) : Component Store :=
  match t with
  | DeferHideImages => hideImagesIn true c
  | DeferHighlightTitles => onDoc (applyHighlightTitles true) c
  | DeferHighlightLinks => onDoc (applyHighlightLinks true) c
  | DeferContrast level => onDoc (applyContrast level) c
  | DeferScreenReader => onEngine (enable (fullConfig enableOptions)) c
  | DeferEndInitialLoad =>
      onPanel (setRefs (match saveMode props with auto => true | manual => false end) false) c
  end.

(** Loading: the state is set, the effects of the changed settings run
    (the initial load is still on), and the timers fire, the 100 ms ones
    before the 200 ms one. *)
Definition loadSettings (c : Component Store) : Component Store :=
  let old := current c in
  let timers := loadSettingsTimers c in
  let c := runEffects old (loadSettingsState c) in
  foldl (λ c t, runDeferred t.2 c) c timers.

End Component.

End AccessibilityPanel.

(** ** The vocabulary of the properties *)

Module Session.
Import Dom Browser ScreenReaderUtils.

(** The snapshot entry of an attribute of an element, if there is one. *)
Definition recorded (s : St) (e : NodeId) (a : string) : option (option string) :=
  originalAttributes (vars s) !! e ≫= λ attrs, attrs !! a.

(** The node is known to the document, attached or not. *)
Definition existsIn (d : Document) (e : NodeId) : Prop := is_Some (heap d !! e).

(** An element node of the heap that carries the id [i]. *)
Definition elementWithId (d : Document) (i : string) (n : NodeId) : Prop :=
  ∃ x, heap d !! n = Some x ∧ String.eqb (nodeName x) "#text" = false
       ∧ attributes x !! "id" = Some i.

(** Identities are handed out in increasing order. *)
Definition allocated (d : Document) : Prop :=
  ∀ e, is_Some (heap d !! e) → (e < nextId d)%nat.

(** Every attached node has an identity that was handed out. *)
Definition attachedBelow (d : Document) : Prop :=
  ∀ x, x ∈ preorder (tree d) → (x < nextId d)%nat.

(** The attribute names that go through the snapshot: all but the three
    the engine writes directly. *)
Definition managedName (a : string) : bool :=
  negb (bool_decide (a ∈ ["id"; "class"; "data-screen-reader"])).

(** The mode marks on the body. *)
Definition bodyMark (d0 : Document) (e : NodeId) (a : string) : Prop :=
  e = body d0 ∧ (a = "class" ∨ a = "data-screen-reader").

(** What holds of an enhancement session that started from document
    [d0] with an empty snapshot: the snapshot holds original values only;
    an attribute without an entry still has its original value, ids and
    the body's marks aside; an id that was there is still the same. *)
Record Inv (d0 : Document) (s : St) : Prop := mkInv {
  inv_names : ∀ e a v, recorded s e a = Some v → managedName a = true;
  inv_first : ∀ e a v, existsIn d0 e → recorded s e a = Some v → v = getAttribute d0 e a;
  inv_rest : ∀ e a, existsIn d0 e → a ≠ "id" → ¬ bodyMark d0 e a →
               recorded s e a = None → getAttribute (doc s) e a = getAttribute d0 e a;
  inv_heap : ∀ e, existsIn d0 e → existsIn (doc s) e;
  inv_next : (nextId d0 ≤ nextId (doc s))%nat;
  inv_ids : ∀ e, existsIn d0 e → Str.truthy (attr d0 e "id") = true →
              getAttribute (doc s) e "id" = getAttribute d0 e "id";
  inv_body : body (doc s) = body d0;
  inv_alloc : allocated d0;
}.

(** Two states that agree on everything [Inv] looks at. *)
Record sameAttributes (s s' : St) : Prop := mkSame {
  same_snapshot : originalAttributes (vars s') = originalAttributes (vars s);
  same_heap : ∀ e, existsIn (doc s) e → existsIn (doc s') e;
  same_attr : ∀ e a, existsIn (doc s) e → getAttribute (doc s') e a = getAttribute (doc s) e a;
  same_next : (nextId (doc s) ≤ nextId (doc s'))%nat;
  same_body : body (doc s') = body (doc s);
}.

(** Writing an attribute is harmless when the pair is in the snapshot,
    when the element is not an original one, when it is one of the body's
    marks, or when it gives an id to an element that has none. *)
Definition writable (d0 : Document) (s : St) (e : NodeId) (a : string) : Prop :=
  is_Some (recorded s e a) ∨ ¬ existsIn d0 e ∨ bodyMark d0 e a
  ∨ (a = "id" ∧ Str.truthy (attr (doc s) e "id") = false).

(** An operation on the document that leaves the heap alone. *)
Definition shapeOnly (f : Document → Document) : Prop :=
  ∀ d, heap (f d) = heap d ∧ nextId (f d) = nextId d ∧ body (f d) = body d.

(** A write to one of the body's two marks. *)
Definition marksBody (x : string) (f : Document → Document) : Prop :=
  ∀ d, body (f d) = body d ∧ nextId (f d) = nextId d
       ∧ (∀ e, existsIn (f d) e ↔ existsIn d e)
       ∧ (∀ e a, (body d, x) ≠ (e, a) → getAttribute (f d) e a = getAttribute d e a).

(** [enable] run [n] times in a row. *)
Fixpoint enableTimes (n : nat) (config : ScreenReaderConfig) (s : St) : St :=
  match n with
  | 0 => s
  | S k => enableTimes k config (enable config s)
  end.

End Session.

(** ** The accessible name, in the words of the specification *)

Module NameSpec.
Import Dom ScreenReaderUtils.

(** The elements an [aria-labelledby] value refers to. *)
Definition referents (d : Document) (element : NodeId) : list NodeId :=
  if Str.truthy (attr d element "aria-labelledby")
  then omap (getElementById d) (Str.split " " (attr d element "aria-labelledby"))
  else [].

Definition referentsText (d : Document) (element : NodeId) : string :=
  Str.join " " (map (λ el, Str.trim (textContent d el)) (referents d element)).

(** The [label for] element of a form control with an id: the first
    [label] in document order whose [for] is that id. *)
Definition associatedLabel (d : Document) (element : NodeId) : option NodeId :=
  if isFormControl d element && Str.truthy (attr d element "id")
  then querySelector d (labelFor (attr d element "id"))
  else None.

(** The six results in the order of the specification: the text of the
    [aria-labelledby] referents, [aria-label], the text of the associated
    label (form controls), [title], [alt] (images), the trimmed text. *)
Definition candidates (d : Document) (element : NodeId) : list string :=
  [ referentsText d element;
    attr d element "aria-label";
    match associatedLabel d element with
    | Some l => Str.trim (textContent d l)
    | None => ""
    end;
    attr d element "title";
    if String.eqb (tagOf d element) "img" then attr d element "alt" else "";
    Str.trim (textContent d element) ].

(** The first non-empty result, else the empty string. *)
Definition firstNonEmpty (l : list string) : string :=
  default "" (List.find Str.truthy l).

Definition nameByFirstNonEmpty (d : Document) (element : NodeId) : string :=
  firstNonEmpty (candidates d element).

End NameSpec.

(** ** What loading makes of the stored strings *)

Module LoadSpec.
Import AccessibilityPanel.

(** A stored value of an enumerated setting: taken when it is one of the
    values of the enumeration, else the default stays. *)
Definition storedEnum (valid : string → bool) (dflt : string) (v : option string) : string :=
  match v with
  | Some w => if valid w then w else dflt
  | None => dflt
  end.

Definition storedChoice (valid : string → bool) (v : option string) : option string :=
  match v with
  | Some w => if valid w then Some w else None
  | None => None
  end.

(** A stored flag: on exactly for the string ["true"]. *)
Definition storedFlag (v : option string) : bool :=
  match v with
  | Some w => String.eqb w "true"
  | None => false
  end.

(** One stored value entering the settings. *)
Definition step (o : option string) (valid : string → bool)
    (set : string → Settings → Settings) (x : Settings) : Settings :=
  match o with
  | Some v => if valid v then set v x else x
  | None => x
  end.

(** The font families the panel knows: the four built in and the keys of
    [customFonts]. *)
Definition isFontFamily (props : Props) (v : string) : bool :=
  bool_decide (v ∈ ["default"; "sans-serif"; "serif"; "dyslexia-friendly"])
  || bool_decide (is_Some (customFonts props !! v)).

(** The domain of the setting stored under a key, for the eight
    enumerated settings. *)
Definition domain (key : string) : option (string → bool) :=
  if String.eqb key "accessibility-text-size" then Some isTextSize
  else if String.eqb key "accessibility-line-height" then Some isLineHeight
  else if String.eqb key "accessibility-letter-spacing" then Some isSpacing
  else if String.eqb key "accessibility-word-spacing" then Some isSpacing
  else if String.eqb key "accessibility-contrast" then Some isContrastLevel
  else if String.eqb key "accessibility-saturation" then Some isSaturationLevel
  else if String.eqb key "accessibility-position" then Some isPanelPosition
  else if String.eqb key "accessibility-theme" then Some isThemeMode
  else None.

(** The storage as it reads once every value outside the domain of its
    enumerated setting is taken out. *)
Definition withoutInvalid {Store} (handler : StorageHandler Store) : StorageHandler Store :=
  mkHandler
    (λ key st,
       match domain key with
       | Some valid => storedChoice valid (getItem handler key st)
       | None => getItem handler key st
       end)
    (setItem handler).

End LoadSpec.

(** ** Contrast levels *)

Module ContrastSpec.
Import Dom AccessibilityPanel Session.

(** The elements of the document that carry the id of the contrast
    style sheet, in document order. *)
Definition styleElements (d : Document) : list NodeId :=
  filter (λ n, hasId d contrastStyleId n = true) (preorder (tree d)).

(** A document the panel can work on: no node is attached twice, attached
    nodes have identities that were handed out, the document element is
    known, the head is a child of it, neither of the two carries the id of
    the contrast style sheet, and at most one element does. *)
Record wellFormed (d : Document) : Prop := mkWellFormed {
  wf_nodup : NoDup (preorder (tree d));
  wf_below : attachedBelow d;
  wf_root : is_Some (heap d !! documentElement d);
  wf_head : head d ∈ map rootId (kids (tree d));
  wf_root_id : hasId d contrastStyleId (documentElement d) = false;
  wf_head_id : hasId d contrastStyleId (head d) = false;
  wf_one : (length (styleElements d) ≤ 1)%nat;
}.

(** What the document shows of a contrast level. *)
Definition shows (level : string) (d : Document) : Prop :=
  if String.eqb level "default"
  then getAttribute d (documentElement d) "data-contrast" = None
       ∧ styleElements d = []
       ∧ getElementById d contrastStyleId = None
  else getAttribute d (documentElement d) "data-contrast" = Some level
       ∧ ∃ e, styleElements d = [e]
              ∧ tagOf d e = "style"
              ∧ getElementById d contrastStyleId = Some e
              ∧ match contrastStyleSheet level with
                | Some css => textContent d e = css
                | None => True
                end.

(** The first step of [applyContrast]: the style element found by its
    id is taken out of its parent. *)
Definition withoutStyle (d : Document) : Document :=
  match getElementById d contrastStyleId with
  | Some styleElement =>
      match parentNode d styleElement with
      | Some p => removeChild p styleElement d
      | None => d
      end
  | None => d
  end.

(** One level after the other. *)
Definition applyEach (levels : list string) (d : Document) : Document :=
  foldl (λ d level, applyContrast level d) d levels.

End ContrastSpec.

(** ** Manual save mode *)

Module ManualSpec.
Import Dom Browser ScreenReaderUtils AccessibilityPanel.


(** The browser after a step in which at most an announcement happened:
    the document, the frames and the timers are those of [s], or those an
    [announceToScreenReader(message, 'polite')] makes of them. *)
Definition announcesOnly (screenReaderOn : bool) (s s' : St) : Prop :=
  ∃ sm, doc sm = doc s ∧ frames (page sm) = frames (page s)
        ∧ timers (page sm) = timers (page s)
        ∧ (s' = sm
           ∨ (screenReaderOn = true
              ∧ ∃ message, s' = announceToScreenReaderIn message polite sm)).

(** The settings after one change. *)
Definition changed (ch : Change) : Settings → Settings :=
  match ch with
  | ChangeTextSize v => setTextSize v
  | ChangeLineHeight v => setLineHeight v
  | ChangeLetterSpacing v => setLetterSpacing v
  | ChangeWordSpacing v => setWordSpacing v
  | ChangeContrast v => setContrast v
  | ChangeSaturation v => setSaturation v
  | ChangeScreenReader b => setScreenReader b
  | ChangeMonochrome b => setMonochrome b
  | ChangeHideImages b => setHideImages b
  | ChangeHighlightTitles b => setHighlightTitles b
  | ChangeHighlightLinks b => setHighlightLinks b
  | ChangePosition v => setInternalPosition (Some v)
  | ChangeTheme v => setInternalTheme (Some v)
  | ChangeFontFamily v => setFontFamily v
  end.



(** The store after every write of the batch, for a handler that accepts
    them all. *)
Definition written {Store} (handler : StorageHandler Store)
    (l : list (string * string)) (st : Store) : Store :=
  foldl (λ st kv, default st (setItem handler kv.1 kv.2 st)) st l.




End ManualSpec.

(** ** Small documents to run the engine on *)

Module Fixtures.
Import Dom Browser ScreenReaderUtils AccessibilityPanel.

Definition element (tag : string) (attrs : list (string * string)) : NodeData :=
  mkNode tag (list_to_map attrs) ∅ "" 0 0 0 0 0 0.

(** A page around a document: nothing pending, no speech synthesis. *)
Definition pageOf (d : Document) : Page :=
  mkPage d [] [] 0 None false false (λ n, "r" +:+ Str.ofN (N.of_nat n)) 0 [] [].

Definition startOn (d : Document) : St := mkSt (pageOf d) initialVars.

(** [<html><head></head><body></body></html>] *)
Definition emptyDocument : Document :=
  mkDocument (T 0 [T 1 []; T 2 []])
    (list_to_map [(0, element "html" []); (1, element "head" []);
                  (2, element "body" [])])
    1 2 3.

(** [<body><fieldset><legend>Who</legend></fieldset></body>] *)
Definition fieldsetDocument : Document :=
  mkDocument (T 0 [T 1 []; T 2 [T 3 [T 4 [T 5 []]]]])
    (list_to_map [(0, element "html" []); (1, element "head" []);
                  (2, element "body" []); (3, element "fieldset" []);
                  (4, element "legend" []); (5, newText "Who")])
    1 2 6.

(** [<body><span id=x></span>
          <button aria-labelledby=x aria-label=Hi>Go</button><img></body>] *)
Definition namesDocument : Document :=
  mkDocument (T 0 [T 1 []; T 2 [T 3 []; T 4 [T 5 []]; T 6 []]])
    (list_to_map [(0, element "html" []); (1, element "head" []);
                  (2, element "body" []); (3, element "span" [("id", "x")]);
                  (4, element "button" [("aria-labelledby", "x"); ("aria-label", "Hi")]);
                  (5, newText "Go"); (6, element "img" [])])
    1 2 7.

(** [<body><label for=name>Name</label><input id=name title=Your name>
          <label for=q></label><input id=q title=Query></body>] *)
Definition labelsDocument : Document :=
  mkDocument (T 0 [T 1 []; T 2 [T 3 [T 4 []]; T 5 []; T 6 []; T 7 []]])
    (list_to_map [(0, element "html" []); (1, element "head" []);
                  (2, element "body" []);
                  (3, element "label" [("for", "name")]); (4, newText "Name");
                  (5, element "input" [("id", "name"); ("title", "Your name")]);
                  (6, element "label" [("for", "q")]);
                  (7, element "input" [("id", "q"); ("title", "Query")])])
    1 2 8.

(** The component as mounted, over web storage with the given content. *)
Definition mounted (props : Props) (stored : list (string * string))
    : Component (gmap string string) :=
  mkComponent (initialPanel props) (startOn emptyDocument) (list_to_map stored).

Definition manualProps : Props := mkProps manual ∅.

(** The component in manual mode after the initial load, with the
    screen-reader setting as given. *)
Definition manualAfterLoad (screenReaderOn : bool) : Component (gmap string string) :=
  mkComponent
    (mkPanel (setScreenReader screenReaderOn defaultSettings) false false false false ∅ "" [])
    (startOn emptyDocument) ∅.



End Fixtures.

(** ** What the panel keeps in storage *)

Module Persistence.
Import Dom Browser ScreenReaderUtils AccessibilityPanel.

(** Every enumerated setting holds one of its values. *)
Definition valid (x : Settings) : bool :=
  isTextSize (textSize x) && isLineHeight (lineHeight x)
  && isSpacing (letterSpacing x) && isSpacing (wordSpacing x)
  && isContrastLevel (contrast x) && isSaturationLevel (saturation x)
  && match internalPosition x with Some w => isPanelPosition w | None => true end
  && match internalTheme x with Some w => isThemeMode w | None => true end.

(** The key and the value a change handler hands to [conditionalSave]. *)
Definition entry (ch : Change) : string * string :=
  match ch with
  | ChangeTextSize v => ("accessibility-text-size", v)
  | ChangeLineHeight v => ("accessibility-line-height", v)
  | ChangeLetterSpacing v => ("accessibility-letter-spacing", v)
  | ChangeWordSpacing v => ("accessibility-word-spacing", v)
  | ChangeContrast v => ("accessibility-contrast", v)
  | ChangeSaturation v => ("accessibility-saturation", v)
  | ChangeScreenReader b => ("accessibility-screen-reader", boolString b)
  | ChangeMonochrome b => ("accessibility-monochrome", boolString b)
  | ChangeHideImages b => ("accessibility-hide-images", boolString b)
  | ChangeHighlightTitles b => ("accessibility-highlight-titles", boolString b)
  | ChangeHighlightLinks b => ("accessibility-highlight-links", boolString b)
  | ChangePosition v => ("accessibility-position", v)
  | ChangeTheme v => ("accessibility-theme", v)
  | ChangeFontFamily v => ("accessibility-font-family", v)
  end.

(** What an apply function leaves alone: the storage, the settings, the
    unsaved-changes flag and the two refs. *)
Definition keeps {Store} (apply : Component Store → Component Store) : Prop :=
  ∀ c, storage (apply c) = storage c ∧ current (apply c) = current c
       ∧ hasUnsavedChanges (panel (apply c)) = hasUnsavedChanges (panel c)
       ∧ shouldApplyEffectsRef (panel (apply c)) = shouldApplyEffectsRef (panel c)
       ∧ isInitialLoadRef (panel (apply c)) = isInitialLoadRef (panel c).

(** A storage handler whose [setItem] throws for one key, as a full or
    restricted store does, and stores every other entry. *)
Definition rejecting (key : string) : StorageHandler (gmap string string) :=
  mkHandler (λ k m, m !! k)
            (λ k v m, if String.eqb k key then None else Some (<[k := v]> m)).

Definition autoProps : Props := mkProps auto ∅.

End Persistence.

(** ** [handleReset] *)

Module Reset.
Import Dom Browser ScreenReaderUtils AccessibilityPanel.

(** [removeItem] of a storage handler: the store without the key, or
    [None] when the handler throws. *)
Record Removal (Store : Type) := mkRemoval {
  removeItem : string → Store → option Store;
}.
Arguments mkRemoval {Store} _.
Arguments removeItem {Store} _ _ _.

Definition webRemoval : Removal (gmap string string) :=
  mkRemoval (λ k m, Some (delete k m)).

(** The keys [handleReset] removes, in its order. *)
Definition resetKeys : list string :=
  [ "accessibility-monochrome"; "accessibility-saturation"; "accessibility-hide-images";
    "accessibility-highlight-titles"; "accessibility-highlight-links";
    "accessibility-position"; "accessibility-theme"; "accessibility-font-family";
    "accessibility-text-size"; "accessibility-line-height";
    "accessibility-letter-spacing"; "accessibility-word-spacing";
    "accessibility-screen-reader"; "accessibility-contrast" ].

Section Component.
Context {Store : Type} (removal : Removal Store) (props : Props).

(** [removeFromStorage]: the store after the removal and whether it was
    accepted. *)
Definition removeFromStorage (key : string) (c : Component Store) : Component Store * bool :=
  match removeItem removal key (storage c) with
  | Some st => (mkComponent (panel c) (engine c) st, true)
  | None => (c, false)
  end.

(** Every removal is started; the batch fails when one of them rejects. *)
Definition removeAll (c : Component Store) : Component Store * bool :=
  foldl (λ acc key, let r := removeFromStorage key acc.1 in (r.1, acc.2 && r.2))
        (c, true) resetKeys.

(** The styles [handleReset] writes. *)
Definition resetDocument (d : Document) : Document :=
  let d := setStyle (documentElement d) "--accessibility-font-family" "inherit" d in
  let d := setStyle (body d) "font-family" "inherit" d in
  let d := setStyle (documentElement d) "--font-scale" "1" d in
  let d := setStyle (documentElement d) "--line-height-scale" "1.5" d in
  let d := setStyle (documentElement d) "--letter-spacing-scale" "0" d in
  let d := setStyle (documentElement d) "--word-spacing-scale" "0" d in
  setStyle (documentElement d) "filter" "" d.

(** What [handleReset] applies at once, whatever the save mode: the
    neutral styles, the images shown, the highlights off, the contrast
    style of level ['low'], speech synthesis off, and the screen-reader
    mode off when the body carries its class. *)
Definition resetEffects (c : Component Store) : Component Store :=
  let c := onDoc resetDocument c in
  let c := hideImagesIn false c in
  let c := onDoc (applyHighlightTitles false) c in
  let c := onDoc (applyHighlightLinks false) c in
  let c := onDoc (applyContrast "low") c in
  let c := onEngine (λ s, mkSt (page s) (setUseSpeechSynthesis false (vars s))) c in
  if classListContains (doc (engine c)) (body (doc (engine c))) "screen-reader-mode"
  then onEngine disable c else c.

(** [handleReset]: the state goes back to the defaults; the handler
    applies its effects and starts the removals; the effects of the state
    change run; after the removals the reset is announced, unless one of
    them rejected. *)
Definition handleReset (c : Component Store) : Component Store :=
  let old := current c in
  let c := update (λ _, defaultSettings) c in
  let c := onPanel (setHasUnsavedChanges false) c in
  let c := resetEffects c in
  let '(c, ok) := removeAll c in
  let c := runEffects props old c in
  if ok
  then announceChange (screenReader old)
         "All accessibility settings have been reset to default values" c
  else c.

End Component.

End Reset.

(** ** The reading shortcuts of [screenReaderUtils.ts] *)

Module Reading.
Import Dom Browser ScreenReaderUtils.

(** One heading as it is read: its level and its text. *)
Definition headingText (d : Document) (h : NodeId) : string :=
  tagOf d h +:+ ": " +:+ Str.orElse (Str.trim (textContent d h)) "Empty heading".

Definition readHeadings (s : St) : St :=
  let found := querySelectorAll (doc s) headings in
  match found with
  | [] => speakMessage "No headings found on this page" polite s
  | _ =>
      let headingTexts := map (headingText (doc s)) found in
      speakMessage ("Page headings: " +:+ Str.join ". " headingTexts) polite s
  end.

Definition links : Selector := [sel1 [STag "a"; SHas "href"]].

(** One link as it is read: its text, else its [aria-label], else a
    stand-in. *)
Definition linkText (d : Document) (link : NodeId) : string :=
  Str.orElse (Str.trim (textContent d link))
             (Str.orElse (attr d link "aria-label") "Unnamed link").

(** [Array.from(links).slice(0, 10).map(...)] *)
Definition linkTexts (d : Document) : list string :=
  map (linkText d) (take 10 (querySelectorAll d links)).

Definition linksMessage (d : Document) : string :=
  let found := querySelectorAll d links in
  let count := Str.ofN (N.of_nat (length found)) in
  if bool_decide (10 < length found)%nat
  then "First 10 of " +:+ count +:+ " links: " +:+ Str.join ", " (linkTexts d)
  else count +:+ " links: " +:+ Str.join ", " (linkTexts d).

Definition readLinks (s : St) : St :=
  match querySelectorAll (doc s) links with
  | [] => speakMessage "No links found on this page" polite s
  | _ => speakMessage (linksMessage (doc s)) polite s
  end.

(** [<body><a href=/>Home</a><a href=/x></a><a>No target</a></body>] *)
Definition linksDocument : Document :=
  mkDocument (T 0 [T 1 []; T 2 [T 3 [T 4 []]; T 5 []; T 6 [T 7 []]]])
    (list_to_map
       [(0, newElement "html"); (1, newElement "head"); (2, newElement "body");
        (3, withAttributes (insert "href" "/") (newElement "a")); (4, newText "Home");
        (5, withAttributes (insert "href" "/x") (newElement "a"));
        (6, newElement "a"); (7, newText "No target")])
    1 2 8.

End Reading.

(** ** Hidden images *)

Module HideSpec.
Import Dom Browser AccessibilityPanel.

(** The data of an image once [applyHideImages(true)] has hidden it: the
    three data attributes hold its former inline [display], [width] and
    [height], and its [display] is ['none']. *)
Definition hiddenImage (x : NodeData) : NodeData :=
  withStyle (insert "display" "none")
    (withAttributes
       (λ a, <["data-original-height" := default "" (style x !! "height")]>
               (<["data-original-width" := default "" (style x !! "width")]>
                  (<["data-original-display" := default "" (style x !! "display")]> a)))
       x).

(** The alternative text a placeholder shows. *)
Definition altOf (x : NodeData) : string :=
  Str.orElse (default "" (attributes x !! "alt")) "Image".

(** The data of the placeholder made for an image. *)
Definition placeholderOf (x : NodeData) : NodeData :=
  withAttributes (insert "aria-label" ("Image: " +:+ altOf x))
    (withStyle (λ _, list_to_map (placeholderCss (measuredWidth x) (measuredHeight x)))
       (withAttributes (insert "class" "image-placeholder") (newElement "div"))).

(** The images [applyHideImages] works on. *)
Definition images (d : Document) : list NodeId := querySelectorAll d visibleImages.

Definition isVisibleImage (d : Document) (x : NodeId) : bool :=
  matchesCompound d x [STag "img"; SNot (SEq "aria-hidden" "true")].

(** No image of the page is hidden: none carries the attribute that marks
    a processed image. *)
Definition noneHidden (d : Document) : Prop :=
  ∀ img, img ∈ images d → hasAttribute d img "data-original-display" = false.

Definition allHidden (d : Document) : Prop :=
  ∀ img, img ∈ images d → hasAttribute d img "data-original-display" = true.

(** Where [applyHideImages(true)] stands after the images [seen], from
    the document [d0] and the placeholders [ph0]: the nodes of [d0] are
    as they were, the images seen aside, which are hidden; each of those
    has its placeholder among the nodes made since; the nodes made since
    are no images; and the tree has the nodes of [d0] and new ones. *)
Record hiding (d0 : Document) (ph0 : gmap nat nat) (seen : list NodeId)
    (d : Document) (ph : gmap nat nat) : Prop := mkHiding {
  hiding_next : (nextId d0 ≤ nextId d)%nat;
  hiding_old : ∀ n, (n < nextId d0)%nat →
    heap d !! n = if bool_decide (n ∈ seen) then hiddenImage <$> heap d0 !! n
                  else heap d0 !! n;
  hiding_new : ∀ n y, (nextId d0 ≤ n)%nat → heap d !! n = Some y →
    (n < nextId d)%nat ∧ nodeName y ≠ "img";
  hiding_placeholder : ∀ img, img ∈ seen →
    ∃ p x0, ph !! img = Some p ∧ heap d0 !! img = Some x0 ∧ (nextId d0 ≤ p)%nat
            ∧ heap d !! p = Some (placeholderOf x0);
  hiding_others : ∀ n, n ∉ seen → ph !! n = ph0 !! n;
  hiding_tree : ∀ y, y ∈ preorder (tree d) → y ∈ preorder (tree d0) ∨ (nextId d0 ≤ y)%nat;
  hiding_kept : ∀ y, y ∈ preorder (tree d0) → y ∈ preorder (tree d);
}.

(** [el.style.p = v] on the declarations. *)
Definition declare (p v : string) (m : gmap string string) : gmap string string :=
  if Str.truthy v then <[p := v]> m else delete p m.

(** The data of a hidden image once [applyHideImages(false)] has shown it
    again. *)
Definition shownImage (x : NodeData) : NodeData :=
  withAttributes
    (λ a, delete "data-original-height"
            (delete "data-original-width" (delete "data-original-display" a)))
    (withStyle
       (λ m, declare "height" (default "" (style x !! "height"))
               (declare "width" (default "" (style x !! "width"))
                  (declare "display" (default "" (style x !! "display")) m)))
       (hiddenImage x)).

(** Where [applyHideImages(false)] stands after the images [seen], from
    the hidden document [d1] with the placeholders [ph1]. *)
Record showing (d0 d1 : Document) (ph1 : gmap nat nat) (seen : list NodeId)
    (d : Document) (ph : gmap nat nat) : Prop := mkShowing {
  showing_next : nextId d = nextId d1;
  showing_image : ∀ n x0, n ∈ images d0 → heap d0 !! n = Some x0 →
    heap d !! n = Some (if bool_decide (n ∈ seen) then shownImage x0 else hiddenImage x0);
  showing_other : ∀ n, n ∉ images d0 → heap d !! n = heap d1 !! n;
  showing_placeholders : ∀ n, ph !! n = if bool_decide (n ∈ seen) then None else ph1 !! n;
}.

(** The tree once the placeholder [n], with its text [S n], stands
    after [img]. *)
Definition withPlaceholder (img n : NodeId) (t : Tree) : Tree :=
  match parentOf img t with
  | Some par =>
      match match subtree par t with
            | Some s => nextIn img (kids s)
            | None => None
            end with
      | Some r => updateKids par (insertBeforeIn (T n [T (S n) []]) r) t
      | None => updateKids par (λ ks, ks ++ [T n [T (S n) []]]) t
      end
  | None => t
  end.

(** The tree once the placeholder of [img] is taken out. *)
Definition withoutPlaceholder (ph : gmap nat nat) (img : NodeId) (t : Tree) : Tree :=
  match ph !! img with
  | Some p => match parentOf p t with
              | Some par => updateKids par (removeIn p) t
              | None => t
              end
  | None => t
  end.

(** A tree without the children that [keep] rejects, each dropped with
    all that is below it. *)
Fixpoint prune (keep : NodeId → bool) (t : Tree) : Tree :=
  match t with
  | T n ks =>
      T n ((fix go (l : list Tree) : list Tree :=
              match l with
              | [] => []
              | k :: r => if keep (rootId k) then prune keep k :: go r else go r
              end) ks)
  end.

Definition pruneKids (keep : NodeId → bool) (ks : list Tree) : list Tree :=
  flat_map (λ k, if keep (rootId k) then [prune keep k] else []) ks.

(** The children that [prune] drops. *)
Fixpoint extras (keep : NodeId → bool) (t : Tree) : list NodeId :=
  match t with
  | T n ks =>
      (fix go (l : list Tree) : list NodeId :=
         match l with
         | [] => []
         | k :: r => (if keep (rootId k) then extras keep k else [rootId k]) ++ go r
         end) ks
  end.

Definition extrasKids (keep : NodeId → bool) (ks : list Tree) : list NodeId :=
  flat_map (λ k, if keep (rootId k) then extras keep k else [rootId k]) ks.

(** The nodes the page had before any image was hidden. *)
Definition own (d0 : Document) (n : NodeId) : bool := bool_decide ((n < nextId d0)%nat).

(** The tree while the images are hidden one by one: the page's own
    nodes are where they were, and what was added among them are
    placeholders of the images seen. *)
Record hidingTree (d0 : Document) (seen : list NodeId)
    (d : Document) (ph : gmap nat nat) : Prop := mkHidingTree {
  ht_below : ∀ y, y ∈ preorder (tree d) → (y < nextId d)%nat;
  ht_nodup : NoDup (preorder (tree d));
  ht_prune : prune (own d0) (tree d) = tree d0;
  ht_extras : ∀ y, y ∈ extras (own d0) (tree d) → ∃ img, img ∈ seen ∧ ph !! img = Some y;
}.

(** The tree while the images are shown again one by one: the
    placeholders still there belong to images not seen yet. *)
Record showingTree (d0 : Document) (ph1 : gmap nat nat) (seen : list NodeId)
    (d : Document) : Prop := mkShowingTree {
  st_nodup : NoDup (preorder (tree d));
  st_prune : prune (own d0) (tree d) = tree d0;
  st_extras : ∀ y, y ∈ extras (own d0) (tree d) →
    ∃ img, img ∈ images d0 ∧ (img ∉ seen) ∧ ph1 !! img = Some y;
}.

(** [<body><img alt=Cat, 300 by 200><p>Hi</p></body>] *)
Definition imageDocument : Document :=
  mkDocument (T 0 [T 1 []; T 2 [T 3 []; T 4 [T 5 []]]])
    (list_to_map
       [(0, mkNode "html" ∅ ∅ "" 0 0 0 0 0 0); (1, mkNode "head" ∅ ∅ "" 0 0 0 0 0 0);
        (2, mkNode "body" ∅ ∅ "" 0 0 0 0 0 0);
        (3, mkNode "img" (list_to_map [("alt", "Cat")]) ∅ "" 300 200 300 200 300 200);
        (4, mkNode "p" ∅ ∅ "" 0 0 0 0 0 0); (5, newText "Hi")])
    1 2 6.

End HideSpec.

(** ** The page around a reset *)

Module ResetSpec.
Import Dom Browser ScreenReaderUtils AccessibilityPanel HideSpec.

(** Two documents that differ in inline styles only. *)
Record styleOnly (d d' : Document) : Prop := mkStyleOnly {
  so_tree : tree d' = tree d;
  so_head : head d' = head d;
  so_body : body d' = body d;
  so_next : nextId d' = nextId d;
  so_heap : ∀ n, withStyle (λ _, ∅) <$> heap d' !! n = withStyle (λ _, ∅) <$> heap d !! n;
}.

(** A page on which the panel has nothing applied but, possibly, inline
    styles and a contrast level: a document the panel can work on, whose
    body is attached and does not carry the class of the screen-reader
    mode, with no image hidden and no highlight style sheet. *)
Record untouched (d : Document) : Prop := mkUntouched {
  un_wf : ContrastSpec.wellFormed d;
  un_body : body d ∈ preorder (tree d);
  un_mode : classListContains d (body d) "screen-reader-mode" = false;
  un_images : noneHidden d;
  un_titles : getElementById d "accessibility-highlight-titles-style" = None;
  un_links : getElementById d "accessibility-highlight-links-style" = None;
}.

(** The three spacing variables on the document element. *)
Record rootStyles (lineHeight letterSpacing wordSpacing : string) (d : Document) : Prop :=
  mkRootStyles {
  rs_lineHeight : getStyle d (documentElement d) "--line-height-scale" = lineHeight;
  rs_letterSpacing : getStyle d (documentElement d) "--letter-spacing-scale" = letterSpacing;
  rs_wordSpacing : getStyle d (documentElement d) "--word-spacing-scale" = wordSpacing;
  rs_root : is_Some (heap d !! documentElement d);
}.

(** What one of the spacing variables holds once [handleReset] is
    through: the value the handler wrote, unless the effect of the
    setting runs, which writes the scale of the level ['default'], 1. *)
Definition scaleAfterReset {Store} (get : Settings → string) (written : string)
    (c : Component Store) : string :=
  if bool_decide (get (current c) ≠ "default") && applies c then "1" else written.

(** The contrast level the page shows once [handleReset] is through: the
    effect of the [contrast] state runs, and takes the style of the
    handler away, when the level was not the default one and effects
    apply. *)
Definition levelAfterReset {Store} (c : Component Store) : string :=
  if bool_decide (contrast (current c) ≠ "default") && applies c then "default" else "low".

End ResetSpec.

(** ** The highlight style sheets *)

Module HighlightSpec.
Import Dom Session.

(** Exactly one attached element carries the id [i], and it is [e]. *)
Definition only (d : Document) (i : string) (e : NodeId) : Prop :=
  e ∈ preorder (tree d) ∧ elementWithId d i e
  ∧ ∀ m, m ∈ preorder (tree d) → elementWithId d i m → m = e.

End HighlightSpec.

(** * Properties *)

(** ** Attributes in the heap *)

Module DomFacts.
Import Dom.

Lemma getAttribute_setAttribute_eq d n a v :
  is_Some (heap d !! n) → getAttribute (setAttribute n a v d) n a = Some v.
Proof.
  intros [x Hx]. unfold getAttribute, nodeData, setAttribute. simpl.
  rewrite lookup_alter_eq, Hx. simpl. apply lookup_insert_eq.
Qed.

Lemma getAttribute_setAttribute_ne d n a v m b :
  (n, a) ≠ (m, b) → getAttribute (setAttribute n a v d) m b = getAttribute d m b.
Proof.
  intros Hne. unfold getAttribute, nodeData, setAttribute. simpl.
  destruct (decide (n = m)) as [->|Hnm].
  - rewrite lookup_alter_eq. destruct (heap d !! m); simpl; [|done].
    apply lookup_insert_ne. congruence.
  - by rewrite lookup_alter_ne.
Qed.

Lemma getAttribute_removeAttribute_eq d n a :
  getAttribute (removeAttribute n a d) n a = None.
Proof.
  unfold getAttribute, nodeData, removeAttribute. simpl.
  rewrite lookup_alter_eq. destruct (heap d !! n); simpl; [|done].
  apply lookup_delete_eq.
Qed.

Lemma getAttribute_removeAttribute_ne d n a m b :
  (n, a) ≠ (m, b) → getAttribute (removeAttribute n a d) m b = getAttribute d m b.
Proof.
  intros Hne. unfold getAttribute, nodeData, removeAttribute. simpl.
  destruct (decide (n = m)) as [->|Hnm].
  - rewrite lookup_alter_eq. destruct (heap d !! m); simpl; [|done].
    apply lookup_delete_ne. congruence.
  - by rewrite lookup_alter_ne.
Qed.

Lemma heap_alter_is_Some (h : gmap nat NodeData) f n e :
  is_Some (alter f n h !! e) ↔ is_Some (h !! e).
Proof.
  destruct (decide (n = e)) as [->|Hne].
  - rewrite lookup_alter_eq. by rewrite fmap_is_Some.
  - by rewrite lookup_alter_ne.
Qed.

Lemma getAttribute_withStyle d f n m b :
  getAttribute (setHeap (alter (withStyle f) n (heap d)) d) m b = getAttribute d m b.
Proof.
  unfold getAttribute, nodeData. simpl.
  destruct (decide (n = m)) as [->|Hnm].
  - rewrite lookup_alter_eq. by destruct (heap d !! m).
  - by rewrite lookup_alter_ne.
Qed.

Lemma getAttribute_setStyle d n p v m b :
  getAttribute (setStyle n p v d) m b = getAttribute d m b.
Proof. apply getAttribute_withStyle. Qed.

Lemma getAttribute_setCssText d n decls m b :
  getAttribute (setCssText n decls d) m b = getAttribute d m b.
Proof. apply getAttribute_withStyle. Qed.

Lemma getAttribute_createElement_old tag d m b :
  m ≠ nextId d → getAttribute (createElement tag d).2 m b = getAttribute d m b.
Proof.
  intros Hne. unfold getAttribute, nodeData. simpl. by rewrite lookup_insert_ne.
Qed.

Lemma getAttribute_createTextNode_old txt d m b :
  m ≠ nextId d → getAttribute (createTextNode txt d).2 m b = getAttribute d m b.
Proof.
  intros Hne. unfold getAttribute, nodeData. simpl. by rewrite lookup_insert_ne.
Qed.

Lemma getAttribute_setTree t d m b :
  getAttribute (setTree t d) m b = getAttribute d m b.
Proof. done. Qed.

Lemma getAttribute_writeClassList d n toks m b :
  (n, "class") ≠ (m, b) → getAttribute (writeClassList n toks d) m b = getAttribute d m b.
Proof.
  intros Hne. unfold writeClassList.
  destruct (getAttribute d n "class"), toks;
    try done; by apply getAttribute_setAttribute_ne.
Qed.

Lemma heap_writeClassList d n toks e :
  is_Some (heap (writeClassList n toks d) !! e) ↔ is_Some (heap d !! e).
Proof.
  unfold writeClassList.
  destruct (getAttribute d n "class"), toks; try done;
    simpl; apply heap_alter_is_Some.
Qed.

End DomFacts.

(** ** The snapshot of original attributes *)

Module SessionFacts.
Import Dom Browser ScreenReaderUtils Session DomFacts.

Lemma doc_store e a s : doc (storeOriginalAttribute e a s) = doc s.
Proof.
  unfold storeOriginalAttribute.
  by destruct (default ∅ (_ !! e) !! a).
Qed.

Lemma recorded_store s e a e' a' :
  recorded (storeOriginalAttribute e a s) e' a' =
    if decide (e = e' ∧ a = a')
    then Some (default (getAttribute (doc s) e a) (recorded s e a))
    else recorded s e' a'.
Proof.
  unfold recorded, storeOriginalAttribute.
  destruct (originalAttributes (vars s) !! e) as [attrs|] eqn:He; simpl.
  - rewrite He. simpl.
    destruct (attrs !! a) as [v|] eqn:Ha; simpl.
    + case_decide as Hd; [destruct Hd as [<- <-]|]; [by rewrite He; simpl; rewrite Ha|done].
    + case_decide as Hd.
      * destruct Hd as [<- <-]. rewrite lookup_insert_eq. simpl.
        by rewrite lookup_insert_eq.
      * destruct (decide (e = e')) as [<-|Hne].
        -- rewrite lookup_insert_eq, He. simpl.
           rewrite lookup_insert_ne; [done|]. intros ->. by apply Hd.
        -- by rewrite lookup_insert_ne.
  - rewrite lookup_insert_eq. simpl. rewrite lookup_empty. simpl.
    case_decide as Hd.
    + destruct Hd as [<- <-]. rewrite lookup_insert_eq. simpl.
      by rewrite lookup_insert_eq.
    + destruct (decide (e = e')) as [<-|Hne].
      * rewrite lookup_insert_eq, He. simpl.
        rewrite lookup_insert_ne; [by rewrite lookup_empty|].
        intros ->. by apply Hd.
      * by rewrite !lookup_insert_ne.
Qed.

(** Once an entry is there, storing again does not change it. *)
Lemma recorded_store_kept s e a e' a' v :
  recorded s e' a' = Some v → recorded (storeOriginalAttribute e a s) e' a' = Some v.
Proof.
  intros H. rewrite recorded_store. case_decide as Hd; [|done].
  destruct Hd as [-> ->]. by rewrite H.
Qed.

Lemma recorded_store_covered s e a :
  is_Some (recorded (storeOriginalAttribute e a s) e a).
Proof. rewrite recorded_store. rewrite decide_True by done. eauto. Qed.

Lemma recorded_onDocument f s e a : recorded (onDocument f s) e a = recorded s e a.
Proof. done. Qed.

(** *** States that agree on attributes *)

Lemma same_refl s : sameAttributes s s.
Proof. by constructor. Qed.

Lemma same_trans s1 s2 s3 :
  sameAttributes s1 s2 → sameAttributes s2 s3 → sameAttributes s1 s3.
Proof.
  intros [A1 A2 A3 A4 A5] [B1 B2 B3 B4 B5]. constructor.
  - congruence.
  - auto.
  - intros e a He. rewrite B3 by auto. auto.
  - lia.
  - congruence.
Qed.

Lemma Inv_same d0 s s' : Inv d0 s → sameAttributes s s' → Inv d0 s'.
Proof.
  intros [I1 I2 I3 I4 I5 I6 I7 I8] [A1 A2 A3 A4 A5].
  assert (∀ e a, recorded s' e a = recorded s e a) as Hrec.
  { intros e a. unfold recorded. by rewrite A1. }
  constructor.
  - intros e a v. rewrite Hrec. apply I1.
  - intros e a v. rewrite Hrec. apply I2.
  - intros e a He Ha Hb. rewrite Hrec. intros Hr. rewrite A3 by auto. auto.
  - auto.
  - lia.
  - intros e He Ht. rewrite A3 by auto. auto.
  - congruence.
  - done.
Qed.

(** What leaves the heap's attributes alone. *)
Lemma same_onPage f s :
  (∀ p, document (f p) = document p) → sameAttributes s (onPage f s).
Proof.
  intros Hf. constructor; unfold doc; simpl; rewrite ?Hf; auto.
Qed.

Lemma same_tree f s :
  (∀ d, heap (f d) = heap d ∧ nextId (f d) = nextId d ∧ body (f d) = body d) →
  sameAttributes s (onDocument f s).
Proof.
  intros Hf. destruct (Hf (doc s)) as (Hh & Hn & Hb).
  constructor; unfold doc in *; simpl.
  - done.
  - intros e. unfold existsIn. by rewrite Hh.
  - intros e a _. unfold getAttribute, nodeData. by rewrite Hh.
  - lia.
  - done.
Qed.

Lemma same_style f n s :
  sameAttributes s (onDocument (λ d, setHeap (alter (withStyle f) n (heap d)) d) s).
Proof.
  constructor; unfold doc; simpl; auto.
  - intros e. unfold existsIn. simpl. by rewrite heap_alter_is_Some.
  - intros e a _. apply getAttribute_withStyle.
Qed.

Lemma same_vars p v v' :
  originalAttributes v' = originalAttributes v → sameAttributes (mkSt p v) (mkSt p v').
Proof. intros H. by constructor. Qed.

(** *** The steps that keep the invariant *)

Lemma Inv_store d0 s e a :
  Inv d0 s → managedName a = true → Inv d0 (storeOriginalAttribute e a s).
Proof.
  intros [I1 I2 I3 I4 I5 I6 I7 I8] Hm. constructor; rewrite ?doc_store; auto.
  - intros e' a' v. rewrite recorded_store. case_decide as Hd; [|apply I1].
    destruct Hd as [<- <-]. done.
  - intros e' a' v He. rewrite recorded_store. case_decide as Hd; [|by apply I2].
    destruct Hd as [<- <-]. intros [= <-].
    destruct (recorded s e a) as [w|] eqn:Hr; simpl; [by eapply I2|].
    apply I3; [done| |  |done].
    + intros ->. done.
    + intros [_ [->| ->]]; done.
  - intros e' a' He Ha Hb. rewrite recorded_store. case_decide; [done|]. by apply I3.
Qed.

Lemma existsIn_setAttribute d n a v e :
  existsIn (setAttribute n a v d) e ↔ existsIn d e.
Proof. unfold existsIn. simpl. apply heap_alter_is_Some. Qed.

Lemma existsIn_removeAttribute d n a e :
  existsIn (removeAttribute n a d) e ↔ existsIn d e.
Proof. unfold existsIn. simpl. apply heap_alter_is_Some. Qed.

Lemma Inv_setAttr d0 s e a v :
  Inv d0 s → writable d0 s e a → Inv d0 (setAttr e a v s).
Proof.
  intros [I1 I2 I3 I4 I5 I6 I7 I8] Hw. constructor; auto.
  - intros e' a' He Ha Hb Hr. unfold setAttr, doc in *. simpl.
    rewrite getAttribute_setAttribute_ne; [by apply I3|].
    intros [= <- <-].
    destruct Hw as [[w Hw]|[Hw|[Hw|[Hw _]]]]; try done.
    rewrite recorded_onDocument in Hr. congruence.
  - intros e' He. unfold setAttr, doc. simpl. apply existsIn_setAttribute. auto.
  - intros e' He Ht. unfold setAttr, doc in *. simpl.
    destruct (decide ((e, a) = (e', "id"))) as [[= -> ->]|Hne].
    + exfalso. destruct Hw as [[w Hw]|[Hw|[Hw|[_ Hw]]]].
      * by apply I1 in Hw.
      * done.
      * destruct Hw as [_ [?|?]]; done.
      * unfold attr in Hw, Ht. rewrite I6 in Hw by done. congruence.
    + rewrite getAttribute_setAttribute_ne by done. auto.
Qed.

Lemma Inv_create d0 s tag :
  Inv d0 s → Inv d0 (create tag s).2 ∧ ¬ existsIn d0 (create tag s).1.
Proof.
  intros [I1 I2 I3 I4 I5 I6 I7 I8].
  assert (¬ existsIn d0 (nextId (doc s))) as Hfresh.
  { intros He. apply I8 in He. lia. }
  split; [|done]. unfold create. simpl.
  constructor; auto; unfold doc in *; simpl.
  - intros e a He Ha Hb Hr. unfold getAttribute, nodeData. simpl.
    rewrite lookup_insert_ne; [by apply I3|]. intros <-. done.
  - intros e He. unfold existsIn. simpl.
    rewrite lookup_insert_ne; [by apply I4|]. intros <-. done.
  - lia.
  - intros e He Ht. unfold getAttribute, nodeData. simpl.
    rewrite lookup_insert_ne; [by apply I6|]. intros <-. done.
Qed.

Lemma Inv_createText d0 s txt :
  Inv d0 s → Inv d0 (createText txt s).2 ∧ ¬ existsIn d0 (createText txt s).1.
Proof.
  intros [I1 I2 I3 I4 I5 I6 I7 I8].
  assert (¬ existsIn d0 (nextId (doc s))) as Hfresh.
  { intros He. apply I8 in He. lia. }
  split; [|done]. unfold createText. simpl.
  constructor; auto; unfold doc in *; simpl.
  - intros e a He Ha Hb Hr. unfold getAttribute, nodeData. simpl.
    rewrite lookup_insert_ne; [by apply I3|]. intros <-. done.
  - intros e He. unfold existsIn. simpl.
    rewrite lookup_insert_ne; [by apply I4|]. intros <-. done.
  - lia.
  - intros e He Ht. unfold getAttribute, nodeData. simpl.
    rewrite lookup_insert_ne; [by apply I6|]. intros <-. done.
Qed.

Lemma Inv_forEach {A} d0 (l : list A) body s :
  (∀ x s, Inv d0 s → Inv d0 (body x s)) → Inv d0 s → Inv d0 (forEach l body s).
Proof.
  intros Hb. unfold forEach. revert s.
  induction l as [|x l IH]; simpl; intros s Hs; [done|]. apply IH. by apply Hb.
Qed.

Lemma Inv_forEachIndexed {A} d0 (l : list A) body s :
  (∀ x i s, Inv d0 s → Inv d0 (body x i s)) → Inv d0 s →
  Inv d0 (forEachIndexed l body s).
Proof.
  intros Hb. unfold forEachIndexed. generalize (zip (seq 0 (length l)) l) as z.
  intros z. revert s.
  induction z as [|x z IH]; simpl; intros s Hs; [done|]. apply IH. by apply Hb.
Qed.

End SessionFacts.

(** ** The enhancement passes keep the invariant *)

Module PassFacts.
Import Dom Browser ScreenReaderUtils Session DomFacts SessionFacts.

Lemma recorded_setAttr e a v s e' a' : recorded (setAttr e a v s) e' a' = recorded s e' a'.
Proof. done. Qed.

Lemma recorded_store_is_Some s e a e' a' :
  is_Some (recorded s e' a') → is_Some (recorded (storeOriginalAttribute e a s) e' a').
Proof. intros [v Hv]. exists v. by apply recorded_store_kept. Qed.

Ltac covered :=
  repeat first
    [ rewrite recorded_setAttr
    | apply recorded_store_covered
    | apply recorded_store_is_Some ].

Ltac keep_inv :=
  repeat match goal with
    | |- Inv _ _ => assumption
    | |- Inv _ (setAttr _ "id" _ _) => fail 1
    | |- Inv _ (setAttr _ _ _ _) => apply Inv_setAttr; [|left; covered]
    | |- Inv _ (storeOriginalAttribute _ _ _) => apply Inv_store; [|reflexivity]
    end.

Lemma Inv_random d0 s : Inv d0 s → Inv d0 (random s).2.
Proof. intros H. eapply Inv_same; [done|]. by apply same_onPage. Qed.

Lemma doc_random s : doc (random s).2 = doc s.
Proof. done. Qed.

Lemma Inv_enhanceImage d0 img s : Inv d0 s → Inv d0 (enhanceImage img s).
Proof. intros H. unfold enhanceImage. keep_inv. Qed.

Lemma Inv_enhanceLink d0 x s : Inv d0 s → Inv d0 (enhanceLink x s).
Proof. intros H. unfold enhanceLink. cbv zeta. case_match; keep_inv. Qed.

Lemma Inv_enhanceButton d0 x s : Inv d0 s → Inv d0 (enhanceButton x s).
Proof. intros H. unfold enhanceButton. cbv zeta. case_match; keep_inv. Qed.

Lemma Inv_enhanceCurrent d0 x s : Inv d0 s → Inv d0 (enhanceCurrent x s).
Proof. intros H. unfold enhanceCurrent. keep_inv. Qed.

Lemma Inv_enhanceInput d0 x s : Inv d0 s → Inv d0 (enhanceInput x s).
Proof. intros H. unfold enhanceInput. cbv zeta. case_match; keep_inv. Qed.

Lemma Inv_setId d0 e v s :
  Inv d0 s → Str.truthy (attr (doc s) e "id") = false → Inv d0 (setAttr e "id" v s).
Proof. intros H Hf. apply Inv_setAttr; [done|]. right. right. right. done. Qed.

Lemma Inv_enhanceFieldset d0 x s : Inv d0 s → Inv d0 (enhanceFieldset x s).
Proof.
  intros H. unfold enhanceFieldset.
  destruct (querySelectorIn (doc s) x _) as [legend|]; [|done].
  destruct (negb _) eqn:Hid; [|done].
  apply negb_true_iff in Hid.
  destruct (random s) as [r s1] eqn:Hr.
  assert (Inv d0 s1) as H1.
  { replace s1 with (random s).2 by by rewrite Hr. by apply Inv_random. }
  assert (doc s1 = doc s) as Hd.
  { replace s1 with (random s).2 by by rewrite Hr. done. }
  cbv zeta. keep_inv. apply Inv_setId; [done|]. by rewrite Hd.
Qed.

Lemma Inv_enhanceHeaderCell d0 x s : Inv d0 s → Inv d0 (enhanceHeaderCell x s).
Proof. intros H. unfold enhanceHeaderCell. cbv zeta. keep_inv. Qed.

Lemma Inv_enhanceTable d0 x s : Inv d0 s → Inv d0 (enhanceTable x s).
Proof.
  intros H. unfold enhanceTable. cbv zeta.
  apply Inv_forEach; [intros; by apply Inv_enhanceHeaderCell|]. keep_inv.
Qed.

Lemma Inv_enhanceCollapsible d0 x s : Inv d0 s → Inv d0 (enhanceCollapsible x s).
Proof. intros H. unfold enhanceCollapsible. cbv zeta. case_match; keep_inv. Qed.

Lemma Inv_applyEnhancedAria d0 s : Inv d0 s → Inv d0 (applyEnhancedAria s).
Proof.
  intros H. unfold applyEnhancedAria. cbv zeta.
  repeat (apply Inv_forEach;
          [intros; first [by apply Inv_enhanceImage | by apply Inv_enhanceLink
                         | by apply Inv_enhanceButton | by apply Inv_enhanceCurrent
                         | by apply Inv_enhanceInput | by apply Inv_enhanceFieldset
                         | by apply Inv_enhanceTable | by apply Inv_enhanceCollapsible]|]).
  done.
Qed.

(** *** Landmarks *)

Lemma Inv_landmarkFirst d0 tag role s : Inv d0 s → Inv d0 (landmarkFirst tag role s).
Proof. intros H. unfold landmarkFirst. case_match; keep_inv. Qed.

Lemma Inv_landmarkNav d0 x i s : Inv d0 s → Inv d0 (landmarkNav x i s).
Proof. intros H. unfold landmarkNav. cbv zeta. case_match; keep_inv. Qed.

Lemma Inv_landmarkAside d0 x i s : Inv d0 s → Inv d0 (landmarkAside x i s).
Proof. intros H. unfold landmarkAside. cbv zeta. case_match; keep_inv. Qed.

Lemma Inv_landmarkSearch d0 x s : Inv d0 s → Inv d0 (landmarkSearch x s).
Proof. intros H. unfold landmarkSearch. cbv zeta. case_match; keep_inv. Qed.

Lemma Inv_landmarkSection d0 x s : Inv d0 s → Inv d0 (landmarkSection x s).
Proof.
  intros H. unfold landmarkSection.
  destruct (querySelectorIn (doc s) x _) as [heading|]; [|done].
  cbv zeta. keep_inv.
  destruct (negb _) eqn:Hid; [|done].
  apply negb_true_iff in Hid.
  destruct (random s) as [r s1] eqn:Hr.
  assert (Inv d0 s1) as H1.
  { replace s1 with (random s).2 by by rewrite Hr. by apply Inv_random. }
  assert (doc s1 = doc s) as Hd.
  { replace s1 with (random s).2 by by rewrite Hr. done. }
  apply Inv_setId; [done|]. by rewrite Hd.
Qed.

Lemma Inv_applyLandmarkRoles d0 s : Inv d0 s → Inv d0 (applyLandmarkRoles s).
Proof.
  intros H. unfold applyLandmarkRoles. cbv zeta.
  apply Inv_forEach; [intros; by apply Inv_landmarkSection|].
  apply Inv_forEach; [intros; by apply Inv_landmarkSearch|].
  apply Inv_forEachIndexed; [intros; by apply Inv_landmarkAside|].
  do 2 apply Inv_landmarkFirst.
  apply Inv_forEachIndexed; [intros; by apply Inv_landmarkNav|].
  by apply Inv_landmarkFirst.
Qed.

End PassFacts.

(** ** Created elements, announcements, and the way back *)

Module EngineFacts.
Import Dom Browser ScreenReaderUtils Session DomFacts SessionFacts PassFacts.

Lemma shapeOnly_appendChild p c : shapeOnly (appendChild p c).
Proof. by intros d. Qed.

Lemma shapeOnly_insertBefore p c r : shapeOnly (insertBefore p c r).
Proof. intros d. by destruct r. Qed.

Lemma shapeOnly_removeChild p x : shapeOnly (removeChild p x).
Proof. by intros d. Qed.

Lemma shapeOnly_removeAllChildren p : shapeOnly (removeAllChildren p).
Proof. by intros d. Qed.

Lemma shapeOnly_remove x : shapeOnly (remove x).
Proof. intros d. unfold remove. by destruct (parentNode d x). Qed.

Lemma shapeOnly_compose f g : shapeOnly f → shapeOnly g → shapeOnly (λ d, f (g d)).
Proof.
  intros Hf Hg d. destruct (Hg d) as (? & ? & ?), (Hf (g d)) as (? & ? & ?).
  repeat split; congruence.
Qed.

Lemma shapeOnly_dep (f : Document → Document → Document) :
  (∀ d', shapeOnly (f d')) → shapeOnly (λ d, f d d).
Proof. intros Hf d. apply Hf. Qed.

Lemma Inv_shape d0 f s : shapeOnly f → Inv d0 s → Inv d0 (onDocument f s).
Proof. intros Hf H. eapply Inv_same; [done|]. by apply same_tree. Qed.

Lemma Inv_page d0 f s :
  (∀ p, document (f p) = document p) → Inv d0 s → Inv d0 (onPage f s).
Proof. intros Hf H. eapply Inv_same; [done|]. by apply same_onPage. Qed.

Lemma Inv_setCssText d0 n decls s : Inv d0 s → Inv d0 (onDocument (setCssText n decls) s).
Proof. intros H. eapply Inv_same; [done|]. apply same_style. Qed.

Lemma Inv_setStyle d0 n p v s : Inv d0 s → Inv d0 (onDocument (setStyle n p v) s).
Proof. intros H. eapply Inv_same; [done|]. apply same_style. Qed.

Lemma Inv_pushCreated d0 n s : Inv d0 s → Inv d0 (pushCreated n s).
Proof. intros H. eapply Inv_same; [done|]. destruct s. by apply same_vars. Qed.

Lemma Inv_setCreatedElements d0 l s : Inv d0 s → Inv d0 (setCreatedElements l s).
Proof. intros H. eapply Inv_same; [done|]. destruct s. by apply same_vars. Qed.

Lemma Inv_setLiveRegionElement d0 r s : Inv d0 s → Inv d0 (setLiveRegionElement r s).
Proof. intros H. eapply Inv_same; [done|]. destruct s. by apply same_vars. Qed.

Lemma Inv_setFocusReading d0 a b s : Inv d0 s → Inv d0 (setFocusReading a b s).
Proof. intros H. eapply Inv_same; [done|]. destruct s. by apply same_vars. Qed.

Lemma Inv_new d0 e a v s : Inv d0 s → ¬ existsIn d0 e → Inv d0 (setAttr e a v s).
Proof. intros H He. apply Inv_setAttr; [done|]. right. by left. Qed.

(** Destructs the next [create] or [createText] of the goal, keeping the
    invariant and the freshness of the new node. *)
Ltac new_node H :=
  match goal with
  | |- context [create ?tag ?s] =>
      let c := fresh "c" in
      let s' := fresh "s" in
      let E := fresh "E" in
      let Hc := fresh "Hc" in
      let Hs := fresh "Hs" in
      let Hp := fresh "Hp" in
      pose proof (Inv_create _ s tag H) as Hp; revert Hp;
      destruct (create tag s) as [c s'] eqn:E; intros [Hs Hc]; simpl in Hs, Hc
  | |- context [createText ?txt ?s] =>
      let c := fresh "t" in
      let s' := fresh "s" in
      let E := fresh "E" in
      let Hc := fresh "Hc" in
      let Hs := fresh "Hs" in
      let Hp := fresh "Hp" in
      pose proof (Inv_createText _ s txt H) as Hp; revert Hp;
      destruct (createText txt s) as [c s'] eqn:E; intros [Hs Hc]; simpl in Hs, Hc
  end.

Lemma Inv_addManagedStyle d0 id css s : Inv d0 s → Inv d0 (addManagedStyle id css s).
Proof.
  intros H. unfold addManagedStyle. new_node H.
  assert (Inv d0 (setAttr c "id" id s0)) as H1 by by apply Inv_new.
  new_node H1.
  apply Inv_pushCreated. apply Inv_shape; [|done].
  apply (shapeOnly_dep (λ d', appendChild (head d') _)). intros d'.
  apply shapeOnly_appendChild.
Qed.

Lemma Inv_addSkipLinkStyles d0 s : Inv d0 s → Inv d0 (addSkipLinkStyles s).
Proof.
  intros H. unfold addSkipLinkStyles. case_match; [done|]. by apply Inv_addManagedStyle.
Qed.

Lemma Inv_applyEnhancedFocus d0 s : Inv d0 s → Inv d0 (applyEnhancedFocus s).
Proof.
  intros H. unfold applyEnhancedFocus. case_match; [done|]. by apply Inv_addManagedStyle.
Qed.

Lemma Inv_addSkipLink d0 acc t : Inv d0 acc.2 → Inv d0 (addSkipLink acc t).2.
Proof.
  destruct acc as [links s]. intros H. simpl in H. unfold addSkipLink.
  destruct (querySelector (doc s) (targetSelector t)) as [target|]; [|done].
  cbv zeta.
  set (s1 := if negb (Str.truthy (attr (doc s) target "id"))
             then setAttr target "id" (targetId t) s else s).
  assert (Inv d0 s1) as H1.
  { subst s1. destruct (negb _) eqn:Hid; [|done].
    apply negb_true_iff in Hid. by apply Inv_setId. }
  clearbody s1.
  set (s2 := if negb (hasAttribute (doc s1) target "tabindex")
             then setAttr target "tabindex" "-1" (storeOriginalAttribute target "tabindex" s1)
             else s1).
  assert (Inv d0 s2) as H2.
  { subst s2. case_match; keep_inv. }
  clearbody s2.
  new_node H2.
  set (s3 := setAttr c "class" "sr-skip-link" (setAttr c "href" _ s0)).
  assert (Inv d0 s3) as H3 by (subst s3; do 2 (apply Inv_new; [|done]); done).
  clearbody s3.
  new_node H3. done.
Qed.

Lemma Inv_foldl_addSkipLink d0 l acc :
  Inv d0 acc.2 → Inv d0 (foldl addSkipLink acc l).2.
Proof.
  revert acc. induction l as [|t l IH]; simpl; intros acc H; [done|].
  apply IH. by apply Inv_addSkipLink.
Qed.

Lemma Inv_createSkipLinks d0 s : Inv d0 s → Inv d0 (createSkipLinks s).
Proof.
  intros H. unfold createSkipLinks. case_match; [done|]. new_node H.
  set (s1 := setAttr c "aria-label" _ (setAttr c "role" _ (setAttr c "class" _
               (setAttr c "id" _ s0)))).
  assert (Inv d0 s1) as H1 by (subst s1; do 4 (apply Inv_new; [|done]); done).
  clearbody s1.
  pose proof (Inv_foldl_addSkipLink d0 skipTargets ([], s1) H1) as H2.
  destruct (foldl addSkipLink ([], s1) skipTargets) as [links s2]. simpl in H2.
  destruct links as [|l links]; [done|].
  apply Inv_addSkipLinkStyles, Inv_pushCreated, Inv_shape; [|done].
  apply (shapeOnly_dep (λ d', insertBefore (body d') _ (firstChild d' (body d')))).
  intros d'. apply shapeOnly_insertBefore.
Qed.

Lemma Inv_createGlobalLiveRegion d0 s : Inv d0 s → Inv d0 (createGlobalLiveRegion s).
Proof.
  intros H. unfold createGlobalLiveRegion. case_match; [done|]. new_node H.
  apply Inv_pushCreated, Inv_shape.
  { apply (shapeOnly_dep (λ d', appendChild (body d') _)). intros d'.
    apply shapeOnly_appendChild. }
  apply Inv_setCssText. do 5 (apply Inv_new; [|done]).
  by apply Inv_setLiveRegionElement.
Qed.

Lemma Inv_createLiveRegion d0 id p s :
  Inv d0 s → Inv d0 (createLiveRegion id p s).2.
Proof.
  intros H. unfold createLiveRegion. new_node H. simpl.
  apply Inv_setCssText. do 4 (apply Inv_new; [|done]). done.
Qed.

Lemma Inv_getOrCreateAnnouncerContainer d0 s :
  Inv d0 s → Inv d0 (getOrCreateAnnouncerContainer s).2.
Proof.
  intros H. unfold getOrCreateAnnouncerContainer. cbv zeta.
  generalize (getElementById (doc s) ANNOUNCER_CONTAINER_ID) as c0.
  generalize (getElementById (doc s) POLITE_ANNOUNCER_ID) as p0.
  generalize (getElementById (doc s) ASSERTIVE_ANNOUNCER_ID) as a0.
  intros a0 p0 c0.
  set (r1 := match c0 with Some c => (c, s) | None => _ end).
  assert (Inv d0 r1.2) as H1.
  { subst r1. destruct c0; [done|]. new_node H. simpl.
    apply Inv_shape.
    { apply (shapeOnly_dep (λ d', appendChild (body d') _)). intros d'.
      apply shapeOnly_appendChild. }
    apply Inv_setCssText. by apply Inv_new. }
  destruct r1 as [container s1]. simpl in H1.
  set (r2 := match p0 with Some r => (r, s1) | None => _ end).
  assert (Inv d0 r2.2) as H2.
  { subst r2. destruct p0; [done|].
    pose proof (Inv_createLiveRegion d0 POLITE_ANNOUNCER_ID polite s1 H1) as Hl.
    destruct (createLiveRegion _ _ s1) as [r s']. simpl in *.
    apply Inv_shape; [apply shapeOnly_appendChild|done]. }
  destruct r2 as [pr s2]. simpl in H2.
  set (r3 := match a0 with Some r => (r, s2) | None => _ end).
  assert (Inv d0 r3.2) as H3.
  { subst r3. destruct a0; [done|].
    pose proof (Inv_createLiveRegion d0 ASSERTIVE_ANNOUNCER_ID assertive s2 H2) as Hl.
    destruct (createLiveRegion _ _ s2) as [r s']. simpl in *.
    apply Inv_shape; [apply shapeOnly_appendChild|done]. }
  destruct r3 as [ar s3]. done.
Qed.

Lemma Inv_speakMessage d0 m p s : Inv d0 s → Inv d0 (speakMessage m p s).
Proof. intros H. unfold speakMessage. case_match; by apply Inv_page. Qed.

Lemma Inv_showDebugToast d0 m p s : Inv d0 s → Inv d0 (showDebugToast m p s).
Proof.
  intros H. unfold showDebugToast.
  set (r := match getElementById (doc s) "accessibility-debug-toast" with
            | Some t => (t, s) | None => _ end).
  assert (Inv d0 r.2) as H1.
  { subst r. case_match; [done|]. new_node H. simpl.
    apply Inv_shape.
    { apply (shapeOnly_dep (λ d', appendChild (body d') _)). intros d'.
      apply shapeOnly_appendChild. }
    apply Inv_setCssText. by apply Inv_new. }
  destruct r as [toast s1]. simpl in H1. new_node H1.
  apply Inv_page; [done|]. do 2 apply Inv_setStyle.
  apply Inv_shape; [|done].
  apply (shapeOnly_compose (appendChild toast _) (removeAllChildren toast)).
  - apply shapeOnly_appendChild.
  - apply shapeOnly_removeAllChildren.
Qed.

Lemma Inv_announce d0 m p s : Inv d0 s → Inv d0 (announce m p s).
Proof.
  intros H. unfold announce. cbv zeta.
  set (s1 := if debugMode (vars s) then showDebugToast m p s else s).
  assert (Inv d0 s1) as H1.
  { subst s1. case_match; [by apply Inv_showDebugToast|done]. }
  clearbody s1.
  set (s2 := if useSpeechSynthesis (vars s1) then speakMessage m p s1 else s1).
  assert (Inv d0 s2) as H2.
  { subst s2. case_match; [by apply Inv_speakMessage|done]. }
  clearbody s2.
  pose proof (Inv_getOrCreateAnnouncerContainer d0 s2 H2) as H3.
  destruct (getOrCreateAnnouncerContainer s2) as [[pr ar] s3]. simpl in H3.
  apply Inv_page; [done|]. apply Inv_shape; [apply shapeOnly_removeAllChildren|done].
Qed.

Lemma Inv_announceToScreenReaderIn d0 m p s :
  Inv d0 s → Inv d0 (announceToScreenReaderIn m p s).
Proof.
  intros H. unfold announceToScreenReaderIn. case_match; [done|]. by apply Inv_announce.
Qed.

Lemma Inv_stopSpeakingIn d0 s : Inv d0 s → Inv d0 (stopSpeakingIn s).
Proof. intros H. unfold stopSpeakingIn. case_match; [|done]. by apply Inv_page. Qed.

Lemma Inv_enableFocusReadingIn d0 s : Inv d0 s → Inv d0 (enableFocusReadingIn s).
Proof.
  intros H. unfold enableFocusReadingIn. case_match; [done|].
  apply Inv_page; [done|]. by apply Inv_setFocusReading.
Qed.

Lemma Inv_disableFocusReadingIn d0 s : Inv d0 s → Inv d0 (disableFocusReadingIn s).
Proof.
  intros H. unfold disableFocusReadingIn. case_match; [done|]. cbv zeta.
  apply Inv_stopSpeakingIn, Inv_setFocusReading. by apply Inv_page.
Qed.

End EngineFacts.

(** ** Enabling, restoring, disabling *)

Module ModeFacts.
Import Dom Browser ScreenReaderUtils Session DomFacts SessionFacts PassFacts EngineFacts.

Lemma Inv_mark d0 s f x :
  x = "class" ∨ x = "data-screen-reader" → marksBody x f →
  Inv d0 s → Inv d0 (onDocument f s).
Proof.
  intros Hx Hf [I1 I2 I3 I4 I5 I6 I7 I8].
  destruct (Hf (doc s)) as (Hb & Hn & He & Ha).
  constructor; unfold doc in *; simpl.
  - done.
  - done.
  - intros e a Hex Hid Hm Hr. rewrite Ha; [by apply I3|].
    intros [= <- <-]. apply Hm. split; [done|]. destruct Hx; auto.
  - intros e Hex. apply He. auto.
  - lia.
  - intros e Hex Ht. rewrite Ha; [by apply I6|].
    intros [= <- ->]. destruct Hx; done.
  - congruence.
  - done.
Qed.

Lemma marksBody_writeClassList (toks : Document → list string) :
  marksBody "class" (λ d, writeClassList (body d) (toks d) d).
Proof.
  intros d. repeat split.
  - unfold writeClassList. by repeat case_match.
  - unfold writeClassList. by repeat case_match.
  - apply heap_writeClassList.
  - apply heap_writeClassList.
  - intros e a Hne. by apply getAttribute_writeClassList.
Qed.

Lemma marksBody_set v : marksBody "data-screen-reader"
                          (λ d, setAttribute (body d) "data-screen-reader" v d).
Proof.
  intros d. repeat split; try apply existsIn_setAttribute.
  intros e a Hne. by apply getAttribute_setAttribute_ne.
Qed.

Lemma marksBody_remove : marksBody "data-screen-reader"
                           (λ d, removeAttribute (body d) "data-screen-reader" d).
Proof.
  intros d. repeat split; try apply existsIn_removeAttribute.
  intros e a Hne. by apply getAttribute_removeAttribute_ne.
Qed.

Lemma Inv_when d0 (b : bool) f s :
  (∀ s, Inv d0 s → Inv d0 (f s)) → Inv d0 s → Inv d0 (if b then f s else s).
Proof. intros Hf H. destruct b; auto. Qed.

Lemma Inv_enable d0 config s : Inv d0 s → Inv d0 (enable config s).
Proof.
  intros H. unfold enable. cbv zeta.
  apply Inv_announceToScreenReaderIn.
  apply (Inv_when _ _ enableFocusReadingIn); [apply Inv_enableFocusReadingIn|].
  apply (Inv_when _ _ createGlobalLiveRegion); [apply Inv_createGlobalLiveRegion|].
  apply (Inv_when _ _ applyLandmarkRoles); [apply Inv_applyLandmarkRoles|].
  apply (Inv_when _ _ applyEnhancedFocus); [apply Inv_applyEnhancedFocus|].
  apply (Inv_when _ _ createSkipLinks); [apply Inv_createSkipLinks|].
  apply (Inv_when _ _ applyEnhancedAria); [apply Inv_applyEnhancedAria|].
  apply (Inv_mark _ _ _ "data-screen-reader"); [by right|apply marksBody_set|].
  apply (Inv_mark _ _ (λ d, classListAdd (body d) "screen-reader-mode" d) "class");
    [by left|apply marksBody_writeClassList|done].
Qed.

Lemma Inv_enableTimes d0 n config s : Inv d0 s → Inv d0 (enableTimes n config s).
Proof.
  revert s. induction n as [|n IH]; simpl; intros s H; [done|].
  apply IH. by apply Inv_enable.
Qed.

(** *** Putting the snapshot back *)

Lemma restoreElement_spec el (attrs : gmap string (option string)) d :
  let r := restoreElement el attrs d in
  tree r = tree d ∧ nextId r = nextId d ∧ body r = body d ∧ head r = head d
  ∧ (∀ e, existsIn r e ↔ existsIn d e)
  ∧ (∀ e a, getAttribute r e a =
       match (if decide (e = el) then attrs !! a else None) with
       | Some v => if decide (existsIn d e) then v else None
       | None => getAttribute d e a
       end).
Proof.
  unfold restoreElement.
  apply (map_fold_weak_ind (λ r (m : gmap string (option string)),
    tree r = tree d ∧ nextId r = nextId d ∧ body r = body d ∧ head r = head d
    ∧ (∀ e, existsIn r e ↔ existsIn d e)
    ∧ (∀ e a, getAttribute r e a =
         match (if decide (e = el) then m !! a else None) with
         | Some v => if decide (existsIn d e) then v else None
         | None => getAttribute d e a
         end))).
  - repeat split; try done. intros e a. case_decide; by rewrite ?lookup_empty.
  - intros a v m r Hm (Ht & Hn & Hb & Hh & He & Ha).
    assert (∀ e, existsIn (restoreAttribute el a v r) e ↔ existsIn d e) as He'.
    { intros e. rewrite <- He. destruct v; simpl.
      - apply existsIn_setAttribute.
      - apply existsIn_removeAttribute. }
    repeat split; try (by destruct v); try apply He'.
    intros e b.
    destruct (decide ((el, a) = (e, b))) as [[= <- <-]|Hne].
    + rewrite decide_True by done. rewrite lookup_insert_eq.
      destruct v as [v|]; simpl.
      * case_decide as Hex.
        -- apply getAttribute_setAttribute_eq. by apply He.
        -- unfold getAttribute, nodeData, setAttribute. simpl.
           rewrite lookup_alter_eq.
           destruct (heap r !! el) eqn:Hr; [|done].
           exfalso. apply Hex, He. unfold existsIn. by rewrite Hr.
      * rewrite getAttribute_removeAttribute_eq. by case_decide.
    + assert (getAttribute (restoreAttribute el a v r) e b = getAttribute r e b) as ->.
      { destruct v; simpl.
        - by apply getAttribute_setAttribute_ne.
        - by apply getAttribute_removeAttribute_ne. }
      rewrite Ha. case_decide as Hd; [|done]. subst e.
      rewrite lookup_insert_ne; [done|]. congruence.
Qed.

Lemma restoreOriginalAttributes_spec (o : gmap nat (gmap string (option string))) d :
  let r := restoreOriginalAttributes o d in
  tree r = tree d ∧ nextId r = nextId d ∧ body r = body d ∧ head r = head d
  ∧ (∀ e, existsIn r e ↔ existsIn d e)
  ∧ (∀ e a, getAttribute r e a =
       match o !! e ≫= (λ attrs, attrs !! a) with
       | Some v => if decide (existsIn d e) then v else None
       | None => getAttribute d e a
       end).
Proof.
  unfold restoreOriginalAttributes.
  apply (map_fold_weak_ind (λ r (m : gmap nat (gmap string (option string))),
    tree r = tree d ∧ nextId r = nextId d ∧ body r = body d ∧ head r = head d
    ∧ (∀ e, existsIn r e ↔ existsIn d e)
    ∧ (∀ e a, getAttribute r e a =
         match m !! e ≫= (λ attrs, attrs !! a) with
         | Some v => if decide (existsIn d e) then v else None
         | None => getAttribute d e a
         end))).
  - repeat split; done.
  - intros el attrs m r Hm (Ht & Hn & Hb & Hh & He & Ha).
    destruct (restoreElement_spec el attrs r) as (Ht' & Hn' & Hb' & Hh' & He' & Ha').
    do 4 (split; [congruence|]). split.
    + intros e. rewrite He'. apply He.
    + intros e a. rewrite Ha'.
      destruct (decide (e = el)) as [->|Hne].
      * rewrite lookup_insert_eq. simpl.
        destruct (attrs !! a) as [v|] eqn:Hv.
        -- case_decide as H1; case_decide as H2; try done.
           ++ exfalso. by apply H2, He.
           ++ exfalso. by apply H1, He.
        -- rewrite Ha, Hm. done.
      * rewrite lookup_insert_ne by done. apply Ha.
Qed.

(** After the way back the snapshot is empty and the invariant holds. *)
Lemma Inv_restore d0 s :
  Inv d0 s →
  Inv d0 (setOriginalAttributes ∅
            (onDocument (restoreOriginalAttributes (originalAttributes (vars s))) s)).
Proof.
  intros [I1 I2 I3 I4 I5 I6 I7 I8].
  destruct (restoreOriginalAttributes_spec (originalAttributes (vars s)) (doc s))
    as (Ht & Hn & Hb & Hh & He & Ha).
  constructor; unfold doc in *; simpl; auto.
  - intros e a v. unfold recorded. simpl. by rewrite lookup_empty.
  - intros e a v _. unfold recorded. simpl. by rewrite lookup_empty.
  - intros e a Hex Hid Hm _. rewrite Ha.
    fold (recorded s e a). destruct (recorded s e a) as [v|] eqn:Hr.
    + rewrite decide_True by auto. by eapply I2.
    + by apply I3.
  - intros e Hex. apply He. auto.
  - lia.
  - intros e Hex Ht'. rewrite Ha.
    fold (recorded s e "id"). destruct (recorded s e "id") as [v|] eqn:Hr.
    + by apply I1 in Hr.
    + by apply I6.
  - congruence.
Qed.

Lemma recorded_empty s e a :
  originalAttributes (vars s) = ∅ → recorded s e a = None.
Proof. intros H. unfold recorded. by rewrite H, lookup_empty. Qed.

Lemma snapshot_announceToScreenReaderIn m p s :
  originalAttributes (vars (announceToScreenReaderIn m p s)) = originalAttributes (vars s).
Proof.
  unfold announceToScreenReaderIn. case_match; [done|]. unfold announce. cbv zeta.
  assert (∀ m p s, originalAttributes (vars (showDebugToast m p s))
                   = originalAttributes (vars s)) as Htoast.
  { clear. intros m p s. unfold showDebugToast.
    by destruct (getElementById _ _). }
  assert (∀ m p s, originalAttributes (vars (speakMessage m p s))
                   = originalAttributes (vars s)) as Hspeak.
  { clear. intros m p s. unfold speakMessage. by repeat case_match. }
  assert (∀ s, originalAttributes (vars (getOrCreateAnnouncerContainer s).2)
               = originalAttributes (vars s)) as Hget.
  { clear. intros s. unfold getOrCreateAnnouncerContainer. cbv zeta.
    by destruct (getElementById _ ANNOUNCER_CONTAINER_ID),
                (getElementById _ POLITE_ANNOUNCER_ID),
                (getElementById _ ASSERTIVE_ANNOUNCER_ID). }
  set (s1 := if debugMode (vars s) then showDebugToast m p s else s).
  assert (originalAttributes (vars s1) = originalAttributes (vars s)) as H1.
  { subst s1. case_match; [apply Htoast|done]. }
  clearbody s1.
  set (s2 := if useSpeechSynthesis (vars s1) then speakMessage m p s1 else s1).
  assert (originalAttributes (vars s2) = originalAttributes (vars s1)) as H2.
  { subst s2. case_match; [apply Hspeak|done]. }
  clearbody s2.
  specialize (Hget s2).
  destruct (getOrCreateAnnouncerContainer s2) as [[pr ar] s3]. simpl in *. congruence.
Qed.

Lemma snapshot_forEach_remove l s :
  originalAttributes (vars (forEach l (λ element, onDocument (remove element)) s))
  = originalAttributes (vars s).
Proof.
  unfold forEach. revert s. induction l as [|x l IH]; simpl; intros s; [done|].
  by rewrite IH.
Qed.

Lemma Inv_forEach_remove d0 l s :
  Inv d0 s → Inv d0 (forEach l (λ element, onDocument (remove element)) s).
Proof.
  intros H. apply Inv_forEach; [|done]. intros x s' Hs'.
  apply Inv_shape; [apply shapeOnly_remove|done].
Qed.

(** Disabling keeps the invariant and empties the snapshot. *)
Lemma Inv_disable d0 s :
  Inv d0 s → Inv d0 (disable s) ∧ originalAttributes (vars (disable s)) = ∅.
Proof.
  intros H. unfold disable. cbv zeta.
  set (s1 := onDocument (λ d, removeAttribute (body d) "data-screen-reader" d)
               (onDocument (λ d, classListRemove (body d) "screen-reader-mode" d) s)).
  assert (Inv d0 s1) as H1.
  { subst s1. apply (Inv_mark _ _ _ "data-screen-reader");
      [by right|apply marksBody_remove|].
    apply (Inv_mark _ _ (λ d, classListRemove (body d) "screen-reader-mode" d) "class");
      [by left|apply marksBody_writeClassList|done]. }
  clearbody s1.
  pose proof (Inv_restore d0 s1 H1) as H2.
  set (s2 := setOriginalAttributes ∅ _) in *.
  assert (originalAttributes (vars s2) = ∅) as E2 by done.
  clearbody s2.
  set (s3 := setCreatedElements [] (forEach (createdElements (vars s2)) _ s2)).
  assert (Inv d0 s3 ∧ originalAttributes (vars s3) = ∅) as [H3 E3].
  { subst s3. split.
    - apply Inv_setCreatedElements. by apply Inv_forEach_remove.
    - simpl. by rewrite snapshot_forEach_remove. }
  clearbody s3.
  set (s4 := match liveRegionElement (vars s3) with Some _ => _ | None => s3 end).
  assert (Inv d0 s4 ∧ originalAttributes (vars s4) = ∅) as [H4 E4].
  { subst s4. destruct (liveRegionElement (vars s3)); [|done]. split; [|done].
    apply Inv_setLiveRegionElement. apply Inv_shape; [apply shapeOnly_remove|done]. }
  clearbody s4.
  set (s5 := match getElementById (doc s4) _ with Some _ => _ | None => s4 end).
  assert (Inv d0 s5 ∧ originalAttributes (vars s5) = ∅) as [H5 E5].
  { subst s5. case_match; [|done]. split; [|done].
    apply Inv_shape; [apply shapeOnly_remove|done]. }
  clearbody s5.
  split.
  - by apply Inv_announceToScreenReaderIn, Inv_disableFocusReadingIn.
  - rewrite snapshot_announceToScreenReaderIn.
    unfold disableFocusReadingIn. case_match; [done|]. cbv zeta.
    unfold stopSpeakingIn. by case_match.
Qed.

(** A session starts with an empty snapshot. *)
Lemma Inv_start s :
  allocated (doc s) → originalAttributes (vars s) = ∅ → Inv (doc s) s.
Proof.
  intros Ha He. constructor; auto.
  - intros e a v. by rewrite recorded_empty.
  - intros e a v _. by rewrite recorded_empty.
Qed.

(** With an empty snapshot the invariant says every attribute is back. *)
Lemma Inv_restored d0 s e a :
  Inv d0 s → originalAttributes (vars s) = ∅ → existsIn d0 e →
  a ≠ "id" → ¬ bodyMark d0 e a →
  getAttribute (doc s) e a = getAttribute d0 e a.
Proof.
  intros H He Hex Ha Hm. apply (inv_rest _ _ H); auto. by apply recorded_empty.
Qed.

End ModeFacts.

(** ** The shape of the tree *)

Module TreeFacts.
Import Dom.

Lemma Tree_ind' (P : Tree → Prop) :
  (∀ n ks, Forall P ks → P (T n ks)) → ∀ t, P t.
Proof.
  intros H. fix IH 1. intros [n ks]. apply H.
  induction ks as [|k ks IHks]; constructor; [apply IH|apply IHks].
Qed.

Global Arguments nodes : simpl never.

Lemma preorder_T n ks : preorder (T n ks) = n :: nodes ks.
Proof. done. Qed.

Lemma nodes_cons k ks : nodes (k :: ks) = preorder k ++ nodes ks.
Proof. done. Qed.

Lemma nodes_app ks ks' : nodes (ks ++ ks') = nodes ks ++ nodes ks'.
Proof. unfold nodes. by rewrite flat_map_app. Qed.

Lemma rootId_in_preorder t : rootId t ∈ preorder t.
Proof. destruct t. simpl. left. Qed.

Lemma roots_in_nodes x ks : x ∈ map rootId ks → x ∈ nodes ks.
Proof.
  induction ks as [|k ks IH]; simpl; [by intros ?%elem_of_nil|].
  rewrite elem_of_cons, nodes_cons, elem_of_app. intros [->|H].
  - left. apply rootId_in_preorder.
  - right. auto.
Qed.

Lemma rootId_updateKids p f t : rootId (updateKids p f t) = rootId t.
Proof. by destruct t. Qed.

Lemma map_rootId_updateKids p f ks :
  map rootId (map (updateKids p f) ks) = map rootId ks.
Proof.
  induction ks as [|k ks IH]; simpl; [done|]. by rewrite rootId_updateKids, IH.
Qed.

(** A node that is not there has no child list to rewrite. *)
Lemma updateKids_notin p f t : p ∉ preorder t → updateKids p f t = t.
Proof.
  induction t as [n ks IH] using Tree_ind'. rewrite preorder_T, not_elem_of_cons.
  intros [Hn Hks]. simpl. rewrite decide_False by done. f_equal.
  induction ks as [|k ks IHks]; simpl; [done|].
  rewrite nodes_cons, not_elem_of_app in Hks. destruct Hks as [Hk Hks].
  apply Forall_cons in IH as [IHk IH]. f_equal; auto.
Qed.

Lemma map_updateKids_notin p f ks :
  p ∉ nodes ks → map (updateKids p f) ks = ks.
Proof.
  induction ks as [|k ks IH]; simpl; [done|].
  rewrite nodes_cons, not_elem_of_app. intros [Hk Hks].
  f_equal; [by apply updateKids_notin|auto].
Qed.

(** *** Rewritings that only take nodes away *)

Lemma preorder_updateKids_sublist p f t :
  (∀ ks, nodes (f ks) `sublist_of` nodes ks) →
  preorder (updateKids p f t) `sublist_of` preorder t.
Proof.
  intros Hf. induction t as [n ks IH] using Tree_ind'. simpl.
  apply sublist_skip.
  assert (nodes (map (updateKids p f) ks) `sublist_of` nodes ks) as Hks.
  { induction ks as [|k ks IHks]; simpl; [done|].
    apply Forall_cons in IH as [IHk IH]. rewrite !nodes_cons.
    apply sublist_app; auto. }
  case_decide; [|done]. etrans; [apply Hf|done].
Qed.

Lemma nodes_removeIn_sublist x ks : nodes (removeIn x ks) `sublist_of` nodes ks.
Proof.
  induction ks as [|k ks IH]; simpl; [done|]. unfold removeIn in *.
  rewrite filter_cons. case_decide; rewrite !nodes_cons.
  - by apply sublist_app.
  - by apply sublist_inserts_l.
Qed.

Lemma preorder_removeChild_sublist p x t :
  preorder (updateKids p (removeIn x) t) `sublist_of` preorder t.
Proof. apply preorder_updateKids_sublist, nodes_removeIn_sublist. Qed.

Lemma preorder_removeAll_sublist p t :
  preorder (updateKids p (λ _, []) t) `sublist_of` preorder t.
Proof. apply preorder_updateKids_sublist. intros ks. apply sublist_nil_l. Qed.

(** *** Rewritings that only add nodes *)

Lemma preorder_updateKids_add p f extra t :
  (∀ ks, nodes (f ks) ≡ₚ extra ++ nodes ks) →
  NoDup (preorder t) → p ∈ preorder t →
  preorder (updateKids p f t) ≡ₚ extra ++ preorder t.
Proof.
  intros Hf. induction t as [n ks IH] using Tree_ind'.
  rewrite preorder_T, NoDup_cons. intros [Hn Hnd] Hp. simpl.
  case_decide as Hnp.
  - subst p. rewrite map_updateKids_notin by done.
    rewrite Hf. by rewrite Permutation_middle.
  - apply elem_of_cons in Hp as [Hp|Hp]; [done|].
    rewrite <- Permutation_middle. constructor.
    clear Hn Hnp. induction ks as [|k ks IHks]; simpl.
    { by apply elem_of_nil in Hp. }
    apply Forall_cons in IH as [IHk IH].
    rewrite nodes_cons in Hnd, Hp. apply NoDup_app in Hnd as (Hk & Hdisj & Hks).
    rewrite !nodes_cons. apply elem_of_app in Hp as [Hp|Hp].
    + rewrite map_updateKids_notin by (intros ?; by eapply Hdisj).
      rewrite IHk by done. by rewrite (assoc app).
    + rewrite updateKids_notin by (intros ?; by eapply Hdisj).
      rewrite IHks by done.
      rewrite !(assoc app). f_equiv. apply Permutation_app_comm.
Qed.

Lemma nodes_insertBeforeIn new r ks :
  r ∈ map rootId ks → nodes (insertBeforeIn new r ks) ≡ₚ preorder new ++ nodes ks.
Proof.
  induction ks as [|k ks IH]; simpl; [by intros ?%elem_of_nil|].
  case_decide as Hk.
  - intros _. by rewrite !nodes_cons.
  - rewrite elem_of_cons. intros [->|Hr]; [done|].
    rewrite !nodes_cons, IH by done.
    rewrite !(assoc app). f_equiv. apply Permutation_app_comm.
Qed.

Lemma nodes_append new ks : nodes (ks ++ [new]) ≡ₚ preorder new ++ nodes ks.
Proof.
  rewrite nodes_app. unfold nodes at 2. simpl. rewrite app_nil_r.
  apply Permutation_app_comm.
Qed.

Lemma preorder_append p new t :
  NoDup (preorder t) → p ∈ preorder t →
  preorder (updateKids p (λ ks, ks ++ [new]) t) ≡ₚ preorder new ++ preorder t.
Proof. apply preorder_updateKids_add. intros ks. apply nodes_append. Qed.

Lemma preorder_prepend p new t :
  NoDup (preorder t) → p ∈ preorder t →
  preorder (updateKids p (λ ks, new :: ks) t) ≡ₚ preorder new ++ preorder t.
Proof. apply preorder_updateKids_add. intros ks. by rewrite nodes_cons. Qed.

(** *** Subtrees and parents *)

Lemma subtree_Some_root x t s : subtree x t = Some s → rootId s = x.
Proof.
  revert s. induction t as [n ks IH] using Tree_ind'. intros s. simpl.
  case_decide as Hn; [by intros [= <-]|].
  induction ks as [|k ks IHks]; [done|].
  apply Forall_cons in IH as [IHk IH].
  destruct (subtree x k) eqn:Hk; [intros [= <-]; by apply IHk|]. by apply IHks.
Qed.

Lemma subtree_is_Some x t : is_Some (subtree x t) ↔ x ∈ preorder t.
Proof.
  induction t as [n ks IH] using Tree_ind'. rewrite preorder_T, elem_of_cons. simpl.
  case_decide as Hn; [naive_solver|].
  split.
  - intros Hs. right.
    induction ks as [|k ks IHks]; [by destruct Hs|].
    apply Forall_cons in IH as [IHk IH]. rewrite nodes_cons, elem_of_app.
    destruct (subtree x k) eqn:Hk; [left; apply IHk; eauto|right; by apply IHks].
  - intros [->|Hx]; [done|].
    induction ks as [|k ks IHks]; [by apply elem_of_nil in Hx|].
    apply Forall_cons in IH as [IHk IH]. rewrite nodes_cons, elem_of_app in Hx.
    destruct (subtree x k) eqn:Hk; [eauto|].
    destruct Hx as [Hx|Hx]; [|by apply IHks].
    apply IHk in Hx. rewrite ?Hk in Hx. by destruct Hx.
Qed.

Lemma subtree_None x t : subtree x t = None ↔ x ∉ preorder t.
Proof. rewrite <- subtree_is_Some, eq_None_not_Some. done. Qed.

(** The child list of the first [p] after its rewriting. *)
Lemma subtree_updateKids_self p f t ks :
  subtree p t = Some (T p ks) →
  subtree p (updateKids p f t) = Some (T p (f (map (updateKids p f) ks))).
Proof.
  induction t as [n l IH] using Tree_ind'. simpl.
  destruct (decide (n = p)) as [->|Hn].
  - by intros [= ->].
  - intros Hs.
    induction l as [|k l IHl]; [done|].
    apply Forall_cons in IH as [IHk IH]. simpl.
    destruct (subtree p k) as [s|] eqn:Hk.
    + injection Hs as ->. by rewrite (IHk eq_refl).
    + apply subtree_None in Hk. rewrite updateKids_notin by done.
      apply subtree_None in Hk. rewrite Hk. by apply IHl.
Qed.

Lemma subtree_kids_root p t s : subtree p t = Some s → s = T p (kids s).
Proof. intros H. apply subtree_Some_root in H. destruct s. simpl in *. by subst. Qed.

End TreeFacts.

(** ** Attached elements and their identifiers *)

Module IdFacts.
Import Dom Session DomFacts TreeFacts.

Lemma hasId_spec d i n : hasId d i n = true ↔ elementWithId d i n.
Proof.
  unfold hasId, elementWithId, isElement, getAttribute, nodeData.
  rewrite andb_true_iff, bool_decide_eq_true.
  destruct (heap d !! n) as [x|]; simpl.
  - rewrite negb_true_iff. split; [intros []; eauto|].
    intros (y & [= <-] & ? & ?). done.
  - split; [intros []; done|]. intros (y & ? & _). done.
Qed.


Lemma getElementById_None d i :
  getElementById d i = None → Str.truthy i = true →
  ∀ n, n ∈ preorder (tree d) → ¬ elementWithId d i n.
Proof.
  unfold getElementById. intros H Hi. rewrite Hi in H.
  intros n Hn Hid. apply hasId_spec in Hid.
  eapply find_none in H; [|by apply list_elem_of_In]. congruence.
Qed.

(** The first attached element with the id is the one found. *)
Lemma getElementById_unique d i n :
  Str.truthy i = true → n ∈ preorder (tree d) → elementWithId d i n →
  (∀ m, m ∈ preorder (tree d) → elementWithId d i m → m = n) →
  getElementById d i = Some n.
Proof.
  intros Hi Hn Hid Huniq. unfold getElementById. rewrite Hi.
  destruct (find (hasId d i) (preorder (tree d))) as [m|] eqn:Hf.
  - apply find_some in Hf as [Hin Hm]. f_equal. apply Huniq.
    + by apply list_elem_of_In.
    + by apply hasId_spec.
  - eapply find_none in Hf; [|by apply list_elem_of_In].
    apply hasId_spec in Hid. congruence.
Qed.


Lemma allocated_createElement tag d : allocated d → allocated (createElement tag d).2.
Proof.
  intros Ha e. simpl. destruct (decide (e = nextId d)) as [->|Hne]; [lia|].
  rewrite lookup_insert_ne by done. intros H%Ha. lia.
Qed.

Lemma allocated_createTextNode txt d : allocated d → allocated (createTextNode txt d).2.
Proof.
  intros Ha e. simpl. destruct (decide (e = nextId d)) as [->|Hne]; [lia|].
  rewrite lookup_insert_ne by done. intros H%Ha. lia.
Qed.

Lemma allocated_alter f n d : allocated d → allocated (setHeap (alter f n (heap d)) d).
Proof. intros Ha e. simpl. rewrite heap_alter_is_Some. apply Ha. Qed.

Lemma allocated_setTree t d : allocated d → allocated (setTree t d).
Proof. done. Qed.

(** *** Membership under the additions *)

Lemma elem_of_preorder_subtree p t s x :
  subtree p t = Some s → x ∈ preorder s → x ∈ preorder t.
Proof.
  revert s. induction t as [n ks IH] using Tree_ind'. intros s. simpl.
  case_decide as Hn; [by intros [= <-]|].
  intros Hs Hx. rewrite elem_of_cons. right.
  induction ks as [|k ks IHks]; [done|].
  apply Forall_cons in IH as [IHk IH]. rewrite nodes_cons, elem_of_app.
  destruct (subtree p k) eqn:Hk.
  - injection Hs as ->. left. by eapply IHk.
  - right. by apply IHks.
Qed.

(** The node whose child list is rewritten stays where it is. *)
Lemma elem_of_updateKids_self p f t :
  p ∈ preorder t → p ∈ preorder (updateKids p f t).
Proof.
  intros Hp. apply subtree_is_Some in Hp as [s Hs].
  pose proof (subtree_kids_root _ _ _ Hs) as Hk. rewrite Hk in Hs.
  apply subtree_is_Some. rewrite (subtree_updateKids_self _ _ _ _ Hs). eauto.
Qed.

(** Nothing attached is lost by a rewriting that keeps the children. *)
Lemma elem_of_updateKids_keep p f t x :
  (∀ ks y, y ∈ nodes ks → y ∈ nodes (f ks)) →
  x ∈ preorder t → x ∈ preorder (updateKids p f t).
Proof.
  intros Hf. induction t as [n ks IH] using Tree_ind'.
  rewrite preorder_T. simpl. rewrite !elem_of_cons. intros [->|Hx]; [by left|].
  right.
  assert (x ∈ nodes (map (updateKids p f) ks)) as Hx'.
  { clear -IH Hx. induction ks as [|k ks IHks]; [done|].
    apply Forall_cons in IH as [IHk IH]. simpl.
    rewrite nodes_cons, elem_of_app in *. destruct Hx; auto. }
  case_decide; auto.
Qed.

Lemma elem_of_append_old p new t x :
  x ∈ preorder t → x ∈ preorder (updateKids p (λ ks, ks ++ [new]) t).
Proof.
  apply elem_of_updateKids_keep. intros ks y Hy. rewrite nodes_app, elem_of_app. auto.
Qed.

Lemma elem_of_append_new p new t :
  p ∈ preorder t → rootId new ∈ preorder (updateKids p (λ ks, ks ++ [new]) t).
Proof.
  intros Hp. apply subtree_is_Some in Hp as [s Hs].
  pose proof (subtree_kids_root _ _ _ Hs) as Hk. rewrite Hk in Hs.
  eapply elem_of_preorder_subtree.
  - by apply subtree_updateKids_self.
  - rewrite preorder_T, elem_of_cons, nodes_app, elem_of_app. right. right.
    unfold nodes. simpl. rewrite app_nil_r. apply rootId_in_preorder.
Qed.


Lemma subtree_removeAllChildren d p :
  p ∈ preorder (tree d) → subtree p (tree (removeAllChildren p d)) = Some (T p []).
Proof.
  intros Hp. apply subtree_is_Some in Hp as [s Hs].
  pose proof (subtree_kids_root _ _ _ Hs) as Hk. rewrite Hk in Hs.
  unfold removeAllChildren. simpl. by rewrite (subtree_updateKids_self _ _ _ _ Hs).
Qed.

End IdFacts.

(** ** The announcer *)

Module AnnouncerFacts.
Import Dom Browser ScreenReaderUtils Session DomFacts TreeFacts IdFacts.

Lemma elementWithId_old (h h' : gmap nat NodeData) d d' i n :
  heap d' !! n = heap d !! n → elementWithId d i n → elementWithId d' i n.
Proof. intros Hh (x & Hx & Hn & Hi). exists x. by rewrite Hh. Qed.

Lemma elem_of_append_leaf p n t :
  p ∈ preorder t → n ∈ preorder (updateKids p (λ ks, ks ++ [T n []]) t).
Proof. apply (elem_of_append_new p (T n [])). Qed.





Lemma getOrCreateAnnouncerContainer_page s :
  page (getOrCreateAnnouncerContainer s).2
  = setDocument (doc (getOrCreateAnnouncerContainer s).2) (page s)
  ∧ vars (getOrCreateAnnouncerContainer s).2 = vars s.
Proof.
  unfold getOrCreateAnnouncerContainer. cbv zeta. destruct s as [[] vs].
  by destruct (getElementById _ ANNOUNCER_CONTAINER_ID),
              (getElementById _ POLITE_ANNOUNCER_ID),
              (getElementById _ ASSERTIVE_ANNOUNCER_ID).
Qed.

(** *** The body as a child of the document element *)

Lemma child_of_root_updateKids x p f t :
  x ∈ map rootId (kids t) →
  p ≠ rootId t ∨ (∀ ks y, y ∈ map rootId ks → y ∈ map rootId (f ks)) →
  x ∈ map rootId (kids (updateKids p f t)).
Proof.
  destruct t as [n ks]. simpl. intros Hx Hp.
  case_decide as Hn.
  - destruct Hp as [Hp|Hp]; [done|]. apply Hp. by rewrite map_rootId_updateKids.
  - by rewrite map_rootId_updateKids.
Qed.

Lemma child_of_root_attached x t : x ∈ map rootId (kids t) → x ∈ preorder t.
Proof. destruct t as [n ks]. simpl. intros H. right. by apply roots_in_nodes. Qed.

Lemma roots_append_keep (new : Tree) ks y :
  y ∈ map rootId ks → y ∈ map rootId (ks ++ [new]).
Proof. rewrite map_app, elem_of_app. auto. Qed.

(** *** The debug toast *)


(** *** Timers in firing order *)






(** *** Reading the text of a region with one text node *)

Lemma textContent_single d r t m x :
  subtree r (tree d) = Some (T r [T t []]) →
  heap d !! r = Some x → String.eqb (nodeName x) "#text" = false →
  heap d !! t = Some (newText m) →
  textContent d r = m.
Proof.
  intros Hs Hr Hx Ht. unfold textContent. rewrite Hs. simpl.
  rewrite Hr, Hx, Ht. simpl. done.
Qed.

(** *** The polite announcement, step by step *)


End AnnouncerFacts.

(** ** The component *)

Module PanelFacts.
Import Dom Browser ScreenReaderUtils AccessibilityPanel.

Section Component.
Context {Store : Type} (handler : StorageHandler Store) (props : Props).

Lemma panel_effect_onDoc b g (c : Component Store) :
  panel (effect b (onDoc g) c) = panel c.
Proof. unfold effect. by destruct (b && applies c). Qed.

Lemma storage_effect_onDoc b g (c : Component Store) :
  storage (effect b (onDoc g) c) = storage c.
Proof. unfold effect. by destruct (b && applies c). Qed.

Lemma panel_runEffects props' old (c : Component Store) :
  panel (runEffects props' old c) = panel c.
Proof. unfold runEffects. cbv zeta. by rewrite !panel_effect_onDoc. Qed.

Lemma storage_runEffects props' old (c : Component Store) :
  storage (runEffects props' old c) = storage c.
Proof. unfold runEffects. cbv zeta. by rewrite !storage_effect_onDoc. Qed.


Lemma current_runDeferred t (c : Component Store) :
  current (runDeferred props t c) = current c ∧ storage (runDeferred props t c) = storage c.
Proof. by destruct t. Qed.

Lemma current_foldl_runDeferred (l : list (N * Deferred)) (c : Component Store) :
  current (foldl (λ c t, runDeferred props t.2 c) c l) = current c.
Proof.
  revert c. induction l as [|t l IH]; simpl; intros c; [done|].
  rewrite IH. apply current_runDeferred.
Qed.

Lemma current_loadSettings (c : Component Store) :
  current (loadSettings handler props c) = current (loadSettingsState handler c).
Proof.
  unfold loadSettings. cbv zeta. rewrite current_foldl_runDeferred.
  unfold current. by rewrite panel_runEffects.
Qed.

(** *** One stored value at a time *)

Lemma storage_loadEnum key valid set (c : Component Store) :
  storage (loadEnum handler key valid set c) = storage c.
Proof. unfold loadEnum. by repeat case_match. Qed.

Lemma storage_loadFlag key set (c : Component Store) :
  storage (loadFlag handler key set c) = storage c.
Proof. unfold loadFlag. by repeat case_match. Qed.

Lemma current_loadEnum key valid set (c : Component Store) :
  current (loadEnum handler key valid set c)
  = match getItem handler key (storage c) with
    | Some saved => if valid saved then set saved (current c) else current c
    | None => current c
    end.
Proof. unfold loadEnum, loadFromStorage. by repeat case_match. Qed.

Lemma current_loadFlag key set (c : Component Store) :
  current (loadFlag handler key set c)
  = match getItem handler key (storage c) with
    | Some saved => set (String.eqb saved "true") (current c)
    | None => current c
    end.
Proof. unfold loadFlag, loadFromStorage. by repeat case_match. Qed.

Lemma proj_step_other {A} (proj : Settings → A) o valid set x :
  (∀ v y, proj (set v y) = proj y) → proj (LoadSpec.step o valid set x) = proj x.
Proof. intros H. unfold LoadSpec.step. by repeat case_match. Qed.

Lemma proj_step_same (proj : Settings → string) o valid set x :
  (∀ v y, proj (set v y) = v) →
  proj (LoadSpec.step o valid set x) = LoadSpec.storedEnum valid (proj x) o.
Proof. intros H. unfold LoadSpec.step, LoadSpec.storedEnum. by repeat case_match. Qed.

Lemma proj_step_flag (proj : Settings → bool) o (set : bool → Settings → Settings) x :
  (∀ v y, proj (set v y) = v) →
  proj (LoadSpec.step o (λ _, true) (λ v, set (String.eqb v "true")) x)
  = match o with Some w => String.eqb w "true" | None => proj x end.
Proof. intros H. unfold LoadSpec.step. by repeat case_match. Qed.

Lemma proj_step_choice (proj : Settings → option string) o valid
    (set : option string → Settings → Settings) x :
  (∀ v y, proj (set v y) = v) →
  proj (LoadSpec.step o valid (λ v, set (Some v)) x)
  = match LoadSpec.storedChoice valid o with Some w => Some w | None => proj x end.
Proof. intros H. unfold LoadSpec.step, LoadSpec.storedChoice. by repeat case_match. Qed.

Lemma storage_loadFont (c : Component Store) :
  storage match loadFromStorage handler "accessibility-font-family" c with
          | Some saved => update (setFontFamily saved) c
          | None => c
          end = storage c.
Proof. by case_match. Qed.

Lemma current_loadFont (c : Component Store) :
  current match loadFromStorage handler "accessibility-font-family" c with
          | Some saved => update (setFontFamily saved) c
          | None => c
          end
  = LoadSpec.step (getItem handler "accessibility-font-family" (storage c))
      (λ _, true) setFontFamily (current c).
Proof. unfold loadFromStorage. by case_match. Qed.

Lemma current_loadEnum_step key valid set (c : Component Store) :
  current (loadEnum handler key valid set c)
  = LoadSpec.step (getItem handler key (storage c)) valid set (current c).
Proof. apply current_loadEnum. Qed.

Lemma current_loadFlag_step key set (c : Component Store) :
  current (loadFlag handler key set c)
  = LoadSpec.step (getItem handler key (storage c)) (λ _, true)
      (λ v, set (String.eqb v "true")) (current c).
Proof. apply current_loadFlag. Qed.

(** The settings after loading, as the stored values entering one by one. *)
Lemma current_loadSettingsState (c : Component Store) :
  let get k := getItem handler k (storage c) in
  current (loadSettingsState handler c)
  = LoadSpec.step (get "accessibility-screen-reader") (λ _, true)
      (λ v, setScreenReader (String.eqb v "true"))
    (LoadSpec.step (get "accessibility-word-spacing") isSpacing setWordSpacing
    (LoadSpec.step (get "accessibility-letter-spacing") isSpacing setLetterSpacing
    (LoadSpec.step (get "accessibility-line-height") isLineHeight setLineHeight
    (LoadSpec.step (get "accessibility-text-size") isTextSize setTextSize
    (LoadSpec.step (get "accessibility-font-family") (λ _, true) setFontFamily
    (LoadSpec.step (get "accessibility-theme") isThemeMode (λ v, setInternalTheme (Some v))
    (LoadSpec.step (get "accessibility-position") isPanelPosition
       (λ v, setInternalPosition (Some v))
    (LoadSpec.step (get "accessibility-contrast") isContrastLevel setContrast
    (LoadSpec.step (get "accessibility-highlight-links") (λ _, true)
       (λ v, setHighlightLinks (String.eqb v "true"))
    (LoadSpec.step (get "accessibility-highlight-titles") (λ _, true)
       (λ v, setHighlightTitles (String.eqb v "true"))
    (LoadSpec.step (get "accessibility-hide-images") (λ _, true)
       (λ v, setHideImages (String.eqb v "true"))
    (LoadSpec.step (get "accessibility-saturation") isSaturationLevel setSaturation
    (LoadSpec.step (get "accessibility-monochrome") (λ _, true)
       (λ v, setMonochrome (String.eqb v "true"))
       (current c)))))))))))))).
Proof.
  cbv zeta. unfold loadSettingsState. cbv zeta.
  set (c13 := loadEnum handler "accessibility-word-spacing" _ _ _).
  assert (storage c13 = storage c) as Hs.
  { subst c13.
    by rewrite !storage_loadEnum, storage_loadFont, !storage_loadEnum,
      !storage_loadFlag, storage_loadEnum, storage_loadFlag. }
  assert (current match loadFromStorage handler "accessibility-screen-reader" c13 with
                  | Some saved =>
                      onEngine
                        (λ s, mkSt (page s)
                                (setUseSpeechSynthesis (String.eqb saved "true") (vars s)))
                        (update (setScreenReader (String.eqb saved "true")) c13)
                  | None => c13
                  end
          = LoadSpec.step (getItem handler "accessibility-screen-reader" (storage c13))
              (λ _, true) (λ v, setScreenReader (String.eqb v "true")) (current c13)) as ->.
  { unfold loadFromStorage. by case_match. }
  rewrite Hs. f_equal. subst c13.
  repeat first
    [ rewrite current_loadEnum_step
    | rewrite current_loadFlag_step
    | rewrite current_loadFont
    | rewrite storage_loadEnum
    | rewrite storage_loadFlag
    | rewrite storage_loadFont ].
  reflexivity.
Qed.

(** *** Changes in manual mode *)



Lemma announcesOnly_announce b message s :
  ManualSpec.announcesOnly b s (if b then announceToScreenReaderIn message polite s else s).
Proof. exists s. destruct b; eauto 10. Qed.









(** *** The save action *)

Lemma saveAll_foldl (l : list (string * string)) (c : Component Store) (b : bool) :
  (∀ k v st, is_Some (setItem handler k v st)) →
  foldl (λ acc kv, let r := saveToStorage handler kv.1 kv.2 acc.1 in (r.1, acc.2 && r.2))
        (c, b) l
  = (mkComponent (panel c) (engine c) (ManualSpec.written handler l (storage c)), b).
Proof.
  intros Hok. revert c b. induction l as [|[k v] l IH]; intros c b.
  { by destruct c. }
  cbn [foldl fst snd]. unfold saveToStorage at 2 3.
  destruct (Hok k v (storage c)) as [st Hst]. rewrite Hst.
  cbn [fst snd]. rewrite IH. simpl. unfold saveToStorage. rewrite Hst. simpl. by rewrite andb_true_r.
Qed.

Lemma onEngine_saving f (c : Component Store) :
  onEngine f (onPanel (setIsSaving true) c) = onPanel (setIsSaving true) (onEngine f c).
Proof. done. Qed.

Lemma onDoc_saving f (c : Component Store) :
  onDoc f (onPanel (setIsSaving true) c) = onPanel (setIsSaving true) (onDoc f c).
Proof. apply onEngine_saving. Qed.

Lemma hideImagesIn_saving b (c : Component Store) :
  hideImagesIn b (onPanel (setIsSaving true) c)
  = onPanel (setIsSaving true) (hideImagesIn b c).
Proof.
  unfold hideImagesIn. cbv zeta.
  change (doc (engine (onPanel (setIsSaving true) c))) with (doc (engine c)).
  change (imagePlaceholdersRef (panel (onPanel (setIsSaving true) c)))
    with (imagePlaceholdersRef (panel c)).
  generalize (applyHideImages b (doc (engine c), imagePlaceholdersRef (panel c))).
  intros r. done.
Qed.

Lemma applyAll_saving (c : Component Store) :
  applyAll props (onPanel (setIsSaving true) c)
  = onPanel (setIsSaving true) (applyAll props c).
Proof.
  unfold applyAll. cbv zeta.
  change (current (onPanel (setIsSaving true) c)) with (current c).
  generalize (current c). intros x.
  by rewrite !onDoc_saving, hideImagesIn_saving, !onDoc_saving, !onEngine_saving.
Qed.

Lemma current_onEngine f (c : Component Store) :
  current (onEngine f c) = current c ∧ storage (onEngine f c) = storage c.
Proof. done. Qed.

Lemma current_hideImagesIn b (c : Component Store) :
  current (hideImagesIn b c) = current c ∧ storage (hideImagesIn b c) = storage c.
Proof.
  unfold hideImagesIn. cbv zeta.
  generalize (applyHideImages b (doc (engine c), imagePlaceholdersRef (panel c))).
  intros r. done.
Qed.

Lemma current_applyAll (c : Component Store) :
  current (applyAll props c) = current c ∧ storage (applyAll props c) = storage c.
Proof.
  unfold applyAll. cbv zeta. generalize (current c) at 1 2 3 4 5 6 7 8 9 10 11 12. intros x.
  unfold onDoc.
  repeat first
    [ rewrite (proj1 (current_onEngine _ _))
    | rewrite (proj2 (current_onEngine _ _))
    | rewrite (proj1 (current_hideImagesIn _ _))
    | rewrite (proj2 (current_hideImagesIn _ _)) ].
  done.
Qed.

Lemma handleSaveSettings_accepted (c : Component Store) :
  (∀ k v st, is_Some (setItem handler k v st)) →
  let c' := handleSaveSettings handler props c in
  let shown := applyAll props c in
  hasUnsavedChanges (panel c') = false
  ∧ isSaving (panel c') = false
  ∧ current c' = current c
  ∧ imagePlaceholdersRef (panel c') = imagePlaceholdersRef (panel shown)
  ∧ storage c' = ManualSpec.written handler (writes (current c)) (storage c)
  ∧ engine c' = if screenReader (current c)
                then announceToScreenReaderIn "Settings saved" polite (engine shown)
                else engine shown.
Proof.
  intros Hok. cbv zeta. unfold handleSaveSettings. cbv zeta.
  rewrite applyAll_saving.
  destruct (current_applyAll c) as [Hcur Hsto].
  generalize dependent (applyAll props c). intros a Hcur Hsto.
  unfold saveAll. rewrite saveAll_foldl by done.
  change (current (onPanel (setIsSaving true) a)) with (current a).
  change (storage (onPanel (setIsSaving true) a)) with (storage a).
  rewrite Hcur, Hsto.
  change (screenReader (current (onPanel (setIsSaving true) c)))
    with (screenReader (current c)).
  unfold announceChange.
  by destruct (screenReader (current c)).
Qed.

End Component.

Lemma written_webStorage_other (l : list (string * string)) (st : gmap string string) k :
  k ∉ l.*1 → ManualSpec.written webStorage l st !! k = st !! k.
Proof.
  revert st. induction l as [|[k' v'] l IH]; intros st Hk; [done|].
  simpl in Hk. apply not_elem_of_cons in Hk as [Hne Hk].
  simpl. rewrite IH by done. by apply lookup_insert_ne.
Qed.

(** With the web storage every saved value can be read back. *)
Lemma written_webStorage (l : list (string * string)) (st : gmap string string) k v :
  NoDup l.*1 → (k, v) ∈ l → ManualSpec.written webStorage l st !! k = Some v.
Proof.
  revert st. induction l as [|[k' v'] l IH]; intros st Hnd Hin.
  { by apply elem_of_nil in Hin. }
  simpl in Hnd. apply NoDup_cons in Hnd as [Hk Hnd].
  apply elem_of_cons in Hin as [[= <- <-]|Hin]; simpl.
  - rewrite written_webStorage_other by done. apply lookup_insert_eq.
  - by apply IH.
Qed.

Lemma NoDup_writes x : NoDup (writes x).*1.
Proof.
  unfold writes, optionalWrite.
  destruct (internalPosition x) as [p|], (internalTheme x) as [t|];
    repeat case_match; simpl; apply (bool_decide_unpack _); by vm_compute.
Qed.

End PanelFacts.

(** ** Parents and removals *)

Module ShapeFacts.
Import Dom Session DomFacts TreeFacts IdFacts.

Lemma NoDup_nodes_cons k ks :
  NoDup (nodes (k :: ks)) →
  NoDup (preorder k) ∧ NoDup (nodes ks) ∧ (∀ x, x ∈ preorder k → x ∉ nodes ks).
Proof. rewrite nodes_cons. intros (? & ? & ?)%NoDup_app. done. Qed.

(** A node other than the root of its tree has a parent. *)
Lemma parentOf_is_Some x t : x ∈ preorder t → x ≠ rootId t → is_Some (parentOf x t).
Proof.
  induction t as [n ks IH] using Tree_ind'. rewrite preorder_T, elem_of_cons. simpl.
  intros [->|Hx] Hne; [done|]. clear Hne.
  case_bool_decide as Hr; [done|].
  induction ks as [|k ks IHks]; [by apply elem_of_nil in Hx|].
  apply Forall_cons in IH as [IHk IH].
  rewrite nodes_cons, elem_of_app in Hx.
  simpl in Hr. apply not_elem_of_cons in Hr as [Hk Hr].
  destruct (parentOf x k) as [p|] eqn:Hp; [done|].
  destruct Hx as [Hx|Hx]; [|by apply IHks].
  destruct (IHk Hx Hk) as [? ?]. congruence.
Qed.

(** In a tree without repeated nodes the parent of [x] is the node whose
    child list holds [x]. *)
Lemma parentOf_Some x t p :
  NoDup (preorder t) → parentOf x t = Some p →
  ∃ ks, subtree p t = Some (T p ks) ∧ x ∈ map rootId ks.
Proof.
  induction t as [n ks IH] using Tree_ind'. rewrite preorder_T, NoDup_cons.
  intros [Hn Hnd]. simpl.
  case_bool_decide as Hr.
  { intros [= <-]. exists ks. by rewrite decide_True. }
  clear Hr. intros Hp.
  assert (∃ ks', (fix first (l : list Tree) : option Tree :=
                    match l with
                    | [] => None
                    | k :: r => match subtree p k with
                                | Some s => Some s
                                | None => first r
                                end
                    end) ks = Some (T p ks')
                 ∧ x ∈ map rootId ks' ∧ p ∈ nodes ks) as (ks' & Hs & Hx & Hin).
  { clear Hn. induction ks as [|k ks IHks]; [done|].
    apply Forall_cons in IH as [IHk IH].
    apply NoDup_nodes_cons in Hnd as (Hk & Hks & Hdisj).
    destruct (parentOf x k) as [q|] eqn:Hq.
    - injection Hp as ->. destruct (IHk Hk eq_refl) as (ks' & Hs & Hx).
      exists ks'. rewrite Hs. repeat split; [done|].
      rewrite nodes_cons, elem_of_app. left. apply subtree_is_Some. eauto.
    - destruct (IHks IH Hks Hp) as (ks' & Hs & Hx & Hin).
      exists ks'. rewrite nodes_cons, elem_of_app.
      destruct (subtree p k) as [s|] eqn:Hk'; [|by auto].
      exfalso. eapply Hdisj; [|exact Hin]. apply subtree_is_Some. eauto. }
  exists ks'. split; [|done].
  rewrite decide_False; [done|]. intros ->. done.
Qed.

(** The nodes of a tree are those below [p] and the rest, and rewriting
    the child list of [p] changes the former only. *)
Lemma preorder_updateKids_within p t ks :
  NoDup (preorder t) → subtree p t = Some (T p ks) →
  ∃ rest, preorder t ≡ₚ nodes ks ++ rest
          ∧ ∀ f, preorder (updateKids p f t) ≡ₚ nodes (f ks) ++ rest.
Proof.
  induction t as [n l IH] using Tree_ind'. rewrite preorder_T, NoDup_cons.
  intros [Hn Hnd] Hs. simpl in Hs.
  destruct (decide (n = p)) as [->|Hnp].
  { injection Hs as ->. exists [p]. split.
    - by rewrite <- Permutation_cons_append.
    - intros f. cbn [updateKids]. rewrite decide_True by done.
      rewrite preorder_T, map_updateKids_notin by done.
      by rewrite <- Permutation_cons_append. }
  assert (∃ rest, nodes l ≡ₚ nodes ks ++ rest
                  ∧ ∀ f, nodes (map (updateKids p f) l) ≡ₚ nodes (f ks) ++ rest)
    as (rest & H1 & H2).
  { clear Hn. induction l as [|k l IHl]; [done|].
    apply Forall_cons in IH as [IHk IH].
    apply NoDup_nodes_cons in Hnd as (Hk & Hl & Hdisj).
    destruct (subtree p k) as [s|] eqn:Hpk.
    - injection Hs as ->. destruct (IHk Hk eq_refl) as (rest & H1 & H2).
      exists (rest ++ nodes l). split.
      + by rewrite nodes_cons, H1, (assoc app).
      + intros f. cbn [map]. rewrite nodes_cons, H2.
        rewrite map_updateKids_notin, (assoc app); [done|].
        intros Hin. eapply Hdisj; [|exact Hin]. apply subtree_is_Some. eauto.
    - destruct (IHl IH Hl Hs) as (rest & H1 & H2).
      exists (preorder k ++ rest). split.
      + rewrite nodes_cons, H1. by rewrite Permutation_app_swap_app.
      + intros f. cbn [map]. rewrite nodes_cons, H2.
        apply subtree_None in Hpk. rewrite updateKids_notin by done.
        by rewrite Permutation_app_swap_app. }
  exists (n :: rest). split.
  - by rewrite H1, Permutation_middle.
  - intros f. cbn [updateKids]. rewrite decide_False by done.
    rewrite preorder_T, H2. by rewrite Permutation_middle.
Qed.

Lemma notin_nodes_removeIn x ks :
  NoDup (nodes ks) → x ∈ map rootId ks → x ∉ nodes (removeIn x ks).
Proof.
  unfold removeIn. induction ks as [|k ks IH]; [by intros _ ?%elem_of_nil|].
  intros (Hk & Hks & Hdisj)%NoDup_nodes_cons. simpl. rewrite elem_of_cons.
  intros Hx. rewrite filter_cons. case_decide as Hr.
  - destruct Hx as [Hx|Hx]; [done|].
    rewrite nodes_cons, not_elem_of_app. split; [|by apply IH].
    intros Hin. eapply Hdisj; [exact Hin|]. by apply roots_in_nodes.
  -
    intros Hin. apply (Hdisj x); [rewrite <- Hr; apply rootId_in_preorder|].
    eapply elem_of_sublist; [exact Hin|]. apply nodes_removeIn_sublist.
Qed.

(** [removeChild] takes the child out of the document. *)
Lemma notin_removeChild x p t :
  NoDup (preorder t) → parentOf x t = Some p →
  x ∉ preorder (updateKids p (removeIn x) t).
Proof.
  intros Hnd Hp. destruct (parentOf_Some _ _ _ Hnd Hp) as (ks & Hs & Hx).
  destruct (preorder_updateKids_within _ _ _ Hnd Hs) as (rest & H1 & H2).
  rewrite H2, not_elem_of_app. rewrite H1 in Hnd.
  apply NoDup_app in Hnd as (Hks & Hdisj & _). split.
  - by apply notin_nodes_removeIn.
  - intros Hin. eapply Hdisj; [|exact Hin]. by apply roots_in_nodes.
Qed.

Lemma filter_sublist_mono {A} (P : A → Prop) `{!∀ x, Decision (P x)} (l1 l2 : list A) :
  l1 `sublist_of` l2 → filter P l1 `sublist_of` filter P l2.
Proof.
  induction 1 as [|x l1 l2 Hl IH|x l1 l2 Hl IH]; [done| |].
  - rewrite !filter_cons. case_decide; [by apply sublist_skip|done].
  - rewrite filter_cons. case_decide; [by apply sublist_cons|done].
Qed.

Lemma filter_ext_elem {A} (P1 P2 : A → Prop)
    `{!∀ x, Decision (P1 x), !∀ x, Decision (P2 x)} (l : list A) :
  (∀ x, x ∈ l → P1 x ↔ P2 x) → filter P1 l = filter P2 l.
Proof.
  induction l as [|a l IH]; intros Hl; [done|].
  rewrite !filter_cons. rewrite IH by (intros x Hx; apply Hl; by right).
  destruct (decide (P1 a)) as [Ha|Ha].
  - rewrite decide_True; [done|]. apply Hl; [left|done].
  - rewrite decide_False; [done|]. intros Hb. apply Ha, Hl; [left|done].
Qed.

(** A child of the root stays one when the rewriting keeps it. *)
Lemma child_of_root_kept x p f t :
  x ∈ map rootId (kids t) →
  (∀ ks, x ∈ map rootId ks → x ∈ map rootId (f ks)) →
  x ∈ map rootId (kids (updateKids p f t)).
Proof.
  destruct t as [n ks]. simpl. intros Hx Hf.
  case_decide; [apply Hf|]; by rewrite map_rootId_updateKids.
Qed.

Lemma roots_removeIn x e ks :
  x ≠ e → x ∈ map rootId ks → x ∈ map rootId (removeIn e ks).
Proof.
  intros Hne (k & -> & Hk)%list_elem_of_fmap.
  apply list_elem_of_fmap. exists k. split; [done|].
  unfold removeIn. by apply list_elem_of_filter.
Qed.

Lemma roots_insertBeforeIn x new r ks :
  x ∈ map rootId ks → x ∈ map rootId (insertBeforeIn new r ks).
Proof.
  induction ks as [|k ks IH]; simpl; [done|].
  rewrite elem_of_cons. case_decide; simpl; rewrite !elem_of_cons; intros [->|Hx]; auto.
Qed.

End ShapeFacts.

(** ** The contrast style sheet *)

Module ContrastFacts.
Import Dom AccessibilityPanel Session ContrastSpec.
Import DomFacts TreeFacts IdFacts AnnouncerFacts ShapeFacts.

Lemma find_head_filter {A} (f : A → bool) (l : list A) :
  List.find f l = hd_error (filter (λ x, f x = true) l).
Proof.
  induction l as [|x l IH]; simpl; [done|].
  rewrite filter_cons. destruct (f x) eqn:Hx.
  - by rewrite decide_True.
  - by rewrite decide_False.
Qed.

Lemma getElementById_styleElements d :
  getElementById d contrastStyleId = hd_error (styleElements d).
Proof. unfold getElementById. simpl. apply find_head_filter. Qed.

(** Whether a node carries an id is a matter of its own data. *)
Lemma hasId_heap d d' i n : heap d' !! n = heap d !! n → hasId d' i n = hasId d i n.
Proof. intros H. unfold hasId, isElement, getAttribute, nodeData. by rewrite H. Qed.

Lemma hasId_alter_attributes d f i n m :
  (∀ attrs, f attrs !! "id" = attrs !! "id") →
  hasId (setHeap (alter (withAttributes f) m (heap d)) d) i n = hasId d i n.
Proof.
  intros Hf. unfold hasId, isElement, getAttribute, nodeData. simpl.
  destruct (decide (m = n)) as [->|Hne].
  - rewrite lookup_alter_eq. destruct (heap d !! n) as [x|]; simpl; [|done].
    by rewrite Hf.
  - by rewrite lookup_alter_ne.
Qed.

Lemma styleElements_ext d d' :
  tree d' = tree d →
  (∀ n, n ∈ preorder (tree d) → hasId d' contrastStyleId n = hasId d contrastStyleId n) →
  styleElements d' = styleElements d.
Proof.
  intros Ht Hh. unfold styleElements. rewrite Ht.
  induction (preorder (tree d)) as [|x l IH]; [done|].
  rewrite !filter_cons, Hh by left. rewrite IH; [done|].
  intros n Hn. apply Hh. by right.
Qed.

(** *** Taking the old style element out *)

Lemma withoutStyle_spec d :
  wellFormed d →
  let d1 := withoutStyle d in
  heap d1 = heap d ∧ nextId d1 = nextId d ∧ head d1 = head d
  ∧ rootId (tree d1) = rootId (tree d)
  ∧ preorder (tree d1) `sublist_of` preorder (tree d)
  ∧ head d1 ∈ map rootId (kids (tree d1))
  ∧ styleElements d1 = [].
Proof.
  intros [Hnd Hbelow Hroot Hhead Hrid Hhid Hone]. cbv zeta. unfold withoutStyle.
  pose proof (getElementById_styleElements d) as Hget.
  destruct (styleElements d) as [|e l] eqn:Hst; simpl in Hget; rewrite Hget.
  { done. }
  destruct l as [|e' l]; [|simpl in Hone; lia].
  assert (e ∈ styleElements d) as He by (rewrite Hst; left).
  apply list_elem_of_filter in He as [Hid He].
  assert (e ≠ rootId (tree d)) as Hne by (intros ->; unfold documentElement in *; congruence).
  assert (e ≠ head d) as Hneh by (intros ->; congruence).
  destruct (parentOf_is_Some _ _ He Hne) as [p Hp].
  unfold parentNode. rewrite Hp. unfold removeChild. simpl.
  repeat split.
  - apply rootId_updateKids.
  - apply preorder_removeChild_sublist.
  - apply child_of_root_kept; [done|]. intros ks. by apply roots_removeIn.
  - apply (anti_symm sublist); [|apply sublist_nil_l].
    unfold styleElements. simpl.
    assert (filter (λ n, hasId d contrastStyleId n = true)
              (preorder (updateKids p (removeIn e) (tree d)))
            `sublist_of` [e]) as Hsub.
    { rewrite <- Hst. unfold styleElements.
      apply filter_sublist_mono, preorder_removeChild_sublist. }
    apply sublist_cons_r in Hsub as [Hsub|(l' & Hl' & _)]; [done|].
    exfalso. apply (notin_removeChild e p (tree d) Hnd Hp).
    assert (e ∈ e :: l') as Hin by left. rewrite <- Hl' in Hin.
    by apply list_elem_of_filter in Hin as [_ ?].
Qed.

(** *** Writing the text of an attached element *)

Lemma setTextContent_spec e css d :
  Str.truthy css = true → NoDup (preorder (tree d)) → attachedBelow d →
  e ∈ preorder (tree d) →
  let d' := setTextContent e css d in
  heap d' = <[nextId d := newText css]> (heap d)
  ∧ nextId d' = S (nextId d) ∧ head d' = head d
  ∧ rootId (tree d') = rootId (tree d)
  ∧ subtree e (tree d') = Some (T e [T (nextId d) []])
  ∧ (∃ l, preorder (tree d') ≡ₚ nextId d :: l
          ∧ l `sublist_of` preorder (tree d) ∧ e ∈ l)
  ∧ (∀ x, x ∈ map rootId (kids (tree d)) → e ≠ rootId (tree d) →
          x ∈ map rootId (kids (tree d'))).
Proof.
  intros Hcss Hnd Hbelow He. cbv zeta. unfold setTextContent. rewrite Hcss.
  unfold createTextNode, appendChild, removeAllChildren. simpl.
  set (t1 := updateKids e (λ _, []) (tree d)).
  assert (e ∈ preorder t1) as He1 by by apply elem_of_updateKids_self.
  assert (preorder t1 `sublist_of` preorder (tree d)) as Hsub
    by apply preorder_removeAll_sublist.
  assert (NoDup (preorder t1)) as Hnd1 by by eapply sublist_NoDup.
  repeat split.
  - unfold t1. by rewrite !rootId_updateKids.
  - assert (subtree e t1 = Some (T e [])) as Hs.
    { apply (subtree_removeAllChildren d e He). }
    by rewrite (subtree_updateKids_self _ _ _ _ Hs).
  - exists (preorder t1). split; [|done].
    by rewrite (preorder_append e (T (nextId d) []) t1 Hnd1 He1).
  - intros x Hx Hne.
    apply child_of_root_kept; [|intros ks; apply roots_append_keep].
    apply child_of_root_updateKids; auto.
Qed.

(** *** Putting the new style element in *)

(** [applyContrast] up to the style sheet's text, for a level other than
    the default one. *)
Lemma styled_spec level d :
  NoDup (preorder (tree d)) → attachedBelow d →
  is_Some (heap d !! documentElement d) →
  head d ∈ map rootId (kids (tree d)) →
  hasId d contrastStyleId (documentElement d) = false →
  hasId d contrastStyleId (head d) = false →
  styleElements d = [] →
  let e := nextId d in
  let d4 := appendChild (head d) (T e [])
              (setAttribute e "id" contrastStyleId (createElement "style" d).2) in
  let d' := setAttribute (documentElement d4) "data-contrast" level d4 in
  wellFormed d' ∧ styleElements d' = [e] ∧ e ∈ preorder (tree d')
  ∧ nextId d' = S e ∧ tagOf d' e = "style" ∧ e ≠ documentElement d'
  ∧ documentElement d' = documentElement d
  ∧ getAttribute d' (documentElement d') "data-contrast" = Some level.
Proof.
  intros Hnd Hbelow Hroot Hhead Hrid Hhid Hst. cbv zeta.
  destruct d as [t h hd bd n]. unfold documentElement in *. simpl in *.
  unfold setAttribute, appendChild, createElement, documentElement. simpl.
  set (t' := updateKids hd (λ ks, ks ++ [T n []]) t).
  assert (hd ∈ preorder t) as Hhd by by apply child_of_root_attached.
  assert (rootId t ∈ preorder t) as Hrt by apply rootId_in_preorder.
  assert (n ∉ preorder t) as Hn by (intros H%Hbelow; simpl in H; lia).
  assert (rootId t ≠ n) as Hrn by (intros E; by rewrite E in Hrt).
  assert (preorder t' ≡ₚ n :: preorder t) as Hperm
    by (unfold t'; by rewrite preorder_append).
  assert (rootId t' = rootId t) as Hrt' by apply rootId_updateKids.
  rewrite Hrt'.
  set (h' := alter _ (rootId t) _).
  set (d' := mkDocument t' h' hd bd (S n)).
  assert (∀ m, m ≠ n → hasId d' contrastStyleId m
                       = hasId (mkDocument t h hd bd n) contrastStyleId m) as Hold.
  { intros m Hm. unfold hasId, isElement, getAttribute, nodeData, d', h'. simpl.
    destruct (decide (rootId t = m)) as [<-|Hne].
    - rewrite lookup_alter_eq, lookup_alter_ne, lookup_insert_ne by done.
      destruct (h !! rootId t) as [x|]; simpl; [|done].
      by rewrite lookup_insert_ne.
    - by rewrite lookup_alter_ne, lookup_alter_ne, lookup_insert_ne. }
  assert (h' !! n = Some (withAttributes (insert "id" contrastStyleId) (newElement "style")))
    as Hnew.
  { unfold h'. by rewrite lookup_alter_ne, lookup_alter_eq, lookup_insert_eq. }
  assert (hasId d' contrastStyleId n = true) as Hidn.
  { unfold hasId, isElement, getAttribute, nodeData, d'. simpl. by rewrite Hnew. }
  assert (styleElements d' = [n]) as Hst'.
  { apply Permutation_singleton_r. unfold styleElements. simpl. rewrite Hperm.
    rewrite filter_cons_True by done. constructor.
    assert (filter (λ m, hasId d' contrastStyleId m = true) (preorder t) = []) as ->;
      [|done].
    rewrite <- Hst. unfold styleElements. simpl.
    apply filter_ext_elem.
    intros m Hm. rewrite Hold; [done|]. intros ->. done. }
  assert (n ∈ preorder t') as Hin by (rewrite Hperm; left).
  split; [|repeat split; try done].
  - constructor; simpl.
    + rewrite Hperm. by constructor.
    + intros x. simpl. rewrite Hperm, elem_of_cons. intros [->|Hx%Hbelow]; simpl in *; lia.
    + unfold documentElement. simpl. rewrite Hrt'. unfold h'.
      rewrite !heap_alter_is_Some, lookup_insert_is_Some. auto.
    + apply child_of_root_kept; [done|]. intros ks. apply roots_append_keep.
    + unfold documentElement. simpl. rewrite Hrt', Hold; done.
    + rewrite Hold; [done|]. intros ->. done.
    + change (length (styleElements d') ≤ 1)%nat. by rewrite Hst'.
  - unfold tagOf, nodeData, d'. simpl. by rewrite Hnew.
  - unfold getAttribute, nodeData, h'. simpl.
    rewrite lookup_alter_eq, lookup_alter_ne, lookup_insert_ne by done.
    destruct Hroot as [x ->]. simpl. by rewrite lookup_insert_eq.
Qed.

(** The style sheet's text goes into the one style element. *)
Lemma styled_text e css d :
  Str.truthy css = true → wellFormed d → styleElements d = [e] →
  e ≠ documentElement d →
  let d' := setTextContent e css d in
  wellFormed d' ∧ styleElements d' = [e] ∧ textContent d' e = css
  ∧ tagOf d' e = tagOf d e ∧ documentElement d' = documentElement d
  ∧ ∀ a, getAttribute d' (documentElement d) a = getAttribute d (documentElement d) a.
Proof.
  intros Hcss [Hnd Hbelow Hroot Hhead Hrid Hhid Hone] Hst Hne. cbv zeta.
  assert (e ∈ styleElements d) as He by (rewrite Hst; left).
  apply list_elem_of_filter in He as [Hid He].
  destruct (setTextContent_spec e css d Hcss Hnd Hbelow He)
    as (Hh & Hn & Hhd & Hr & Hs & (l & Hperm & Hsub & Hel) & Hkids).
  set (d' := setTextContent e css d) in *.
  assert (∀ m, m ∈ preorder (tree d) → heap d' !! m = heap d !! m) as Hold.
  { intros m Hm%Hbelow. rewrite Hh, lookup_insert_ne; [done|lia]. }
  assert (hasId d' contrastStyleId (nextId d) = false) as Hnew.
  { unfold hasId, isElement, nodeData. by rewrite Hh, lookup_insert_eq. }
  assert (styleElements d' = [e]) as Hst'.
  { apply Permutation_singleton_r. unfold styleElements. rewrite Hperm.
    rewrite filter_cons_False by (by rewrite Hnew).
    apply Permutation_singleton_r.
    assert (filter (λ n, hasId d' contrastStyleId n = true) l `sublist_of` [e]) as Hl.
    { rewrite <- Hst. unfold styleElements.
      rewrite (filter_ext_elem _ (λ n, hasId d contrastStyleId n = true)).
      - by apply filter_sublist_mono.
      - intros m Hm. rewrite (hasId_heap d d'); [done|].
        apply Hold. by eapply elem_of_sublist. }
    apply sublist_cons_r in Hl as [Hl|(l' & -> & Hl')].
    - apply sublist_nil_r in Hl. exfalso.
      eapply (filter_nil_not_elem_of _ _ e Hl); [|done].
      by rewrite (hasId_heap d d') by by apply Hold.
    - apply sublist_nil_r in Hl'. by subst. }
  assert (documentElement d' = documentElement d) as Hdoc by done.
  split; [|repeat split; try done].
  - constructor.
    + rewrite Hperm. constructor.
      * intros Hin. eapply elem_of_sublist in Hin; [|exact Hsub].
        apply Hbelow in Hin. lia.
      * by eapply sublist_NoDup.
    + intros x. rewrite Hperm, Hn, elem_of_cons. intros [->|Hx]; [lia|].
      eapply elem_of_sublist in Hx; [|exact Hsub]. apply Hbelow in Hx. lia.
    + rewrite Hdoc, Hold; [done|]. apply rootId_in_preorder.
    + rewrite Hhd. by apply Hkids.
    + rewrite Hdoc, (hasId_heap d d'); [done|]. apply Hold, rootId_in_preorder.
    + rewrite Hhd, (hasId_heap d d'); [done|].
      apply Hold. by apply child_of_root_attached.
    + by rewrite Hst'.
  - unfold hasId in Hid. apply andb_prop in Hid as [Hel' _].
    unfold isElement, nodeData in Hel'.
    destruct (heap d !! e) as [x|] eqn:Hx; [|done].
    apply (textContent_single d' e (nextId d) css x); [done| | |].
    + by rewrite Hold.
    + by apply negb_true_iff.
    + by rewrite Hh, lookup_insert_eq.
  - unfold tagOf, nodeData. by rewrite Hold.
  - intros a. unfold getAttribute, nodeData. rewrite Hold; [done|].
    apply rootId_in_preorder.
Qed.

(** *** One call of [applyContrast] *)

Lemma applyContrast_step level d :
  wellFormed d →
  wellFormed (applyContrast level d) ∧ shows level (applyContrast level d).
Proof.
  intros Hwf.
  destruct (withoutStyle_spec d Hwf) as (Hh & Hn & Hhd & Hr & Hsub & Hhead1 & Hst1).
  destruct Hwf as [Hnd Hbelow Hroot Hhead Hrid Hhid Hone].
  assert (applyContrast level d
          = let d1 := withoutStyle d in
            let d4 := appendChild (head d1) (T (nextId d1) [])
                        (setAttribute (nextId d1) "id" contrastStyleId
                           (createElement "style" d1).2) in
            let d5 := setAttribute (documentElement d4) "data-contrast" level d4 in
            if String.eqb level "default"
            then removeAttribute (documentElement d1) "data-contrast" d1
            else match contrastStyleSheet level with
                 | Some css => setTextContent (nextId d1) css d5
                 | None => d5
                 end) as -> by reflexivity.
  cbv zeta in *.
  set (d1 := withoutStyle d) in *.
  assert (NoDup (preorder (tree d1))) as Hnd1 by by eapply sublist_NoDup.
  assert (attachedBelow d1) as Hbelow1.
  { intros x Hx. rewrite Hn. apply Hbelow. by eapply elem_of_sublist. }
  assert (is_Some (heap d1 !! documentElement d1)) as Hroot1.
  { unfold documentElement. by rewrite Hr, Hh. }
  assert (hasId d1 contrastStyleId (documentElement d1) = false) as Hrid1.
  { unfold documentElement. rewrite Hr, (hasId_heap d d1); [done|by rewrite Hh]. }
  assert (hasId d1 contrastStyleId (head d1) = false) as Hhid1.
  { rewrite Hhd, (hasId_heap d d1); [done|by rewrite Hh]. }
  clearbody d1. clear dependent d.
  unfold shows. destruct (String.eqb level "default") eqn:Hlevel.
  - assert (styleElements (removeAttribute (documentElement d1) "data-contrast" d1) = [])
      as Hst.
    { rewrite <- Hst1. apply styleElements_ext; [done|]. intros n _.
      apply hasId_alter_attributes. intros attrs. by apply lookup_delete_ne. }
    split; [constructor|repeat split]; try done.
    + simpl. apply heap_alter_is_Some, Hroot1.
    + rewrite <- Hrid1. apply hasId_alter_attributes.
      intros attrs. by apply lookup_delete_ne.
    + rewrite <- Hhid1. apply hasId_alter_attributes.
      intros attrs. by apply lookup_delete_ne.
    + rewrite Hst. simpl. lia.
    + apply getAttribute_removeAttribute_eq.
    + by rewrite getElementById_styleElements, Hst.
  - destruct (styled_spec level d1 Hnd1 Hbelow1 Hroot1 Hhead1 Hrid1 Hhid1 Hst1)
      as (Hwf & Hst & Hin & Hnext & Htag & Hne & Hdoc & Hattr).
    cbv zeta in *.
    set (d5 := setAttribute _ "data-contrast" level _) in *.
    destruct (contrastStyleSheet level) as [css|] eqn:Hcss.
    + assert (Str.truthy css = true) as Htruthy.
      { unfold contrastStyleSheet in Hcss.
        repeat case_match; try done; by injection Hcss as <-. }
      destruct (styled_text (nextId d1) css d5 Htruthy Hwf Hst Hne)
        as (Hwf' & Hst' & Htext & Htag' & Hdoc' & Hattr').
      split; [done|]. split.
      * rewrite Hdoc'. by rewrite Hattr'.
      * exists (nextId d1). repeat split; try done.
        -- by rewrite Htag'.
        -- by rewrite getElementById_styleElements, Hst'.
    + split; [done|]. split; [done|].
      exists (nextId d1). repeat split; try done.
      by rewrite getElementById_styleElements, Hst.
Qed.

Lemma applyEach_wellFormed levels d :
  wellFormed d → wellFormed (applyEach levels d).
Proof.
  revert d. induction levels as [|level levels IH]; intros d Hwf; [done|].
  simpl. apply IH. by apply applyContrast_step.
Qed.

End ContrastFacts.

(** ** The claims *)

Import Dom Browser ScreenReaderUtils AccessibilityPanel Session Fixtures.
Import DomFacts SessionFacts PassFacts EngineFacts ModeFacts TreeFacts IdFacts
       AnnouncerFacts PanelFacts ShapeFacts ContrastFacts.

(** C10. For every priority, [announceToScreenReader] with the empty
    message returns at once and leaves the whole world as it was: no debug
    toast, nothing spoken, both live regions untouched, no timer and no
    animation-frame callback scheduled. *)
Theorem announce_empty_message_is_noop (priority : Priority) (w : World) :
  announceToScreenReader "" priority w = Returned w.
Proof. by destruct w as [[p|] g]. Qed.

Lemma allocated_check d :
  bool_decide (map_Forall (λ e _, e < nextId d) (heap d)) = true → allocated d.
Proof.
  intros H%bool_decide_eq_true e [x Hx]. by apply (H e x).
Qed.

Lemma attachedBelow_check d :
  forallb (λ x, bool_decide (x < nextId d)) (preorder (tree d)) = true → attachedBelow d.
Proof.
  intros H x Hx. rewrite forallb_forall in H.
  apply list_elem_of_In, H, bool_decide_eq_true in Hx. done.
Qed.




(** C8. Within one enhancement session the snapshot keeps, for each
    element and attribute, the first value stored: storing again changes
    no entry, and an entry made where there was none holds the value the
    attribute has at that moment. Therefore, however many times the
    enhancements are applied before disabling, every attribute that has
    an entry in the snapshot is back at its value from before the first
    write once [disable] has run, and the snapshot is empty. *)
Theorem snapshot_first_write_wins (s0 : St) (config : ScreenReaderConfig) (n : nat) :
  allocated (doc s0) → originalAttributes (vars s0) = ∅ →
  (∀ s e a e' a' v,
     recorded s e' a' = Some v →
     recorded (storeOriginalAttribute e a s) e' a' = Some v)
  ∧ (∀ s e a,
       recorded s e a = None →
       recorded (storeOriginalAttribute e a s) e a = Some (getAttribute (doc s) e a))
  ∧ (∀ e a,
       existsIn (doc s0) e →
       is_Some (recorded (enableTimes (S n) config s0) e a) →
       getAttribute (doc (disable (enableTimes (S n) config s0))) e a
       = getAttribute (doc s0) e a)
  ∧ originalAttributes (vars (disable (enableTimes (S n) config s0))) = ∅.
Proof.
  intros Ha He. split; [|split; [|split]].
  - intros s e a e' a' v. apply recorded_store_kept.
  - intros s e a Hr. rewrite recorded_store, decide_True by done. by rewrite Hr.
  - intros e a Hex [v Hv].
    pose proof (Inv_enableTimes (doc s0) (S n) config s0 (Inv_start s0 Ha He)) as Hinv.
    pose proof (inv_names _ _ Hinv e a v Hv) as Hname.
    destruct (Inv_disable _ _ Hinv) as [Hd Hempty].
    apply (Inv_restored (doc s0)); try done.
    + intros ->. done.
    + intros [_ [->| ->]]; done.
  - pose proof (Inv_enableTimes (doc s0) (S n) config s0 (Inv_start s0 Ha He)) as Hinv.
    by destruct (Inv_disable _ _ Hinv).
Qed.

Lemma snapshot_first_write_wins_witness :
  allocated fieldsetDocument
  ∧ is_Some (recorded (enableTimes 2 defaultScreenReaderConfig (startOn fieldsetDocument))
                      3 "aria-labelledby")
  ∧ getAttribute
      (doc (disable (enableTimes 2 defaultScreenReaderConfig (startOn fieldsetDocument))))
      3 "aria-labelledby"
    = getAttribute fieldsetDocument 3 "aria-labelledby".
Proof.
  assert (allocated fieldsetDocument) as Ha.
  { apply allocated_check. vm_compute. reflexivity. }
  assert (is_Some (recorded (enableTimes 2 defaultScreenReaderConfig
                               (startOn fieldsetDocument)) 3 "aria-labelledby")) as Hr.
  { vm_compute. eauto. }
  split; [exact Ha|]. split; [exact Hr|].
  destruct (snapshot_first_write_wins (startOn fieldsetDocument)
              defaultScreenReaderConfig 1 Ha eq_refl) as (_ & _ & H & _).
  apply H; [|exact Hr]. vm_compute. eauto.
Defined.

(** C7, as amended. For an element whose [aria-labelledby] referents,
    when one exists, have a non-empty joined text, whose associated
    [label for], when there is one, has a non-empty trimmed text, which
    has a non-empty [alt] when it is an image, and whose id has a plain
    selector text when it is a form control: [getAccessibleName] returns
    the first non-empty result in the order of the specification, the
    joined trimmed texts of the [aria-labelledby] referents, [aria-label],
    the trimmed text of the associated label (form controls), [title],
    [alt] (images), the element's trimmed text, and the empty string
    when all are empty. *)
Theorem accessible_name_first_non_empty (d : Document) (element : NodeId) :
  (NameSpec.referents d element = []
   ∨ Str.truthy (NameSpec.referentsText d element) = true) →
  (∀ l, NameSpec.associatedLabel d element = Some l →
        Str.truthy (Str.trim (textContent d l)) = true) →
  (tagOf d element = "img" → Str.truthy (attr d element "alt") = true) →
  (isFormControl d element = true → plainId (attr d element "id") = true) →
  getAccessibleName d element = Some (NameSpec.nameByFirstNonEmpty d element).
Proof.
  intros Hrefs Hlabel Himg Hplain.
  unfold getAccessibleName, NameSpec.nameByFirstNonEmpty, NameSpec.candidates,
    NameSpec.firstNonEmpty.
  unfold NameSpec.referentsText, NameSpec.referents, NameSpec.associatedLabel in *.
  cbv zeta.
  set (labelElements := if Str.truthy (attr d element "aria-labelledby") then _ else [])
    in *.
  set (joined := Str.join " " (map (λ el, Str.trim (textContent d el)) labelElements)) in *.
  destruct labelElements as [|r rs] eqn:Hl.
  - assert (joined = "") as -> by done. clear Hrefs.
    cbn [List.find Str.truthy].
    destruct (Str.truthy (attr d element "aria-label")) eqn:Haria; [done|].
    assert (∀ t, Str.truthy t = false → t = "") as Hempty by (by intros []).
    destruct (isFormControl d element && Str.truthy (attr d element "id")) eqn:Hform.
    + apply andb_true_iff in Hform as [Hform _]. rewrite (Hplain Hform).
      destruct (querySelector d (labelFor (attr d element "id"))) as [l|] eqn:Hq.
      * by rewrite (Hlabel l eq_refl).
      * cbn [Str.truthy]. destruct (Str.truthy (attr d element "title")); [done|].
        destruct (String.eqb (tagOf d element) "img") eqn:Htag.
        { apply String.eqb_eq in Htag. rewrite (Himg Htag).
          unfold Str.orElse. by rewrite (Himg Htag). }
        cbn [Str.truthy].
        by destruct (Str.truthy (Str.trim (textContent d element))) eqn:Ht;
          [|rewrite (Hempty _ Ht)].
    + cbn [Str.truthy]. destruct (Str.truthy (attr d element "title")); [done|].
      destruct (String.eqb (tagOf d element) "img") eqn:Htag.
      { apply String.eqb_eq in Htag. rewrite (Himg Htag).
        unfold Str.orElse. by rewrite (Himg Htag). }
      cbn [Str.truthy].
      by destruct (Str.truthy (Str.trim (textContent d element))) eqn:Ht;
        [|rewrite (Hempty _ Ht)].
  - destruct Hrefs as [Hrefs|Hrefs]; [done|]. cbn [List.find]. by rewrite Hrefs.
Qed.

Lemma accessible_name_first_non_empty_witness :
  (NameSpec.referents labelsDocument 5 = []
   ∨ Str.truthy (NameSpec.referentsText labelsDocument 5) = true)
  ∧ NameSpec.associatedLabel labelsDocument 5 = Some 3
  ∧ isFormControl labelsDocument 5 = true
  ∧ plainId (attr labelsDocument 5 "id") = true
  ∧ getAccessibleName labelsDocument 5 = Some "Name".
Proof.
  split; [left; reflexivity|]. split; [reflexivity|]. split; [reflexivity|].
  split; [reflexivity|].
  rewrite (accessible_name_first_non_empty labelsDocument 5).
  - reflexivity.
  - left. reflexivity.
  - intros l [= <-]. reflexivity.
  - intros H. vm_compute in H. discriminate.
  - intros _. reflexivity.
Defined.

(** C7, as stated, fails: a referent that exists but has no text ends
    the search with the empty string although [aria-label] is not empty;
    so does an associated label without text although [title] is not
    empty; and an image without [alt] is named ["Image"]. *)
Lemma accessible_name_not_first_non_empty :
  getAccessibleName namesDocument 4 = Some ""
  ∧ NameSpec.nameByFirstNonEmpty namesDocument 4 = "Hi"
  ∧ getAccessibleName labelsDocument 7 = Some ""
  ∧ NameSpec.nameByFirstNonEmpty labelsDocument 7 = "Query"
  ∧ getAccessibleName namesDocument 6 = Some "Image"
  ∧ NameSpec.nameByFirstNonEmpty namesDocument 6 = "".
Proof. vm_compute. done. Qed.

(** C4. [readMainContent] reads [document] with no test in front of it:
    outside a browser it throws where the claim wants an early return. *)
Theorem readMainContent_throws_outside_browser (g : Vars) :
  readMainContent (mkWorld None g) = Threw (ReferenceError "document").
Proof. reflexivity. Qed.

(** The entry points that do test for the document return early and
    leave the world alone. *)
Lemma guarded_entry_points_return_outside_browser (g : Vars) config message priority :
  enableScreenReaderMode config (mkWorld None g) = Returned (mkWorld None g)
  ∧ disableScreenReaderMode (mkWorld None g) = Returned (mkWorld None g)
  ∧ announceToScreenReader message priority (mkWorld None g) = Returned (mkWorld None g)
  ∧ initializeAnnouncer false false (mkWorld None g) = Returned (mkWorld None g)
  ∧ stopSpeaking (mkWorld None g) = Returned (mkWorld None g)
  ∧ isScreenReaderModeEnabled (mkWorld None g) = Returned false.
Proof. done. Qed.

Ltac loaded_field F :=
  repeat first
    [ rewrite (proj_step_same F) by done
    | rewrite (proj_step_flag F) by done
    | rewrite (proj_step_choice F) by done
    | rewrite (proj_step_other F) by done ].

Section LoadReads.
Context {Store : Type} (handler : StorageHandler Store) (props : Props).

Lemma loadFromStorage_domain key (c : Component Store) :
  loadFromStorage (LoadSpec.withoutInvalid handler) key c
  = match LoadSpec.domain key with
    | Some valid => LoadSpec.storedChoice valid (loadFromStorage handler key c)
    | None => loadFromStorage handler key c
    end.
Proof. done. Qed.

Lemma loadEnum_withoutInvalid key valid set (c : Component Store) :
  LoadSpec.domain key = Some valid →
  loadEnum (LoadSpec.withoutInvalid handler) key valid set c
  = loadEnum handler key valid set c.
Proof.
  intros Hd. unfold loadEnum. rewrite loadFromStorage_domain, Hd.
  destruct (loadFromStorage handler key c) as [w|]; [|done].
  simpl. destruct (valid w) eqn:Hw; [by rewrite Hw|done].
Qed.

Lemma loadFlag_withoutInvalid key set (c : Component Store) :
  LoadSpec.domain key = None →
  loadFlag (LoadSpec.withoutInvalid handler) key set c = loadFlag handler key set c.
Proof. intros Hd. unfold loadFlag. by rewrite loadFromStorage_domain, Hd. Qed.

Lemma loadSettingsState_withoutInvalid (c : Component Store) :
  loadSettingsState (LoadSpec.withoutInvalid handler) c = loadSettingsState handler c.
Proof.
  unfold loadSettingsState. cbv zeta.
  rewrite !loadFlag_withoutInvalid by reflexivity.
  rewrite !loadEnum_withoutInvalid by reflexivity.
  rewrite !loadFromStorage_domain. cbn [LoadSpec.domain String.eqb Ascii.eqb Bool.eqb].
  reflexivity.
Qed.

Lemma loadSettingsTimers_withoutInvalid (c : Component Store) :
  loadSettingsTimers (LoadSpec.withoutInvalid handler) c = loadSettingsTimers handler c.
Proof.
  unfold loadSettingsTimers. rewrite !loadFromStorage_domain.
  cbn [LoadSpec.domain String.eqb Ascii.eqb Bool.eqb].
  destruct (loadFromStorage handler "accessibility-contrast" c) as [w|]; [|done].
  cbn [LoadSpec.storedChoice]. destruct (isContrastLevel w) eqn:E; by rewrite ?E.
Qed.

Lemma loadSettings_withoutInvalid (c : Component Store) :
  loadSettings (LoadSpec.withoutInvalid handler) props c = loadSettings handler props c.
Proof.
  unfold loadSettings. cbv zeta.
  by rewrite loadSettingsTimers_withoutInvalid, loadSettingsState_withoutInvalid.
Qed.

End LoadReads.

(** C3, as amended. Loading from any storage, starting from the
    defaults: each enumerated setting (text size, line height, letter and
    word spacing, contrast, saturation, position, theme) takes the stored
    string only when it is one of its values and keeps its default
    otherwise, so its value is always in its domain; each flag is on
    exactly when the stored string is ["true"]. A stored string outside
    the domain of its enumerated setting has no effect at all: the
    component after loading, with its settings, its document and its
    timers, is the one that loading gives when every such string is
    taken out of what the storage returns. The font family is not
    checked: it takes whatever string is stored; for a family that is
    neither built in, nor a key of [customFonts], nor the name of a
    member of [Object.prototype], the value the font-family effect writes
    is ["inherit"]. *)
Theorem load_validates_enumerated_settings {Store} (handler : StorageHandler Store)
    (props : Props) (c : Component Store) :
  current c = defaultSettings →
  let get k := getItem handler k (storage c) in
  let x := current (loadSettings handler props c) in
  (textSize x = LoadSpec.storedEnum isTextSize "default" (get "accessibility-text-size")
   ∧ lineHeight x = LoadSpec.storedEnum isLineHeight "default" (get "accessibility-line-height")
   ∧ letterSpacing x
     = LoadSpec.storedEnum isSpacing "default" (get "accessibility-letter-spacing")
   ∧ wordSpacing x = LoadSpec.storedEnum isSpacing "default" (get "accessibility-word-spacing")
   ∧ contrast x = LoadSpec.storedEnum isContrastLevel "default" (get "accessibility-contrast")
   ∧ saturation x
     = LoadSpec.storedEnum isSaturationLevel "normal" (get "accessibility-saturation")
   ∧ internalPosition x
     = LoadSpec.storedChoice isPanelPosition (get "accessibility-position")
   ∧ internalTheme x = LoadSpec.storedChoice isThemeMode (get "accessibility-theme"))
  ∧ (isTextSize (textSize x) = true ∧ isLineHeight (lineHeight x) = true
     ∧ isSpacing (letterSpacing x) = true ∧ isSpacing (wordSpacing x) = true
     ∧ isContrastLevel (contrast x) = true ∧ isSaturationLevel (saturation x) = true)
  ∧ (monochrome x = LoadSpec.storedFlag (get "accessibility-monochrome")
     ∧ hideImages x = LoadSpec.storedFlag (get "accessibility-hide-images")
     ∧ highlightTitles x = LoadSpec.storedFlag (get "accessibility-highlight-titles")
     ∧ highlightLinks x = LoadSpec.storedFlag (get "accessibility-highlight-links")
     ∧ screenReader x = LoadSpec.storedFlag (get "accessibility-screen-reader"))
  ∧ loadSettings handler props c = loadSettings (LoadSpec.withoutInvalid handler) props c
  ∧ fontFamily x = default "default" (get "accessibility-font-family")
  ∧ (∀ g, LoadSpec.isFontFamily props g = false → g ∉ Js.objectPrototype →
          getFontFamilyValue props g = Js.Text "inherit").
Proof.
  intros Hdefault. cbv zeta.
  rewrite current_loadSettings, current_loadSettingsState. cbv zeta.
  assert (∀ valid dflt o, valid dflt = true →
            valid (LoadSpec.storedEnum valid dflt o) = true) as Hvalid.
  { intros valid dflt [w|] Hd; simpl; [|done]. by destruct (valid w) eqn:Hw. }
  split; [|split; [|split; [|split; [|split]]]].
  - repeat split.
    + loaded_field textSize. by rewrite Hdefault.
    + loaded_field lineHeight. by rewrite Hdefault.
    + loaded_field letterSpacing. by rewrite Hdefault.
    + loaded_field wordSpacing. by rewrite Hdefault.
    + loaded_field contrast. by rewrite Hdefault.
    + loaded_field saturation. by rewrite Hdefault.
    + loaded_field internalPosition. rewrite Hdefault. simpl. by case_match.
    + loaded_field internalTheme. rewrite Hdefault. simpl. by case_match.
  - repeat split.
    + loaded_field textSize. rewrite Hdefault. by apply Hvalid.
    + loaded_field lineHeight. rewrite Hdefault. by apply Hvalid.
    + loaded_field letterSpacing. rewrite Hdefault. by apply Hvalid.
    + loaded_field wordSpacing. rewrite Hdefault. by apply Hvalid.
    + loaded_field contrast. rewrite Hdefault. by apply Hvalid.
    + loaded_field saturation. rewrite Hdefault. by apply Hvalid.
  - repeat split.
    + loaded_field monochrome. by rewrite Hdefault.
    + loaded_field hideImages. by rewrite Hdefault.
    + loaded_field highlightTitles. by rewrite Hdefault.
    + loaded_field highlightLinks. by rewrite Hdefault.
    + loaded_field screenReader. by rewrite Hdefault.
  - symmetry. apply loadSettings_withoutInvalid.
  - loaded_field fontFamily. rewrite Hdefault. simpl.
    by destruct (getItem handler "accessibility-font-family" (storage c)).
  - intros g. unfold LoadSpec.isFontFamily, getFontFamilyValue, Js.lookup.
    rewrite orb_false_iff, !bool_decide_eq_false. intros [Hbuiltin Hcustom] Hproto.
    cbv zeta.
    destruct (customFonts props !! g) as [v|] eqn:Hv; [exfalso; eauto|].
    rewrite (bool_decide_eq_false_2 _ Hproto). cbn [Js.truthy].
    assert (fontMap g = None) as ->; [|done].
    unfold fontMap.
    repeat match goal with
           | |- context [String.eqb g ?k] =>
               let E := fresh "E" in
               destruct (String.eqb g k) eqn:E;
               [exfalso; apply Hbuiltin; apply String.eqb_eq in E; subst g; set_solver
               |clear E]
           end.
    done.
Qed.

Lemma load_validates_enumerated_settings_witness :
  let c := mounted manualProps [("accessibility-text-size", "huge")] in
  current c = defaultSettings
  ∧ textSize (current (loadSettings webStorage manualProps c)) = "default"
  ∧ loadSettings webStorage manualProps c
    = loadSettings (LoadSpec.withoutInvalid webStorage) manualProps c.
Proof.
  intros c. split; [reflexivity|].
  destruct (load_validates_enumerated_settings webStorage manualProps c eq_refl)
    as ((H & _) & _ & _ & Hsame & _).
  split; [exact H|exact Hsame].
Defined.

(** C3, as stated, fails for the font family: a stored string that names
    no font family is taken as the setting's value; and when that string
    is the name of a member of [Object.prototype], what the font-family
    effect writes to the document element is the text of that member. *)
Lemma load_takes_any_font_family :
  LoadSpec.isFontFamily manualProps "no-such-font" = false
  ∧ fontFamily (current (loadSettings webStorage manualProps
                           (mounted manualProps
                              [("accessibility-font-family", "no-such-font")])))
    = "no-such-font"
  ∧ fontFamily defaultSettings = "default"
  ∧ LoadSpec.isFontFamily manualProps "constructor" = false
  ∧ getStyle (doc (engine (loadSettings webStorage manualProps
                             (mounted manualProps
                                [("accessibility-font-family", "constructor")]))))
             0 "--accessibility-font-family"
    = "function Object() { [native code] }".
Proof. vm_compute. done. Qed.

Section SaveReads.
Context {Store : Type} (handler : StorageHandler Store) (props : Props).







End SaveReads.





Lemma wellFormed_emptyDocument : ContrastSpec.wellFormed emptyDocument.
Proof.
  constructor.
  - apply (bool_decide_unpack _). by vm_compute.
  - intros x. simpl. rewrite !elem_of_cons, elem_of_nil. intros [->|[->|[->|[]]]]; lia.
  - by eexists.
  - simpl. set_solver.
  - by vm_compute.
  - by vm_compute.
  - apply (bool_decide_unpack _). by vm_compute.
Qed.

(** C5. On a document without repeated nodes, whose document element
    and head do not carry the id ['accessibility-contrast-style'] and in
    which at most one element does: after [applyContrast(level)], whatever
    levels were applied before, the [data-contrast] attribute of the
    document element is the level and exactly one element carries the id,
    a [style] element holding the level's rules, for a level other than
    ['default']; for ['default'] the attribute is absent and no element
    carries the id. At most one element carries the id after every
    call. *)
Theorem applyContrast_matches_level (levels : list string) (level : string)
    (d : Document) :
  ContrastSpec.wellFormed d →
  let d' := applyContrast level (ContrastSpec.applyEach levels d) in
  ContrastSpec.shows level d'
  ∧ (length (ContrastSpec.styleElements d') ≤ 1)%nat
  ∧ ContrastSpec.wellFormed d'.
Proof.
  intros Hwf. cbv zeta.
  destruct (applyContrast_step level (ContrastSpec.applyEach levels d)) as [Hwf' Hshows].
  { by apply applyEach_wellFormed. }
  split; [done|]. split; [apply Hwf'|done].
Qed.

Lemma applyContrast_matches_level_witness :
  ContrastSpec.wellFormed emptyDocument
  ∧ ContrastSpec.shows "default"
      (applyContrast "default" (ContrastSpec.applyEach ["high"; "dark"] emptyDocument))
  ∧ ContrastSpec.shows "high"
      (applyContrast "high" (ContrastSpec.applyEach ["low"] emptyDocument)).
Proof.
  split; [exact wellFormed_emptyDocument|]. split.
  - exact (proj1 (applyContrast_matches_level ["high"; "dark"] "default" emptyDocument
                    wellFormed_emptyDocument)).
  - exact (proj1 (applyContrast_matches_level ["low"] "high" emptyDocument
                    wellFormed_emptyDocument)).
Defined.

(** ** Saving and loading *)

Module PersistenceFacts.
Import Dom Browser ScreenReaderUtils AccessibilityPanel Fixtures.
Import PanelFacts.
Import Persistence.

Ltac stored_field F :=
  repeat first
    [ rewrite (proj_step_same F) by done
    | rewrite (proj_step_flag F) by done
    | rewrite (proj_step_choice F) by done
    | rewrite (proj_step_other F) by done ].

Ltac listed :=
  repeat first [ apply list_elem_of_here | apply list_elem_of_further ].

Lemma boolString_true b : String.eqb (boolString b) "true" = b.
Proof. by destruct b. Qed.

Lemma storedEnum_valid valid dflt w :
  valid w = true → LoadSpec.storedEnum valid dflt (Some w) = w.
Proof. intros H. simpl. by rewrite H. Qed.

(** X1. Saving to web storage and loading into a fresh component gives the
    settings back: every enumerated setting holds one of its values, and
    the inputs of the page have plain ids when the screen-reader setting
    is on (the save action then runs [enableScreenReaderMode]). *)
Theorem saved_settings_load_back (props props' : Props)
    (c c' : Component (gmap string string)) :
  Persistence.valid (current c) = true →
  (screenReader (current c) = true → plainInputs (doc (engine c)) = true) →
  current c' = defaultSettings →
  storage c' = storage (handleSaveSettings webStorage props c) →
  let x := current c in
  let y := current (loadSettings webStorage props' c') in
  textSize y = textSize x ∧ lineHeight y = lineHeight x
  ∧ letterSpacing y = letterSpacing x ∧ wordSpacing y = wordSpacing x
  ∧ contrast y = contrast x ∧ saturation y = saturation x
  ∧ screenReader y = screenReader x ∧ monochrome y = monochrome x
  ∧ hideImages y = hideImages x ∧ highlightTitles y = highlightTitles x
  ∧ highlightLinks y = highlightLinks x ∧ fontFamily y = fontFamily x
  ∧ (is_Some (internalPosition x) → internalPosition y = internalPosition x)
  ∧ (is_Some (internalTheme x) → internalTheme y = internalTheme x).
Proof.
  intros Hvalid _ Hdefault Hsto. cbv zeta.
  unfold Persistence.valid in Hvalid. rewrite !andb_true_iff in Hvalid.
  destruct Hvalid as (((((((V1 & V2) & V3) & V4) & V5) & V6) & V7) & V8).
  assert (∀ k v (st : gmap string string), is_Some (setItem webStorage k v st))
    as Hok by (intros; eexists; reflexivity).
  destruct (handleSaveSettings_accepted webStorage props c Hok)
    as (_ & _ & _ & _ & Hwritten & _).
  rewrite <- Hsto in Hwritten.
  assert (∀ k v, (k, v) ∈ writes (current c) →
                 getItem webStorage k (storage c') = Some v) as Hget.
  { intros k v Hin. simpl. rewrite Hwritten.
    apply written_webStorage; [apply NoDup_writes|done]. }
  rewrite current_loadSettings, current_loadSettingsState. cbv zeta.
  assert (∀ k v, (k, v) ∈ take 12 (writes (current c)) →
                 getItem webStorage k (storage c') = Some v) as Hget12.
  { intros k v Hin. apply Hget. unfold writes in *. simpl take in Hin.
    apply elem_of_app. by left. }
  unfold writes in Hget12. simpl take in Hget12.
  repeat split.
  - stored_field textSize. rewrite (Hget12 _ (textSize (current c))) by listed.
    by apply storedEnum_valid.
  - stored_field lineHeight. rewrite (Hget12 _ (lineHeight (current c))) by listed.
    by apply storedEnum_valid.
  - stored_field letterSpacing.
    rewrite (Hget12 _ (letterSpacing (current c))) by listed.
    by apply storedEnum_valid.
  - stored_field wordSpacing. rewrite (Hget12 _ (wordSpacing (current c))) by listed.
    by apply storedEnum_valid.
  - stored_field contrast. rewrite (Hget12 _ (contrast (current c))) by listed.
    by apply storedEnum_valid.
  - stored_field saturation. rewrite (Hget12 _ (saturation (current c))) by listed.
    by apply storedEnum_valid.
  - stored_field screenReader.
    rewrite (Hget12 _ (boolString (screenReader (current c)))) by listed.
    apply boolString_true.
  - stored_field monochrome.
    rewrite (Hget12 _ (boolString (monochrome (current c)))) by listed.
    apply boolString_true.
  - stored_field hideImages.
    rewrite (Hget12 _ (boolString (hideImages (current c)))) by listed.
    apply boolString_true.
  - stored_field highlightTitles.
    rewrite (Hget12 _ (boolString (highlightTitles (current c)))) by listed.
    apply boolString_true.
  - stored_field highlightLinks.
    rewrite (Hget12 _ (boolString (highlightLinks (current c)))) by listed.
    apply boolString_true.
  - stored_field fontFamily. rewrite (Hget12 _ (fontFamily (current c))) by listed.
    done.
  - intros [w Hw]. stored_field internalPosition.
    rewrite Hw in *. rewrite (Hget _ w).
    + simpl. by rewrite V7.
    + unfold writes, optionalWrite. rewrite Hw.
      assert (Str.truthy w = true) as ->.
      { destruct w; [done|]. done. }
      apply elem_of_app. right. apply elem_of_app. left. listed.
  - intros [w Hw]. stored_field internalTheme.
    rewrite Hw in *. rewrite (Hget _ w).
    + simpl. by rewrite V8.
    + unfold writes, optionalWrite. rewrite Hw.
      assert (Str.truthy w = true) as ->.
      { destruct w; [done|]. done. }
      apply elem_of_app. right. apply elem_of_app. right. listed.
Qed.

Lemma storage_mkComponent {Store} p e (st : Store) : storage (mkComponent p e st) = st.
Proof. done. Qed.

Lemma saved_settings_load_back_witness :
  let c := manualAfterLoad true in
  let c' := mkComponent (initialPanel manualProps) (startOn emptyDocument)
              (storage (handleSaveSettings webStorage manualProps c)) in
  Persistence.valid (current c) = true
  ∧ plainInputs (doc (engine c)) = true
  ∧ screenReader (current (loadSettings webStorage manualProps c'))
    = screenReader (current c).
Proof.
  intros c c'. split; [reflexivity|]. split; [reflexivity|].
  exact (proj1 (proj2 (proj2 (proj2 (proj2 (proj2 (proj2
           (saved_settings_load_back manualProps manualProps c c'
              eq_refl (λ _, eq_refl) eq_refl (storage_mkComponent _ _ _))))))))).
Defined.

Lemma errors_announceToScreenReaderIn m p s :
  errors (page (announceToScreenReaderIn m p s)) = errors (page s).
Proof.
  unfold announceToScreenReaderIn. destruct (negb _); [done|]. unfold announce. cbv zeta.
  set (s1 := if debugMode (vars s) then showDebugToast m p s else s).
  assert (errors (page s1) = errors (page s)) as H1.
  { subst s1. destruct (debugMode (vars s)); [|done].
    unfold showDebugToast. by destruct (getElementById _ _). }
  clearbody s1.
  set (s2 := if useSpeechSynthesis (vars s1) then speakMessage m p s1 else s1).
  assert (errors (page s2) = errors (page s1)) as H2.
  { subst s2. destruct (useSpeechSynthesis (vars s1)); [|done].
    unfold speakMessage. by destruct (speechSynthesis (page s1)). }
  clearbody s2.
  pose proof (AnnouncerFacts.getOrCreateAnnouncerContainer_page s2) as [Hp _].
  destruct (getOrCreateAnnouncerContainer s2) as [[pr ar] sc]. simpl in *.
  rewrite Hp. simpl. congruence.
Qed.

Section Handler.
Context {Store : Type} (handler : StorageHandler Store) (props : Props).

(** *** A save that fails *)

Lemma saveAll_foldl_any (l : list (string * string)) (c : Component Store) (b : bool) :
  ∃ ok,
    foldl (λ acc kv, let r := saveToStorage handler kv.1 kv.2 acc.1 in (r.1, acc.2 && r.2))
          (c, b) l
    = (mkComponent (panel c) (engine c) (ManualSpec.written handler l (storage c)), ok)
    ∧ (ok = true → b = true ∧ ∀ kv, kv ∈ l → ∃ st0, is_Some (setItem handler kv.1 kv.2 st0)).
Proof.
  revert c b. induction l as [|[k v] l IH]; intros c b.
  { exists b. destruct c. split; [done|]. intros ->. split; [done|].
    by intros kv ?%elem_of_nil. }
  set (f := λ (acc : Component Store * bool) (kv : string * string),
              let r := saveToStorage handler kv.1 kv.2 acc.1 in (r.1, acc.2 && r.2)) in *.
  change (foldl f (c, b) ((k, v) :: l)) with (foldl f (f (c, b) (k, v)) l).
  change (ManualSpec.written handler ((k, v) :: l) (storage c))
    with (ManualSpec.written handler l (default (storage c) (setItem handler k v (storage c)))).
  unfold f at 2. cbn [fst snd]. cbv zeta. unfold saveToStorage.
  destruct (setItem handler k v _) as [st1|] eqn:Hset; cbn [fst snd default].
  - destruct (IH (mkComponent (panel c) (engine c) st1) (b && true)) as (ok & Heq & Hok).
    exists ok. split; [exact Heq|]. intros Htrue.
    destruct (Hok Htrue) as [Hb Hall]. rewrite andb_true_r in Hb. split; [done|].
    intros kv [->|Hin]%elem_of_cons; [exists (storage c); simpl; rewrite Hset; eauto|by apply Hall].
  - destruct (IH c (b && false)) as (ok & Heq & Hok).
    exists ok. split; [exact Heq|]. intros Htrue.
    destruct (Hok Htrue) as [Hb _]. by rewrite andb_false_r in Hb.
Qed.

(** X2. When the storage handler throws for one of the entries the save
    action writes, on a page whose inputs have plain ids when the
    screen-reader setting is on: the apply functions have all run, every
    entry was handed to the handler and those it accepts are stored, the
    failure is logged with [console.error] and announced (when the
    screen-reader setting is on), the unsaved-changes flag stays as it
    was, the saving is over and the settings are unchanged. *)
Theorem failed_save_keeps_unsaved_flag (c : Component Store) (kv : string * string) :
  kv ∈ writes (current c) →
  (∀ st, setItem handler kv.1 kv.2 st = None) →
  (screenReader (current c) = true → plainInputs (doc (engine c)) = true) →
  let c' := handleSaveSettings handler props c in
  let logged := onPage (consoleError "Failed to save accessibility settings:")
                       (engine (applyAll props c)) in
  hasUnsavedChanges (panel c') = hasUnsavedChanges (panel c)
  ∧ isSaving (panel c') = false
  ∧ current c' = current c
  ∧ storage c'
    = foldl (λ st kv, default st (setItem handler kv.1 kv.2 st)) (storage c)
            (writes (current c))
  ∧ engine c' = (if screenReader (current c)
                 then announceToScreenReaderIn
                        "Failed to save settings. Please try again." polite logged
                 else logged)
  ∧ errors (page (engine c'))
    = errors (page (engine (applyAll props c)))
      ++ ["Failed to save accessibility settings:"].
Proof.
  intros Hin Hrej _. cbv zeta. unfold handleSaveSettings. cbv zeta.
  rewrite applyAll_saving.
  destruct (current_applyAll props c) as [Hcur Hsto].
  assert (hasUnsavedChanges (panel (applyAll props c)) = hasUnsavedChanges (panel c))
    as Hflag.
  { unfold applyAll, hideImagesIn. cbv zeta.
    generalize (applyHideImages (hideImages (current c))). intros g. done. }
  generalize dependent (applyAll props c). intros a Hcur Hsto Hflag.
  unfold saveAll.
  change (current (onPanel (setIsSaving true) a)) with (current a). rewrite Hcur.
  destruct (saveAll_foldl_any (writes (current c)) (onPanel (setIsSaving true) a) true)
    as (ok & Heq & Hok).
  cbv zeta in Heq. rewrite Heq.
  change (screenReader (current (onPanel (setIsSaving true) c)))
    with (screenReader (current c)).
  change (storage (onPanel (setIsSaving true) a)) with (storage a). rewrite Hsto.
  destruct ok.
  { destruct (Hok eq_refl) as [_ Hall]. destruct (Hall kv Hin) as [st0 [x Hx]].
    by rewrite Hrej in Hx. }
  unfold announceChange.
  destruct (screenReader (current c)).
  - cbn [onPanel onEngine panel engine storage current settings setIsSaving
         setAnnouncement hasUnsavedChanges isSaving].
    repeat (split; [done|]).
    by rewrite errors_announceToScreenReaderIn.
  - by cbn.
Qed.

(** *** Changes in auto mode *)

Lemma kept_saveToStorage key value (c : Component Store) :
  let c' := (saveToStorage handler key value c).1 in
  panel c' = panel c ∧ engine c' = engine c
  ∧ storage c' = default (storage c) (setItem handler key value (storage c)).
Proof.
  cbv zeta. unfold saveToStorage. by destruct (setItem handler key value (storage c)).
Qed.

Lemma keeps_onEngine f : keeps (Store:=Store) (onEngine f).
Proof. done. Qed.

Lemma keeps_onDoc f : keeps (Store:=Store) (onDoc f).
Proof. done. Qed.

Lemma keeps_hideImagesIn b : keeps (Store:=Store) (hideImagesIn b).
Proof.
  intros c. unfold hideImagesIn. cbv zeta.
  generalize (applyHideImages b (doc (engine c), imagePlaceholdersRef (panel c))).
  intros r. done.
Qed.

Lemma keeps_id : keeps (Store:=Store) (λ c, c).
Proof. done. Qed.

Lemma auto_body f apply key value message (c : Component Store) :
  saveMode props = auto → keeps apply →
  let c' := handler_ props f
              (λ old c, saveAndAnnounce handler props key value message old
                          (applyOrMark props apply c)) c in
  storage c' = default (storage c) (setItem handler key value (storage c))
  ∧ current c' = f (current c)
  ∧ hasUnsavedChanges (panel c') = hasUnsavedChanges (panel c).
Proof.
  intros Hm Hk. cbv zeta. unfold handler_. cbv zeta.
  unfold current. rewrite storage_runEffects, panel_runEffects.
  unfold saveAndAnnounce, conditionalSave, applyOrMark. rewrite Hm.
  destruct (Hk (update f c)) as (K1 & K2 & K3 & _).
  destruct (kept_saveToStorage key value (apply (update f c))) as (S1 & S2 & S3).
  cbv zeta in *. unfold announceChange.
  unfold current in K2. rewrite K1 in S3.
  set (x := (saveToStorage handler key value (apply (update f c))).1) in *.
  clearbody x.
  destruct (screenReader (settings (panel c))); simpl; rewrite S1, S3, K2, K3.
  all: by repeat split.
Qed.

Lemma auto_saveAndAnnounce f key value message (c : Component Store) :
  saveMode props = auto →
  let c' := handler_ props f (saveAndAnnounce handler props key value message) c in
  storage c' = default (storage c) (setItem handler key value (storage c))
  ∧ current c' = f (current c)
  ∧ hasUnsavedChanges (panel c') = hasUnsavedChanges (panel c).
Proof.
  intros Hm.
  pose proof (auto_body f (λ c, c) key value message c Hm keeps_id) as H.
  cbv zeta in *. unfold applyOrMark in H. by rewrite Hm in H.
Qed.

Lemma auto_screenReader checked (c : Component Store) :
  saveMode props = auto →
  let c' := handleScreenReaderChange handler props checked c in
  storage c' = default (storage c)
                 (setItem handler "accessibility-screen-reader" (boolString checked)
                    (storage c))
  ∧ current c' = setScreenReader checked (current c)
  ∧ hasUnsavedChanges (panel c') = hasUnsavedChanges (panel c).
Proof.
  intros Hm. cbv zeta. unfold handleScreenReaderChange, handler_. cbv zeta.
  unfold current. rewrite storage_runEffects, panel_runEffects.
  unfold conditionalSave, applyOrMark. rewrite Hm.
  match goal with
  | |- context [saveToStorage handler ?k ?v ?x] =>
      set (y := x);
      destruct (kept_saveToStorage k v y) as (S1 & S2 & S3)
  end.
  assert (storage y = storage c
          ∧ panel y = panel (update (setScreenReader checked) c)) as [Y1 Y2].
  { subst y. by destruct checked. }
  cbv zeta in *. rewrite Y1 in S3. rewrite Y2 in S1.
  set (x := (saveToStorage handler _ _ y).1) in *. clearbody x. clear S2 Y1 Y2. clearbody y.
  unfold announceChange.
  destruct checked, (screenReader (settings (panel c))); simpl; rewrite S1, S3;
    by repeat split.
Qed.

(** X3. In auto mode every change of a setting goes to the storage handler at
    once, under the setting's key, and the unsaved-changes flag is left
    alone. Turning the screen-reader setting on runs
    [enableScreenReaderMode] before the write: for that change the inputs
    of the page have plain ids. *)
Theorem auto_change_is_stored (ch : Change) (c : Component Store) :
  saveMode props = auto →
  (ch = ChangeScreenReader true → plainInputs (doc (engine c)) = true) →
  let c' := handle handler props ch c in
  storage c' = default (storage c)
                 (setItem handler (Persistence.entry ch).1 (Persistence.entry ch).2
                    (storage c))
  ∧ current c' = ManualSpec.changed ch (current c)
  ∧ hasUnsavedChanges (panel c') = hasUnsavedChanges (panel c).
Proof.
  intros Hm _.
  destruct ch; simpl;
    first [ by apply auto_screenReader
          | by apply auto_saveAndAnnounce
          | by apply auto_body; [|first [apply keeps_onDoc | apply keeps_hideImagesIn]] ].
Qed.

(** *** Loading *)

Lemma kept_runDeferred t (c : Component Store) :
  storage (runDeferred props t c) = storage c
  ∧ hasUnsavedChanges (panel (runDeferred props t c)) = hasUnsavedChanges (panel c).
Proof.
  destruct t; simpl; try done.
Qed.

Lemma kept_foldl_runDeferred (l : list (N * Deferred)) (c : Component Store) :
  storage (foldl (λ c t, runDeferred props t.2 c) c l) = storage c
  ∧ hasUnsavedChanges (panel (foldl (λ c t, runDeferred props t.2 c) c l))
    = hasUnsavedChanges (panel c).
Proof.
  revert c. induction l as [|t l IH]; simpl; intros c; [done|].
  destruct (IH (runDeferred props t.2 c)) as [-> ->]. apply kept_runDeferred.
Qed.

Lemma kept_loadEnum key valid set (c : Component Store) :
  storage (loadEnum handler key valid set c) = storage c
  ∧ hasUnsavedChanges (panel (loadEnum handler key valid set c))
    = hasUnsavedChanges (panel c).
Proof. unfold loadEnum. by repeat case_match. Qed.

Lemma kept_loadFlag key set (c : Component Store) :
  storage (loadFlag handler key set c) = storage c
  ∧ hasUnsavedChanges (panel (loadFlag handler key set c))
    = hasUnsavedChanges (panel c).
Proof. unfold loadFlag. by repeat case_match. Qed.

Lemma kept_loadSettingsState (c : Component Store) :
  storage (loadSettingsState handler c) = storage c
  ∧ hasUnsavedChanges (panel (loadSettingsState handler c)) = hasUnsavedChanges (panel c).
Proof.
  unfold loadSettingsState. cbv zeta.
  set (c8 := loadEnum handler "accessibility-theme" _ _ _).
  assert (storage c8 = storage c
          ∧ hasUnsavedChanges (panel c8) = hasUnsavedChanges (panel c)) as [E1 E2].
  { subst c8.
    repeat first
      [ rewrite (proj1 (kept_loadEnum _ _ _ _)), (proj2 (kept_loadEnum _ _ _ _))
      | rewrite (proj1 (kept_loadFlag _ _ _)), (proj2 (kept_loadFlag _ _ _)) ].
    done. }
  clearbody c8.
  set (c9 := match loadFromStorage handler "accessibility-font-family" c8 with
             | Some saved => update (setFontFamily saved) c8
             | None => c8
             end).
  assert (storage c9 = storage c
          ∧ hasUnsavedChanges (panel c9) = hasUnsavedChanges (panel c)) as [F1 F2].
  { subst c9. by destruct (loadFromStorage handler "accessibility-font-family" c8). }
  clearbody c9.
  set (c13 := loadEnum handler "accessibility-word-spacing" _ _ _).
  assert (storage c13 = storage c
          ∧ hasUnsavedChanges (panel c13) = hasUnsavedChanges (panel c)) as [G1 G2].
  { subst c13.
    repeat rewrite (proj1 (kept_loadEnum _ _ _ _)), (proj2 (kept_loadEnum _ _ _ _)).
    done. }
  clearbody c13.
  by destruct (loadFromStorage handler "accessibility-screen-reader" c13).
Qed.

(** X4. Loading reads the storage and never writes it; it leaves the
    unsaved-changes flag alone; and once its last timer has fired the
    initial load is over and the effects follow the save mode: on in auto
    mode, held back in manual mode. *)
Theorem loadSettings_only_reads (c : Component Store) :
  let c' := loadSettings handler props c in
  storage c' = storage c
  ∧ hasUnsavedChanges (panel c') = hasUnsavedChanges (panel c)
  ∧ isInitialLoadRef (panel c') = false
  ∧ shouldApplyEffectsRef (panel c')
    = match saveMode props with auto => true | manual => false end.
Proof.
  cbv zeta. unfold loadSettings. cbv zeta.
  destruct (kept_foldl_runDeferred (loadSettingsTimers handler c)
              (runEffects props (current c) (loadSettingsState handler c))) as [-> ->].
  rewrite storage_runEffects, panel_runEffects.
  destruct (kept_loadSettingsState c) as [-> ->].
  split; [done|]. split; [done|].
  unfold loadSettingsTimers.
  rewrite !(assoc app), foldl_app. simpl. done.
Qed.

End Handler.

Lemma auto_change_is_stored_witness :
  let c := mounted autoProps [] in
  let c' := handle webStorage autoProps (ChangeTextSize "large") c in
  saveMode autoProps = auto
  ∧ storage c' = <["accessibility-text-size" := "large"]> (storage c)
  ∧ current c' = setTextSize "large" (current c).
Proof.
  intros c c'. split; [reflexivity|].
  destruct (auto_change_is_stored webStorage autoProps (ChangeTextSize "large") c eq_refl)
    as (H1 & H2 & _); [discriminate|].
  split; [exact H1|exact H2].
Defined.

Lemma failed_save_keeps_unsaved_flag_witness :
  let handler := Persistence.rejecting "accessibility-contrast" in
  let c := mkComponent (mkPanel (setContrast "high" defaultSettings) true false false false ∅ "" [])
             (startOn emptyDocument) ∅ in
  let c' := handleSaveSettings handler manualProps c in
  ("accessibility-contrast", "high") ∈ writes (current c)
  ∧ hasUnsavedChanges (panel c') = true
  ∧ storage c' !! "accessibility-contrast" = None
  ∧ storage c' !! "accessibility-text-size" = Some "default"
  ∧ errors (page (engine c')) = ["Failed to save accessibility settings:"].
Proof.
  intros handler c c'.
  assert (("accessibility-contrast", "high") ∈ writes (current c)) as Hin.
  { unfold writes. apply elem_of_app. left. simpl. listed. }
  split; [exact Hin|].
  destruct (failed_save_keeps_unsaved_flag handler manualProps c
              ("accessibility-contrast", "high") Hin (λ st, eq_refl) (λ _, eq_refl))
    as (H1 & _ & _ & H4 & _ & H6).
  split; [exact H1|].
  split; [unfold c'; rewrite H4; reflexivity|].
  split; [unfold c'; rewrite H4; reflexivity|].
  unfold c'. rewrite H6. reflexivity.
Defined.

End PersistenceFacts.

(** ** Resetting *)

Module ResetFacts.
Import Dom Browser ScreenReaderUtils AccessibilityPanel Fixtures.
Import PanelFacts PersistenceFacts.
Import Persistence Reset.

Lemma removeAll_foldl (l : list string) (c : Component (gmap string string)) (b : bool) :
  foldl (λ acc key, let r := removeFromStorage webRemoval key acc.1 in (r.1, acc.2 && r.2))
        (c, b) l
  = (mkComponent (panel c) (engine c) (foldl (λ m k, delete k m) (storage c) l), b).
Proof.
  revert c b. induction l as [|k l IH]; intros c b; [by destruct c|].
  simpl. rewrite IH. simpl. by rewrite andb_true_r.
Qed.

Lemma lookup_foldl_delete (l : list string) (m : gmap string string) k :
  foldl (λ m k, delete k m) m l !! k = if bool_decide (k ∈ l) then None else m !! k.
Proof.
  revert m. induction l as [|k' l IH]; intros m; [done|].
  simpl. rewrite IH. destruct (decide (k = k')) as [->|Hne].
  - rewrite lookup_delete_eq. rewrite (bool_decide_eq_true_2 (k' ∈ k' :: l)) by left.
    by case_bool_decide.
  - rewrite lookup_delete_ne by done.
    case_bool_decide as H1; case_bool_decide as H2; try done.
    + exfalso. apply H2. by right.
    + apply elem_of_cons in H2 as [?|?]; done.
Qed.

Lemma keeps_then {Store} (f g : Component Store → Component Store) c :
  keeps f → keeps g →
  storage (g (f c)) = storage c ∧ current (g (f c)) = current c
  ∧ hasUnsavedChanges (panel (g (f c))) = hasUnsavedChanges (panel c)
  ∧ shouldApplyEffectsRef (panel (g (f c))) = shouldApplyEffectsRef (panel c)
  ∧ isInitialLoadRef (panel (g (f c))) = isInitialLoadRef (panel c).
Proof.
  intros Hf Hg. destruct (Hf c) as (F1 & F2 & F3 & F4 & F5).
  destruct (Hg (f c)) as (G1 & G2 & G3 & G4 & G5).
  by rewrite G1, G2, G3, G4, G5.
Qed.

Lemma keeps_resetEffects : keeps (Store:=gmap string string) resetEffects.
Proof.
  intros c. unfold resetEffects.
  set (c1 := onDoc resetDocument c).
  pose proof (keeps_onDoc resetDocument c) as H1. fold c1 in H1.
  set (c2 := hideImagesIn false c1).
  pose proof (keeps_hideImagesIn false c1) as H2. fold c2 in H2.
  set (c3 := onDoc (applyHighlightTitles false) c2).
  pose proof (keeps_onDoc (applyHighlightTitles false) c2) as H3. fold c3 in H3.
  set (c4 := onDoc (applyHighlightLinks false) c3).
  pose proof (keeps_onDoc (applyHighlightLinks false) c3) as H4. fold c4 in H4.
  set (c5 := onDoc (applyContrast "low") c4).
  pose proof (keeps_onDoc (applyContrast "low") c4) as H5. fold c5 in H5.
  set (c6 := onEngine _ c5).
  pose proof (keeps_onEngine (λ s, mkSt (page s) (setUseSpeechSynthesis false (vars s))) c5)
    as H6. fold c6 in H6.
  clearbody c1 c2 c3 c4 c5 c6.
  destruct H1 as (A1 & B1 & C1 & D1 & E1), H2 as (A2 & B2 & C2 & D2 & E2),
    H3 as (A3 & B3 & C3 & D3 & E3), H4 as (A4 & B4 & C4 & D4 & E4),
    H5 as (A5 & B5 & C5 & D5 & E5), H6 as (A6 & B6 & C6 & D6 & E6).
  destruct (classListContains _ _ _).
  - destruct (keeps_onEngine disable c6) as (A7 & B7 & C7 & D7 & E7).
    rewrite A7, B7, C7, D7, E7. repeat split; congruence.
  - repeat split; congruence.
Qed.

Lemma kept_announceChange {Store} b message (c : Component Store) :
  settings (panel (announceChange b message c)) = settings (panel c)
  ∧ hasUnsavedChanges (panel (announceChange b message c)) = hasUnsavedChanges (panel c)
  ∧ storage (announceChange b message c) = storage c.
Proof. by destruct b. Qed.

Lemma handleReset_spec props (c : Component (gmap string string)) :
  let c' := handleReset webRemoval props c in
  current c' = defaultSettings
  ∧ hasUnsavedChanges (panel c') = false
  ∧ storage c' = foldl (λ m k, delete k m) (storage c) resetKeys.
Proof.
  cbv zeta. unfold handleReset. cbv zeta.
  set (c0 := onPanel (setHasUnsavedChanges false) (update (λ _, defaultSettings) c)).
  destruct (keeps_resetEffects c0) as (A & B & C & _).
  generalize dependent (resetEffects c0). intros c4 A B C.
  unfold removeAll. rewrite removeAll_foldl. cbv beta iota.
  unfold current in *.
  match goal with
  | |- context [announceChange ?b ?m ?x] =>
      destruct (kept_announceChange b m x) as (K1 & K2 & K3); rewrite K1, K2, K3
  end.
  rewrite panel_runEffects, storage_runEffects. cbn [panel storage].
  by rewrite A, B, C.
Qed.

(** X5. After a reset the settings are the defaults and the unsaved-changes
    flag is off; web storage has lost the fourteen keys of the panel and
    kept every other entry; and a component that loads from that storage
    starts with the default settings. *)
Theorem reset_clears_settings_and_storage (props props' : Props)
    (c c' : Component (gmap string string)) :
  current c' = defaultSettings →
  storage c' = storage (handleReset webRemoval props c) →
  let r := handleReset webRemoval props c in
  current r = defaultSettings
  ∧ hasUnsavedChanges (panel r) = false
  ∧ (∀ k, storage r !! k = if bool_decide (k ∈ resetKeys) then None else storage c !! k)
  ∧ current (loadSettings webStorage props' c') = defaultSettings.
Proof.
  intros Hdefault Hsto. cbv zeta.
  destruct (handleReset_spec props c) as (H1 & H2 & H3). cbv zeta in *.
  assert (∀ k, storage (handleReset webRemoval props c) !! k
               = if bool_decide (k ∈ resetKeys) then None else storage c !! k) as Hlook.
  { intros k. rewrite H3. apply lookup_foldl_delete. }
  split; [done|]. split; [done|]. split; [done|].
  rewrite current_loadSettings, current_loadSettingsState. cbv zeta.
  assert (∀ k, k ∈ resetKeys → getItem webStorage k (storage c') = None) as Hnone.
  { intros k Hk. simpl. rewrite Hsto, Hlook. by rewrite bool_decide_eq_true_2. }
  rewrite !Hnone by (unfold resetKeys; listed).
  by rewrite Hdefault.
Qed.

Lemma reset_clears_settings_and_storage_witness :
  let c := mkComponent (mkPanel (setContrast "high" defaultSettings) true false false false ∅ "" [])
             (startOn emptyDocument)
             (<["accessibility-contrast" := "high"]> (<["other" := "kept"]> ∅)) in
  let r := handleReset webRemoval manualProps c in
  let c' := mkComponent (initialPanel manualProps) (startOn emptyDocument) (storage r) in
  current c' = defaultSettings
  ∧ storage r !! "accessibility-contrast" = None
  ∧ current (loadSettings webStorage manualProps c') = defaultSettings.
Proof.
  intros c r c'. split; [reflexivity|].
  destruct (reset_clears_settings_and_storage manualProps manualProps c c'
              eq_refl (storage_mkComponent _ _ _)) as (_ & _ & H3 & H4).
  split; [exact (H3 "accessibility-contrast")|exact H4].
Defined.

End ResetFacts.

(** ** The engine: restoring, speaking, reading *)

Module EngineExtras.
Import Dom Browser ScreenReaderUtils Session Fixtures Reading.
Import DomFacts SessionFacts PassFacts EngineFacts ModeFacts TreeFacts IdFacts AnnouncerFacts.



(** *** Speech *)

Lemma speech_showDebugToast m p s :
  speechSynthesis (page (showDebugToast m p s)) = speechSynthesis (page s)
  ∧ vars (showDebugToast m p s) = vars s.
Proof. unfold showDebugToast. by destruct (getElementById _ _). Qed.

(** X7. Unless speech synthesis was switched on, an announcement speaks
    nothing: the utterances of the browser stay as they are, through the
    call and through every frame and timer callback it leaves behind. *)
Theorem silent_without_speech_synthesis (s : St) (message : string) (priority : Priority) :
  useSpeechSynthesis (vars s) = false →
  let s' := announceToScreenReaderIn message priority s in
  speechSynthesis (page s') = speechSynthesis (page s)
  ∧ useSpeechSynthesis (vars s') = false
  ∧ ∀ t s0, speechSynthesis (page (runTask t s0)) = speechSynthesis (page s0).
Proof.
  intros Hu. cbv zeta. unfold announceToScreenReaderIn.
  destruct (negb (Str.truthy message)).
  { split; [done|]. split; [done|]. intros t s0. by destruct t. }
  unfold announce. cbv zeta.
  set (s1 := if debugMode (vars s) then showDebugToast message priority s else s).
  assert (speechSynthesis (page s1) = speechSynthesis (page s) ∧ vars s1 = vars s)
    as [Hsp Hv].
  { subst s1. destruct (debugMode (vars s)); [apply speech_showDebugToast|done]. }
  clearbody s1. rewrite Hv, Hu.
  pose proof (getOrCreateAnnouncerContainer_page s1) as [Hpage Hvars].
  destruct (getOrCreateAnnouncerContainer s1) as [[pr ar] sc]. simpl in *.
  rewrite Hpage, Hvars, Hv. simpl.
  split; [done|]. split; [done|].
  intros t s0. by destruct t.
Qed.

Lemma silent_without_speech_synthesis_witness :
  let s := mkSt (mkPage emptyDocument [] [] 0 (Some (mkSpeech [] [])) false false
                   (λ _, "r") 0 [] [])
                initialVars in
  useSpeechSynthesis (vars s) = false
  ∧ speechSynthesis (page (announceToScreenReaderIn "Saved" assertive s))
    = Some (mkSpeech [] []).
Proof.
  intros s. split; [reflexivity|].
  exact (proj1 (silent_without_speech_synthesis s "Saved" assertive eq_refl)).
Defined.

(** X8. Focus reading: enabling installs the two listeners once, a second
    call changes nothing, and disabling removes both listeners, clears
    the flag and cancels the speech that is waiting, leaving the document
    alone. *)
Theorem focus_reading_round_trip (s : St) :
  focusReadingEnabled (vars s) = false →
  let s1 := enableFocusReadingIn s in
  let s2 := disableFocusReadingIn s1 in
  (focusinListener (page s1) = true ∧ keydownListener (page s1) = true
   ∧ focusReadingEnabled (vars s1) = true ∧ enableFocusReadingIn s1 = s1)
  ∧ (focusinListener (page s2) = false ∧ keydownListener (page s2) = false
     ∧ focusReadingEnabled (vars s2) = false
     ∧ utterances <$> speechSynthesis (page s2) = (λ _, []) <$> speechSynthesis (page s)
     ∧ doc s2 = doc s
     ∧ disableFocusReadingIn s2 = s2).
Proof.
  intros Hf. cbv zeta. unfold enableFocusReadingIn, disableFocusReadingIn. rewrite Hf.
  simpl. unfold stopSpeakingIn. simpl.
  destruct s as [[d fr tm nw [sp|] fl kl rn dr wn er] v]; simpl in *; rewrite ?Hf; simpl.
  all: by repeat split.
Qed.

Lemma focus_reading_round_trip_witness :
  focusReadingEnabled (vars (startOn emptyDocument)) = false
  ∧ keydownListener (page (enableFocusReadingIn (startOn emptyDocument))) = true
  ∧ keydownListener
      (page (disableFocusReadingIn (enableFocusReadingIn (startOn emptyDocument)))) = false.
Proof.
  split; [reflexivity|].
  destruct (focus_reading_round_trip (startOn emptyDocument) eq_refl)
    as ((_ & H1 & _) & (_ & H2 & _)).
  split; [exact H1|exact H2].
Defined.

(** *** Reading aloud *)

Lemma length_substring n m s : (String.length (String.substring n m s) ≤ m)%nat.
Proof.
  revert n m. induction s as [|c s IH]; intros n m.
  - destruct n, m; simpl; lia.
  - destruct n as [|n]; destruct m as [|m]; simpl; try lia.
    + specialize (IH 0 m). lia.
    + apply IH.
    + apply IH.
Qed.

Lemma speakMessage_spec m p s sp :
  speechSynthesis (page s) = Some sp →
  doc (speakMessage m p s) = doc s
  ∧ vars (speakMessage m p s) = vars s
  ∧ frames (page (speakMessage m p s)) = frames (page s)
  ∧ timers (page (speakMessage m p s)) = timers (page s)
  ∧ utterances <$> speechSynthesis (page (speakMessage m p s))
    = Some (match p with assertive => [] | polite => utterances sp end
            ++ [mkUtterance m (preferredVoice (voices sp))]).
Proof. intros Hsp. unfold speakMessage. rewrite Hsp. by destruct p. Qed.

(** X9. [readMainContent] in a browser that can speak: one utterance joins
    the waiting ones, of at most 1000 characters and never empty, and the
    document, the frames and the timers are left alone. *)
Theorem readMain_speaks_at_most_1000 (s : St) (sp : SpeechSynthesis) :
  speechSynthesis (page s) = Some sp →
  ∃ u, utterances <$> speechSynthesis (page (readMain s)) = Some (utterances sp ++ [u])
       ∧ (0 < String.length (text u) ≤ 1000)%nat
       ∧ doc (readMain s) = doc s
       ∧ frames (page (readMain s)) = frames (page s)
       ∧ timers (page (readMain s)) = timers (page s).
Proof.
  intros Hsp. unfold readMain. cbv zeta.
  set (t := match querySelector (doc s) mainContent with
            | Some main => Str.trim (textContent (doc s) main)
            | None => ""
            end).
  destruct (Str.truthy t) eqn:Ht.
  - destruct (speakMessage_spec (String.substring 0 1000 t) polite s sp Hsp)
      as (H1 & _ & H3 & H4 & H5).
    eexists. split; [exact H5|]. simpl. split; [|done]. split.
    + destruct t as [|c t']; [done|]. simpl. lia.
    + apply length_substring.
  - destruct (speakMessage_spec "No main content found on this page" polite s sp Hsp)
      as (H1 & _ & H3 & H4 & H5).
    eexists. split; [exact H5|]. simpl. split; [lia|done].
Qed.

Lemma readMain_speaks_at_most_1000_witness :
  let s := mkSt (mkPage emptyDocument [] [] 0 (Some (mkSpeech [] [])) false false
                   (λ _, "r") 0 [] [])
                initialVars in
  speechSynthesis (page s) = Some (mkSpeech [] [])
  ∧ ∃ u, utterances <$> speechSynthesis (page (readMain s)) = Some ([] ++ [u])
         ∧ (0 < String.length (text u) ≤ 1000)%nat.
Proof.
  intros s. split; [reflexivity|].
  destruct (readMain_speaks_at_most_1000 s (mkSpeech [] []) eq_refl) as (u & H1 & H2 & _).
  exists u. split; [exact H1|exact H2].
Defined.

Lemma truthy_orElse a b : Str.truthy b = true → Str.truthy (Str.orElse a b) = true.
Proof. intros Hb. unfold Str.orElse. by destruct (Str.truthy a) eqn:Ha. Qed.

(** X10. In a browser with speech synthesis [readLinks] speaks one
    message behind the queued ones. Without a link ([a] with [href]) it
    is ['No links found on this page']. Otherwise it names the first ten
    links in document order, each by its trimmed text, else its
    [aria-label], else ['Unnamed link'], joined by commas, behind
    ['<count> links: '], or ['First 10 of <count> links: '] when there are
    more than ten; no name is empty. *)
Theorem readLinks_names_at_most_ten (s : St) (sp : SpeechSynthesis) :
  speechSynthesis (page s) = Some sp →
  let found := querySelectorAll (doc s) [sel1 [STag "a"; SHas "href"]] in
  let name link :=
    if Str.truthy (Str.trim (textContent (doc s) link))
    then Str.trim (textContent (doc s) link)
    else if Str.truthy (attr (doc s) link "aria-label")
         then attr (doc s) link "aria-label"
         else "Unnamed link" in
  let names := map name (take 10 found) in
  let count := Str.ofN (N.of_nat (length found)) in
  let message :=
    if bool_decide (length found = 0)%nat then "No links found on this page"
    else if bool_decide (10 < length found)%nat
         then "First 10 of " +:+ count +:+ " links: " +:+ Str.join ", " names
         else count +:+ " links: " +:+ Str.join ", " names in
  utterances <$> speechSynthesis (page (readLinks s))
  = Some (utterances sp ++ [mkUtterance message (preferredVoice (voices sp))])
  ∧ length names = min 10 (length found)
  ∧ Forall (λ n, Str.truthy n = true) names.
Proof.
  intros Hsp. cbv zeta. split; [|split].
  - unfold readLinks, links.
    destruct (querySelectorAll (doc s) [sel1 [STag "a"; SHas "href"]]) as [|l ls] eqn:Hq.
    + unfold speakMessage. rewrite Hsp. done.
    + rewrite (bool_decide_eq_false_2 (length (l :: ls) = 0)%nat) by done.
      unfold speakMessage. rewrite Hsp. cbn [onPage page speechSynthesis setSpeech fmap
        option_fmap option_map utterances].
      do 3 f_equal. unfold linksMessage, linkTexts, links. cbv zeta. rewrite Hq.
      reflexivity.
  - by rewrite length_map, length_take.
  - apply Forall_forall. intros name Hname.
    apply list_elem_of_In, in_map_iff in Hname as (link & <- & _).
    destruct (Str.truthy (Str.trim _)) eqn:E1; [done|].
    by destruct (Str.truthy (attr _ _ _)) eqn:E2.
Qed.

Lemma readLinks_names_at_most_ten_witness :
  let s := mkSt (mkPage linksDocument [] [] 0 (Some (mkSpeech [] [])) false false
                   (λ _, "r") 0 [] [])
                initialVars in
  speechSynthesis (page s) = Some (mkSpeech [] [])
  ∧ utterances <$> speechSynthesis (page (readLinks s))
    = Some [mkUtterance "2 links: Home, Unnamed link" (preferredVoice [])].
Proof.
  intros s. split; [reflexivity|].
  destruct (readLinks_names_at_most_ten s (mkSpeech [] []) eq_refl) as (H & _).
  rewrite H. reflexivity.
Defined.

(** X11. The reading shortcuts only speak: [readHeadings], [readLinks] and
    [readMainContent] leave the document, the engine's variables, the
    frames and the timers as they are; where the browser has no speech
    synthesis they log a warning and do nothing else. *)
Theorem reading_only_speaks (s : St) :
  Forall (λ read : St → St,
            doc (read s) = doc s ∧ vars (read s) = vars s
            ∧ frames (page (read s)) = frames (page s)
            ∧ timers (page (read s)) = timers (page s)
            ∧ (speechSynthesis (page s) = None →
               speechSynthesis (page (read s)) = None
               ∧ warnings (page (read s))
                 = warnings (page s) ++ ["Speech synthesis not supported in this browser"]))
         [readHeadings; readLinks; readMain].
Proof.
  assert (∀ m, doc (speakMessage m polite s) = doc s ∧ vars (speakMessage m polite s) = vars s
               ∧ frames (page (speakMessage m polite s)) = frames (page s)
               ∧ timers (page (speakMessage m polite s)) = timers (page s)
               ∧ (speechSynthesis (page s) = None →
                  speechSynthesis (page (speakMessage m polite s)) = None
                  ∧ warnings (page (speakMessage m polite s))
                    = warnings (page s)
                      ++ ["Speech synthesis not supported in this browser"])) as Hspeak.
  { intros m. unfold speakMessage. destruct (speechSynthesis (page s)) eqn:Hsp; by simpl. }
  constructor; [|constructor; [|constructor; [|constructor]]].
  - unfold readHeadings. cbv zeta. destruct (querySelectorAll _ _); apply Hspeak.
  - unfold readLinks. destruct (querySelectorAll _ _); apply Hspeak.
  - unfold readMain. cbv zeta. destruct (Str.truthy _); apply Hspeak.
Qed.

End EngineExtras.

(** ** Hiding images *)

Module HideFacts.
Import Dom Browser AccessibilityPanel Session Fixtures HideSpec.
Import DomFacts TreeFacts IdFacts AnnouncerFacts ShapeFacts.

(** *** Images that are skipped *)

Lemma hideImage_skip d ph img :
  hasAttribute d img "data-original-display" = true → hideImage (d, ph) img = (d, ph).
Proof. intros H. unfold hideImage. by rewrite H. Qed.

Lemma showImage_skip d ph img :
  hasAttribute d img "data-original-display" = false → showImage (d, ph) img = (d, ph).
Proof. intros H. unfold showImage. by rewrite H. Qed.

Lemma foldl_skip {A B} (f : A → B → A) (acc : A) (l : list B) :
  (∀ x, x ∈ l → f acc x = acc) → foldl f acc l = acc.
Proof.
  induction l as [|x l IH]; intros H; [done|]. simpl.
  rewrite H by left. apply IH. intros y Hy. apply H. by right.
Qed.

Lemma applyHideImages_shown (d : Document) (placeholders : gmap nat nat) :
  noneHidden d → applyHideImages false (d, placeholders) = (d, placeholders).
Proof.
  intros H. unfold applyHideImages. simpl. apply foldl_skip. intros img Himg.
  by apply showImage_skip, H.
Qed.

Lemma applyHideImages_hidden (d : Document) (placeholders : gmap nat nat) :
  allHidden d → applyHideImages true (d, placeholders) = (d, placeholders).
Proof.
  intros H. unfold applyHideImages. simpl. apply foldl_skip. intros img Himg.
  by apply hideImage_skip, H.
Qed.

(** X12. Disabling when no image is hidden changes nothing, and so does
    enabling when every image is hidden already: neither the document
    nor the map of placeholders. *)
Theorem applyHideImages_skips (d : Document) (placeholders : gmap nat nat) :
  (noneHidden d → applyHideImages false (d, placeholders) = (d, placeholders))
  ∧ (allHidden d → applyHideImages true (d, placeholders) = (d, placeholders)).
Proof.
  split; intros H.
  - by apply applyHideImages_shown.
  - by apply applyHideImages_hidden.
Qed.

(** *** One image hidden *)

Lemma elem_of_insertBeforeIn_inv new r ks y :
  y ∈ nodes (insertBeforeIn new r ks) → y ∈ preorder new ∨ y ∈ nodes ks.
Proof.
  induction ks as [|k ks IH]; simpl; [by right|].
  case_decide.
  - rewrite !nodes_cons, !elem_of_app. tauto.
  - rewrite !nodes_cons, !elem_of_app. intros [?|?%IH]; tauto.
Qed.

Lemma elem_of_updateKids_inv p f (extra : list NodeId) t y :
  (∀ ks z, z ∈ nodes (f ks) → z ∈ extra ∨ z ∈ nodes ks) →
  y ∈ preorder (updateKids p f t) → y ∈ extra ∨ y ∈ preorder t.
Proof.
  intros Hf. induction t as [n ks IH] using Tree_ind'.
  cbn [updateKids]. rewrite !preorder_T, !elem_of_cons.
  intros [->|Hy]; [by right; left|].
  assert (y ∈ nodes (map (updateKids p f) ks) → y ∈ extra ∨ y ∈ nodes ks) as Hks.
  { clear Hy. induction ks as [|k ks IHks]; [by right|].
    apply Forall_cons in IH as [IHk IH]. cbn [map]. rewrite !nodes_cons, !elem_of_app.
    intros [?%IHk|?%IHks]; tauto. }
  case_decide; [apply Hf in Hy as [?|?%Hks]|apply Hks in Hy]; tauto.
Qed.

Lemma elem_of_insertBefore_old p new r t y :
  y ∈ preorder t → y ∈ preorder (updateKids p (insertBeforeIn new r) t).
Proof.
  apply elem_of_updateKids_keep. intros ks z.
  induction ks as [|k ks IH]; simpl; [done|].
  case_decide; rewrite !nodes_cons, !elem_of_app; [tauto|]. intros [?|?%IH]; tauto.
Qed.

Lemma hideImage_step d ph img x0 :
  heap d !! img = Some x0 → (img < nextId d)%nat →
  attributes x0 !! "data-original-display" = None →
  ∃ t',
    hideImage (d, ph) img
    = (mkDocument t'
         (<[S (nextId d) := newText (altOf x0)]>
            (<[nextId d := placeholderOf x0]> (<[img := hiddenImage x0]> (heap d))))
         (head d) (body d) (S (S (nextId d))),
       <[img := nextId d]> ph)
    ∧ t' = withPlaceholder img (nextId d) (tree d)
    ∧ (∀ y, y ∈ preorder t' → y ∈ preorder (tree d) ∨ y = nextId d ∨ y = S (nextId d))
    ∧ (∀ y, y ∈ preorder (tree d) → y ∈ preorder t').
Proof.
  intros Hx Hlt Hnone. unfold hideImage.
  assert (hasAttribute d img "data-original-display" = false) as ->.
  { unfold hasAttribute, getAttribute, nodeData. rewrite Hx. simpl.
    apply bool_decide_eq_false. rewrite Hnone. by intros [? ?]. }
  destruct d as [t h hd bd n]. simpl in *.
  unfold setAttribute, setStyle, setCssText, createElement, createTextNode, getStyle,
    attr, getAttribute, nodeData, parentNode, nextSibling, insertBefore, appendChild.
  simpl.
  rewrite !lookup_alter_eq, Hx. simpl.
  rewrite !lookup_insert_ne by done.
  set (h' := <[S n := newText (altOf x0)]> (<[n := placeholderOf x0]>
               (<[img := hiddenImage x0]> h))).
  match goal with
  | |- context [alter ?f n (<[S n := ?v]> ?m)] =>
      assert (alter f n (<[S n := v]> m) = h') as ->
  end.
  { apply map_eq. intros k. unfold h'.
    destruct (decide (k = n)) as [->|Hkn].
    - rewrite lookup_alter_eq, lookup_insert_ne, !lookup_alter_eq, lookup_insert_eq by lia.
      rewrite lookup_insert_ne, lookup_insert_eq by lia. done.
    - rewrite lookup_alter_ne by done.
      destruct (decide (k = S n)) as [->|HkS].
      + by rewrite !lookup_insert_eq.
      + rewrite !(lookup_insert_ne _ (S n)) by done.
        rewrite !lookup_alter_ne, (lookup_insert_ne _ n) by done.
        rewrite (lookup_insert_ne _ n) by done.
        destruct (decide (k = img)) as [->|Hki].
        * rewrite !lookup_alter_eq, lookup_insert_eq, Hx. done.
        * rewrite !lookup_alter_ne, lookup_insert_ne by done. done. }
  unfold parentNode, nextSibling, setHeap, withPlaceholder. cbn [tree heap head body nextId].
  destruct (parentOf img t) as [par|] eqn:Hpar.
  - destruct (match subtree par t with Some t0 => nextIn img (kids t0) | None => None end)
      as [r|]; simpl; eexists; (split; [reflexivity|]); (split; [reflexivity|]); split.
    + intros y Hy.
      apply (elem_of_updateKids_inv _ _ [n; S n]) in Hy.
      * rewrite !elem_of_cons, elem_of_nil in Hy. tauto.
      * intros ks z Hz. apply elem_of_insertBeforeIn_inv in Hz.
        change (preorder (T n [T (S n) []])) with [n; S n] in Hz. tauto.
    + intros y. apply elem_of_insertBefore_old.
    + intros y Hy.
      apply (elem_of_updateKids_inv _ _ [n; S n]) in Hy.
      * rewrite !elem_of_cons, elem_of_nil in Hy. tauto.
      * intros ks z. rewrite nodes_app, elem_of_app.
        change (nodes [T n [T (S n) []]]) with [n; S n]. tauto.
    + intros y. apply elem_of_append_old.
  - simpl. eexists. split; [reflexivity|]. split; [reflexivity|]. split; [by left|done].
Qed.

(** *** The images of a document *)

Lemma map_fst_walk anc t : map fst (walk anc t) = preorder t.
Proof.
  revert anc. induction t as [n ks IH] using Tree_ind'. intros anc. simpl. f_equal.
  induction ks as [|k ks IHks]; [done|].
  apply Forall_cons in IH as [IHk IH]. simpl. rewrite map_app, IHk. f_equal. by apply IHks.
Qed.

Lemma elem_of_images d x :
  x ∈ images d ↔ x ∈ preorder (tree d) ∧ isVisibleImage d x = true.
Proof.
  unfold images, querySelectorAll. rewrite <- (map_fst_walk [] (tree d)).
  split.
  - intros ([y anc] & -> & [Hm Hin]%list_elem_of_filter)%list_elem_of_fmap.
    split; [apply list_elem_of_fmap; by exists (y, anc)|].
    unfold matchesSel, visibleImages in Hm. simpl in Hm.
    rewrite orb_false_r in Hm. unfold matchesComplex in Hm. simpl in Hm.
    by rewrite andb_true_r in Hm.
  - intros [([y anc] & -> & Hin)%list_elem_of_fmap Hm].
    apply list_elem_of_fmap. exists (y, anc). split; [done|].
    apply list_elem_of_filter. split; [|done].
    unfold matchesSel, visibleImages. simpl.
    rewrite orb_false_r. unfold matchesComplex. simpl. by rewrite andb_true_r.
Qed.

Lemma isVisibleImage_heap d d' x :
  heap d' !! x = heap d !! x → isVisibleImage d' x = isVisibleImage d x.
Proof.
  intros H. unfold isVisibleImage, matchesCompound, isElement, tagOf, nodeData. simpl.
  unfold tagOf, getAttribute, nodeData. by rewrite H.
Qed.

Lemma isVisibleImage_hidden d d' x x0 :
  heap d !! x = Some x0 → heap d' !! x = Some (hiddenImage x0) →
  isVisibleImage d' x = isVisibleImage d x.
Proof.
  intros H H'. unfold isVisibleImage, matchesCompound, isElement, tagOf, nodeData. simpl.
  unfold tagOf, getAttribute, nodeData. rewrite H, H'. simpl.
  by rewrite !lookup_insert_ne.
Qed.

Lemma isVisibleImage_img d x :
  isVisibleImage d x = true → ∃ x0, heap d !! x = Some x0 ∧ nodeName x0 = "img".
Proof.
  unfold isVisibleImage, matchesCompound, isElement, nodeData. simpl. unfold tagOf, nodeData.
  destruct (heap d !! x) as [x0|]; simpl; [|done].
  rewrite !andb_true_iff. intros (_ & ?%String.eqb_eq & _). eauto.
Qed.

Lemma hasAttribute_hidden d x x0 :
  heap d !! x = Some (hiddenImage x0) → hasAttribute d x "data-original-display" = true.
Proof.
  intros H. unfold hasAttribute, getAttribute, nodeData. rewrite H. simpl.
  apply bool_decide_eq_true. rewrite lookup_insert_ne, lookup_insert_ne, lookup_insert_eq by done.
  eauto.
Qed.

(** *** All images hidden *)

Lemma hiding_start d0 ph0 : allocated d0 → hiding d0 ph0 [] d0 ph0.
Proof.
  intros Ha. constructor; try done.
  - intros n y Hn Hy. assert (n < nextId d0) by (apply Ha; eauto). lia.
  - by intros img ?%elem_of_nil.
  - auto.
Qed.

Lemma hiding_step d0 ph0 seen d ph img :
  attachedBelow d0 → noneHidden d0 → img ∈ images d0 →
  hiding d0 ph0 seen d ph →
  hiding d0 ph0 (img :: seen) (hideImage (d, ph) img).1 (hideImage (d, ph) img).2.
Proof.
  intros Hbelow Hnone Himg [H1 H2 H3 H4 H5 H6 H7].
  pose proof Himg as [Hin Hvis]%elem_of_images.
  destruct (isVisibleImage_img _ _ Hvis) as (x0 & Hx0 & Hname).
  pose proof (Hbelow _ Hin) as Hlt.
  assert (attributes x0 !! "data-original-display" = None) as Hattr.
  { specialize (Hnone _ Himg). unfold hasAttribute, getAttribute, nodeData in Hnone.
    rewrite Hx0 in Hnone. simpl in Hnone. apply bool_decide_eq_false in Hnone.
    destruct (attributes x0 !! _); [exfalso; eauto|done]. }
  destruct (decide (img ∈ seen)) as [Hseen|Hseen].
  - (* processed before: skipped *)
    assert (heap d !! img = Some (hiddenImage x0)) as Hh.
    { rewrite H2, bool_decide_eq_true_2, Hx0 by done. done. }
    rewrite hideImage_skip by by eapply hasAttribute_hidden.
    constructor; simpl; try done.
    + intros n Hn. rewrite H2 by done.
      destruct (decide (n = img)) as [->|Hne].
      * by rewrite !bool_decide_eq_true_2 by (done || left).
      * rewrite (bool_decide_ext (n ∈ img :: seen) (n ∈ seen)); [done|].
        rewrite elem_of_cons. tauto.
    + intros i [->|Hi]%elem_of_cons; auto.
    + intros n Hn. apply H5. intros ?. apply Hn. by right.
  - assert (heap d !! img = Some x0) as Hh.
    { rewrite H2, bool_decide_eq_false_2, Hx0 by done. done. }
    destruct (hideImage_step d ph img x0 Hh ltac:(lia) Hattr) as (t' & -> & _ & Ht1 & Ht2).
    constructor; simpl.
    + lia.
    + intros n Hn. rewrite !lookup_insert_ne by lia.
      destruct (decide (n = img)) as [->|Hne].
      * rewrite lookup_insert_eq, bool_decide_eq_true_2, Hx0 by left. done.
      * rewrite lookup_insert_ne, H2 by done.
        rewrite (bool_decide_ext (n ∈ img :: seen) (n ∈ seen)); [done|].
        rewrite elem_of_cons. tauto.
    + intros n y Hn. rewrite !lookup_insert_Some.
      intros [[<- <-]|[? [[<- <-]|[? [[<- <-]|[? Hy]]]]]]; simpl.
      * split; [lia|done].
      * split; [lia|done].
      * lia.
      * apply H3 in Hy as [? ?]; [|done]. split; [lia|done].
    + intros i [->|Hi]%elem_of_cons.
      * exists (nextId d), x0. rewrite lookup_insert_eq.
        split; [done|]. split; [done|]. split; [lia|].
        rewrite lookup_insert_ne, lookup_insert_eq by lia. done.
      * destruct (H4 i Hi) as (p & xi & Hp & Hxi & Hge & Hhp).
        assert (i ≠ img) by (intros ->; done).
        exists p, xi. rewrite lookup_insert_ne by done.
        split; [done|]. split; [done|]. split; [done|].
        assert (p < nextId d) by by apply H3 in Hhp as [? _].
        rewrite !lookup_insert_ne by lia. done.
    + intros n Hn. rewrite lookup_insert_ne; [apply H5|]; intros ?; apply Hn;
        [by right|subst; by left].
    + intros y [Hy|[->| ->]]%Ht1; [by apply H6|right; lia|right; lia].
    + intros y Hy. by apply Ht2, H7.
Qed.

Lemma hiding_foldl d0 ph0 l seen d ph :
  attachedBelow d0 → noneHidden d0 → (∀ img, img ∈ l → img ∈ images d0) →
  hiding d0 ph0 seen d ph →
  hiding d0 ph0 (rev l ++ seen) (foldl hideImage (d, ph) l).1 (foldl hideImage (d, ph) l).2.
Proof.
  intros Hbelow Hnone. revert seen d ph.
  induction l as [|img l IH]; intros seen d ph Hl H; [done|].
  change (foldl hideImage (d, ph) (img :: l))
    with (foldl hideImage (hideImage (d, ph) img) l).
  change (rev (img :: l)) with (rev l ++ [img]).
  rewrite <- (assoc app). change ([img] ++ seen) with (img :: seen).
  pose proof (hiding_step d0 ph0 seen d ph img Hbelow Hnone (Hl img ltac:(left)) H) as Hs.
  destruct (hideImage (d, ph) img) as [d1 ph1].
  apply IH; [intros i Hi; apply Hl; by right|done].
Qed.

Lemma hiding_images d0 ph0 seen d ph x :
  attachedBelow d0 → (∀ i, i ∈ seen → i ∈ images d0) →
  hiding d0 ph0 seen d ph →
  x ∈ images d ↔ x ∈ images d0.
Proof.
  intros Hbelow Hseen [H1 H2 H3 H4 H5 H6 H7]. rewrite !elem_of_images.
  assert (x ∈ preorder (tree d0) → isVisibleImage d x = isVisibleImage d0 x) as Hsame.
  { intros Hx%Hbelow. specialize (H2 x Hx). case_bool_decide as Hs.
    - destruct (H4 x Hs) as (p & x0 & _ & Hx0 & _).
      rewrite Hx0 in H2. simpl in H2. by eapply isVisibleImage_hidden.
    - by apply isVisibleImage_heap. }
  split.
  - intros [Hin Hvis]. destruct (H6 x Hin) as [Hold|Hnew].
    + split; [done|]. by rewrite <- Hsame.
    + exfalso. destruct (isVisibleImage_img _ _ Hvis) as (y & Hy & Hname).
      by destruct (H3 x y Hnew Hy).
  - intros [Hin Hvis]. split; [by apply H7|]. by rewrite Hsame.
Qed.

Lemma hidden_images_spec (d0 : Document) (ph0 : gmap nat nat) :
  allocated d0 → attachedBelow d0 → noneHidden d0 →
  let r := applyHideImages true (d0, ph0) in
  (∀ img, img ∈ images d0 →
     ∃ x0 p, heap d0 !! img = Some x0
             ∧ heap r.1 !! img = Some (hiddenImage x0)
             ∧ r.2 !! img = Some p ∧ (nextId d0 ≤ p)%nat
             ∧ heap r.1 !! p = Some (placeholderOf x0))
  ∧ (∀ n, (n < nextId d0)%nat → n ∉ images d0 → heap r.1 !! n = heap d0 !! n)
  ∧ (∀ n, n ∉ images d0 → r.2 !! n = ph0 !! n)
  ∧ (∀ x, x ∈ images r.1 ↔ x ∈ images d0).
Proof.
  intros Ha Hbelow Hnone. cbv zeta.
  pose proof (hiding_foldl d0 ph0 (images d0) [] d0 ph0 Hbelow Hnone
                (λ _ H, H) (hiding_start d0 ph0 Ha)) as Hh.
  rewrite app_nil_r in Hh.
  change (foldl hideImage (d0, ph0) (images d0)) with (applyHideImages true (d0, ph0)) in Hh.
  destruct (applyHideImages true (d0, ph0)) as [d ph]. simpl in *.
  assert (∀ i, i ∈ rev (images d0) ↔ i ∈ images d0) as Hrev.
  { intros i. rewrite !list_elem_of_In. symmetry. apply in_rev. }
  pose proof (λ x, hiding_images d0 ph0 _ d ph x Hbelow (λ i, proj1 (Hrev i)) Hh) as Himgs.
  destruct Hh as [H1 H2 H3 H4 H5 H6 H7].
  split; [|split; [|split]].
  - intros img Himg. destruct (H4 img (proj2 (Hrev img) Himg)) as (p & x0 & Hp & Hx0 & Hge & Hhp).
    exists x0, p. repeat split; try done.
    pose proof Himg as [Hin _]%elem_of_images.
    rewrite (H2 img (Hbelow _ Hin)), bool_decide_eq_true_2, Hx0 by by apply Hrev.
    done.
  - intros n Hn Hnot. rewrite (H2 n Hn), bool_decide_eq_false_2; [done|].
    by rewrite Hrev.
  - intros n Hnot. apply H5. by rewrite Hrev.
  - done.
Qed.


Lemma wellFormed_imageDocument :
  allocated imageDocument ∧ attachedBelow imageDocument ∧ noneHidden imageDocument.
Proof.
  split; [|split].
  - apply allocated_check. vm_compute. reflexivity.
  - apply attachedBelow_check. vm_compute. reflexivity.
  - intros img Himg. change (images imageDocument) with [3] in Himg.
    apply list_elem_of_singleton in Himg as ->. by vm_compute.
Qed.


Lemma applyHideImages_skips_witness :
  noneHidden imageDocument
  ∧ applyHideImages false (imageDocument, ∅) = (imageDocument, ∅).
Proof.
  destruct wellFormed_imageDocument as (_ & _ & Hn).
  split; [exact Hn|]. exact (proj1 (applyHideImages_skips imageDocument ∅) Hn).
Defined.

(** *** Showing the images again *)

Lemma showImage_step d ph img x0 :
  heap d !! img = Some (hiddenImage x0) →
  showImage (d, ph) img
  = (mkDocument (withoutPlaceholder ph img (tree d))
       (<[img := shownImage x0]> (heap d)) (head d) (body d) (nextId d),
     delete img ph).
Proof.
  intros Hx. unfold showImage, withoutPlaceholder. rewrite (hasAttribute_hidden _ _ _ Hx).
  destruct d as [t h hd bd n]. simpl in *.
  unfold setStyle, attr, getAttribute, nodeData, removeAttribute, parentNode, removeChild.
  simpl. rewrite !lookup_alter_eq, Hx. simpl.
  rewrite lookup_insert_eq.
  rewrite (lookup_insert_ne _ "data-original-height" "data-original-width") by done.
  rewrite lookup_insert_eq.
  rewrite !(lookup_insert_ne _ _ "data-original-display") by done.
  rewrite lookup_insert_eq. simpl.
  assert (∀ h0 : gmap nat NodeData, h0 !! img = Some (hiddenImage x0) →
    alter (withAttributes (delete "data-original-height")) img
      (alter (withAttributes (delete "data-original-width")) img
         (alter (withAttributes (delete "data-original-display")) img
            (alter (withStyle
                      (if Str.truthy (default "" (style x0 !! "height"))
                       then <["height":=default "" (style x0 !! "height")]>
                       else delete "height")) img
               (alter (withStyle
                         (if Str.truthy (default "" (style x0 !! "width"))
                          then <["width":=default "" (style x0 !! "width")]>
                          else delete "width")) img
                  (alter (withStyle
                            (if Str.truthy (default "" (style x0 !! "display"))
                             then <["display":=default "" (style x0 !! "display")]>
                             else delete "display")) img h0)))))
    = <[img := shownImage x0]> h0) as Hheap.
  { intros h0 Hh0. apply map_eq. intros k. destruct (decide (k = img)) as [->|Hne].
    - rewrite !lookup_alter_eq, Hh0, lookup_insert_eq. simpl. f_equal.
      unfold shownImage, declare, withAttributes, withStyle. simpl.
      by destruct (Str.truthy (default "" (style x0 !! "height"))),
                  (Str.truthy (default "" (style x0 !! "width"))),
                  (Str.truthy (default "" (style x0 !! "display"))).
    - by rewrite !lookup_alter_ne, lookup_insert_ne. }
  destruct (ph !! img) as [p|]; [destruct (parentOf p t) as [par|]|]; simpl;
    by rewrite (Hheap h Hx).
Qed.

Lemma showing_step d0 d1 ph1 seen d ph img :
  img ∈ images d0 → showing d0 d1 ph1 seen d ph →
  showing d0 d1 ph1 (img :: seen) (showImage (d, ph) img).1 (showImage (d, ph) img).2.
Proof.
  intros Himg [H1 H2 H3 H4].
  pose proof Himg as [_ Hvis]%elem_of_images.
  destruct (isVisibleImage_img _ _ Hvis) as (x0 & Hx0 & _).
  pose proof (H2 img x0 Himg Hx0) as Hh.
  assert (∀ n, bool_decide (n ∈ img :: seen)
               = if decide (n = img) then true else bool_decide (n ∈ seen)) as Hdec.
  { intros n. destruct (decide (n = img)) as [->|Hn].
    - apply bool_decide_eq_true_2. left.
    - apply bool_decide_ext. rewrite elem_of_cons. tauto. }
  case_bool_decide as Hseen.
  - (* shown before: the mark is gone, the image is skipped *)
    rewrite showImage_skip.
    + constructor; simpl; try done.
      * intros n y Hn Hy. rewrite Hdec.
        destruct (decide (n = img)) as [->|E]; [|by apply H2].
        rewrite (H2 img y Hn Hy). by rewrite bool_decide_eq_true_2.
      * intros n. rewrite Hdec, H4. destruct (decide (n = img)) as [->|E]; [|done].
        by rewrite bool_decide_eq_true_2.
    + unfold hasAttribute, getAttribute, nodeData. rewrite Hh. simpl.
      apply bool_decide_eq_false. rewrite !lookup_delete_ne, lookup_delete_eq by done.
      by intros [? ?].
  - rewrite (showImage_step d ph img x0 Hh).
    constructor; simpl; try done.
    + intros n y Hn Hy. rewrite Hdec. destruct (decide (n = img)) as [->|E].
      * rewrite Hx0 in Hy. injection Hy as <-. by rewrite lookup_insert_eq.
      * rewrite lookup_insert_ne by done. by apply H2.
    + intros n Hn. rewrite lookup_insert_ne; [by apply H3|]. intros <-. done.
    + intros n. rewrite Hdec. destruct (decide (n = img)) as [->|E].
      * apply lookup_delete_eq.
      * rewrite lookup_delete_ne by done. apply H4.
Qed.






End HideFacts.

(** ** The tree under hidden images *)

Module HideTreeFacts.
Import Dom Browser AccessibilityPanel Session Fixtures HideSpec.
Import DomFacts TreeFacts IdFacts AnnouncerFacts ShapeFacts HideFacts.

Lemma prune_T keep n ks : prune keep (T n ks) = T n (pruneKids keep ks).
Proof.
  simpl. f_equal. unfold pruneKids.
  induction ks as [|k ks IH]; [done|]. simpl. rewrite IH. by destruct (keep (rootId k)).
Qed.

Lemma extras_T keep n ks : extras keep (T n ks) = extrasKids keep ks.
Proof.
  simpl. unfold extrasKids.
  induction ks as [|k ks IH]; [done|]. simpl. by rewrite IH.
Qed.

Lemma pruneKids_cons keep k ks :
  pruneKids keep (k :: ks)
  = (if keep (rootId k) then [prune keep k] else []) ++ pruneKids keep ks.
Proof. done. Qed.

Lemma extrasKids_cons keep k ks :
  extrasKids keep (k :: ks)
  = (if keep (rootId k) then extras keep k else [rootId k]) ++ extrasKids keep ks.
Proof. done. Qed.

Global Opaque prune extras.
Global Arguments pruneKids : simpl never.
Global Arguments extrasKids : simpl never.

Lemma rootId_prune keep t : rootId (prune keep t) = rootId t.
Proof. destruct t. by rewrite prune_T. Qed.

(** Rewriting child lists in a way [prune] does not see. *)
Lemma prune_updateKids keep p f t :
  (∀ ks, pruneKids keep (f ks) = pruneKids keep ks) →
  prune keep (updateKids p f t) = prune keep t.
Proof.
  intros Hf. induction t as [n ks IH] using Tree_ind'.
  cbn [updateKids]. rewrite !prune_T. f_equal.
  assert (pruneKids keep (map (updateKids p f) ks) = pruneKids keep ks) as Hks.
  { induction ks as [|k ks IHks]; [done|].
    apply Forall_cons in IH as [IHk IH]. cbn [map].
    rewrite !pruneKids_cons, rootId_updateKids, IHk, IHks by done. done. }
  case_decide; [by rewrite Hf|done].
Qed.

Lemma extras_updateKids keep p f (E : list NodeId) t y :
  (∀ ks z, z ∈ extrasKids keep (f ks) → z ∈ E ∨ z ∈ extrasKids keep ks) →
  y ∈ extras keep (updateKids p f t) → y ∈ E ∨ y ∈ extras keep t.
Proof.
  intros Hf. induction t as [n ks IH] using Tree_ind'.
  cbn [updateKids]. rewrite !extras_T.
  assert (y ∈ extrasKids keep (map (updateKids p f) ks) → y ∈ E ∨ y ∈ extrasKids keep ks)
    as Hks.
  { induction ks as [|k ks IHks]; [by right|].
    apply Forall_cons in IH as [IHk IH]. cbn [map].
    rewrite !extrasKids_cons, rootId_updateKids, !elem_of_app.
    destruct (keep (rootId k)); intros [Hy|Hy].
    - apply IHk in Hy. tauto.
    - apply IHks in Hy; tauto.
    - tauto.
    - apply IHks in Hy; tauto. }
  case_decide; [|done]. intros [?|?%Hks]%Hf; tauto.
Qed.

Lemma pruneKids_insertBeforeIn keep new r ks :
  keep (rootId new) = false → pruneKids keep (insertBeforeIn new r ks) = pruneKids keep ks.
Proof.
  intros Hnew. induction ks as [|k ks IH]; [done|]. simpl. case_decide.
  - by rewrite (pruneKids_cons _ new), Hnew.
  - by rewrite !pruneKids_cons, IH.
Qed.

Lemma pruneKids_append keep new ks :
  keep (rootId new) = false → pruneKids keep (ks ++ [new]) = pruneKids keep ks.
Proof.
  intros Hnew. unfold pruneKids. rewrite flat_map_app. simpl. rewrite Hnew.
  by rewrite !app_nil_r.
Qed.

Lemma pruneKids_removeIn keep x ks :
  keep x = false → pruneKids keep (removeIn x ks) = pruneKids keep ks.
Proof.
  intros Hx. unfold removeIn. induction ks as [|k ks IH]; [done|].
  rewrite filter_cons. case_decide as Hk.
  - by rewrite !pruneKids_cons, IH.
  - rewrite pruneKids_cons, Hk, Hx. done.
Qed.

Lemma extrasKids_insertBeforeIn keep new r ks z :
  keep (rootId new) = false →
  z ∈ extrasKids keep (insertBeforeIn new r ks) → z ∈ [rootId new] ∨ z ∈ extrasKids keep ks.
Proof.
  intros Hnew. induction ks as [|k ks IH]; [by right|]. simpl. case_decide.
  - rewrite (extrasKids_cons _ new), Hnew, elem_of_app. tauto.
  - rewrite !extrasKids_cons, !elem_of_app. intros [?|?%IH]; tauto.
Qed.

Lemma extrasKids_append keep new ks z :
  keep (rootId new) = false →
  z ∈ extrasKids keep (ks ++ [new]) → z ∈ [rootId new] ∨ z ∈ extrasKids keep ks.
Proof.
  intros Hnew. unfold extrasKids. rewrite flat_map_app, elem_of_app. simpl.
  rewrite Hnew, app_nil_r. tauto.
Qed.

Lemma extrasKids_removeIn keep x ks z :
  z ∈ extrasKids keep (removeIn x ks) → z ∈ @nil NodeId ∨ z ∈ extrasKids keep ks.
Proof.
  unfold removeIn. induction ks as [|k ks IH]; [by right|].
  rewrite filter_cons. case_decide as Hk.
  - rewrite !extrasKids_cons, !elem_of_app. intros [?|?%IH]; tauto.
  - rewrite extrasKids_cons, elem_of_app. intros ?%IH. tauto.
Qed.

Lemma extras_in_nodes keep t y : y ∈ extras keep t → y ∈ nodes (kids t).
Proof.
  induction t as [n ks IH] using Tree_ind'. rewrite extras_T. simpl.
  induction ks as [|k ks IHks]; [done|].
  apply Forall_cons in IH as [IHk IH].
  rewrite extrasKids_cons, nodes_cons, !elem_of_app.
  intros [Hy|Hy]; [left|right; by apply IHks].
  destruct (keep (rootId k)).
  - apply IHk in Hy. destruct k as [m l]. rewrite preorder_T. by right.
  - apply list_elem_of_singleton in Hy as ->. apply rootId_in_preorder.
Qed.

Lemma extras_in_preorder keep t y : y ∈ extras keep t → y ∈ preorder t.
Proof.
  intros Hy%extras_in_nodes. destruct t as [n ks]. rewrite preorder_T. by right.
Qed.

(** Without dropped children, pruning changes nothing. *)
Lemma prune_id keep t : (∀ y, y ∉ extras keep t) → prune keep t = t.
Proof.
  induction t as [n ks IH] using Tree_ind'. rewrite extras_T, prune_T. intros Hno. f_equal.
  induction ks as [|k ks IHks]; [done|].
  apply Forall_cons in IH as [IHk IH].
  rewrite pruneKids_cons.
  assert (keep (rootId k) = true) as Hk.
  { destruct (keep (rootId k)) eqn:E; [done|]. exfalso. apply (Hno (rootId k)).
    rewrite extrasKids_cons, E. apply elem_of_app. left. by left. }
  rewrite Hk. simpl. f_equal.
  - apply IHk. intros y Hy. apply (Hno y). rewrite extrasKids_cons, Hk, elem_of_app. by left.
  - apply IHks; [done|]. intros y Hy. apply (Hno y). rewrite extrasKids_cons, elem_of_app.
    by right.
Qed.

Lemma extras_none keep t : (∀ y, y ∈ nodes (kids t) → keep y = true) → ∀ y, y ∉ extras keep t.
Proof.
  induction t as [n ks IH] using Tree_ind'. rewrite extras_T. simpl. intros Hall.
  induction ks as [|k ks IHks]; [by intros y ?%elem_of_nil|].
  apply Forall_cons in IH as [IHk IH]. intros y.
  rewrite extrasKids_cons, elem_of_app.
  assert (keep (rootId k) = true) as ->.
  { apply Hall. rewrite nodes_cons, elem_of_app. left. apply rootId_in_preorder. }
  intros [Hy|Hy].
  - revert Hy. apply IHk. intros z Hz. apply Hall. rewrite nodes_cons, elem_of_app. left.
    destruct k as [m l]. rewrite preorder_T. by right.
  - revert Hy. apply IHks; [done|]. intros z Hz. apply Hall.
    rewrite nodes_cons, elem_of_app. by right.
Qed.

(** *** Trees without repeated nodes *)

Lemma insertBeforeIn_notin new r ks : r ∉ map rootId ks → insertBeforeIn new r ks = ks.
Proof.
  induction ks as [|k ks IH]; [done|]. simpl. rewrite not_elem_of_cons. intros [Hk Hr].
  rewrite decide_False by done. by rewrite IH.
Qed.

Lemma NoDup_updateKids_add p f new t :
  (∀ ks, f ks = ks ∨ nodes (f ks) ≡ₚ preorder new ++ nodes ks) →
  NoDup (preorder t) → NoDup (preorder new) →
  (∀ y, y ∈ preorder new → y ∉ preorder t) →
  NoDup (preorder (updateKids p f t)).
Proof.
  intros Hf Hnd Hnew Hfresh.
  destruct (decide (p ∈ preorder t)) as [Hp|Hp]; [|by rewrite updateKids_notin].
  apply subtree_is_Some in Hp as [s Hs].
  pose proof (subtree_Some_root _ _ _ Hs) as Hroot.
  rewrite (subtree_kids_root _ _ _ Hs) in Hs.
  destruct (preorder_updateKids_within _ _ _ Hnd Hs) as (rest & H1 & H2).
  rewrite (H2 f). destruct (Hf (kids s)) as [->| ->].
  - by rewrite <- H1.
  - rewrite <- (assoc app), <- H1. apply NoDup_app. repeat split; done.
Qed.

Lemma NoDup_withPlaceholder img n t :
  NoDup (preorder t) → n ∉ preorder t → S n ∉ preorder t →
  NoDup (preorder (withPlaceholder img n t)).
Proof.
  intros Hnd Hn HSn. unfold withPlaceholder.
  assert (NoDup (preorder (T n [T (S n) []]))) as Hnew.
  { change (NoDup [n; S n]). apply NoDup_cons. split; [|apply NoDup_singleton].
    rewrite list_elem_of_singleton. lia. }
  assert (∀ y, y ∈ preorder (T n [T (S n) []]) → y ∉ preorder t) as Hfresh.
  { intros y. change (y ∈ [n; S n] → y ∉ preorder t).
    rewrite !elem_of_cons, elem_of_nil. by intros [->|[->|[]]]. }
  destruct (parentOf img t) as [par|]; [|done].
  destruct (match subtree par t with Some s => nextIn img (kids s) | None => None end) as [r|].
  - apply (NoDup_updateKids_add _ _ (T n [T (S n) []])); try done.
    intros ks. destruct (decide (r ∈ map rootId ks)) as [Hr|Hr].
    + right. by apply nodes_insertBeforeIn.
    + left. by apply insertBeforeIn_notin.
  - apply (NoDup_updateKids_add _ _ (T n [T (S n) []])); try done.
    intros ks. right. apply nodes_append.
Qed.

Lemma prune_withPlaceholder keep img n t :
  keep n = false → prune keep (withPlaceholder img n t) = prune keep t.
Proof.
  intros Hn. unfold withPlaceholder.
  destruct (parentOf img t) as [par|]; [|done].
  destruct (match subtree par t with Some s => nextIn img (kids s) | None => None end) as [r|].
  - apply prune_updateKids. intros ks. by apply pruneKids_insertBeforeIn.
  - apply prune_updateKids. intros ks. by apply pruneKids_append.
Qed.

Lemma extras_withPlaceholder keep img n t y :
  keep n = false → y ∈ extras keep (withPlaceholder img n t) → y = n ∨ y ∈ extras keep t.
Proof.
  intros Hn. unfold withPlaceholder.
  destruct (parentOf img t) as [par|]; [|by right].
  destruct (match subtree par t with Some s => nextIn img (kids s) | None => None end) as [r|].
  - intros Hy. apply (extras_updateKids _ _ _ [n]) in Hy.
    + rewrite list_elem_of_singleton in Hy. tauto.
    + intros ks z. by apply extrasKids_insertBeforeIn.
  - intros Hy. apply (extras_updateKids _ _ _ [n]) in Hy.
    + rewrite list_elem_of_singleton in Hy. tauto.
    + intros ks z. by apply extrasKids_append.
Qed.

Lemma preorder_withoutPlaceholder ph img t :
  preorder (withoutPlaceholder ph img t) `sublist_of` preorder t.
Proof.
  unfold withoutPlaceholder. destruct (ph !! img) as [p|]; [|done].
  destruct (parentOf p t) as [par|]; [|done]. apply preorder_removeChild_sublist.
Qed.

Lemma prune_withoutPlaceholder keep ph img t :
  (∀ p, ph !! img = Some p → keep p = false) →
  prune keep (withoutPlaceholder ph img t) = prune keep t.
Proof.
  intros Hp. unfold withoutPlaceholder. destruct (ph !! img) as [p|]; [|done].
  destruct (parentOf p t) as [par|]; [|done].
  apply prune_updateKids. intros ks. apply pruneKids_removeIn. by apply Hp.
Qed.

Lemma extras_withoutPlaceholder keep ph img t y :
  y ∈ extras keep (withoutPlaceholder ph img t) → y ∈ extras keep t.
Proof.
  unfold withoutPlaceholder. destruct (ph !! img) as [p|]; [|done].
  destruct (parentOf p t) as [par|]; [|done].
  intros Hy. apply (extras_updateKids _ _ _ []) in Hy.
  - destruct Hy as [[]%elem_of_nil|]; done.
  - intros ks z. apply extrasKids_removeIn.
Qed.

(** The placeholder of the image is out of the tree afterwards. *)
Lemma placeholder_removed ph img p t :
  NoDup (preorder t) → ph !! img = Some p → p ≠ rootId t →
  p ∉ preorder (withoutPlaceholder ph img t).
Proof.
  intros Hnd Hp Hroot. unfold withoutPlaceholder. rewrite Hp.
  destruct (parentOf p t) as [par|] eqn:Hpar.
  - by apply notin_removeChild.
  - intros Hin. destruct (parentOf_is_Some p t Hin Hroot) as [? ?]. congruence.
Qed.

(** *** The tree while the images are hidden *)

Lemma own_false d0 n : (nextId d0 ≤ n)%nat → own d0 n = false.
Proof. intros H. apply bool_decide_eq_false. lia. Qed.

Lemma hidingTree_start d0 ph0 :
  attachedBelow d0 → NoDup (preorder (tree d0)) → hidingTree d0 [] d0 ph0.
Proof.
  intros Hbelow Hnd.
  assert (∀ y, y ∉ extras (own d0) (tree d0)) as Hno.
  { apply extras_none. intros y Hy. apply bool_decide_eq_true. apply Hbelow.
    destruct (tree d0) as [n ks]. rewrite preorder_T. by right. }
  constructor; try done.
  - by apply prune_id.
  - intros y Hy. by apply Hno in Hy.
Qed.

Lemma hidingTree_step d0 ph0 seen d ph img :
  attachedBelow d0 → noneHidden d0 → img ∈ images d0 →
  hiding d0 ph0 seen d ph → hidingTree d0 seen d ph →
  hidingTree d0 (img :: seen) (hideImage (d, ph) img).1 (hideImage (d, ph) img).2.
Proof.
  intros Hbelow Hnone Himg [H1 H2 H3 H4 H5 H6 H7] [T1 T2 T3 T4].
  pose proof Himg as [Hin Hvis]%elem_of_images.
  destruct (isVisibleImage_img _ _ Hvis) as (x0 & Hx0 & Hname).
  pose proof (Hbelow _ Hin) as Hlt.
  assert (attributes x0 !! "data-original-display" = None) as Hattr.
  { specialize (Hnone _ Himg). unfold hasAttribute, getAttribute, nodeData in Hnone.
    rewrite Hx0 in Hnone. simpl in Hnone. apply bool_decide_eq_false in Hnone.
    destruct (attributes x0 !! _); [exfalso; eauto|done]. }
  destruct (decide (img ∈ seen)) as [Hseen|Hseen].
  - assert (heap d !! img = Some (hiddenImage x0)) as Hh.
    { rewrite H2, bool_decide_eq_true_2, Hx0 by done. done. }
    rewrite hideImage_skip by by eapply hasAttribute_hidden.
    constructor; simpl; try done.
    intros y (i & Hi & Hp)%T4. exists i. split; [by right|done].
  - assert (heap d !! img = Some x0) as Hh.
    { rewrite H2, bool_decide_eq_false_2, Hx0 by done. done. }
    destruct (hideImage_step d ph img x0 Hh ltac:(lia) Hattr) as (t' & -> & -> & Ht1 & Ht2).
    assert (own d0 (nextId d) = false) as Hown by by apply own_false.
    constructor; simpl.
    + intros y [Hy%T1|[->| ->]]%Ht1; lia.
    + apply NoDup_withPlaceholder; [done| |]; intros Hy%T1; lia.
    + by rewrite prune_withPlaceholder.
    + intros y [->|Hy]%extras_withPlaceholder; [| |done].
      * exists img. rewrite lookup_insert_eq. split; [by left|done].
      * destruct (T4 y Hy) as (i & Hi & Hp). exists i. split; [by right|].
        rewrite lookup_insert_ne; [done|]. by intros <-.
Qed.

Lemma hidingTree_foldl d0 ph0 l seen d ph :
  attachedBelow d0 → noneHidden d0 → (∀ img, img ∈ l → img ∈ images d0) →
  hiding d0 ph0 seen d ph → hidingTree d0 seen d ph →
  hidingTree d0 (rev l ++ seen) (foldl hideImage (d, ph) l).1 (foldl hideImage (d, ph) l).2.
Proof.
  intros Hbelow Hnone. revert seen d ph.
  induction l as [|img l IH]; intros seen d ph Hl H HT; [done|].
  change (foldl hideImage (d, ph) (img :: l))
    with (foldl hideImage (hideImage (d, ph) img) l).
  change (rev (img :: l)) with (rev l ++ [img]).
  rewrite <- (assoc app). change ([img] ++ seen) with (img :: seen).
  pose proof (hiding_step d0 ph0 seen d ph img Hbelow Hnone (Hl img ltac:(left)) H) as Hs.
  pose proof (hidingTree_step d0 ph0 seen d ph img Hbelow Hnone (Hl img ltac:(left)) H HT)
    as HTs.
  destruct (hideImage (d, ph) img) as [d1 ph1].
  apply IH; [intros i Hi; apply Hl; by right|done|done].
Qed.

(** *** The tree while the images are shown again *)

Lemma showingTree_step d0 d1 ph1 seen d ph img :
  attachedBelow d0 → img ∈ images d0 →
  (∀ i p, i ∈ images d0 → ph1 !! i = Some p → (nextId d0 ≤ p)%nat) →
  showing d0 d1 ph1 seen d ph → showingTree d0 ph1 seen d →
  showingTree d0 ph1 (img :: seen) (showImage (d, ph) img).1.
Proof.
  intros Hbelow Himg Hfresh [H1 H2 H3 H4] [T1 T2 T3].
  pose proof Himg as [_ Hvis]%elem_of_images.
  destruct (isVisibleImage_img _ _ Hvis) as (x0 & Hx0 & _).
  pose proof (H2 img x0 Himg Hx0) as Hh.
  case_bool_decide as Hseen.
  - rewrite showImage_skip.
    + constructor; simpl; try done.
      intros y (i & Hi & Hnot & Hp)%T3. exists i. split; [done|]. split; [|done].
      rewrite not_elem_of_cons. split; [|done]. by intros ->.
    + unfold hasAttribute, getAttribute, nodeData. rewrite Hh. simpl.
      apply bool_decide_eq_false. rewrite !lookup_delete_ne, lookup_delete_eq by done.
      by intros [? ?].
  - rewrite (showImage_step d ph img x0 Hh). simpl.
    assert (ph !! img = ph1 !! img) as Hph.
    { by rewrite H4, bool_decide_eq_false_2. }
    constructor; cbn [tree].
    + eapply sublist_NoDup; [exact T1|apply preorder_withoutPlaceholder].
    + rewrite prune_withoutPlaceholder; [done|].
      intros p Hp. apply own_false. apply (Hfresh img); [done|]. by rewrite <- Hph.
    + intros y Hy. pose proof Hy as Hy'%extras_withoutPlaceholder.
      destruct (T3 y Hy') as (i & Hi & Hnot & Hp).
      exists i. split; [done|]. split; [|done].
      rewrite not_elem_of_cons. split; [|done]. intros ->.
      apply extras_in_preorder in Hy. revert Hy.
      apply placeholder_removed; [done|by rewrite Hph|].
      assert (rootId (tree d) = rootId (tree d0)) as ->.
      { by rewrite <- T2, rootId_prune. }
      assert (rootId (tree d0) < nextId d0)%nat
        by (apply Hbelow, rootId_in_preorder).
      specialize (Hfresh _ _ Himg Hp). lia.
Qed.

Lemma showingTree_foldl d0 d1 ph1 l seen d ph :
  attachedBelow d0 → (∀ img, img ∈ l → img ∈ images d0) →
  (∀ i p, i ∈ images d0 → ph1 !! i = Some p → (nextId d0 ≤ p)%nat) →
  showing d0 d1 ph1 seen d ph → showingTree d0 ph1 seen d →
  showingTree d0 ph1 (rev l ++ seen) (foldl showImage (d, ph) l).1.
Proof.
  intros Hbelow. revert seen d ph.
  induction l as [|img l IH]; intros seen d ph Hl Hfresh H HT; [done|].
  change (foldl showImage (d, ph) (img :: l))
    with (foldl showImage (showImage (d, ph) img) l).
  change (rev (img :: l)) with (rev l ++ [img]).
  rewrite <- (assoc app). change ([img] ++ seen) with (img :: seen).
  pose proof (showing_step d0 d1 ph1 seen d ph img (Hl img ltac:(left)) H) as Hs.
  pose proof (showingTree_step d0 d1 ph1 seen d ph img Hbelow (Hl img ltac:(left))
                Hfresh H HT) as HTs.
  destruct (showImage (d, ph) img) as [d2 ph2].
  apply IH; [intros i Hi; apply Hl; by right|done|done|done].
Qed.

(** X15. On a page whose tree has every node once and none of whose images
    was hidden: while the images are hidden, the page's own nodes are
    where they were (dropping what was inserted among them, with all
    that is below, gives the tree the page had); and once the images
    are shown again the tree is the one the page had, so every
    placeholder is gone and nothing else has moved. *)
Theorem applyHideImages_keeps_page_tree (d0 : Document) (ph0 : gmap nat nat) :
  allocated d0 → attachedBelow d0 → noneHidden d0 → NoDup (preorder (tree d0)) →
  let h := applyHideImages true (d0, ph0) in
  let r := applyHideImages false h in
  prune (own d0) (tree h.1) = tree d0 ∧ tree r.1 = tree d0.
Proof.
  intros Ha Hbelow Hnone Hnd.
  destruct (hidden_images_spec d0 ph0 Ha Hbelow Hnone)
    as (Himg & Hother & Hph & Hsame).
  pose proof (hiding_foldl d0 ph0 (images d0) [] d0 ph0 Hbelow Hnone
                (λ _ H, H) (hiding_start d0 ph0 Ha)) as Hh.
  pose proof (hidingTree_foldl d0 ph0 (images d0) [] d0 ph0 Hbelow Hnone
                (λ _ H, H) (hiding_start d0 ph0 Ha) (hidingTree_start d0 ph0 Hbelow Hnd))
    as HT.
  clear Hh. rewrite app_nil_r in HT.
  change (foldl hideImage (d0, ph0) (images d0)) with (applyHideImages true (d0, ph0)) in HT.
  cbv zeta in *.
  destruct (applyHideImages true (d0, ph0)) as [d1 ph1]. cbn [fst snd] in *.
  destruct HT as [T1 T2 T3 T4].
  split; [done|].
  assert (∀ i p, i ∈ images d0 → ph1 !! i = Some p → (nextId d0 ≤ p)%nat) as Hfresh.
  { intros i p Hi Hp. destruct (Himg i Hi) as (x0 & q & _ & _ & Hq & Hge & _). congruence. }
  assert (showing d0 d1 ph1 [] d1 ph1) as Hstart.
  { constructor; try done.
    intros n x0 Hn Hx0. destruct (Himg n Hn) as (y & p & Hy & Hhid & _).
    rewrite Hx0 in Hy. injection Hy as <-. done. }
  assert (showingTree d0 ph1 [] d1) as HTstart.
  { constructor; try done.
    intros y (i & Hi & Hp)%T4. exists i. split; [|split; [by intros ?%elem_of_nil|done]].
    rewrite list_elem_of_In in *. by apply in_rev. }
  pose proof (showingTree_foldl d0 d1 ph1 (images d1) [] d1 ph1 Hbelow
                (λ i, proj1 (Hsame i)) Hfresh Hstart HTstart) as Hs.
  rewrite app_nil_r in Hs.
  change (foldl showImage (d1, ph1) (images d1)) with (applyHideImages false (d1, ph1)) in Hs.
  destruct (applyHideImages false (d1, ph1)) as [d ph]. cbn [fst snd] in *.
  destruct Hs as [S1 S2 S3].
  rewrite <- S2. symmetry. apply prune_id.
  intros y (i & Hi & Hnot & _)%S3. apply Hnot.
  apply Hsame in Hi. rewrite list_elem_of_In in *. by apply in_rev in Hi.
Qed.

Lemma applyHideImages_keeps_page_tree_witness :
  let h := applyHideImages true (imageDocument, ∅) in
  let r := applyHideImages false h in
  prune (own imageDocument) (tree h.1) = tree imageDocument
  ∧ tree r.1 = tree imageDocument.
Proof.
  destruct wellFormed_imageDocument as (Ha & Hb & Hn).
  apply (applyHideImages_keeps_page_tree imageDocument ∅ Ha Hb Hn).
  apply (bool_decide_unpack _). vm_compute. reflexivity.
Defined.

End HideTreeFacts.

(** ** The contrast after a reset *)

Module ResetContrastFacts.
Import Dom Browser ScreenReaderUtils AccessibilityPanel Session Fixtures HideSpec.
Import ContrastSpec ResetSpec Persistence Reset.
Import DomFacts TreeFacts IdFacts AnnouncerFacts ShapeFacts PanelFacts ContrastFacts.
Import PersistenceFacts ResetFacts HideFacts.

(** *** Documents that differ in inline styles only *)

Lemma styleOnly_refl d : styleOnly d d.
Proof. by constructor. Qed.

Lemma styleOnly_trans d1 d2 d3 : styleOnly d1 d2 → styleOnly d2 d3 → styleOnly d1 d3.
Proof.
  intros [A1 A2 A3 A4 A5] [B1 B2 B3 B4 B5].
  constructor; try congruence; intros n; by rewrite B5, A5.
Qed.

Lemma styleOnly_setStyle n p v d : styleOnly d (setStyle n p v d).
Proof.
  constructor; try done. intros m. unfold setStyle. simpl.
  destruct (decide (n = m)) as [->|Hne].
  - rewrite lookup_alter_eq. by destruct (heap d !! m).
  - by rewrite lookup_alter_ne.
Qed.

Lemma styleOnly_node d d' n :
  styleOnly d d' →
  match heap d' !! n, heap d !! n with
  | Some y, Some x => nodeName y = nodeName x ∧ attributes y = attributes x ∧ data y = data x
  | None, None => True
  | _, _ => False
  end.
Proof.
  intros [_ _ _ _ H]. specialize (H n).
  destruct (heap d' !! n) as [y|], (heap d !! n) as [x|]; simpl in H; try done.
  injection H as H1 H2 H3. done.
Qed.

Lemma styleOnly_getAttribute d d' n a :
  styleOnly d d' → getAttribute d' n a = getAttribute d n a.
Proof.
  intros H%(styleOnly_node _ _ n). unfold getAttribute, nodeData.
  destruct (heap d' !! n) as [y|], (heap d !! n) as [x|]; simpl; try done.
  destruct H as (_ & -> & _). done.
Qed.

Lemma styleOnly_isElement d d' n : styleOnly d d' → isElement d' n = isElement d n.
Proof.
  intros H%(styleOnly_node _ _ n). unfold isElement, nodeData.
  destruct (heap d' !! n) as [y|], (heap d !! n) as [x|]; simpl; try done.
  destruct H as (-> & _). done.
Qed.

Lemma styleOnly_tagOf d d' n : styleOnly d d' → tagOf d' n = tagOf d n.
Proof.
  intros H%(styleOnly_node _ _ n). unfold tagOf, nodeData.
  destruct (heap d' !! n) as [y|], (heap d !! n) as [x|]; simpl; try done.
  destruct H as (-> & _). done.
Qed.

Lemma styleOnly_hasId d d' i n : styleOnly d d' → hasId d' i n = hasId d i n.
Proof.
  intros H. unfold hasId.
  by rewrite (styleOnly_isElement d d'), (styleOnly_getAttribute d d').
Qed.

Lemma find_ext {A} (f g : A → bool) (l : list A) :
  (∀ x, f x = g x) → List.find f l = List.find g l.
Proof. intros H. induction l as [|x l IH]; simpl; [done|]. by rewrite H, IH. Qed.

Lemma styleOnly_getElementById d d' i :
  styleOnly d d' → getElementById d' i = getElementById d i.
Proof.
  intros H. unfold getElementById. rewrite (so_tree _ _ H).
  destruct (Str.truthy i); [|done]. apply find_ext. intros n. by apply styleOnly_hasId.
Qed.

Lemma styleOnly_styleElements d d' : styleOnly d d' → styleElements d' = styleElements d.
Proof.
  intros H. apply styleElements_ext; [apply H|]. intros n _. by apply styleOnly_hasId.
Qed.

Lemma styleOnly_textOf d d' t : styleOnly d d' → textOf (heap d') t = textOf (heap d) t.
Proof.
  intros H. induction t as [n ks IH] using Tree_ind'. simpl.
  assert (map (textOf (heap d')) ks = map (textOf (heap d)) ks) as ->.
  { induction ks as [|k ks IHks]; [done|].
    apply Forall_cons in IH as [IHk IH]. simpl. by rewrite IHk, IHks. }
  pose proof (styleOnly_node _ _ n H) as Hn.
  destruct (heap d' !! n) as [y|], (heap d !! n) as [x|]; try done.
  destruct Hn as (-> & _ & ->). done.
Qed.

Lemma styleOnly_textContent d d' n : styleOnly d d' → textContent d' n = textContent d n.
Proof.
  intros H. unfold textContent. rewrite (so_tree _ _ H).
  destruct (subtree n (tree d)); [|done]. by apply styleOnly_textOf.
Qed.

Lemma styleOnly_wellFormed d d' : wellFormed d → styleOnly d d' → wellFormed d'.
Proof.
  intros [W1 W2 W3 W4 W5 W6 W7] H.
  pose proof (so_tree _ _ H) as Ht.
  constructor.
  - by rewrite Ht.
  - intros x. rewrite Ht, (so_next _ _ H). apply W2.
  - unfold documentElement. rewrite Ht.
    pose proof (styleOnly_node _ _ (rootId (tree d)) H) as Hn.
    unfold documentElement in W3.
    destruct (heap d' !! rootId (tree d)), (heap d !! rootId (tree d)); try done.
  - by rewrite Ht, (so_head _ _ H).
  - unfold documentElement. rewrite Ht, (styleOnly_hasId d d') by done. exact W5.
  - rewrite (so_head _ _ H), (styleOnly_hasId d d') by done. exact W6.
  - by rewrite (styleOnly_styleElements d d').
Qed.

Lemma styleOnly_shows level d d' : shows level d → styleOnly d d' → shows level d'.
Proof.
  intros Hs H. unfold shows in *. unfold documentElement in *.
  rewrite (so_tree _ _ H), (styleOnly_getAttribute d d'),
    (styleOnly_styleElements d d'), (styleOnly_getElementById d d') by done.
  destruct (String.eqb level "default"); [done|].
  destruct Hs as (Ha & e & H1 & H2 & H3 & H4).
  split; [done|]. exists e.
  rewrite (styleOnly_tagOf d d'), (styleOnly_textContent d d') by done. done.
Qed.

Lemma styleOnly_isVisibleImage d d' x :
  styleOnly d d' → isVisibleImage d' x = isVisibleImage d x.
Proof.
  intros H. unfold isVisibleImage, matchesCompound. simpl.
  by rewrite (styleOnly_isElement d d'), (styleOnly_tagOf d d'),
    (styleOnly_getAttribute d d').
Qed.

Lemma styleOnly_noneHidden d d' : noneHidden d → styleOnly d d' → noneHidden d'.
Proof.
  intros Hn H img [Hin Hvis]%elem_of_images.
  rewrite (so_tree _ _ H) in Hin. rewrite (styleOnly_isVisibleImage d d') in Hvis by done.
  unfold hasAttribute. rewrite (styleOnly_getAttribute d d') by done.
  apply Hn. apply elem_of_images. done.
Qed.

Lemma styleOnly_classListContains d d' n c :
  styleOnly d d' → classListContains d' n c = classListContains d n c.
Proof.
  intros H. unfold classListContains, classList, attr.
  by rewrite (styleOnly_getAttribute d d').
Qed.

Lemma styleOnly_untouched d d' : untouched d → styleOnly d d' → untouched d'.
Proof.
  intros [U1 U2 U3 U4 U5 U6] H. constructor.
  - by eapply styleOnly_wellFormed.
  - by rewrite (so_tree _ _ H), (so_body _ _ H).
  - by rewrite (so_body _ _ H), (styleOnly_classListContains d d').
  - by eapply styleOnly_noneHidden.
  - by rewrite (styleOnly_getElementById d d').
  - by rewrite (styleOnly_getElementById d d').
Qed.

(** *** What [applyContrast] leaves alone *)

Lemma withoutStyle_frame d :
  heap (withoutStyle d) = heap d ∧ nextId (withoutStyle d) = nextId d
  ∧ body (withoutStyle d) = body d
  ∧ ∀ y, y ∈ preorder (tree (withoutStyle d)) → y ∈ preorder (tree d).
Proof.
  unfold withoutStyle. destruct (getElementById d contrastStyleId) as [e|]; [|done].
  destruct (parentNode d e) as [p|]; [|done].
  repeat split; try done. simpl. intros y Hy.
  eapply elem_of_sublist; [exact Hy|]. apply preorder_removeChild_sublist.
Qed.

Lemma applyContrast_unfold level d :
  applyContrast level d
  = let d1 := withoutStyle d in
    let d4 := appendChild (head d1) (T (nextId d1) [])
                (setAttribute (nextId d1) "id" contrastStyleId
                   (createElement "style" d1).2) in
    let d5 := setAttribute (documentElement d4) "data-contrast" level d4 in
    if String.eqb level "default"
    then removeAttribute (documentElement d1) "data-contrast" d1
    else match contrastStyleSheet level with
         | Some css => setTextContent (nextId d1) css d5
         | None => d5
         end.
Proof. reflexivity. Qed.

Lemma elem_of_append_inv p new t y :
  y ∈ preorder (updateKids p (λ ks, ks ++ [new]) t) → y ∈ preorder new ∨ y ∈ preorder t.
Proof.
  apply elem_of_updateKids_inv. intros ks z. rewrite nodes_app, elem_of_app.
  unfold nodes at 2. simpl. rewrite app_nil_r. tauto.
Qed.

Lemma elem_of_removeAll_inv p t y :
  y ∈ preorder (updateKids p (λ _, []) t) → y ∈ preorder t.
Proof.
  intros Hy. eapply elem_of_sublist; [exact Hy|]. apply preorder_removeAll_sublist.
Qed.

Lemma styled_heap_old (h : gmap nat NodeData) root n level x m a :
  m ≠ n → a ≠ "data-contrast" →
  let h5 := alter (withAttributes (insert "data-contrast" level)) root
              (alter (withAttributes (insert "id" contrastStyleId)) n (<[n := x]> h)) in
  (h5 !! m ≫= λ y, attributes y !! a) = (h !! m ≫= λ y, attributes y !! a)
  ∧ nodeName <$> h5 !! m = nodeName <$> h !! m.
Proof.
  intros Hm Ha. cbv zeta. destruct (decide (root = m)) as [->|Hne].
  - rewrite lookup_alter_eq, lookup_alter_ne, lookup_insert_ne by done.
    destruct (h !! m); simpl; [|done]. by rewrite lookup_insert_ne.
  - by rewrite lookup_alter_ne, lookup_alter_ne, lookup_insert_ne.
Qed.

Lemma styled_heap_new (h : gmap nat NodeData) root n level x :
  let h5 := alter (withAttributes (insert "data-contrast" level)) root
              (alter (withAttributes (insert "id" contrastStyleId)) n (<[n := x]> h)) in
  (h5 !! n ≫= λ y, attributes y !! "id") = Some contrastStyleId.
Proof.
  cbv zeta. destruct (decide (root = n)) as [->|Hne].
  - rewrite !lookup_alter_eq, lookup_insert_eq. simpl.
    by rewrite lookup_insert_ne, lookup_insert_eq.
  - rewrite lookup_alter_ne, lookup_alter_eq, lookup_insert_eq by done. simpl.
    by rewrite lookup_insert_eq.
Qed.

Lemma isElement_nodeName d d' n :
  nodeName <$> heap d' !! n = nodeName <$> heap d !! n → isElement d' n = isElement d n.
Proof.
  unfold isElement, nodeData. destruct (heap d' !! n), (heap d !! n); simpl; try done.
  by intros [= ->].
Qed.

(** The nodes the page had keep their kind and their attributes, the
    [data-contrast] attribute aside; an element attached afterwards was
    attached before, or is the new style element. *)
Lemma applyContrast_frame level d :
  let d' := applyContrast level d in
  body d' = body d
  ∧ (∀ n a, (n < nextId d)%nat → a ≠ "data-contrast" →
            getAttribute d' n a = getAttribute d n a)
  ∧ (∀ n, (n < nextId d)%nat → isElement d' n = isElement d n)
  ∧ (∀ y, y ∈ preorder (tree d') →
          y ∈ preorder (tree d) ∨ ∀ i, hasId d' i y = true → i = contrastStyleId).
Proof.
  cbv zeta. rewrite applyContrast_unfold. cbv zeta.
  destruct (withoutStyle_frame d) as (Hh & Hn & Hb & Hsub).
  rewrite <- Hn, <- Hb.
  assert (∀ n a, getAttribute d n a = getAttribute (withoutStyle d) n a) as Hga
    by (intros; unfold getAttribute, nodeData; by rewrite Hh).
  assert (∀ n, isElement d n = isElement (withoutStyle d) n) as Hie
    by (intros; unfold isElement, nodeData; by rewrite Hh).
  assert (∀ y (P : Prop), (y ∈ preorder (tree (withoutStyle d)) ∨ P) →
                          y ∈ preorder (tree d) ∨ P) as Hin.
  { intros y P [?|?]; auto. }
  setoid_rewrite Hga. setoid_rewrite Hie.
  revert Hin. generalize (preorder (tree d)). intros old Hin.
  clear Hh Hn Hb Hsub Hga Hie.
  destruct (withoutStyle d) as [t h hd bd n].
  destruct (String.eqb level "default").
  { unfold documentElement, removeAttribute. simpl.
    split; [done|]. split; [|split].
    - intros m a Hm Ha. unfold getAttribute, nodeData. simpl.
      destruct (decide (rootId t = m)) as [->|Hne].
      + rewrite lookup_alter_eq. destruct (h !! m); simpl; [|done].
        by rewrite lookup_delete_ne.
      + by rewrite lookup_alter_ne.
    - intros m Hm. apply isElement_nodeName. simpl.
      destruct (decide (rootId t = m)) as [->|Hne].
      + rewrite lookup_alter_eq. by destruct (h !! m).
      + by rewrite lookup_alter_ne.
    - intros y Hy. apply Hin. by left. }
  set (d5 := setAttribute _ "data-contrast" level _).
  assert (heap d5 = alter (withAttributes (insert "data-contrast" level)) (rootId t)
                      (alter (withAttributes (insert "id" contrastStyleId)) n
                         (<[n := newElement "style"]> h))) as Hh5.
  { unfold d5, documentElement, setAttribute, appendChild, createElement. simpl.
    by rewrite rootId_updateKids. }
  assert (tree d5 = updateKids hd (λ ks, ks ++ [T n []]) t) as Ht5 by done.
  assert (body d5 = bd ∧ nextId d5 = S n) as [Hb5 Hn5] by done.
  clearbody d5. simpl.
  assert (∀ m a, (m < n)%nat → a ≠ "data-contrast" →
                 getAttribute d5 m a = (h !! m ≫= λ x, attributes x !! a)) as Hold.
  { intros m a Hm Ha. unfold getAttribute, nodeData. rewrite Hh5.
    apply styled_heap_old; [lia|done]. }
  assert (∀ m, (m < n)%nat → nodeName <$> heap d5 !! m = nodeName <$> h !! m) as Hname.
  { intros m Hm. rewrite Hh5.
    apply (styled_heap_old h (rootId t) n level (newElement "style") m "id"); [lia|done]. }
  assert (∀ i, hasId d5 i n = true → i = contrastStyleId) as Hnew.
  { intros i [_ Hi%bool_decide_eq_true]%andb_prop.
    unfold getAttribute, nodeData in Hi. rewrite Hh5, styled_heap_new in Hi. congruence. }
  assert (∀ y, y ∈ preorder (tree d5) → y ∈ preorder t ∨ y = n) as Htree.
  { intros y. rewrite Ht5. intros [Hy|Hy]%elem_of_append_inv; [|by left].
    change (preorder (T n [])) with [n] in Hy. apply list_elem_of_singleton in Hy. by right. }
  destruct (contrastStyleSheet level) as [css|].
  - unfold setTextContent. destruct (Str.truthy css).
    + unfold createTextNode, appendChild, removeAllChildren. simpl. rewrite Hn5, Hb5.
      split; [done|]. split; [|split].
      * intros m a Hm Ha. unfold getAttribute, nodeData. simpl.
        rewrite lookup_insert_ne by lia. by apply Hold.
      * intros m Hm. apply isElement_nodeName. simpl.
        rewrite lookup_insert_ne by lia. by apply Hname.
      * intros y [Hy|Hy]%elem_of_append_inv.
        { change (preorder (T (S n) [])) with [S n] in Hy.
          apply list_elem_of_singleton in Hy as ->. right. intros i.
          unfold hasId, isElement, nodeData. simpl. by rewrite lookup_insert_eq. }
        apply elem_of_removeAll_inv, Htree in Hy as [Hy| ->].
        { apply Hin. by left. }
        right. intros i Hi. apply Hnew.
        unfold hasId, isElement, getAttribute, nodeData in *. simpl in Hi.
        by rewrite lookup_insert_ne in Hi by lia.
    + unfold removeAllChildren. simpl. rewrite Hb5.
      split; [done|]. split; [|split].
      * intros m a Hm Ha. by apply Hold.
      * intros m Hm. apply isElement_nodeName. by apply Hname.
      * intros y Hy. apply elem_of_removeAll_inv, Htree in Hy as [Hy| ->].
        { apply Hin. by left. }
        right. apply Hnew.
  - rewrite Hb5. split; [done|]. split; [|split].
    + intros m a Hm Ha. by apply Hold.
    + intros m Hm. apply isElement_nodeName. by apply Hname.
    + intros y [Hy| ->]%Htree.
      { apply Hin. by left. }
      right. apply Hnew.
Qed.

Lemma getElementById_none d i :
  (∀ y, y ∈ preorder (tree d) → hasId d i y = false) → getElementById d i = None.
Proof.
  intros H. unfold getElementById. destruct (Str.truthy i); [|done].
  destruct (find (hasId d i) (preorder (tree d))) as [y|] eqn:Hf; [|done].
  apply find_some in Hf as [Hin Hy]. rewrite H in Hy; [done|]. by apply list_elem_of_In.
Qed.

(** An id that no attached element carries is still free after
    [applyContrast], unless it is the id of the contrast style sheet. *)
Lemma applyContrast_none level d i :
  attachedBelow d → Str.truthy i = true → i ≠ contrastStyleId →
  getElementById d i = None → getElementById (applyContrast level d) i = None.
Proof.
  intros Hbelow Hi Hne Hnone.
  destruct (applyContrast_frame level d) as (_ & Hattr & Hel & Htree). cbv zeta in *.
  apply getElementById_none. intros y Hy.
  destruct (hasId (applyContrast level d) i y) eqn:Hid; [|done]. exfalso.
  destruct (Htree y Hy) as [Hold|Hnew]; [|by apply Hne, Hnew].
  apply (getElementById_None d i Hnone Hi y Hold). apply hasId_spec.
  pose proof (Hbelow y Hold) as Hlt.
  unfold hasId in *. rewrite Hel, Hattr in Hid by done. done.
Qed.

(** The body's class survives [applyContrast]. *)
Lemma applyContrast_class level d c :
  attachedBelow d → body d ∈ preorder (tree d) →
  classListContains (applyContrast level d) (body (applyContrast level d)) c
  = classListContains d (body d) c.
Proof.
  intros Hbelow Hbody.
  destruct (applyContrast_frame level d) as (Hb & Hattr & _). cbv zeta in *.
  unfold classListContains, classList, attr. rewrite Hb, Hattr; [done| |done].
  by apply Hbelow.
Qed.

(** *** The document through the handler *)

Lemma doc_onDoc {Store} f (c : Component Store) :
  doc (engine (onDoc f c)) = f (doc (engine c)).
Proof. by destruct c as [p [[] v] st]. Qed.

Lemma doc_hideImagesIn {Store} b (c : Component Store) :
  doc (engine (hideImagesIn b c))
  = (applyHideImages b (doc (engine c), imagePlaceholdersRef (panel c))).1.
Proof. unfold hideImagesIn. cbv zeta. by destruct c as [p [[] v] st]. Qed.

Lemma doc_onEngine_vars {Store} (g : Vars → Vars) (c : Component Store) :
  doc (engine (onEngine (λ s, mkSt (page s) (g (vars s))) c)) = doc (engine c).
Proof. by destruct c as [p [pg v] st]. Qed.

Lemma applyHighlight_absent i css d :
  getElementById d i = None → applyHighlight i css false d = d.
Proof. intros H. unfold applyHighlight. by rewrite H. Qed.

Lemma styleOnly_resetDocument d : styleOnly d (resetDocument d).
Proof.
  unfold resetDocument. cbv zeta.
  repeat (eapply styleOnly_trans; [|apply styleOnly_setStyle]). apply styleOnly_refl.
Qed.

Lemma styleOnly_applyFilters x d : styleOnly d (applyFilters x d).
Proof. apply styleOnly_setStyle. Qed.

Lemma styleOnly_applyFontFamily props x d : styleOnly d (applyFontFamily props x d).
Proof.
  unfold applyFontFamily. cbv zeta.
  eapply styleOnly_trans; [|apply styleOnly_setStyle]. apply styleOnly_setStyle.
Qed.

Lemma styleOnly_setProperty name v d : styleOnly d (setProperty name v d).
Proof. apply styleOnly_setStyle. Qed.

Lemma applies_panel {Store} (c c' : Component Store) :
  panel c' = panel c → applies c' = applies c.
Proof. unfold applies. by intros ->. Qed.

(** The handler's own effects, on a page with nothing applied: the
    neutral styles and the contrast style of level ['low']. *)
Lemma doc_resetEffects (c : Component (gmap string string)) :
  untouched (doc (engine c)) →
  doc (engine (resetEffects c)) = applyContrast "low" (resetDocument (doc (engine c))).
Proof.
  intros Hun.
  pose proof (styleOnly_untouched _ _ Hun (styleOnly_resetDocument (doc (engine c))))
    as [U1 U2 U3 U4 U5 U6].
  unfold resetEffects.
  set (c1 := onDoc resetDocument c).
  assert (doc (engine c1) = resetDocument (doc (engine c))) as H1 by apply doc_onDoc.
  set (c2 := hideImagesIn false c1).
  assert (doc (engine c2) = doc (engine c1)) as H2.
  { unfold c2. rewrite doc_hideImagesIn.
    rewrite applyHideImages_shown; [done|]. by rewrite H1. }
  set (c3 := onDoc (applyHighlightTitles false) c2).
  assert (doc (engine c3) = doc (engine c2)) as H3.
  { unfold c3. rewrite doc_onDoc. apply applyHighlight_absent. by rewrite H2, H1. }
  set (c4 := onDoc (applyHighlightLinks false) c3).
  assert (doc (engine c4) = doc (engine c3)) as H4.
  { unfold c4. rewrite doc_onDoc. apply applyHighlight_absent. by rewrite H3, H2, H1. }
  set (c5 := onDoc (applyContrast "low") c4).
  assert (doc (engine c5) = applyContrast "low" (resetDocument (doc (engine c)))) as H5.
  { unfold c5. by rewrite doc_onDoc, H4, H3, H2, H1. }
  set (c6 := onEngine _ c5).
  assert (doc (engine c6) = doc (engine c5)) as H6
    by apply (doc_onEngine_vars (setUseSpeechSynthesis false)).
  clearbody c1 c2 c3 c4 c5 c6. rewrite H6, H5.
  rewrite applyContrast_class; [|apply U1|done].
  rewrite U3. by rewrite H6, H5.
Qed.

(** *** The spacing variables *)

Lemma truthy_false v : Str.truthy v = false → v = "".
Proof. by destruct v. Qed.

Lemma getStyle_setStyle n p v d m q :
  getStyle (setStyle n p v d) m q
  = if bool_decide (n = m ∧ p = q ∧ is_Some (heap d !! n)) then v else getStyle d m q.
Proof.
  unfold getStyle, setStyle, nodeData. simpl.
  destruct (decide (n = m)) as [->|Hne].
  - rewrite lookup_alter_eq. destruct (heap d !! m) as [x|] eqn:Hx; simpl.
    + destruct (decide (p = q)) as [->|Hpq].
      * rewrite bool_decide_eq_true_2 by (split; [done|split; [done|by eexists]]).
        destruct (Str.truthy v) eqn:Hv.
        -- by rewrite lookup_insert_eq.
        -- rewrite lookup_delete_eq. by rewrite (truthy_false v Hv).
      * rewrite bool_decide_eq_false_2 by (intros (_ & ? & _); done).
        destruct (Str.truthy v); [by rewrite lookup_insert_ne|by rewrite lookup_delete_ne].
    + rewrite bool_decide_eq_false_2; [done|]. intros (_ & _ & [? ?]). done.
  - rewrite lookup_alter_ne by done.
    rewrite bool_decide_eq_false_2; [done|]. by intros (? & _).
Qed.

Lemma rootStyles_setStyle_other a b c n p v d :
  p ≠ "--line-height-scale" → p ≠ "--letter-spacing-scale" → p ≠ "--word-spacing-scale" →
  rootStyles a b c d → rootStyles a b c (setStyle n p v d).
Proof.
  intros H1 H2 H3 [R1 R2 R3 R4].
  constructor; change (documentElement (setStyle n p v d)) with (documentElement d).
  - rewrite getStyle_setStyle, bool_decide_eq_false_2; [done|]. by intros (_ & ? & _).
  - rewrite getStyle_setStyle, bool_decide_eq_false_2; [done|]. by intros (_ & ? & _).
  - rewrite getStyle_setStyle, bool_decide_eq_false_2; [done|]. by intros (_ & ? & _).
  - simpl. by apply heap_alter_is_Some.
Qed.

Lemma rootStyles_lineHeight a b c v d :
  rootStyles a b c d →
  rootStyles v b c (setStyle (documentElement d) "--line-height-scale" v d).
Proof.
  intros [R1 R2 R3 R4].
  constructor; change (documentElement (setStyle ?n ?p ?v d)) with (documentElement d).
  - by rewrite getStyle_setStyle, bool_decide_eq_true_2.
  - rewrite getStyle_setStyle, bool_decide_eq_false_2; [done|]. by intros (_ & ? & _).
  - rewrite getStyle_setStyle, bool_decide_eq_false_2; [done|]. by intros (_ & ? & _).
  - simpl. by apply heap_alter_is_Some.
Qed.

Lemma rootStyles_letterSpacing a b c v d :
  rootStyles a b c d →
  rootStyles a v c (setStyle (documentElement d) "--letter-spacing-scale" v d).
Proof.
  intros [R1 R2 R3 R4].
  constructor; change (documentElement (setStyle ?n ?p ?v d)) with (documentElement d).
  - rewrite getStyle_setStyle, bool_decide_eq_false_2; [done|]. by intros (_ & ? & _).
  - by rewrite getStyle_setStyle, bool_decide_eq_true_2.
  - rewrite getStyle_setStyle, bool_decide_eq_false_2; [done|]. by intros (_ & ? & _).
  - simpl. by apply heap_alter_is_Some.
Qed.

Lemma rootStyles_wordSpacing a b c v d :
  rootStyles a b c d →
  rootStyles a b v (setStyle (documentElement d) "--word-spacing-scale" v d).
Proof.
  intros [R1 R2 R3 R4].
  constructor; change (documentElement (setStyle ?n ?p ?v d)) with (documentElement d).
  - rewrite getStyle_setStyle, bool_decide_eq_false_2; [done|]. by intros (_ & ? & _).
  - rewrite getStyle_setStyle, bool_decide_eq_false_2; [done|]. by intros (_ & ? & _).
  - by rewrite getStyle_setStyle, bool_decide_eq_true_2.
  - simpl. by apply heap_alter_is_Some.
Qed.

Lemma rootStyles_resetDocument a b c d :
  rootStyles a b c d → rootStyles "1.5" "0" "0" (resetDocument d).
Proof.
  intros H. unfold resetDocument. cbv zeta.
  apply rootStyles_setStyle_other; [done..|].
  match goal with
  | |- rootStyles _ _ _ (setStyle (documentElement ?x) _ _ ?x) =>
      apply (rootStyles_wordSpacing "1.5" "0" c "0" x)
  end.
  match goal with
  | |- rootStyles _ _ _ (setStyle (documentElement ?x) _ _ ?x) =>
      apply (rootStyles_letterSpacing "1.5" b c "0" x)
  end.
  match goal with
  | |- rootStyles _ _ _ (setStyle (documentElement ?x) _ _ ?x) =>
      apply (rootStyles_lineHeight a b c "1.5" x)
  end.
  repeat (apply rootStyles_setStyle_other; [done..|]). exact H.
Qed.

Lemma rootStyles_start d : wellFormed d →
  ∃ a b c, rootStyles a b c d.
Proof. intros Hwf. do 3 eexists. constructor; try reflexivity. apply Hwf. Qed.

Section Effects.
Context {Store : Type} (props : Props).

Lemma rootStyles_effect_keeps a b c x f (c0 : Component Store) :
  (∀ d, rootStyles a b c d → rootStyles a b c (f d)) →
  rootStyles a b c (doc (engine c0)) →
  rootStyles a b c (doc (engine (effect x (onDoc f) c0))).
Proof.
  intros Hf H. unfold effect. destruct (x && applies c0); [|done].
  rewrite doc_onDoc. by apply Hf.
Qed.

Lemma styled_effect b f (c : Component Store) :
  (∀ d, styleOnly d (f d)) →
  styleOnly (doc (engine c)) (doc (engine (effect b (onDoc f) c))).
Proof.
  intros Hf. unfold effect. destruct (b && applies c); [|apply styleOnly_refl].
  rewrite doc_onDoc. apply Hf.
Qed.

Lemma doc_effect b f (c : Component Store) :
  doc (engine (effect b (onDoc f) c))
  = if b && applies c then f (doc (engine c)) else doc (engine c).
Proof. unfold effect. destruct (b && applies c); [apply doc_onDoc|done]. Qed.

(** The effects of the state change after a reset, on a page without
    highlight style sheets: inline styles, and the contrast of the new
    state when the level changed and effects apply. *)
Lemma doc_runEffects old (c : Component Store) :
  highlightTitles (current c) = false → highlightLinks (current c) = false →
  wellFormed (doc (engine c)) →
  getElementById (doc (engine c)) "accessibility-highlight-titles-style" = None →
  getElementById (doc (engine c)) "accessibility-highlight-links-style" = None →
  ∃ d6, styleOnly (doc (engine c)) d6
        ∧ doc (engine (runEffects props old c))
          = if differs contrast old (current c) && applies c
            then applyContrast (contrast (current c)) d6 else d6.
Proof.
  intros Hnt Hnl Hwf Ht Hl. unfold runEffects. cbv zeta.
  set (new := current c) in *.
  set (c1 := effect _ (onDoc (applyFilters new)) c).
  assert (styleOnly (doc (engine c)) (doc (engine c1)) ∧ panel c1 = panel c) as [S1 P1].
  { split; [apply styled_effect, styleOnly_applyFilters|apply panel_effect_onDoc]. }
  set (c2 := effect _ (onDoc (applyFontFamily props new)) c1).
  assert (styleOnly (doc (engine c1)) (doc (engine c2)) ∧ panel c2 = panel c1) as [S2 P2].
  { split; [apply styled_effect, styleOnly_applyFontFamily|apply panel_effect_onDoc]. }
  set (c3 := effect _ (onDoc (applyFontScale new)) c2).
  assert (styleOnly (doc (engine c2)) (doc (engine c3)) ∧ panel c3 = panel c2) as [S3 P3].
  { split; [apply styled_effect; intros d; apply styleOnly_setProperty
           |apply panel_effect_onDoc]. }
  set (c4 := effect _ (onDoc (applyLineHeight new)) c3).
  assert (styleOnly (doc (engine c3)) (doc (engine c4)) ∧ panel c4 = panel c3) as [S4 P4].
  { split; [apply styled_effect; intros d; apply styleOnly_setProperty
           |apply panel_effect_onDoc]. }
  set (c5 := effect _ (onDoc (applyLetterSpacing new)) c4).
  assert (styleOnly (doc (engine c4)) (doc (engine c5)) ∧ panel c5 = panel c4) as [S5 P5].
  { split; [apply styled_effect; intros d; apply styleOnly_setProperty
           |apply panel_effect_onDoc]. }
  set (c6 := effect _ (onDoc (applyWordSpacing new)) c5).
  assert (styleOnly (doc (engine c5)) (doc (engine c6)) ∧ panel c6 = panel c5) as [S6 P6].
  { split; [apply styled_effect; intros d; apply styleOnly_setProperty
           |apply panel_effect_onDoc]. }
  assert (styleOnly (doc (engine c)) (doc (engine c6))) as S.
  { repeat (eapply styleOnly_trans; [eassumption|]). apply styleOnly_refl. }
  assert (applies c6 = applies c) as A6.
  { apply applies_panel. congruence. }
  clearbody c1 c2 c3 c4 c5 c6. clear S1 S2 S3 S4 S5 S6 P1 P2 P3 P4 P5 P6.
  set (c7 := effect _ (onDoc (applyContrast (contrast new))) c6).
  assert (doc (engine c7)
          = if differs contrast old new && applies c
            then applyContrast (contrast new) (doc (engine c6)) else doc (engine c6)) as D7.
  { unfold c7. by rewrite doc_effect, A6. }
  assert (panel c7 = panel c6) as P7 by apply panel_effect_onDoc.
  assert (∀ i, Str.truthy i = true → i ≠ contrastStyleId →
               getElementById (doc (engine c)) i = None →
               getElementById (doc (engine c7)) i = None) as Hfree.
  { intros i Hi Hne Hnone. rewrite D7.
    assert (getElementById (doc (engine c6)) i = None) as H6
      by by rewrite (styleOnly_getElementById _ _ i S).
    destruct (_ && _); [|done].
    apply applyContrast_none; try done.
    apply (styleOnly_wellFormed _ _ Hwf S). }
  clearbody c7. rewrite Hnt, Hnl.
  set (c8 := effect _ (onDoc (applyHighlightTitles false)) c7).
  assert (doc (engine c8) = doc (engine c7)) as D8.
  { unfold c8. rewrite doc_effect.
    destruct (differs highlightTitles old new && applies c7); [|reflexivity].
    apply applyHighlight_absent. apply Hfree; [reflexivity|discriminate|exact Ht]. }
  assert (panel c8 = panel c7) as P8 by apply panel_effect_onDoc.
  clearbody c8.
  exists (doc (engine c6)). split; [done|].
  rewrite doc_effect. rewrite <- D7, <- D8.
  destruct (differs highlightLinks old new && applies c8); [|reflexivity].
  apply applyHighlight_absent. rewrite D8.
  apply Hfree; [reflexivity|discriminate|exact Hl].
Qed.

End Effects.

(** X16. On a page on which the panel has nothing applied but inline styles
    and a contrast level, with the screen reader setting off: after
    [handleReset] the contrast setting is ['default'], and the page
    shows the level ['low'] that the handler applies (the [data-contrast]
    attribute and the style sheet of the low level), unless the contrast
    setting was another than ['default'] and effects apply, in which case
    the effect of the state change takes the style away again. *)
Theorem reset_leaves_low_contrast (props : Props) (c : Component (gmap string string)) :
  untouched (doc (engine c)) → screenReader (current c) = false →
  let r := handleReset webRemoval props c in
  contrast (current r) = "default"
  ∧ shows (levelAfterReset c) (doc (engine r)).
Proof.
  intros Hun Hsr. cbv zeta.
  split; [by rewrite (proj1 (handleReset_spec props c))|].
  unfold handleReset. cbv zeta. rewrite Hsr.
  set (old := current c).
  set (c0 := onPanel (setHasUnsavedChanges false) (update (λ _, defaultSettings) c)).
  assert (doc (engine c0) = doc (engine c)) as Hd0 by reflexivity.
  assert (current c0 = defaultSettings) as Hc0 by reflexivity.
  assert (applies c0 = applies c) as Ha0 by reflexivity.
  assert (untouched (doc (engine c0))) as Hun0 by by rewrite Hd0.
  pose proof (doc_resetEffects c0 Hun0) as Hd4. rewrite Hd0 in Hd4.
  destruct (keeps_resetEffects c0) as (_ & Hc4 & _ & Hr1 & Hr2).
  assert (applies (resetEffects c0) = applies c) as Ha4.
  { rewrite <- Ha0. unfold applies. by rewrite Hr1, Hr2. }
  rewrite Hc0 in Hc4. clear Hr1 Hr2 Hun0 Hd0 Hc0 Ha0.
  generalize dependent (resetEffects c0). intros c4 Hd4 Hc4 Ha4. clear c0.
  unfold removeAll. rewrite removeAll_foldl. cbv beta iota.
  unfold announceChange.
  set (c5 := mkComponent (panel c4) (engine c4) _).
  assert (doc (engine c5) = doc (engine c4)) as Hd5 by reflexivity.
  assert (current c5 = defaultSettings) as Hc5 by exact Hc4.
  assert (applies c5 = applies c) as Ha5 by exact Ha4.
  clearbody c5.
  pose proof (styleOnly_resetDocument (doc (engine c))) as Hso.
  pose proof (styleOnly_untouched _ _ Hun Hso) as [U1 U2 U3 U4 U5 U6].
  destruct (applyContrast_step "low" _ U1) as [Hwf Hlow].
  rewrite <- Hd4, <- Hd5 in Hwf, Hlow.
  destruct (doc_runEffects props old c5) as (d6 & Hs6 & ->).
  - by rewrite Hc5.
  - by rewrite Hc5.
  - done.
  - rewrite Hd5, Hd4. apply applyContrast_none; [apply U1|reflexivity|discriminate|done].
  - rewrite Hd5, Hd4. apply applyContrast_none; [apply U1|reflexivity|discriminate|done].
  - rewrite Hc5, Ha5. unfold levelAfterReset, differs. fold old.
    change (contrast defaultSettings) with "default".
    destruct (bool_decide (contrast old ≠ "default") && applies c).
    + apply applyContrast_step. by eapply styleOnly_wellFormed.
    + by eapply styleOnly_shows.
Qed.

Lemma untouched_emptyDocument : untouched emptyDocument.
Proof.
  constructor.
  - exact wellFormed_emptyDocument.
  - apply (bool_decide_unpack _). by vm_compute.
  - by vm_compute.
  - intros img Himg. change (images emptyDocument) with (@nil NodeId) in Himg.
    by apply elem_of_nil in Himg.
  - by vm_compute.
  - by vm_compute.
Qed.

Lemma reset_leaves_low_contrast_witness :
  let c := mkComponent (initialPanel autoProps) (startOn emptyDocument) ∅ in
  untouched (doc (engine c)) ∧ screenReader (current c) = false
  ∧ contrast (current (handleReset webRemoval autoProps c)) = "default"
  ∧ shows "low" (doc (engine (handleReset webRemoval autoProps c))).
Proof.
  intros c. split; [exact untouched_emptyDocument|]. split; [reflexivity|].
  exact (reset_leaves_low_contrast autoProps c untouched_emptyDocument eq_refl).
Defined.

End ResetContrastFacts.

(** ** The highlight style sheets *)

Module HighlightFacts.
Import Dom Browser ScreenReaderUtils AccessibilityPanel Session Fixtures HideSpec.
Import ContrastSpec HighlightSpec.
Import DomFacts TreeFacts IdFacts AnnouncerFacts ShapeFacts ContrastFacts.
Import HideFacts HideTreeFacts ResetContrastFacts.

(** Rewriting the children of a node that [prune] drops. *)
Lemma prune_updateKids_dropped keep p f t :
  keep p = false → rootId t ≠ p → prune keep (updateKids p f t) = prune keep t.
Proof.
  intros Hp. induction t as [n ks IH] using Tree_ind'. simpl. intros Hn.
  rewrite decide_False by done. rewrite !prune_T. f_equal.
  induction ks as [|k ks IHks]; [done|].
  apply Forall_cons in IH as [IHk IH]. cbn [map].
  rewrite !pruneKids_cons, rootId_updateKids, IHks by done.
  destruct (decide (rootId k = p)) as [->|Hk].
  - by rewrite Hp.
  - by rewrite IHk.
Qed.

Lemma extras_updateKids_dropped keep p f t :
  keep p = false → rootId t ≠ p → extras keep (updateKids p f t) = extras keep t.
Proof.
  intros Hp. induction t as [n ks IH] using Tree_ind'. simpl. intros Hn.
  rewrite decide_False by done. rewrite !extras_T.
  induction ks as [|k ks IHks]; [done|].
  apply Forall_cons in IH as [IHk IH]. cbn [map].
  rewrite !extrasKids_cons, rootId_updateKids, IHks by done.
  destruct (decide (rootId k = p)) as [->|Hk].
  - by rewrite Hp.
  - by rewrite IHk.
Qed.

Lemma only_getElementById d i e :
  Str.truthy i = true → only d i e → getElementById d i = Some e.
Proof. intros Hi (H1 & H2 & H3). by apply getElementById_unique. Qed.

(** Writing the text of the one element that carries an id. *)
Lemma setTextContent_only d i e css :
  Str.truthy css = true → NoDup (preorder (tree d)) → attachedBelow d → only d i e →
  let d' := setTextContent e css d in
  NoDup (preorder (tree d')) ∧ attachedBelow d' ∧ only d' i e
  ∧ textContent d' e = css ∧ tagOf d' e = tagOf d e
  ∧ head d' = head d ∧ nextId d' = S (nextId d)
  ∧ heap d' = <[nextId d := newText css]> (heap d)
  ∧ tree d' = updateKids e (λ ks, ks ++ [T (nextId d) []]) (updateKids e (λ _, []) (tree d)).
Proof.
  intros Hcss Hnd Hbelow (He & Hid & Huniq). cbv zeta.
  destruct (setTextContent_spec e css d Hcss Hnd Hbelow He)
    as (Hh & Hn & Hhd & Hr & Hs & (l & Hperm & Hsub & Hel) & _).
  assert (∀ m, m ∈ preorder (tree d) → heap (setTextContent e css d) !! m = heap d !! m)
    as Hold.
  { intros m Hm%Hbelow. rewrite Hh, lookup_insert_ne; [done|lia]. }
  assert (∀ m, m ∈ l → m ∈ preorder (tree d)) as Hl.
  { intros m Hm. by eapply elem_of_sublist. }
  split; [|split; [|split; [|split; [|split; [|split; [|split; [|split]]]]]]]; try done.
  - rewrite Hperm. constructor.
    + intros Hin%Hl%Hbelow. lia.
    + by eapply sublist_NoDup.
  - intros x. rewrite Hperm, Hn, elem_of_cons. intros [->|Hx%Hl%Hbelow]; lia.
  - split; [|split].
    + rewrite Hperm. by right.
    + destruct Hid as (x & Hx & Hn' & Hi). exists x. by rewrite Hold.
    + intros m Hm (x & Hx & Hn' & Hi). rewrite Hperm in Hm.
      apply elem_of_cons in Hm as [->|Hm].
      * rewrite Hh, lookup_insert_eq in Hx. injection Hx as <-. done.
      * apply Huniq; [by apply Hl|]. exists x. by rewrite <- Hold by by apply Hl.
  - destruct Hid as (x & Hx & Hn' & Hi).
    apply (textContent_single _ e (nextId d) css x); [done| |done|].
    + by rewrite Hold.
    + by rewrite Hh, lookup_insert_eq.
  - unfold tagOf, nodeData. by rewrite Hold.
  - unfold setTextContent. by rewrite Hcss.
Qed.

Lemma applyHighlight_new i css d :
  getElementById d i = None →
  applyHighlight i css true d
  = setTextContent (nextId d) css
      (appendChild (head d) (T (nextId d) [])
         (setAttribute (nextId d) "id" i (createElement "style" d).2)).
Proof. intros H. unfold applyHighlight. by rewrite H. Qed.

(** The new style element in the head, before its text is written. *)
Lemma styleElement_added i d :
  Str.truthy i = true → NoDup (preorder (tree d)) → attachedBelow d →
  head d ∈ preorder (tree d) → getElementById d i = None →
  let e := nextId d in
  let d3 := appendChild (head d) (T e []) (setAttribute e "id" i (createElement "style" d).2) in
  NoDup (preorder (tree d3)) ∧ attachedBelow d3 ∧ only d3 i e ∧ tagOf d3 e = "style".
Proof.
  intros Hi Hnd Hbelow Hhead Hnone. cbv zeta.
  destruct d as [t h hd bd n]. unfold appendChild, setAttribute, createElement. simpl in *.
  assert (n ∉ preorder t) as Hn by (intros H%Hbelow; simpl in H; lia).
  assert (preorder (updateKids hd (λ ks, ks ++ [T n []]) t) ≡ₚ n :: preorder t) as Hperm
    by by rewrite preorder_append.
  split; [|split; [|split; [split; [|split]|]]].
  - simpl. rewrite Hperm. by constructor.
  - intros x. simpl. rewrite Hperm, elem_of_cons. intros [->|Hx%Hbelow]; simpl in *; lia.
  - simpl. by apply elem_of_append_leaf.
  - eexists. simpl. rewrite lookup_alter_eq, lookup_insert_eq. simpl.
    split; [done|]. split; [done|]. simpl. by rewrite lookup_insert_eq.
  - simpl. intros m Hm (x & Hx & Hel & Hid). rewrite Hperm in Hm.
    apply elem_of_cons in Hm as [->|Hm]; [done|]. exfalso.
    apply (getElementById_None _ i Hnone Hi m Hm).
    exists x. simpl in *. split; [|done].
    rewrite lookup_alter_ne, lookup_insert_ne in Hx; [done| |]; intros ->; done.
  - unfold tagOf, nodeData. simpl. by rewrite lookup_alter_eq, lookup_insert_eq.
Qed.

(** X17. Switching a highlight on, on a page without repeated nodes where no
    attached element carries the id of its style sheet: afterwards
    exactly one attached element carries the id, a [style] element whose
    text is the rules; switching it on once more keeps that element and
    its text, and adds no second one; switching it off leaves no element
    with the id, gives the page the tree it had before, and has left the
    nodes the page had as they were. *)
Theorem highlight_on_off (i css : string) (d : Document) :
  Str.truthy i = true → Str.truthy css = true →
  NoDup (preorder (tree d)) → attachedBelow d → head d ∈ preorder (tree d) →
  getElementById d i = None →
  let on := applyHighlight i css true d in
  let again := applyHighlight i css true on in
  let off := applyHighlight i css false on in
  (∃ e, only on i e ∧ tagOf on e = "style" ∧ textContent on e = css
        ∧ only again i e ∧ tagOf again e = "style" ∧ textContent again e = css)
  ∧ getElementById off i = None
  ∧ tree off = tree d
  ∧ (∀ n, (n < nextId d)%nat → heap off !! n = heap d !! n).
Proof.
  intros Hi Hcss Hnd Hbelow Hhead Hnone. cbv zeta.
  rewrite (applyHighlight_new i css d Hnone).
  destruct (styleElement_added i d Hi Hnd Hbelow Hhead Hnone) as (Hnd3 & Hbelow3 & Honly3 & Htag3).
  cbv zeta in *.
  set (e := nextId d) in *.
  set (d3 := appendChild (head d) (T e []) _) in *.
  assert (tree d3 = updateKids (head d) (λ ks, ks ++ [T e []]) (tree d)) as Ht3 by done.
  assert (nextId d3 = S e) as Hn3 by done.
  assert (∀ n, (n < e)%nat → heap d3 !! n = heap d !! n) as Hh3.
  { intros n Hn. unfold d3, appendChild, setAttribute, createElement. simpl.
    rewrite lookup_alter_ne, lookup_insert_ne; [done| |]; fold e; lia. }
  clearbody d3.
  destruct (setTextContent_only d3 i e css Hcss Hnd3 Hbelow3 Honly3)
    as (Hnd4 & Hbelow4 & Honly4 & Htext4 & Htag4 & Hhd4 & Hn4 & Hh4 & Ht4).
  cbv zeta in *.
  set (on := setTextContent e css d3) in *. clearbody on.
  pose proof (only_getElementById on i e Hi Honly4) as Hget.
  assert (applyHighlight i css true on = setTextContent e css on) as ->.
  { unfold applyHighlight. by rewrite Hget. }
  destruct (setTextContent_only on i e css Hcss Hnd4 Hbelow4 Honly4)
    as (_ & _ & Honly5 & Htext5 & Htag5 & _).
  cbv zeta in *.
  split.
  { exists e. repeat split; try done; try apply Honly4; try apply Honly5; congruence. }
  assert (rootId (tree on) = rootId (tree d)) as Hroot.
  { by rewrite Ht4, Ht3, !rootId_updateKids. }
  assert (rootId (tree d) < e)%nat as Hlt by apply Hbelow, rootId_in_preorder.
  destruct Honly4 as (He & Hid & Huniq).
  destruct (parentOf_is_Some e (tree on) He ltac:(rewrite Hroot; lia)) as [p Hp].
  assert (applyHighlight i css false on = removeChild p e on) as ->.
  { unfold applyHighlight, parentNode. by rewrite Hget, Hp. }
  pose proof (notin_removeChild e p (tree on) Hnd4 Hp) as Hgone.
  change (updateKids p (removeIn e) (tree on)) with (tree (removeChild p e on)) in Hgone.
  assert (own d e = false) as Hown by (apply own_false; unfold e; lia).
  assert (∀ y, y ∉ extras (own d) (tree d)) as Hnoextras.
  { apply extras_none. intros y Hy. apply bool_decide_eq_true. apply Hbelow.
    destruct (tree d) as [n ks]. rewrite preorder_T. by right. }
  assert (rootId (updateKids (head d) (λ ks, ks ++ [T e []]) (tree d)) ≠ e) as Hr1.
  { rewrite rootId_updateKids. lia. }
  assert (rootId (updateKids e (λ _, []) (updateKids (head d) (λ ks, ks ++ [T e []]) (tree d)))
          ≠ e) as Hr2.
  { rewrite !rootId_updateKids. lia. }
  split; [|split].
  - apply getElementById_none. intros y Hy.
    destruct (hasId (removeChild p e on) i y) eqn:Hhas; [|done]. exfalso.
    apply hasId_spec in Hhas.
    assert (y = e) as ->; [|done].
    apply Huniq; [|done].
    eapply elem_of_sublist; [exact Hy|]. apply preorder_removeChild_sublist.
  - assert (prune (own d) (tree (removeChild p e on)) = tree d) as Hprune.
    { simpl. rewrite prune_updateKids by (intros ks; by apply pruneKids_removeIn).
      rewrite Ht4, Ht3.
      rewrite !prune_updateKids_dropped by done.
      rewrite prune_updateKids by (intros ks; by apply pruneKids_append).
      by apply prune_id. }
    rewrite <- Hprune. symmetry. apply prune_id.
    intros y Hy. pose proof (extras_in_preorder _ _ _ Hy) as Hin.
    simpl in Hy. apply (extras_updateKids _ _ _ []) in Hy;
      [|intros ks z; apply extrasKids_removeIn].
    destruct Hy as [[]%elem_of_nil|Hy].
    rewrite Ht4, Ht3 in Hy. rewrite !extras_updateKids_dropped in Hy by done.
    apply (extras_updateKids _ _ _ [e]) in Hy;
      [|intros ks z; by apply (extrasKids_append (own d) (T e []))].
    destruct Hy as [->%list_elem_of_singleton|Hy]; [done|by apply Hnoextras in Hy].
  - intros n Hn. simpl. rewrite Hh4, lookup_insert_ne by lia. apply Hh3. done.
Qed.

Lemma highlight_on_off_witness :
  let on := applyHighlightTitles true emptyDocument in
  let off := applyHighlightTitles false on in
  getElementById emptyDocument "accessibility-highlight-titles-style" = None
  ∧ (∃ e, only on "accessibility-highlight-titles-style" e ∧ tagOf on e = "style")
  ∧ getElementById off "accessibility-highlight-titles-style" = None
  ∧ tree off = tree emptyDocument.
Proof.
  intros on off. split; [reflexivity|].
  destruct (highlight_on_off "accessibility-highlight-titles-style"
              "h1:not([aria-hidden=true]), h2:not([aria-hidden=true]) { /* ... */ }"
              emptyDocument eq_refl eq_refl
              (wf_nodup _ wellFormed_emptyDocument) (wf_below _ wellFormed_emptyDocument))
    as ((e & H1 & H2 & _) & H3 & H4 & _).
  - apply (bool_decide_unpack _). vm_compute. reflexivity.
  - reflexivity.
  - split; [by exists e|]. split; [exact H3|exact H4].
Defined.

End HighlightFacts.
